(** * Transition storage of a hidden class

    A shallow embedding of [src/objects/transitions.cc]: the accessor that
    decides, per map, how its outgoing transitions are stored (nothing, one
    weak pointer, a sorted [TransitionArray]), the sorted array itself with its
    searches and its insertion sort, and the bounded cache of prototype
    transitions.

    C++ [int] values are [Z]; arrays are lists read with [!!] and written with
    [<[_:=_]>], an access outside the backing store being undefined behaviour;
    heap objects that are shared through pointers (transition arrays, weak
    fixed arrays) live in a store and are named by their address; the effects
    of a member function are a state-and-error monad over that store. *)

From stdpp Require Import base decidable numbers option list strings sorting countable.

#[local] Open Scope Z_scope.

(** ** Names and property details *)

(** Unique names: internalized strings and symbols.  The five symbols named
    in [IsSpecialTransition] are roots of the heap. *)
Inductive Name :=
| InternalizedString (s : string)
| OrdinarySymbol (id : N)
| nonextensible_symbol
| sealed_symbol
| frozen_symbol
| elements_transition_symbol
| strict_function_transition_symbol.

#[global] Instance Name_eq_dec : EqDecision Name.
Proof. solve_decision. Defined.

Definition IsSymbol (name : Name) : bool :=
  match name with InternalizedString _ => false | _ => true end.

(** [TransitionsAccessor::IsSpecialTransition]. *)
Definition IsSpecialTransition (name : Name) : bool :=
  if negb (IsSymbol name) then false
  else bool_decide (name = nonextensible_symbol)
       || bool_decide (name = sealed_symbol)
       || bool_decide (name = frozen_symbol)
       || bool_decide (name = elements_transition_symbol)
       || bool_decide (name = strict_function_transition_symbol).

Inductive PropertyKind := kData | kAccessor.

#[global] Instance PropertyKind_eq_dec : EqDecision PropertyKind.
Proof. solve_decision. Defined.

(** Modelled from the spec: the numeric value of a property kind, declared in
    property-details.h; the spec fixes the order "data before accessor". *)
Definition kind_to_int (k : PropertyKind) : Z :=
  match k with kData => 0 | kAccessor => 1 end.

(** Attributes are a bitset, compared as a number. *)
Definition PropertyAttributes := Z.

Definition NONE : PropertyAttributes := 0.

Record PropertyDetails := mkDetails {
  kind : PropertyKind;
  attributes : PropertyAttributes
}.

#[global] Instance PropertyDetails_eq_dec : EqDecision PropertyDetails.
Proof. solve_decision. Defined.

(** Modelled from the spec: [PropertyDetails::Empty], declared in
    property-details.h; [Insert] builds it for a special transition and never
    reads it. *)
Definition PropertyDetails_Empty : PropertyDetails := mkDetails kData NONE.

Definition HasKindAndAttributes (d : PropertyDetails) (k : PropertyKind)
    (a : PropertyAttributes) : bool :=
  bool_decide (kind d = k) && bool_decide (attributes d = a).

(** ** Maps

    A map is opaque here: an identity, the descriptor it added last (the
    [(name, kind, attributes)] of the transition that leads to it) and its
    prototype. *)
Record Map := mkMap {
  map_id : N;
  LastAddedKey : Name;
  LastAddedDetails : PropertyDetails;
  prototype : N
}.

#[global] Instance Map_eq_dec : EqDecision Map.
Proof. solve_decision. Defined.

(** [GetSimpleTransitionKey], [GetSimpleTargetDetails] and [GetTargetDetails]
    are inline functions of transitions-inl.h; they read the last descriptor
    of the target the way [IsMatchingMap] below does. *)
Definition GetSimpleTransitionKey (transition : Map) : Name :=
  LastAddedKey transition.

Definition GetSimpleTargetDetails (transition : Map) : PropertyDetails :=
  LastAddedDetails transition.

Definition GetTargetDetails (name : Name) (target : Map) : PropertyDetails :=
  LastAddedDetails target.

(** [TransitionsAccessor::IsMatchingMap]. *)
Definition IsMatchingMap (target : Map) (name : Name) (k : PropertyKind)
    (a : PropertyAttributes) : bool :=
  let key := LastAddedKey target in
  if negb (bool_decide (key = name)) then false
  else HasKindAndAttributes (LastAddedDetails target) k a.

(** ** Tagged values and heap objects *)

(** A weak fixed array is either the empty array of the read-only roots or
    an array of the store. *)
Inductive WeakFixedArray :=
| empty_weak_fixed_array
| WeakFixedArrayAt (address : nat).

#[global] Instance WeakFixedArray_eq_dec : EqDecision WeakFixedArray.
Proof. solve_decision. Defined.

(** [MaybeObject]: a small integer, a cleared weak reference, a weak
    reference to a map, or a strong reference. *)
Inductive MaybeObject :=
| Smi (value : Z)
| Cleared
| Weak (m : Map)
| StrongUndefined
| StrongMap (m : Map)
| StrongTransitionArray (address : nat)
| StrongPrototypeInfo.

#[global] Instance MaybeObject_eq_dec : EqDecision MaybeObject.
Proof. solve_decision. Defined.

Definition IsCleared (o : MaybeObject) : bool :=
  match o with Cleared => true | _ => false end.

(** One transition of a [TransitionArray]: the key slot (undefined until it is
    written) and the raw target. *)
Record Entry := mkEntry {
  entry_key : option Name;
  entry_target : MaybeObject
}.

#[global] Instance Entry_eq_dec : EqDecision Entry.
Proof. solve_decision. Defined.

Definition undefined_entry : Entry := mkEntry None StrongUndefined.

(** A [TransitionArray]: the slot of the prototype transitions ([None] is
    [Smi::zero()]), the number of transitions, and [Capacity()] entries. *)
Record TransitionArray := mkTransitionArray {
  prototype_transitions : option WeakFixedArray;
  transition_length : Z;
  entries : list Entry
}.

#[global] Instance TransitionArray_eq_dec : EqDecision TransitionArray.
Proof. solve_decision. Defined.

Inductive Encoding :=
| kPrototypeInfo
| kUninitialized
| kMigrationTarget
| kWeakRef
| kFullTransitionArray.

#[global] Instance Encoding_eq_dec : EqDecision Encoding.
Proof. solve_decision. Defined.

Inductive SimpleTransitionFlag :=
| SIMPLE_PROPERTY_TRANSITION
| PROPERTY_TRANSITION
| SPECIAL_TRANSITION.

#[global] Instance SimpleTransitionFlag_eq_dec : EqDecision SimpleTransitionFlag.
Proof. solve_decision. Defined.

(** Modelled from the spec: [TransitionsAccessor::GetEncoding] of
    transitions-inl.h.  The five variants of the storage encoding; a cleared
    weak reference and a small integer are both "no transitions". *)
Definition GetEncoding (raw_transitions : MaybeObject) : Encoding :=
  match raw_transitions with
  | Smi _ | Cleared => kUninitialized
  | Weak _ => kWeakRef
  | StrongTransitionArray _ => kFullTransitionArray
  | StrongPrototypeInfo => kPrototypeInfo
  | StrongMap _ | StrongUndefined => kMigrationTarget
  end.

Definition kNotFound : Z := -1.

(** Modelled from the spec: the prototype cache has one header cell, which
    holds the number of live entries (transitions.h). *)
Definition kProtoTransitionHeaderSize : Z := 1.
Definition kProtoTransitionNumberOfEntriesOffset : Z := 0.

(** ** The store, the origin map and the accessor *)

(** What an operation does besides changing the store.  The guard of
    [full_transition_array_access] is taken and released; an allocation is a
    safepoint. *)
Inductive Event :=
| LockExclusive
| UnlockExclusive
| LockShared
| UnlockShared
| Allocate
| SetBackPointer (target : Map).

#[global] Instance Event_eq_dec : EqDecision Event.
Proof. solve_decision. Defined.

Record State := mkState {
  (* the map whose transitions are accessed: [map_] *)
  map_raw_transitions : MaybeObject;
  is_dictionary_map : bool;
  is_prototype_map : bool;
  is_deprecated : bool;
  (* the store *)
  transition_arrays : list TransitionArray;
  weak_fixed_arrays : list (list MaybeObject);
  (* the environment: what the collector finds dead at each of the coming
     safepoints, and what has been done so far *)
  collections : list (Map → bool);
  trace : list Event;
  (* the fields of the [TransitionsAccessor] *)
  raw_transitions_ : MaybeObject;
  encoding_ : Encoding;
  concurrent_access_ : bool;
  map_handle_is_null : bool
}.

Definition set_map_raw_transitions (v : MaybeObject) (σ : State) : State :=
  mkState v (is_dictionary_map σ) (is_prototype_map σ) (is_deprecated σ)
    (transition_arrays σ) (weak_fixed_arrays σ) (collections σ) (trace σ)
    (raw_transitions_ σ) (encoding_ σ) (concurrent_access_ σ)
    (map_handle_is_null σ).

Definition set_transition_arrays (v : list TransitionArray) (σ : State) : State :=
  mkState (map_raw_transitions σ) (is_dictionary_map σ) (is_prototype_map σ)
    (is_deprecated σ) v (weak_fixed_arrays σ) (collections σ) (trace σ)
    (raw_transitions_ σ) (encoding_ σ) (concurrent_access_ σ)
    (map_handle_is_null σ).

Definition set_weak_fixed_arrays (v : list (list MaybeObject)) (σ : State) : State :=
  mkState (map_raw_transitions σ) (is_dictionary_map σ) (is_prototype_map σ)
    (is_deprecated σ) (transition_arrays σ) v (collections σ) (trace σ)
    (raw_transitions_ σ) (encoding_ σ) (concurrent_access_ σ)
    (map_handle_is_null σ).

Definition set_collections (v : list (Map → bool)) (σ : State) : State :=
  mkState (map_raw_transitions σ) (is_dictionary_map σ) (is_prototype_map σ)
    (is_deprecated σ) (transition_arrays σ) (weak_fixed_arrays σ) v (trace σ)
    (raw_transitions_ σ) (encoding_ σ) (concurrent_access_ σ)
    (map_handle_is_null σ).

Definition set_trace (v : list Event) (σ : State) : State :=
  mkState (map_raw_transitions σ) (is_dictionary_map σ) (is_prototype_map σ)
    (is_deprecated σ) (transition_arrays σ) (weak_fixed_arrays σ)
    (collections σ) v (raw_transitions_ σ) (encoding_ σ)
    (concurrent_access_ σ) (map_handle_is_null σ).

Definition set_accessor (raw : MaybeObject) (e : Encoding) (σ : State) : State :=
  mkState (map_raw_transitions σ) (is_dictionary_map σ) (is_prototype_map σ)
    (is_deprecated σ) (transition_arrays σ) (weak_fixed_arrays σ)
    (collections σ) (trace σ) raw e (concurrent_access_ σ)
    (map_handle_is_null σ).

(** ** Results and the monad of member functions *)

Inductive CheckSite :=
| check_new_nof_le_max     (* CHECK_LE(new_nof, kMaxNumberOfTransitions) *)
| check_index_not_found.   (* CHECK_EQ(index, kNotFound) *)

Inductive Abort :=
| CHECK_failed (site : CheckSite)  (* fatal in every build *)
| DCHECK_failed                    (* fatal in a debug build *)
| UndefinedBehaviour.              (* a read or write the C++ leaves undefined *)

Inductive result (A : Type) :=
| Ok (a : A)
| Err (e : Abort).
Arguments Ok {A} a.
Arguments Err {A} e.

Definition rbind {A B} (r : result A) (k : A → result B) : result B :=
  match r with Ok a => k a | Err e => Err e end.

Definition M (A : Type) : Type := State → result (A * State).

Definition ret {A} (a : A) : M A := λ σ, Ok (a, σ).

Definition bind {A B} (m : M A) (k : A → M B) : M B :=
  λ σ, match m σ with Ok (a, σ') => k a σ' | Err e => Err e end.

Definition lift {A} (r : result A) : M A :=
  λ σ, match r with Ok a => Ok (a, σ) | Err e => Err e end.

Definition gets {A} (f : State → A) : M A := λ σ, Ok (f σ, σ).

Definition modify (f : State → State) : M unit := λ σ, Ok (tt, f σ).

Notation "'try' x <- e ; k" := (rbind e (λ x, k))
  (at level 10, x name, e at level 100, k at level 200).
Notation "'try' ' p <- e ; k" := (rbind e (λ x, match x with p => k end))
  (at level 10, p pattern, e at level 100, k at level 200).
Notation "'do' x <- e ; k" := (bind e (λ x, k))
  (at level 10, x name, e at level 100, k at level 200).
Notation "'do' ' p <- e ; k" := (bind e (λ x, match x with p => k end))
  (at level 10, p pattern, e at level 100, k at level 200).
Notation "e ;; k" := (bind e (λ _, k))
  (at level 100, k at level 200, right associativity).

Definition log (e : Event) : M unit := modify (λ σ, set_trace (trace σ ++ [e]) σ).

(** A scope that holds [SharedMutexGuard<kExclusive>]: the guard is released
    when the scope is left, by falling off its end or by [return]. *)
Definition exclusive {A} (body : M A) : M A :=
  log LockExclusive;;
  do r <- body;
  log UnlockExclusive;;
  ret r.

(** [SharedMutexGuardIf<kShared>]: taken only if the condition holds. *)
Definition shared_if {A} (condition : bool) (body : M A) : M A :=
  if condition then
    log LockShared;;
    do r <- body;
    log UnlockShared;;
    ret r
  else body.

(** ** The collector

    Modelled from the spec: the collector is not part of this file.  At a
    safepoint it clears every weak reference to a map it found dead; a
    transition array is compacted and trimmed on the spot, a weak fixed array
    keeps its cleared slots. *)
Definition dead_target (dead : Map → bool) (o : MaybeObject) : bool :=
  match o with Weak m => dead m | _ => false end.

Definition clear_weak (dead : Map → bool) (o : MaybeObject) : MaybeObject :=
  if dead_target dead o then Cleared else o.

Definition collect_array (dead : Map → bool) (a : TransitionArray) : TransitionArray :=
  let n := Z.to_nat (transition_length a) in
  let live := filter (λ e, dead_target dead (entry_target e) = false)
                     (take n (entries a)) in
  if bool_decide (length live = n) then a
  else mkTransitionArray (prototype_transitions a) (Z.of_nat (length live)) live.

Definition collect (dead : Map → bool) (σ : State) : State :=
  set_map_raw_transitions (clear_weak dead (map_raw_transitions σ))
    (set_transition_arrays (collect_array dead <$> transition_arrays σ)
      (set_weak_fixed_arrays
        ((λ w : list MaybeObject, clear_weak dead <$> w) <$> weak_fixed_arrays σ)
        σ)).

(** An allocation: a safepoint, at which the next collection of the
    environment runs, if there is one. *)
Definition safepoint : M unit :=
  log Allocate;;
  λ σ, match collections σ with
       | [] => Ok (tt, σ)
       | dead :: rest => Ok (tt, collect dead (set_collections rest σ))
       end.

(** Modelled from the spec: [Factory::NewTransitionArray] (factory.cc).  A
    fresh array with room for [number_of_transitions + slack] entries, none of
    them written, and no prototype transitions. *)
Definition NewTransitionArray (number_of_transitions slack : Z) : M nat :=
  safepoint;;
  λ σ, let address := length (transition_arrays σ) in
       let array := mkTransitionArray None number_of_transitions
                      (replicate (Z.to_nat (number_of_transitions + slack))
                                 undefined_entry) in
       Ok (address, set_transition_arrays (transition_arrays σ ++ [array]) σ).

Section Transitions.

(** Whether [DCHECK]s are compiled in. *)
Variable DEBUG : bool.

(** [Name::hash]: the hash stored in a name. *)
Variable hash : Name → Z.

(** Constants of transitions.h and the slack policy of map.cc, none of them
    in this file. *)
Variable kMaxNumberOfTransitions : Z.
Variable kMaxCachedPrototypeTransitions : Z.
Variable SlackForArraySize : Z → Z → Z.
Variable FLAG_cache_prototype_transitions : bool.

(** The attribute sets that name the integrity levels (property-details.h). *)
Variable SEALED FROZEN : PropertyAttributes.

Definition rDCHECK (condition : bool) : result unit :=
  if DEBUG && negb condition then Err DCHECK_failed else Ok tt.

Definition DCHECK (condition : bool) : M unit := lift (rDCHECK condition).

Definition CHECK (site : CheckSite) (condition : bool) : M unit :=
  lift (if condition then Ok tt else Err (CHECK_failed site)).

(** ** TransitionArray: accessors *)

Definition number_of_transitions (a : TransitionArray) : Z := transition_length a.

Definition Capacity (a : TransitionArray) : Z := Z.of_nat (length (entries a)).

Definition GetEntry (a : TransitionArray) (i : Z) : result Entry :=
  if bool_decide (0 ≤ i) then
    match entries a !! Z.to_nat i with
    | Some e => Ok e
    | None => Err UndefinedBehaviour
    end
  else Err UndefinedBehaviour.

Definition GetKey (a : TransitionArray) (i : Z) : result (option Name) :=
  try e <- GetEntry a i; Ok (entry_key e).

Definition GetRawTarget (a : TransitionArray) (i : Z) : result MaybeObject :=
  try e <- GetEntry a i; Ok (entry_target e).

(** [Name::cast] of a key slot: the slot must hold a name. *)
Definition Name_cast (key : option Name) : result Name :=
  match key with Some name => Ok name | None => Err UndefinedBehaviour end.

(** [GetTargetFromRaw]: [Map::cast(raw->GetHeapObjectAssumeWeak())]. *)
Definition GetTargetFromRaw (raw : MaybeObject) : result Map :=
  match raw with Weak m => Ok m | _ => Err UndefinedBehaviour end.

Definition GetTarget (a : TransitionArray) (i : Z) : result Map :=
  try raw <- GetRawTarget a i; GetTargetFromRaw raw.

Definition SetKey (a : TransitionArray) (i : Z) (key : option Name) : result TransitionArray :=
  try e <- GetEntry a i;
  Ok (mkTransitionArray (prototype_transitions a) (transition_length a)
        (<[Z.to_nat i := mkEntry key (entry_target e)]> (entries a))).

Definition SetRawTarget (a : TransitionArray) (i : Z) (target : MaybeObject) : result TransitionArray :=
  try e <- GetEntry a i;
  Ok (mkTransitionArray (prototype_transitions a) (transition_length a)
        (<[Z.to_nat i := mkEntry (entry_key e) target]> (entries a))).

Definition Set_ (a : TransitionArray) (i : Z) (key : option Name)
    (target : MaybeObject) : result TransitionArray :=
  try a <- SetKey a i key; SetRawTarget a i target.

Definition SetNumberOfTransitions (a : TransitionArray) (n : Z) : TransitionArray :=
  mkTransitionArray (prototype_transitions a) n (entries a).

Definition HasPrototypeTransitions (a : TransitionArray) : bool :=
  bool_decide (is_Some (prototype_transitions a)).

Definition TransitionArray_GetPrototypeTransitions (a : TransitionArray) : result WeakFixedArray :=
  match prototype_transitions a with
  | Some cache => Ok cache
  | None => Err UndefinedBehaviour
  end.

Definition TransitionArray_SetPrototypeTransitions (a : TransitionArray)
    (cache : WeakFixedArray) : TransitionArray :=
  mkTransitionArray (Some cache) (transition_length a) (entries a).

(** ** The order of the keys *)

(** Modelled from the spec: [TransitionArray::CompareNames] of
    transitions-inl.h.  Names are equal by identity and ordered by hash. *)
Definition CompareNames (key1 : Name) (hash1 : Z) (key2 : Name) (hash2 : Z) : Z :=
  if bool_decide (key1 = key2) then 0
  else if hash1 <=? hash2 then -1 else 1.

(** Modelled from the spec: [TransitionArray::CompareDetails] of
    transitions-inl.h.  Within equal names the kind decides, data before
    accessor, and then the attributes as a number. *)
Definition CompareDetails (kind1 : PropertyKind) (attributes1 : PropertyAttributes)
    (kind2 : PropertyKind) (attributes2 : PropertyAttributes) : Z :=
  if negb (bool_decide (kind1 = kind2)) then
    if kind_to_int kind1 <? kind_to_int kind2 then -1 else 1
  else if negb (bool_decide (attributes1 = attributes2)) then
    if attributes1 <? attributes2 then -1 else 1
  else 0.

(** Modelled from the spec: [TransitionArray::CompareKeys] of
    transitions-inl.h, the composite comparator. *)
Definition CompareKeys (key1 : Name) (hash1 : Z) (kind1 : PropertyKind)
    (attributes1 : PropertyAttributes) (key2 : Name) (hash2 : Z)
    (kind2 : PropertyKind) (attributes2 : PropertyAttributes) : Z :=
  let cmp := CompareNames key1 hash1 key2 hash2 in
  if negb (cmp =? 0) then cmp
  else CompareDetails kind1 attributes1 kind2 attributes2.

(** ** TransitionArray: searches *)

(** Modelled from the spec: [TransitionArray::SearchName] of
    transitions-inl.h.  The first entry whose key is [name], in the order of
    the array; if there is none, the index at which [name] belongs is written
    through [out_insertion_index].  The second component of the result is the
    value of [*out_insertion_index] afterwards. *)
Fixpoint SearchName_loop (a : TransitionArray) (name : Name) (remaining : nat)
    (i : Z) (out_insertion_index : Z) : result (Z * Z) :=
  match remaining with
  | O => Ok (kNotFound, i)
  | S remaining =>
      try raw_key <- GetKey a i;
      try key <- Name_cast raw_key;
      let cmp := CompareNames key (hash key) name (hash name) in
      if cmp =? 0 then Ok (i, out_insertion_index)
      else if cmp >? 0 then Ok (kNotFound, i)
      else SearchName_loop a name remaining (i + 1) out_insertion_index
  end.

Definition SearchName (a : TransitionArray) (name : Name)
    (out_insertion_index : Z) : result (Z * Z) :=
  SearchName_loop a name (Z.to_nat (number_of_transitions a)) 0
    out_insertion_index.

(** Modelled from the spec: [TransitionArray::SearchSpecial] of
    transitions-inl.h, a search by name for a symbol. *)
Definition TransitionArray_SearchSpecial (a : TransitionArray) (symbol : Name)
    (out_insertion_index : Z) : result (Z * Z) :=
  SearchName a symbol out_insertion_index.

(** The loop of [SearchDetails] and [SearchDetailsAndGetTarget]: it runs
    while [transition < nof_transitions && GetKey(transition) == key].
    [remaining] counts [nof_transitions - transition].  The result is the
    entry that matched, if one did, and the value of [transition] at the
    exit. *)
Fixpoint SearchDetails_loop (a : TransitionArray) (key : option Name)
    (k : PropertyKind) (attrs : PropertyAttributes) (remaining : nat)
    (transition : Z) : result (option Map * Z) :=
  match remaining with
  | O => Ok (None, transition)
  | S remaining =>
      try current <- GetKey a transition;
      if negb (bool_decide (current = key)) then Ok (None, transition)
      else
        try target <- GetTarget a transition;
        try name <- Name_cast key;
        let target_details := GetTargetDetails name target in
        let cmp := CompareDetails k attrs (kind target_details)
                     (attributes target_details) in
        if cmp =? 0 then Ok (Some target, transition)
        else if cmp <? 0 then Ok (None, transition)
        else SearchDetails_loop a key k attrs remaining (transition + 1)
  end.

(** [TransitionArray::SearchDetails]. *)
Definition SearchDetails (a : TransitionArray) (transition : Z)
    (k : PropertyKind) (attrs : PropertyAttributes)
    (out_insertion_index : Z) : result (Z * Z) :=
  let nof_transitions := number_of_transitions a in
  try _ <- rDCHECK (transition <? nof_transitions);
  try key <- GetKey a transition;
  try '(found, transition) <-
    SearchDetails_loop a key k attrs (Z.to_nat (nof_transitions - transition))
      transition;
  match found with
  | Some _ => Ok (transition, out_insertion_index)
  | None => Ok (kNotFound, transition)
  end.

(** [TransitionArray::SearchDetailsAndGetTarget]; [None] is the null [Map()]. *)
Definition SearchDetailsAndGetTarget (a : TransitionArray) (transition : Z)
    (k : PropertyKind) (attrs : PropertyAttributes) : result (option Map) :=
  let nof_transitions := number_of_transitions a in
  try _ <- rDCHECK (transition <? nof_transitions);
  try key <- GetKey a transition;
  try '(found, _) <-
    SearchDetails_loop a key k attrs (Z.to_nat (nof_transitions - transition))
      transition;
  Ok found.

(** [TransitionArray::Search]. *)
Definition Search (a : TransitionArray) (k : PropertyKind) (name : Name)
    (attrs : PropertyAttributes) (out_insertion_index : Z) : result (Z * Z) :=
  try '(transition, out_insertion_index) <- SearchName a name out_insertion_index;
  if transition =? kNotFound then Ok (kNotFound, out_insertion_index)
  else SearchDetails a transition k attrs out_insertion_index.

(** [TransitionArray::SearchAndGetTarget]. *)
Definition SearchAndGetTarget (a : TransitionArray) (k : PropertyKind)
    (name : Name) (attrs : PropertyAttributes) : result (option Map) :=
  try '(transition, _) <- SearchName a name kNotFound;
  if transition =? kNotFound then Ok None
  else SearchDetailsAndGetTarget a transition k attrs.

(** ** TransitionArray: the insertion sort *)

(** The kind and attributes under which [Sort] files an entry: those of the
    target, or [kData] and [NONE] for a special transition. *)
Definition sort_details (key : Name) (target : MaybeObject)
    : result (PropertyKind * PropertyAttributes) :=
  if negb (IsSpecialTransition key) then
    try target_map <- GetTargetFromRaw target;
    let details := GetTargetDetails key target_map in
    Ok (kind details, attributes details)
  else Ok (kData, NONE).

(** The inner loop [for (j = i - 1; j >= 0; j--)]; the argument is [j + 1],
    the result the array and [j] at the exit. *)
Fixpoint Sort_inner (a : TransitionArray) (key : Name) (k : PropertyKind)
    (attrs : PropertyAttributes) (j_plus_1 : nat) : result (TransitionArray * Z) :=
  match j_plus_1 with
  | O => Ok (a, -1)
  | S j' =>
      let j := Z.of_nat j' in
      try raw_temp_key <- GetKey a j;
      try temp_key <- Name_cast raw_temp_key;
      try temp_target <- GetRawTarget a j;
      try '(temp_kind, temp_attributes) <- sort_details temp_key temp_target;
      let cmp := CompareKeys temp_key (hash temp_key) temp_kind temp_attributes
                   key (hash key) k attrs in
      if cmp >? 0 then
        try a <- SetKey a (j + 1) (Some temp_key);
        try a <- SetRawTarget a (j + 1) temp_target;
        Sort_inner a key k attrs j'
      else Ok (a, j)
  end.

(** The outer loop [for (i = 1; i < length; i++)]; [remaining] counts
    [length - i]. *)
Fixpoint Sort_outer (a : TransitionArray) (remaining : nat) (i : Z)
    : result TransitionArray :=
  match remaining with
  | O => Ok a
  | S remaining =>
      try raw_key <- GetKey a i;
      try key <- Name_cast raw_key;
      try target <- GetRawTarget a i;
      try '(k, attrs) <- sort_details key target;
      try '(a, j) <- Sort_inner a key k attrs (Z.to_nat i);
      try a <- SetKey a (j + 1) (Some key);
      try a <- SetRawTarget a (j + 1) target;
      Sort_outer a remaining (i + 1)
  end.

(** [TransitionArray::Sort].  The closing [DCHECK(IsSortedNoDuplicates())]
    is what [Sort_sorts] below proves. *)
Definition Sort (a : TransitionArray) : result TransitionArray :=
  let length := number_of_transitions a in
  Sort_outer a (Z.to_nat (length - 1)) 1.

(** ** Weak fixed arrays and the prototype cache *)

Definition wfa_Get (l : list MaybeObject) (i : Z) : result MaybeObject :=
  if bool_decide (0 ≤ i) then
    match l !! Z.to_nat i with
    | Some o => Ok o
    | None => Err UndefinedBehaviour
    end
  else Err UndefinedBehaviour.

Definition wfa_Set (l : list MaybeObject) (i : Z) (o : MaybeObject)
    : result (list MaybeObject) :=
  try _ <- wfa_Get l i; Ok (<[Z.to_nat i := o]> l).

(** Modelled from the spec: [TransitionArray::NumberOfPrototypeTransitions]
    of transitions-inl.h.  The header cell holds the number of live entries;
    the empty array has none. *)
Definition NumberOfPrototypeTransitions (proto_transitions : list MaybeObject) : result Z :=
  if bool_decide (length proto_transitions = 0%nat) then Ok 0
  else
    try raw <- wfa_Get proto_transitions kProtoTransitionNumberOfEntriesOffset;
    match raw with Smi value => Ok value | _ => Err UndefinedBehaviour end.

(** [TransitionArray::SetNumberOfPrototypeTransitions]. *)
Definition SetNumberOfPrototypeTransitions (proto_transitions : list MaybeObject)
    (value : Z) : result (list MaybeObject) :=
  try _ <- rDCHECK (negb (bool_decide (length proto_transitions = 0%nat)));
  wfa_Set proto_transitions kProtoTransitionNumberOfEntriesOffset (Smi value).

(** The first loop of [CompactPrototypeTransitionArray]; [remaining] counts
    [number_of_transitions - i]. *)
Fixpoint Compact_loop (array : list MaybeObject) (remaining : nat)
    (i new_number_of_transitions : Z) : result (list MaybeObject * Z) :=
  match remaining with
  | O => Ok (array, new_number_of_transitions)
  | S remaining =>
      let header := kProtoTransitionHeaderSize in
      try target <- wfa_Get array (header + i);
      try _ <- rDCHECK (IsCleared target
                        || match target with Weak _ => true | _ => false end);
      if negb (IsCleared target) then
        try array <-
          (if negb (new_number_of_transitions =? i)
           then wfa_Set array (header + new_number_of_transitions) target
           else Ok array);
        Compact_loop array remaining (i + 1) (new_number_of_transitions + 1)
      else Compact_loop array remaining (i + 1) new_number_of_transitions
  end.

(** The second loop: the slots that became free are filled with undefined. *)
Fixpoint Fill_loop (array : list MaybeObject) (remaining : nat) (i : Z)
    : result (list MaybeObject) :=
  match remaining with
  | O => Ok array
  | S remaining =>
      try array <- wfa_Set array (kProtoTransitionHeaderSize + i) StrongUndefined;
      Fill_loop array remaining (i + 1)
  end.

(** [TransitionArray::CompactPrototypeTransitionArray], on the contents of
    the array. *)
Definition CompactPrototypeTransitionArray (array : list MaybeObject)
    : result (list MaybeObject * bool) :=
  try number_of_transitions <- NumberOfPrototypeTransitions array;
  if number_of_transitions =? 0 then Ok (array, false)
  else
    try '(array, new_number_of_transitions) <-
      Compact_loop array (Z.to_nat number_of_transitions) 0 0;
    try array <-
      Fill_loop array (Z.to_nat (number_of_transitions - new_number_of_transitions))
        new_number_of_transitions;
    try array <-
      (if negb (number_of_transitions =? new_number_of_transitions)
       then SetNumberOfPrototypeTransitions array new_number_of_transitions
       else Ok array);
    Ok (array, new_number_of_transitions <? number_of_transitions).

(** ** Access to the store *)

Definition load_array (address : nat) : M TransitionArray :=
  λ σ, match transition_arrays σ !! address with
       | Some a => Ok (a, σ)
       | None => Err UndefinedBehaviour
       end.

Definition store_array (address : nat) (a : TransitionArray) : M unit :=
  λ σ, match transition_arrays σ !! address with
       | Some _ => Ok (tt, set_transition_arrays
                             (<[address := a]> (transition_arrays σ)) σ)
       | None => Err UndefinedBehaviour
       end.

(** A member function of the array at [address] that only reads. *)
Definition on_array {A} (address : nat) (f : TransitionArray → result A) : M A :=
  do a <- load_array address; lift (f a).

(** A member function of the array at [address] that writes. *)
Definition update_array (address : nat)
    (f : TransitionArray → result TransitionArray) : M unit :=
  do a <- load_array address;
  do a <- lift (f a);
  store_array address a.

Definition load_weak_fixed_array (w : WeakFixedArray) : M (list MaybeObject) :=
  λ σ, match w with
       | empty_weak_fixed_array => Ok ([], σ)
       | WeakFixedArrayAt address =>
           match weak_fixed_arrays σ !! address with
           | Some l => Ok (l, σ)
           | None => Err UndefinedBehaviour
           end
       end.

(** The empty array of the read-only roots has no cell to write. *)
Definition store_weak_fixed_array (w : WeakFixedArray) (l : list MaybeObject) : M unit :=
  λ σ, match w with
       | empty_weak_fixed_array =>
           if bool_decide (l = []) then Ok (tt, σ) else Err UndefinedBehaviour
       | WeakFixedArrayAt address =>
           match weak_fixed_arrays σ !! address with
           | Some _ => Ok (tt, set_weak_fixed_arrays
                                 (<[address := l]> (weak_fixed_arrays σ)) σ)
           | None => Err UndefinedBehaviour
           end
       end.

Definition on_weak_fixed_array {A} (w : WeakFixedArray)
    (f : list MaybeObject → result A) : M A :=
  do l <- load_weak_fixed_array w; lift (f l).

Definition update_weak_fixed_array (w : WeakFixedArray)
    (f : list MaybeObject → result (list MaybeObject)) : M unit :=
  do l <- load_weak_fixed_array w;
  do l <- lift (f l);
  store_weak_fixed_array w l.

Definition WeakFixedArray_length (w : WeakFixedArray) : M Z :=
  on_weak_fixed_array w (λ l, Ok (Z.of_nat (length l))).

(** Modelled from the spec: [Factory::CopyWeakFixedArrayAndGrow]
    (factory.cc).  An allocation; the new array starts with the cells of the
    old one and has [grow_by] more, undefined. *)
Definition CopyWeakFixedArrayAndGrow (w : WeakFixedArray) (grow_by : Z) : M WeakFixedArray :=
  DCHECK (0 <? grow_by);;
  lift (if grow_by <? 0 then Err UndefinedBehaviour else Ok tt);;
  safepoint;;
  do l <- load_weak_fixed_array w;
  λ σ, let address := length (weak_fixed_arrays σ) in
       let copy := l ++ replicate (Z.to_nat grow_by) StrongUndefined in
       Ok (WeakFixedArrayAt address,
           set_weak_fixed_arrays (weak_fixed_arrays σ ++ [copy]) σ).

(** ** TransitionsAccessor *)

Definition encoding : M Encoding := gets encoding_.

(** Modelled from the spec: [TransitionsAccessor::Reload] and [Initialize]
    of transitions-inl.h re-derive the cached storage word and its encoding
    from the map. *)
Definition Reload : M unit :=
  modify (λ σ, set_accessor (map_raw_transitions σ)
                 (GetEncoding (map_raw_transitions σ)) σ).

(** [transitions()]: the cached word, as a transition array. *)
Definition transitions : M nat :=
  λ σ, match raw_transitions_ σ with
       | StrongTransitionArray address => Ok (address, σ)
       | _ => Err UndefinedBehaviour
       end.

(** [TransitionsAccessor::GetSimpleTransition]; [None] is the null [Map()]. *)
Definition GetSimpleTransition : M (option Map) :=
  do e <- encoding;
  match e with
  | kWeakRef =>
      do raw <- gets raw_transitions_;
      do m <- lift (GetTargetFromRaw raw);
      ret (Some m)
  | _ => ret None
  end.

(** [TransitionsAccessor::HasSimpleTransitionTo]. *)
Definition HasSimpleTransitionTo (map : Map) : M bool :=
  do e <- encoding;
  match e with
  | kWeakRef =>
      do raw <- gets raw_transitions_;
      do m <- lift (GetTargetFromRaw raw);
      ret (bool_decide (m = map))
  | kPrototypeInfo | kUninitialized | kMigrationTarget | kFullTransitionArray =>
      ret false
  end.

(** [TransitionsAccessor::ReplaceTransitions]: one store into the map.  The
    consistency check of debug builds and [MarkNeedsReload] keep no state of
    this model. *)
Definition ReplaceTransitions (new_transitions : MaybeObject) : M unit :=
  modify (set_map_raw_transitions new_transitions).

(** A use of a [Map] that must not be null. *)
Definition Map_deref (m : option Map) : M Map :=
  match m with Some m => ret m | None => lift (Err UndefinedBehaviour) end.

(** The loop [for (i = number_of_transitions; i > insertion_index; --i)] of
    the insertion in place; [remaining] counts [i - insertion_index]. *)
Fixpoint shift_up (array : TransitionArray) (remaining : nat) (i : Z)
    : result TransitionArray :=
  match remaining with
  | O => Ok array
  | S remaining =>
      try key <- GetKey array (i - 1);
      try array <- SetKey array i key;
      try target <- GetRawTarget array (i - 1);
      try array <- SetRawTarget array i target;
      shift_up array remaining (i - 1)
  end.

(** The loops that copy [array] into [result], entry [i] going to entry
    [i + offset]; [remaining] counts the iterations left. *)
Fixpoint copy_entries (array result_ : TransitionArray) (remaining : nat)
    (i offset : Z) : result TransitionArray :=
  match remaining with
  | O => Ok result_
  | S remaining =>
      try key <- GetKey array i;
      try target <- GetRawTarget array i;
      try result_ <- Set_ result_ (i + offset) key target;
      copy_entries array result_ remaining (i + 1) offset
  end.

(** The search of [Insert]: by symbol for a special transition, by name and
    details otherwise. *)
Definition Insert_search (is_special_transition : bool) (name : Name)
    (details : PropertyDetails) (insertion_index : Z) (array : TransitionArray)
    : result (Z * Z) :=
  if is_special_transition
  then TransitionArray_SearchSpecial array name insertion_index
  else Search array (kind details) name (attributes details) insertion_index.

(** [TransitionsAccessor::Insert], the part that runs when the map has a
    full transition array and the new entry does not fit. *)
Definition Insert_grow (name : Name) (target : Map) (is_special_transition : bool)
    (details : PropertyDetails) (number_of_transitions new_nof insertion_index : Z)
    : M unit :=
  (* We're gonna need a bigger TransitionArray. *)
  do result_ <- NewTransitionArray new_nof
                  (SlackForArraySize number_of_transitions kMaxNumberOfTransitions);
  Reload;;
  do array <- transitions;
  do shrunk <- on_array array (λ a, Ok (transition_length a));
  do '(number_of_transitions, insertion_index) <-
    (if negb (shrunk =? number_of_transitions) then
       DCHECK (shrunk <? number_of_transitions);;
       do '(index, insertion_index) <-
         on_array array
           (Insert_search is_special_transition name details insertion_index);
       CHECK check_index_not_found (index =? kNotFound);;
       DCHECK (0 <=? insertion_index);;
       DCHECK (insertion_index <=? number_of_transitions);;
       update_array result_ (λ r, Ok (SetNumberOfTransitions r (shrunk + 1)));;
       ret (shrunk, insertion_index)
     else ret (number_of_transitions, insertion_index));
  do has <- on_array array (λ a, Ok (HasPrototypeTransitions a));
  (if has then
     do cache <- on_array array TransitionArray_GetPrototypeTransitions;
     update_array result_ (λ r, Ok (TransitionArray_SetPrototypeTransitions r cache))
   else ret tt);;
  DCHECK (negb (insertion_index =? kNotFound));;
  do old <- load_array array;
  update_array result_ (λ r,
    try r <- copy_entries old r (Z.to_nat insertion_index) 0 0;
    try r <- Set_ r insertion_index (Some name) (Weak target);
    copy_entries old r (Z.to_nat (number_of_transitions - insertion_index))
      insertion_index 1);;
  ReplaceTransitions (StrongTransitionArray result_).

(** [TransitionsAccessor::Insert]. *)
Definition Insert (name : Name) (target : Map) (flag : SimpleTransitionFlag) : M unit :=
  do concurrent <- gets concurrent_access_;
  DCHECK (negb concurrent);;
  do handle_null <- gets map_handle_is_null;
  DCHECK (negb handle_null);;
  do e <- encoding;
  DCHECK (negb (bool_decide (e = kPrototypeInfo)));;
  log (SetBackPointer target);;
  (* If the map doesn't have any transitions at all yet, install the new one. *)
  if bool_decide (e = kUninitialized) || bool_decide (e = kMigrationTarget) then
    if bool_decide (flag = SIMPLE_PROPERTY_TRANSITION) then
      ReplaceTransitions (Weak target)
    else
      (* If the flag requires a full TransitionArray, allocate one. *)
      do result_ <- NewTransitionArray 1 0;
      update_array result_ (λ r, Set_ r 0 (Some name) (Weak target));;
      ReplaceTransitions (StrongTransitionArray result_);;
      Reload;;
      do e <- encoding;
      DCHECK (bool_decide (e = kFullTransitionArray))
  else if bool_decide (e = kWeakRef) then
    do simple_transition <- GetSimpleTransition;
    DCHECK (bool_decide (is_Some simple_transition));;
    do same <-
      (if bool_decide (flag = SIMPLE_PROPERTY_TRANSITION) then
         do simple_transition <- Map_deref simple_transition;
         let key := GetSimpleTransitionKey simple_transition in
         let old_details := GetSimpleTargetDetails simple_transition in
         let new_details := GetTargetDetails name target in
         ret (bool_decide (key = name)
              && bool_decide (kind old_details = kind new_details)
              && bool_decide (attributes old_details = attributes new_details))
       else ret false);
    if same then ReplaceTransitions (Weak target)
    else
      (* Otherwise allocate a full TransitionArray with slack for a new entry. *)
      do result_ <- NewTransitionArray 1 1;
      (* Reload state; allocations might have caused it to be cleared. *)
      Reload;;
      do simple_transition <- GetSimpleTransition;
      match simple_transition with
      | None =>
          update_array result_ (λ r, Set_ r 0 (Some name) (Weak target));;
          ReplaceTransitions (StrongTransitionArray result_);;
          Reload;;
          do e <- encoding;
          DCHECK (bool_decide (e = kFullTransitionArray))
      | Some simple_transition =>
          (* Insert the original transition in index 0. *)
          update_array result_ (λ r,
            Set_ r 0 (Some (GetSimpleTransitionKey simple_transition))
              (Weak simple_transition));;
          (* Search for the correct index to insert the new transition. *)
          do '(index, insertion_index) <-
            on_array result_
              (Insert_search (bool_decide (flag = SPECIAL_TRANSITION)) name
                 (GetTargetDetails name target) 0);
          DCHECK (index =? kNotFound);;
          (* [insertion_index] was declared without a value: it has one only
             if the search wrote it. *)
          lift (if index =? kNotFound then Ok tt else Err UndefinedBehaviour);;
          update_array result_ (λ r,
            let r := SetNumberOfTransitions r 2 in
            try r <-
              (if insertion_index =? 0 then
                 Set_ r 1 (Some (GetSimpleTransitionKey simple_transition))
                   (Weak simple_transition)
               else Ok r);
            try r <- SetKey r insertion_index (Some name);
            SetRawTarget r insertion_index (Weak target));;
          ReplaceTransitions (StrongTransitionArray result_);;
          Reload;;
          do e <- encoding;
          DCHECK (bool_decide (e = kFullTransitionArray))
      end
  else
    (* At this point, we know that the map has a full TransitionArray. *)
    DCHECK (bool_decide (e = kFullTransitionArray));;
    let is_special_transition := bool_decide (flag = SPECIAL_TRANSITION) in
    DCHECK (bool_decide (is_special_transition = IsSpecialTransition name));;
    let details := if is_special_transition then PropertyDetails_Empty
                   else GetTargetDetails name target in
    do array <- transitions;
    do number_of_transitions <- on_array array (λ a, Ok (transition_length a));
    do '(index, insertion_index) <-
      on_array array (Insert_search is_special_transition name details kNotFound);
    (* If an existing entry was found, overwrite it and return. *)
    if negb (index =? kNotFound) then
      exclusive (update_array array (λ a, SetRawTarget a index (Weak target)))
    else
      let new_nof := number_of_transitions + 1 in
      CHECK check_new_nof_le_max (new_nof <=? kMaxNumberOfTransitions);;
      DCHECK (0 <=? insertion_index);;
      DCHECK (insertion_index <=? number_of_transitions);;
      do capacity <- on_array array (λ a, Ok (Capacity a));
      (* If there is enough capacity, insert new entry into the existing array. *)
      if new_nof <=? capacity then
        exclusive (update_array array (λ a,
          let a := SetNumberOfTransitions a new_nof in
          try a <- shift_up a (Z.to_nat (number_of_transitions - insertion_index))
                     number_of_transitions;
          try a <- SetKey a insertion_index (Some name);
          SetRawTarget a insertion_index (Weak target)))
      else
        Insert_grow name target is_special_transition details
          number_of_transitions new_nof insertion_index.

(** [TransitionsAccessor::SearchTransition]; [None] is the null [Map()]. *)
Definition SearchTransition (name : Name) (k : PropertyKind)
    (attrs : PropertyAttributes) : M (option Map) :=
  do e <- encoding;
  match e with
  | kPrototypeInfo | kUninitialized | kMigrationTarget => ret None
  | kWeakRef =>
      do raw <- gets raw_transitions_;
      do map <- lift (GetTargetFromRaw raw);
      if negb (IsMatchingMap map name k attrs) then ret None
      else ret (Some map)
  | kFullTransitionArray =>
      do concurrent <- gets concurrent_access_;
      shared_if concurrent
        (do array <- transitions;
         on_array array (λ a, SearchAndGetTarget a k name attrs))
  end.

(** [TransitionsAccessor::SearchSpecial]. *)
Definition SearchSpecial (name : Name) : M (option Map) :=
  do e <- encoding;
  if negb (bool_decide (e = kFullTransitionArray)) then ret None
  else
    do array <- transitions;
    do '(transition, _) <-
      on_array array (λ a, TransitionArray_SearchSpecial a name kNotFound);
    if transition =? kNotFound then ret None
    else
      do target <- on_array array (λ a, GetTarget a transition);
      ret (Some target).

(** [TransitionsAccessor::HasIntegrityLevelTransitionTo], called with both
    out-parameters: [Some (symbol, level)] is the result [true] with what was
    written through them, [None] the result [false]. *)
Definition HasIntegrityLevelTransitionTo (to : option Map)
    : M (option (Name * PropertyAttributes)) :=
  do found <- SearchSpecial frozen_symbol;
  if bool_decide (found = to) then ret (Some (frozen_symbol, FROZEN))
  else
    do found <- SearchSpecial sealed_symbol;
    if bool_decide (found = to) then ret (Some (sealed_symbol, SEALED))
    else
      do found <- SearchSpecial nonextensible_symbol;
      if bool_decide (found = to) then ret (Some (nonextensible_symbol, NONE))
      else ret None.

(** [TransitionsAccessor::NumberOfTransitions]. *)
Definition NumberOfTransitions : M Z :=
  do e <- encoding;
  match e with
  | kPrototypeInfo | kUninitialized | kMigrationTarget => ret 0
  | kWeakRef => ret 1
  | kFullTransitionArray =>
      do array <- transitions;
      on_array array (λ a, Ok (number_of_transitions a))
  end.

(** [TransitionsAccessor::CanHaveMoreTransitions]. *)
Definition CanHaveMoreTransitions : M bool :=
  do dictionary <- gets is_dictionary_map;
  if dictionary then ret false
  else
    do e <- encoding;
    if bool_decide (e = kFullTransitionArray) then
      do array <- transitions;
      do n <- on_array array (λ a, Ok (number_of_transitions a));
      ret (n <? kMaxNumberOfTransitions)
    else ret true.

(** [TransitionsAccessor::SetMigrationTarget]. *)
Definition SetMigrationTarget (migration_target : Map) : M unit :=
  (* We only cache the migration target for maps with empty transitions for
     GC's sake. *)
  do e <- encoding;
  if negb (bool_decide (e = kUninitialized)) then ret tt
  else
    do deprecated <- gets is_deprecated;
    DCHECK deprecated;;
    modify (set_map_raw_transitions (StrongMap migration_target)).

(** [TransitionsAccessor::GetMigrationTarget]. *)
Definition GetMigrationTarget : M (option Map) :=
  do e <- encoding;
  if bool_decide (e = kMigrationTarget) then
    do raw <- gets map_raw_transitions;
    match raw with
    | StrongMap m => ret (Some m)
    | _ => lift (Err UndefinedBehaviour)
    end
  else ret None.

(** [TransitionsAccessor::GetPrototypeTransitions]. *)
Definition GetPrototypeTransitions : M WeakFixedArray :=
  do e <- encoding;
  if negb (bool_decide (e = kFullTransitionArray)) then ret empty_weak_fixed_array
  else
    do array <- transitions;
    do has <- on_array array (λ a, Ok (HasPrototypeTransitions a));
    if negb has then ret empty_weak_fixed_array
    else on_array array TransitionArray_GetPrototypeTransitions.

(** [TransitionsAccessor::EnsureHasFullTransitionArray]. *)
Definition EnsureHasFullTransitionArray : M unit :=
  do e <- encoding;
  if bool_decide (e = kFullTransitionArray) then ret tt
  else
    let nof := if bool_decide (e = kUninitialized) || bool_decide (e = kMigrationTarget)
               then 0 else 1 in
    do result_ <- NewTransitionArray nof 0;
    Reload;;  (* Reload after possible GC. *)
    (if nof =? 1 then
       do e <- encoding;
       if bool_decide (e = kUninitialized) then
         (* If allocation caused GC and cleared the target, trim the new array. *)
         update_array result_ (λ r, Ok (SetNumberOfTransitions r 0))
       else
         (* Otherwise populate the new array. *)
         do target <- GetSimpleTransition;
         do target <- Map_deref target;
         let key := GetSimpleTransitionKey target in
         update_array result_ (λ r, Set_ r 0 (Some key) (Weak target))
     else ret tt);;
    ReplaceTransitions (StrongTransitionArray result_);;
    Reload.  (* Reload after replacing transitions. *)

(** [TransitionsAccessor::SetPrototypeTransitions]. *)
Definition SetPrototypeTransitions (proto_transitions : WeakFixedArray) : M unit :=
  EnsureHasFullTransitionArray;;
  do array <- transitions;
  update_array array
    (λ a, Ok (TransitionArray_SetPrototypeTransitions a proto_transitions)).

(** [TransitionArray::GrowPrototypeTransitionArray]. *)
Definition GrowPrototypeTransitionArray (array : WeakFixedArray) (new_capacity : Z)
    : M WeakFixedArray :=
  (* Grow array by factor 2 up to MaxCachedPrototypeTransitions. *)
  do length <- WeakFixedArray_length array;
  let capacity := length - kProtoTransitionHeaderSize in
  let new_capacity := Z.min kMaxCachedPrototypeTransitions new_capacity in
  DCHECK (new_capacity >? capacity);;
  let grow_by := new_capacity - capacity in
  do array <- CopyWeakFixedArrayAndGrow array grow_by;
  (if capacity <? 0 then
     (* There was no prototype transitions array before, so the size couldn't
        be copied. Initialize it explicitly. *)
     update_weak_fixed_array array (λ l, SetNumberOfPrototypeTransitions l 0)
   else ret tt);;
  ret array.

(** [CompactPrototypeTransitionArray] on an array of the store. *)
Definition CompactPrototypeTransitionArray_at (cache : WeakFixedArray) : M bool :=
  do l <- load_weak_fixed_array cache;
  do '(l, compacted) <- lift (CompactPrototypeTransitionArray l);
  store_weak_fixed_array cache l;;
  ret compacted.

(** [TransitionsAccessor::PutPrototypeTransition].  The guard [scope] is
    held from its declaration to the end of the function.  The first
    assertion, on the map of the prototype object, has no counterpart here,
    where a prototype is an identity. *)
Definition PutPrototypeTransition (prototype : N) (target_map : Map) : M unit :=
  (* Don't cache prototype transition if this map is either shared, or a map
     of a prototype. *)
  do is_prototype <- gets is_prototype_map;
  if is_prototype then ret tt
  else
    do is_dictionary <- gets is_dictionary_map;
    if is_dictionary || negb FLAG_cache_prototype_transitions then ret tt
    else
      let header := kProtoTransitionHeaderSize in
      do cache <- GetPrototypeTransitions;
      do length <- WeakFixedArray_length cache;
      let capacity := length - header in
      do number <- on_weak_fixed_array cache NumberOfPrototypeTransitions;
      let transitions := number + 1 in
      exclusive
        (do cache <-
           (if transitions >? capacity then
              (* Grow the array if compacting it doesn't free space. *)
              do compacted <- CompactPrototypeTransitionArray_at cache;
              if negb compacted then
                if capacity =? kMaxCachedPrototypeTransitions then ret None
                else
                  do cache <- GrowPrototypeTransitionArray cache (2 * transitions);
                  Reload;;
                  SetPrototypeTransitions cache;;
                  ret (Some cache)
              else ret (Some cache)
            else ret (Some cache));
         match cache with
         | None => ret tt  (* the [return] of the full cache *)
         | Some cache =>
             (* Reload number of transitions as they might have been compacted. *)
             do last <- on_weak_fixed_array cache NumberOfPrototypeTransitions;
             let entry := header + last in
             update_weak_fixed_array cache (λ l, wfa_Set l entry (Weak target_map));;
             update_weak_fixed_array cache
               (λ l, SetNumberOfPrototypeTransitions l (last + 1))
         end).

(** The loop of [GetPrototypeTransition]; [remaining] counts [length - i]. *)
Fixpoint GetPrototypeTransition_loop (cache : list MaybeObject) (proto : N)
    (remaining : nat) (i : Z) : result (option Map) :=
  match remaining with
  | O => Ok None
  | S remaining =>
      try target <- wfa_Get cache (kProtoTransitionHeaderSize + i);
      try _ <- rDCHECK (IsCleared target
                        || match target with Weak _ => true | _ => false end);
      match target with
      | Weak map =>
          if bool_decide (prototype map = proto) then Ok (Some map)
          else GetPrototypeTransition_loop cache proto remaining (i + 1)
      | _ => GetPrototypeTransition_loop cache proto remaining (i + 1)
      end
  end.

(** [TransitionsAccessor::GetPrototypeTransition]. *)
Definition GetPrototypeTransition (proto : N) : M (option Map) :=
  do cache <- GetPrototypeTransitions;
  on_weak_fixed_array cache (λ l,
    try length <- NumberOfPrototypeTransitions l;
    GetPrototypeTransition_loop l proto (Z.to_nat length) 0).

(** A [TransitionsAccessor] is built for one operation: its constructor
    loads the storage word of the map. *)
Definition TransitionsAccessor_new (σ : State) : State :=
  set_accessor (map_raw_transitions σ) (GetEncoding (map_raw_transitions σ)) σ.

(** ** TransitionsAccessor: the other readers *)

(** The loop of [TransitionArray::ForEachTransitionTo]; [remaining] counts
    [nof_transitions - transition].  The callback is an argument of the C++
    function: what is kept of it is the maps it is called with, in the order
    of the calls. *)
Fixpoint ForEachTransitionTo_loop (a : TransitionArray) (key : option Name)
    (remaining : nat) (transition : Z) : result (list Map) :=
  match remaining with
  | O => Ok []
  | S remaining =>
      try current <- GetKey a transition;
      if negb (bool_decide (current = key)) then Ok []
      else
        try target <- GetTarget a transition;
        try called <- ForEachTransitionTo_loop a key remaining (transition + 1);
        Ok (target :: called)
  end.

(** [TransitionArray::ForEachTransitionTo]. *)
Definition TransitionArray_ForEachTransitionTo (a : TransitionArray) (name : Name)
    : result (list Map) :=
  try '(transition, _) <- SearchName a name kNotFound;
  if transition =? kNotFound then Ok []
  else
    let nof_transitions := number_of_transitions a in
    try _ <- rDCHECK (transition <? nof_transitions);
    try key <- GetKey a transition;
    ForEachTransitionTo_loop a key (Z.to_nat (nof_transitions - transition))
      transition.

(** [TransitionsAccessor::ForEachTransitionTo]. *)
Definition ForEachTransitionTo (name : Name) : M (list Map) :=
  do e <- encoding;
  match e with
  | kPrototypeInfo | kUninitialized | kMigrationTarget => ret []
  | kWeakRef =>
      do raw <- gets raw_transitions_;
      do target <- lift (GetTargetFromRaw raw);
      let key := LastAddedKey target in
      if bool_decide (key = name) then ret [target] else ret []
  | kFullTransitionArray =>
      do concurrent <- gets concurrent_access_;
      shared_if concurrent
        (do array <- transitions;
         on_array array (λ a, TransitionArray_ForEachTransitionTo a name))
  end.

Inductive RequestedLocation := kAnyLocation | kFieldOnly.

#[global] Instance RequestedLocation_eq_dec : EqDecision RequestedLocation.
Proof. solve_decision. Defined.

Inductive PropertyLocation := kField | kDescriptor.

#[global] Instance PropertyLocation_eq_dec : EqDecision PropertyLocation.
Proof. solve_decision. Defined.

Section DataProperty.

(** What [FindTransitionToDataProperty] reads and this file does not define:
    whether a name is private (name.h), the attribute set [DONT_ENUM]
    (property-details.h), and the location of the last descriptor of a map. *)
Variable IsPrivate : Name → bool.
Variable DONT_ENUM : PropertyAttributes.
Variable LastDescriptorLocation : Map → PropertyLocation.

(** [TransitionsAccessor::FindTransitionToDataProperty]; [None] is the empty
    [MaybeHandle<Map>()]. *)
Definition FindTransitionToDataProperty (name : Name)
    (requested_location : RequestedLocation) : M (option Map) :=
  let attrs := if IsPrivate name then DONT_ENUM else NONE in
  do target <- SearchTransition name kData attrs;
  match target with
  | None => ret None
  | Some target =>
      let details := LastAddedDetails target in
      DCHECK (bool_decide (attrs = attributes details));;
      DCHECK (bool_decide (kData = kind details));;
      if bool_decide (requested_location = kFieldOnly)
         && negb (bool_decide (LastDescriptorLocation target = kField))
      then ret None
      else ret (Some target)
  end.

End DataProperty.

(** ** The traversal of the transition tree *)

Section Traversal.

(** [TraverseTransitionTreeInternal] reads the storage word of every map it
    reaches, not only that of the map of the accessor: the heap is the
    storage word of each map, the transition arrays and the weak fixed
    arrays. *)
Variable raw_transitions_of : Map → MaybeObject.

(** The stack is a [SmallVector]: its back is the head of the list. *)

(** The loop over the prototype transitions; [remaining] counts
    [length - i]. *)
Fixpoint push_prototype_transitions (proto_trans : list MaybeObject)
    (remaining : nat) (i : Z) (stack : list Map) : result (list Map) :=
  match remaining with
  | O => Ok stack
  | S remaining =>
      let index := kProtoTransitionHeaderSize + i in
      try target <- wfa_Get proto_trans index;
      match target with
      | Weak map => push_prototype_transitions proto_trans remaining (i + 1) (map :: stack)
      | _ =>
          try _ <- rDCHECK (IsCleared target);
          push_prototype_transitions proto_trans remaining (i + 1) stack
      end
  end.

(** The loop over the transitions; [remaining] counts
    [number_of_transitions() - i]. *)
Fixpoint push_transitions (a : TransitionArray) (remaining : nat) (i : Z)
    (stack : list Map) : result (list Map) :=
  match remaining with
  | O => Ok stack
  | S remaining =>
      try target <- GetTarget a i;
      push_transitions a remaining (i + 1) (target :: stack)
  end.

(** The body of the [switch]: what is on the stack after the map whose
    storage word is [raw_transitions] has been visited. *)
Definition push_children (arrays : list TransitionArray)
    (caches : list (list MaybeObject)) (raw_transitions : MaybeObject)
    (stack : list Map) : result (list Map) :=
  match GetEncoding raw_transitions with
  | kPrototypeInfo | kUninitialized | kMigrationTarget => Ok stack
  | kWeakRef =>
      try target <- GetTargetFromRaw raw_transitions;
      Ok (target :: stack)
  | kFullTransitionArray =>
      match raw_transitions with
      | StrongTransitionArray address =>
          match arrays !! address with
          | None => Err UndefinedBehaviour
          | Some a =>
              try stack <-
                (if HasPrototypeTransitions a then
                   try cache <- TransitionArray_GetPrototypeTransitions a;
                   try proto_trans <-
                     match cache with
                     | empty_weak_fixed_array => Ok []
                     | WeakFixedArrayAt w =>
                         match caches !! w with
                         | Some l => Ok l
                         | None => Err UndefinedBehaviour
                         end
                     end;
                   try length <- NumberOfPrototypeTransitions proto_trans;
                   push_prototype_transitions proto_trans (Z.to_nat length) 0 stack
                 else Ok stack);
              push_transitions a (Z.to_nat (number_of_transitions a)) 0 stack
          end
      | _ => Err UndefinedBehaviour
      end
  end.

(** The loop [while (!stack.empty())] of [TraverseTransitionTreeInternal]:
    the maps the callback is called with, in the order of the calls.  The
    loop need not end (the storage words may form a cycle): it is given
    [fuel] iterations, and [None] says that they were not enough. *)
Fixpoint Traverse_loop (arrays : list TransitionArray)
    (caches : list (list MaybeObject)) (fuel : nat) (stack : list Map)
    : option (result (list Map)) :=
  match stack with
  | [] => Some (Ok [])
  | current_map :: stack =>
      match fuel with
      | O => None
      | S fuel =>
          match push_children arrays caches (raw_transitions_of current_map) stack with
          | Err e => Some (Err e)
          | Ok stack =>
              match Traverse_loop arrays caches fuel stack with
              | Some (Ok called) => Some (Ok (current_map :: called))
              | r => r
              end
          end
      end
  end.

(** [TransitionsAccessor::TraverseTransitionTreeInternal] of the accessor
    of [map_]. *)
Definition TraverseTransitionTreeInternal (arrays : list TransitionArray)
    (caches : list (list MaybeObject)) (fuel : nat) (map_ : Map)
    : option (result (list Map)) :=
  Traverse_loop arrays caches fuel [map_].

End Traversal.

(** ** What a transition array holds

    The definitions from here to the properties are not code: they say what
    the code is proved to do. *)

(** The entry that [Set(i, key, Weak(target))] writes. *)
Definition entry_of (e : Name * Map) : Entry := mkEntry (Some e.1) (Weak e.2).

(** The array [a] holds the transitions [es], in this order, in its first
    [number_of_transitions()] entries. *)
Definition array_holds (a : TransitionArray) (es : list (Name * Map)) : Prop :=
  transition_length a = Z.of_nat (length es)
  ∧ take (length es) (entries a) = entry_of <$> es.

(** The [(name, kind, attributes)] under which a transition is filed: the
    details are those of the target, and [kData], [NONE] for a special
    transition (as in [Sort]). *)
Definition transition_tuple (e : Name * Map) : Name * PropertyKind * PropertyAttributes :=
  if IsSpecialTransition e.1 then (e.1, kData, NONE)
  else (e.1, kind (LastAddedDetails e.2), attributes (LastAddedDetails e.2)).

(** [CompareKeys] on two such tuples. *)
Definition compare_tuples (t1 t2 : Name * PropertyKind * PropertyAttributes) : Z :=
  CompareKeys t1.1.1 (hash t1.1.1) t1.1.2 t1.2 t2.1.1 (hash t2.1.1) t2.1.2 t2.2.

Definition tuple_lt (t1 t2 : Name * PropertyKind * PropertyAttributes) : Prop :=
  compare_tuples t1 t2 < 0.

Definition transition_lt (e1 e2 : Name * Map) : Prop :=
  tuple_lt (transition_tuple e1) (transition_tuple e2).

(** Strictly sorted by the composite comparator: every entry compares below
    every later one. *)
Definition sorted_transitions (es : list (Name * Map)) : Prop :=
  StronglySorted transition_lt es.

(** No two entries with the same [(name, kind, attributes)]. *)
Definition no_duplicate_tuples (es : list (Name * Map)) : Prop :=
  NoDup (transition_tuple <$> es).

(** The hashes tell the names apart: the comparator is then a total order. *)
Definition hash_injective : Prop := ∀ n1 n2, hash n1 = hash n2 → n1 = n2.

(** The searches, on the list of transitions an array holds. *)
Fixpoint search_name (es : list (Name * Map)) (name : Name) (i out : Z) : Z * Z :=
  match es with
  | [] => (kNotFound, i)
  | (key, _) :: es =>
      let cmp := CompareNames key (hash key) name (hash name) in
      if cmp =? 0 then (i, out)
      else if cmp >? 0 then (kNotFound, i)
      else search_name es name (i + 1) out
  end.

Fixpoint search_details (es : list (Name * Map)) (key : Name) (k : PropertyKind)
    (attrs : PropertyAttributes) (i : Z) : option Map * Z :=
  match es with
  | [] => (None, i)
  | (current, target) :: es =>
      if negb (bool_decide (current = key)) then (None, i)
      else
        let d := GetTargetDetails key target in
        let cmp := CompareDetails k attrs (kind d) (attributes d) in
        if cmp =? 0 then (Some target, i)
        else if cmp <? 0 then (None, i)
        else search_details es key k attrs (i + 1)
  end.

(** An entry files below, or above, the tuple [t]. *)
Definition entry_below (t : Name * PropertyKind * PropertyAttributes) (e : Name * Map) : Prop :=
  tuple_lt (transition_tuple e) t.

Definition entry_above (t : Name * PropertyKind * PropertyAttributes) (e : Name * Map) : Prop :=
  tuple_lt t (transition_tuple e).

(** [Search] on the list of transitions. *)
Definition search_list (es : list (Name * Map)) (k : PropertyKind) (name : Name)
    (attrs : PropertyAttributes) (out : Z) : Z * Z :=
  let '(transition, out) := search_name es name 0 out in
  if transition =? kNotFound then (kNotFound, out)
  else
    let '(found, transition) :=
      search_details (drop (Z.to_nat transition) es) name k attrs transition in
    match found with
    | Some _ => (transition, out)
    | None => (kNotFound, transition)
    end.

(** [SearchAndGetTarget] on the list of transitions. *)
Definition search_target_list (es : list (Name * Map)) (k : PropertyKind) (name : Name)
    (attrs : PropertyAttributes) : option Map :=
  let '(transition, _) := search_name es name 0 kNotFound in
  if transition =? kNotFound then None
  else (search_details (drop (Z.to_nat transition) es) name k attrs transition).1.

(** What the search of [Insert] answers on a sorted list, for the tuple [t]
    of the new transition: either no entry has the tuple, and the insertion
    index splits the list into the entries below and the entries above; or
    one has, and its index is returned with [*out_insertion_index] as it
    was. *)
Definition search_answer (es : list (Name * Map))
    (t : Name * PropertyKind * PropertyAttributes) (name : Name) (out : Z)
    (r : Z * Z) : Prop :=
  (r.1 = kNotFound
   ∧ ∃ n : nat, r.2 = Z.of_nat n ∧ (n ≤ length es)%nat
       ∧ Forall (entry_below t) (take n es)
       ∧ Forall (entry_above t) (drop n es))
  ∨ (∃ (n : nat) e, r.1 = Z.of_nat n ∧ r.2 = out ∧ es !! n = Some e
       ∧ e.1 = name ∧ transition_tuple e = t).

(** The list [l] with [x] put in at index [n]. *)
Definition insert_at {A} (n : nat) (x : A) (l : list A) : list A :=
  take n l ++ x :: drop n l.

(** ** States *)

(** What the collector finds dead at the next safepoint: nothing, if no
    collection is due. *)
Definition next_dead (σ : State) : Map → bool :=
  match collections σ with
  | [] => λ _, false
  | dead :: _ => dead
  end.

(** The state right after a safepoint. *)
Definition after_safepoint (σ : State) : State :=
  let σ := set_trace (trace σ ++ [Allocate]) σ in
  match collections σ with
  | [] => σ
  | dead :: rest => collect dead (set_collections rest σ)
  end.

(** The state in which an operation starts: the caller has built an accessor
    for the map, and [SetBackPointer], which [Insert] does first, is in the
    trace. *)
Definition entered (target : Map) (σ : State) : State :=
  set_trace (trace σ ++ [SetBackPointer target]) σ.

(** The first three assertions of [Insert] hold, or are compiled out. *)
Definition prologue_ok (σ : State) : Prop :=
  DEBUG && (concurrent_access_ σ || map_handle_is_null σ
            || bool_decide (encoding_ σ = kPrototypeInfo)) = false.

(** The accessor has loaded the storage word of the map. *)
Definition accessor_fresh (σ : State) : Prop :=
  raw_transitions_ σ = map_raw_transitions σ
  ∧ encoding_ σ = GetEncoding (map_raw_transitions σ).

(** The map stores its transitions in the array at [address], which holds
    [es]. *)
Definition full_storage (σ : State) (address : nat) (a : TransitionArray)
    (es : list (Name * Map)) : Prop :=
  map_raw_transitions σ = StrongTransitionArray address
  ∧ transition_arrays σ !! address = Some a
  ∧ array_holds a es.

(** What [Insert] asks of its arguments: the flag says whether the name is
    one of the special symbols, and the target of a property transition has
    the name as its last descriptor. *)
Definition insert_precondition (name : Name) (target : Map)
    (flag : SimpleTransitionFlag) : Prop :=
  bool_decide (flag = SPECIAL_TRANSITION) = IsSpecialTransition name
  ∧ (flag ≠ SPECIAL_TRANSITION → LastAddedKey target = name).

(** The state in which a freshly allocated array [r] has been published as
    the transitions of the map and the accessor reloaded. *)
Definition install_new_array (r : TransitionArray) (σ : State) : State :=
  TransitionsAccessor_new
    (set_map_raw_transitions (StrongTransitionArray (length (transition_arrays σ)))
       (set_transition_arrays (transition_arrays σ ++ [r]) σ)).

(** The test of [Insert] on a simple transition: the new transition is a
    simple property transition with the key, kind and attributes of the one
    the map has. *)
Definition retransition (flag : SimpleTransitionFlag) (simple_transition : Map)
    (name : Name) (target : Map) : bool :=
  bool_decide (flag = SIMPLE_PROPERTY_TRANSITION)
  && (bool_decide (GetSimpleTransitionKey simple_transition = name)
      && bool_decide (kind (GetSimpleTargetDetails simple_transition)
                      = kind (GetTargetDetails name target))
      && bool_decide (attributes (GetSimpleTargetDetails simple_transition)
                      = attributes (GetTargetDetails name target))).

(** The simple transition of a map, as an entry. *)
Definition simple_entry (simple_transition : Map) : Name * Map :=
  (GetSimpleTransitionKey simple_transition, simple_transition).

(** The state after [Insert] wrote the array [a'] over the array at
    [address], under the exclusive guard. *)
Definition updated_in_place (address : nat) (a' : TransitionArray) (target : Map)
    (σ : State) : State :=
  let σ1 := set_trace (trace (entered target σ) ++ [LockExclusive]) (entered target σ) in
  let σ2 := set_transition_arrays (<[address := a']> (transition_arrays σ1)) σ1 in
  set_trace (trace σ2 ++ [UnlockExclusive]) σ2.

(** The state after [Insert] published the bigger array [r]: the accessor
    was reloaded after the allocation, not after the store. *)
Definition published (r : TransitionArray) (target : Map) (σ : State) : State :=
  let σ1 := after_safepoint (entered target σ) in
  set_map_raw_transitions (StrongTransitionArray (length (transition_arrays σ1)))
    (set_transition_arrays (transition_arrays σ1 ++ [r]) (TransitionsAccessor_new σ1)).

(** ** Reachable states and their invariant *)

(** Whenever the map stores its transitions in an array, the array holds a
    list sorted by the comparator, and its capacity satisfies [P]. *)
Definition storage_invariant (P : Z → Prop) (σ : State) : Prop :=
  ∀ address, map_raw_transitions σ = StrongTransitionArray address →
    ∃ a es, transition_arrays σ !! address = Some a
      ∧ array_holds a es ∧ sorted_transitions es ∧ P (Capacity a).

(** The states of a map that starts without transitions and is given
    transitions by [Insert], each call through an accessor of its own, while
    the collector runs when it pleases. *)
Inductive reachable : State → Prop :=
| reachable_initial σ :
    GetEncoding (map_raw_transitions σ) = kUninitialized → reachable σ
| reachable_Insert σ σ' name target flag :
    reachable σ → insert_precondition name target flag →
    Insert name target flag (TransitionsAccessor_new σ) = Ok (tt, σ') →
    reachable σ'
| reachable_collect σ dead :
    reachable σ → reachable (collect dead σ).

(** What is asked of the slack policy of map.cc: a slack that is not
    negative, ... *)
Definition slack_not_negative : Prop :=
  ∀ n, 0 ≤ n → n + 1 ≤ kMaxNumberOfTransitions →
    0 ≤ SlackForArraySize n kMaxNumberOfTransitions.


(** The discipline of the guard, read off a trace: whether an allocation
    happens while the guard is held.  [held] says whether it is held at the
    start. *)
Fixpoint allocates_under_lock (held : bool) (t : list Event) : bool :=
  match t with
  | [] => false
  | LockExclusive :: t | LockShared :: t => allocates_under_lock true t
  | UnlockExclusive :: t | UnlockShared :: t => allocates_under_lock false t
  | Allocate :: t => held || allocates_under_lock held t
  | SetBackPointer _ :: t => allocates_under_lock held t
  end.


(** What a call of [Insert] that returns leaves behind: the flags of the
    accessor as they were, a trace without an allocation under the guard, and
    the new transition in the storage of the map. *)
Definition insert_outcome (name : Name) (target : Map) (flag : SimpleTransitionFlag)
    (σ σ' : State) : Prop :=
  concurrent_access_ σ' = concurrent_access_ σ
  ∧ map_handle_is_null σ' = map_handle_is_null σ
  ∧ (∃ t, trace σ' = trace σ ++ t ∧ allocates_under_lock false t = false)
  ∧ ((flag = SIMPLE_PROPERTY_TRANSITION ∧ map_raw_transitions σ' = Weak target)
     ∨ ∃ address a es,
         full_storage σ' address a es ∧ sorted_transitions es
         ∧ (name, target) ∈ es).

(** ** The cache of prototype transitions *)

(** What a live slot of the cache holds: a weak reference to a map, cleared
    or not. *)
Definition weak_or_cleared (o : MaybeObject) : bool :=
  IsCleared o || match o with Weak _ => true | _ => false end.

(** The slots that the collector has not cleared, in their order. *)
Definition survivors (slots : list MaybeObject) : list MaybeObject :=
  filter (λ o, IsCleared o = false) slots.

(** The cache with [n] live slots after compaction: the header with the
    number of survivors, the survivors in their order, undefined in the
    slots that became free, and the slots beyond the live ones as they
    were. *)
Definition compacted (n : nat) (slots : list MaybeObject) : list MaybeObject :=
  let kept := survivors (take n slots) in
  Smi (Z.of_nat (length kept))
  :: kept ++ replicate (n - length kept) StrongUndefined ++ drop n slots.

(** The map stores its transitions in the array at [address], whose
    prototype transitions are the weak fixed array at [w], with the cells
    [l]. *)
Definition cache_storage (σ : State) (address : nat) (a : TransitionArray)
    (w : nat) (l : list MaybeObject) : Prop :=
  map_raw_transitions σ = StrongTransitionArray address
  ∧ transition_arrays σ !! address = Some a
  ∧ prototype_transitions a = Some (WeakFixedArrayAt w)
  ∧ weak_fixed_arrays σ !! w = Some l.

(** [PutPrototypeTransition] does cache: the map is neither a prototype map
    nor a dictionary map, and the flag is set. *)
Definition caches_prototype_transitions (σ : State) : Prop :=
  is_prototype_map σ = false ∧ is_dictionary_map σ = false
  ∧ FLAG_cache_prototype_transitions = true.

(** ** The transitions of a map *)

(** The transition an entry of an array stands for, if its key and its
    target are written and the target is not cleared. *)
Definition entry_transition (e : Entry) : option (Name * Map) :=
  match entry_key e, entry_target e with
  | Some key, Weak m => Some (key, m)
  | _, _ => None
  end.

(** The transitions of an array, read off its first
    [number_of_transitions()] entries. *)
Definition array_transitions (a : TransitionArray) : list (Name * Map) :=
  omap entry_transition (take (Z.to_nat (transition_length a)) (entries a)).

(** The transitions of the map, whatever the encoding. *)
Definition transitions_of (σ : State) : list (Name * Map) :=
  match map_raw_transitions σ with
  | Weak s => [simple_entry s]
  | StrongTransitionArray address =>
      match transition_arrays σ !! address with
      | Some a => array_transitions a
      | None => []
      end
  | _ => []
  end.

(** ** What a call of [Insert] does to the transitions of the map *)

(** The two ways in which a call of [Insert] that got past its first
    assertions does not return.  A clash: the map has one simple transition,
    the new transition has its name, kind and attributes but is not a simple
    property transition, and the old target is alive when the array of two
    is allocated.  An overflow: the map has a transition array, none of its
    transitions has the tuple of the new one, and there is no room below
    [kMaxNumberOfTransitions]. *)
Definition insert_clash (name : Name) (target : Map) (flag : SimpleTransitionFlag)
    (σ : State) : Prop :=
  ∃ s, map_raw_transitions σ = Weak s
    ∧ retransition flag s name target = false
    ∧ transition_tuple (name, target) = transition_tuple (simple_entry s)
    ∧ next_dead σ s = false.

Definition insert_overflow (name : Name) (target : Map) (σ : State) : Prop :=
  ∃ address, map_raw_transitions σ = StrongTransitionArray address
    ∧ (∀ e, e ∈ transitions_of σ →
         transition_tuple e ≠ transition_tuple (name, target))
    ∧ kMaxNumberOfTransitions < Z.of_nat (length (transitions_of σ)) + 1.

(** The transitions that stay when [(name, target)] is inserted: those with
    another tuple and, if the call allocated, a target that the collection
    at the allocation did not find dead. *)
Definition stays (name : Name) (target : Map) (collected : bool) (σ : State)
    (e : Name * Map) : Prop :=
  transition_tuple e ≠ transition_tuple (name, target)
  ∧ (if collected then next_dead σ e.2 else false) = false.

#[global] Instance stays_dec name target collected σ e :
  Decision (stays name target collected σ e).
Proof. unfold stays. apply _. Defined.

(** The effect of a call of [Insert] that returns, on the transitions of
    the map: the new one is in, the one with its tuple is out, and so are
    those that the collection cleared, if the call allocated. *)
Definition insert_effect (name : Name) (target : Map) (σ σ' : State) : Prop :=
  ∃ collected : bool,
    collections σ' = (if collected then tail (collections σ) else collections σ)
    ∧ transitions_of σ'
      ≡ₚ (name, target) :: filter (stays name target collected σ) (transitions_of σ).

(** The targets of the entries at the front of [es] whose key is [key]. *)
Fixpoint run_of (key : Name) (es : list (Name * Map)) : list Map :=
  match es with
  | (current, target) :: es =>
      if bool_decide (current = key) then target :: run_of key es else []
  | [] => []
  end.

(** ** What the prototype cache answers *)

(** The maps of the slots that hold a weak reference that is not cleared,
    in the order of the slots. *)
Definition live_maps (slots : list MaybeObject) : list Map :=
  omap (λ o, match o with Weak m => Some m | _ => None end) slots.

(** The first of the maps that has the prototype. *)
Definition first_with_prototype (proto : N) (maps : list Map) : option Map :=
  head (filter (λ m, prototype m = proto) maps).

(** ** The transition tree *)

(** The maps one transition away from a map whose storage word is [raw]:
    what the traversal pushes for it, on an empty stack.  The head is the
    back of the stack, the map that the traversal visits first. *)
Definition children (arrays : list TransitionArray)
    (caches : list (list MaybeObject)) (raw : MaybeObject) : result (list Map) :=
  push_children arrays caches raw [].

(** Pre-order, depth first: a map, then the tree of each of its children in
    turn.  [depth] bounds the height of the tree; [None] says that the tree
    is higher, or that a storage word in it cannot be read. *)
Fixpoint preorder (raw_transitions_of : Map → MaybeObject)
    (arrays : list TransitionArray) (caches : list (list MaybeObject))
    (depth : nat) (m : Map) : option (list Map) :=
  match depth with
  | O => None
  | S depth =>
      match children arrays caches (raw_transitions_of m) with
      | Ok maps =>
          match mapM (preorder raw_transitions_of arrays caches depth) maps with
          | Some visited => Some (m :: concat visited)
          | None => None
          end
      | Err _ => None
      end
  end.

(** * Properties

    What follows is proved for every build ([DEBUG] true or false), every
    hash, every value of the constants and every slack policy, unless a
    statement names an assumption. *)

(** ** The monad *)

Lemma bind_Ok {A B} (m : M A) (k : A → M B) σ a σ' :
  m σ = Ok (a, σ') → bind m k σ = k a σ'.
Proof. unfold bind. by intros ->. Qed.

Lemma bind_Err {A B} (m : M A) (k : A → M B) σ e :
  m σ = Err e → bind m k σ = Err e.
Proof. unfold bind. by intros ->. Qed.

Lemma bind_inv {A B} (m : M A) (k : A → M B) σ r :
  bind m k σ = Ok r → ∃ a σ', m σ = Ok (a, σ') ∧ k a σ' = Ok r.
Proof.
  unfold bind. destruct (m σ) as [[a σ']|e]; [|done]. intros H. by exists a, σ'.
Qed.

Lemma DCHECK_true σ : DCHECK true σ = Ok (tt, σ).
Proof. unfold DCHECK, rDCHECK, lift. by rewrite andb_false_r. Qed.

Lemma DCHECK_inv c σ r : DCHECK c σ = Ok r → r = (tt, σ) ∧ (DEBUG = true → c = true).
Proof.
  unfold DCHECK, rDCHECK, lift. destruct DEBUG, c; simpl; intros H; by simplify_eq.
Qed.

Lemma rDCHECK_true : rDCHECK true = Ok tt.
Proof. unfold rDCHECK. by rewrite andb_false_r. Qed.

(** ** The migration target *)

(** C10.  [SetMigrationTarget] on a map whose encoding is anything but
    [kUninitialized] returns at once: the state is the one it was called in
    and no assertion is evaluated, in a debug build or a release build.  Only
    on an uninitialized map does it store the migration target, and the
    encoding a fresh accessor then finds is [kMigrationTarget]; the assertion
    that guards that store asks the map to be deprecated. *)
Theorem SetMigrationTarget_only_when_uninitialized (migration_target : Map) (σ : State) :
  (encoding_ σ ≠ kUninitialized →
     SetMigrationTarget migration_target σ = Ok (tt, σ))
  ∧ (encoding_ σ = kUninitialized →
     SetMigrationTarget migration_target σ =
       if DEBUG && negb (is_deprecated σ) then Err DCHECK_failed
       else Ok (tt, set_map_raw_transitions (StrongMap migration_target) σ))
  ∧ encoding_ (TransitionsAccessor_new
                 (set_map_raw_transitions (StrongMap migration_target) σ))
      = kMigrationTarget
  ∧ (∀ σ', SetMigrationTarget migration_target σ = Ok (tt, σ') →
       map_raw_transitions σ' ≠ map_raw_transitions σ →
       encoding_ σ = kUninitialized).
Proof.
  unfold SetMigrationTarget, encoding, gets, bind.
  repeat split.
  - intros Hne. by rewrite bool_decide_eq_false_2.
  - intros ->. simpl. unfold DCHECK, rDCHECK, lift, modify.
    by destruct (DEBUG && negb (is_deprecated σ)).
  - intros σ'. destruct (decide (encoding_ σ = kUninitialized)) as [|Hne]; [done|].
    rewrite bool_decide_eq_false_2 by done. simpl.
    unfold ret. intros [= <-]. done.
Qed.

(** ** Reading the store *)

Lemma lift_inv {A} (r : result A) σ x :
  lift r σ = Ok x → ∃ a, r = Ok a ∧ x = (a, σ).
Proof. unfold lift. destruct r; intros H; simplify_eq; eauto. Qed.

Lemma load_array_inv address σ a σ' :
  load_array address σ = Ok (a, σ') →
  σ' = σ ∧ transition_arrays σ !! address = Some a.
Proof.
  unfold load_array. destruct (transition_arrays σ !! address); intros H; by simplify_eq.
Qed.

Lemma on_array_inv {A} address (f : TransitionArray → result A) σ r σ' :
  on_array address f σ = Ok (r, σ') →
  σ' = σ ∧ ∃ a, transition_arrays σ !! address = Some a ∧ f a = Ok r.
Proof.
  unfold on_array. intros (a & σ1 & H1 & H2)%bind_inv.
  apply load_array_inv in H1 as [-> H1].
  apply lift_inv in H2 as (r' & H2 & ?). simplify_eq. eauto.
Qed.

Lemma on_array_Ok {A} address (f : TransitionArray → result A) σ a r :
  transition_arrays σ !! address = Some a → f a = Ok r →
  on_array address f σ = Ok (r, σ).
Proof.
  intros Ha Hf. unfold on_array, bind, load_array, lift. by rewrite Ha, Hf.
Qed.

Lemma transitions_inv σ address σ' :
  transitions σ = Ok (address, σ') →
  σ' = σ ∧ raw_transitions_ σ = StrongTransitionArray address.
Proof.
  unfold transitions. destruct (raw_transitions_ σ); intros H; by simplify_eq.
Qed.

(** A search does not change the state. *)
Lemma SearchSpecial_state name σ r σ' :
  SearchSpecial name σ = Ok (r, σ') → σ' = σ.
Proof.
  unfold SearchSpecial, encoding, gets. intros (e & σ1 & H1 & H)%bind_inv.
  simplify_eq. destruct (negb _); [by unfold ret in H; simplify_eq|].
  apply bind_inv in H as (address & σ2 & [-> _]%transitions_inv & H).
  apply bind_inv in H as ([transition out] & σ3 & [-> _]%on_array_inv & H).
  destruct (transition =? kNotFound); [by unfold ret in H; simplify_eq|].
  apply bind_inv in H as (target & σ4 & [-> _]%on_array_inv & H).
  by unfold ret in H; simplify_eq.
Qed.

(** ** Integrity levels *)

(** C8.  [HasIntegrityLevelTransitionTo] asks for the special transition
    under the frozen symbol, then the sealed one, then the non-extensible
    one, and answers with the symbol and level of the first whose target is
    [to].  So when the three symbols lead to three distinct maps, each of
    them is reported with its own symbol and level, and a map that is none of
    the three is not reported at all. *)
Theorem HasIntegrityLevelTransitionTo_first_match (σ : State)
    (frozen sealed nonextensible : option Map) :
  SearchSpecial frozen_symbol σ = Ok (frozen, σ) →
  SearchSpecial sealed_symbol σ = Ok (sealed, σ) →
  SearchSpecial nonextensible_symbol σ = Ok (nonextensible, σ) →
  (∀ to, HasIntegrityLevelTransitionTo to σ =
     Ok (if bool_decide (frozen = to) then Some (frozen_symbol, FROZEN)
         else if bool_decide (sealed = to) then Some (sealed_symbol, SEALED)
         else if bool_decide (nonextensible = to)
              then Some (nonextensible_symbol, NONE)
         else None, σ))
  ∧ (∀ t1 t2 t3,
       frozen = Some t1 → sealed = Some t2 → nonextensible = Some t3 →
       t1 ≠ t2 → t1 ≠ t3 → t2 ≠ t3 →
       HasIntegrityLevelTransitionTo (Some t1) σ = Ok (Some (frozen_symbol, FROZEN), σ)
       ∧ HasIntegrityLevelTransitionTo (Some t2) σ = Ok (Some (sealed_symbol, SEALED), σ)
       ∧ HasIntegrityLevelTransitionTo (Some t3) σ
           = Ok (Some (nonextensible_symbol, NONE), σ)
       ∧ ∀ t, t ≠ t1 → t ≠ t2 → t ≠ t3 →
           HasIntegrityLevelTransitionTo (Some t) σ = Ok (None, σ)).
Proof.
  intros Hf Hs Hn.
  assert (∀ to, HasIntegrityLevelTransitionTo to σ =
     Ok (if bool_decide (frozen = to) then Some (frozen_symbol, FROZEN)
         else if bool_decide (sealed = to) then Some (sealed_symbol, SEALED)
         else if bool_decide (nonextensible = to)
              then Some (nonextensible_symbol, NONE)
         else None, σ)) as Hgen.
  { intros to. unfold HasIntegrityLevelTransitionTo.
    rewrite (bind_Ok _ _ _ _ _ Hf). case_bool_decide; [done|].
    rewrite (bind_Ok _ _ _ _ _ Hs). case_bool_decide; [done|].
    rewrite (bind_Ok _ _ _ _ _ Hn). by case_bool_decide. }
  split; [done|].
  intros t1 t2 t3 -> -> -> H12 H13 H23.
  repeat split; [..|intros t ? ? ?]; rewrite Hgen; repeat case_bool_decide; congruence.
Qed.

(** ** Reading and writing an array *)

Lemma rbind_Ok {A B} (r : result A) (k : A → result B) a :
  r = Ok a → rbind r k = k a.
Proof. by intros ->. Qed.

Lemma GetEntry_nat a (i : nat) e :
  entries a !! i = Some e → GetEntry a (Z.of_nat i) = Ok e.
Proof.
  intros H. unfold GetEntry. rewrite bool_decide_eq_true_2 by lia.
  by rewrite Nat2Z.id, H.
Qed.

Lemma GetEntry_inv a i e :
  GetEntry a i = Ok e → 0 ≤ i ∧ entries a !! Z.to_nat i = Some e.
Proof.
  unfold GetEntry. case_bool_decide; [|done].
  destruct (entries a !! Z.to_nat i); intros ?; by simplify_eq.
Qed.

Lemma GetKey_nat a (i : nat) e :
  entries a !! i = Some e → GetKey a (Z.of_nat i) = Ok (entry_key e).
Proof. intros H. unfold GetKey. by rewrite (GetEntry_nat _ _ _ H). Qed.

Lemma GetRawTarget_nat a (i : nat) e :
  entries a !! i = Some e → GetRawTarget a (Z.of_nat i) = Ok (entry_target e).
Proof. intros H. unfold GetRawTarget. by rewrite (GetEntry_nat _ _ _ H). Qed.

Lemma SetKey_nat a (i : nat) e key :
  entries a !! i = Some e →
  SetKey a (Z.of_nat i) key =
    Ok (mkTransitionArray (prototype_transitions a) (transition_length a)
          (<[i := mkEntry key (entry_target e)]> (entries a))).
Proof. intros H. unfold SetKey. by rewrite (GetEntry_nat _ _ _ H), Nat2Z.id. Qed.

Lemma SetRawTarget_nat a (i : nat) e target :
  entries a !! i = Some e →
  SetRawTarget a (Z.of_nat i) target =
    Ok (mkTransitionArray (prototype_transitions a) (transition_length a)
          (<[i := mkEntry (entry_key e) target]> (entries a))).
Proof. intros H. unfold SetRawTarget. by rewrite (GetEntry_nat _ _ _ H), Nat2Z.id. Qed.

Lemma Set_nat a (i : nat) key target :
  (i < length (entries a))%nat →
  Set_ a (Z.of_nat i) key target =
    Ok (mkTransitionArray (prototype_transitions a) (transition_length a)
          (<[i := mkEntry key target]> (entries a))).
Proof.
  intros Hi. destruct (lookup_lt_is_Some_2 _ _ Hi) as [e He].
  unfold Set_. rewrite (SetKey_nat _ _ _ _ He). simpl.
  erewrite SetRawTarget_nat; simpl; [|by apply list_lookup_insert_eq].
  by rewrite list_insert_insert_eq.
Qed.

Lemma array_holds_lookup a es (i : nat) e :
  array_holds a es → es !! i = Some e → entries a !! i = Some (entry_of e).
Proof.
  intros [_ H] He.
  assert ((entry_of <$> es) !! i = Some (entry_of e)) as H' by by rewrite list_lookup_fmap, He.
  rewrite <- H in H'. by apply lookup_take_Some in H' as [H'' _].
Qed.

Lemma array_holds_capacity a es :
  array_holds a es → (length es ≤ length (entries a))%nat.
Proof.
  intros [_ H]. apply (f_equal length) in H.
  rewrite length_take, length_fmap in H. lia.
Qed.

Lemma array_holds_number a es :
  array_holds a es → number_of_transitions a = Z.of_nat (length es).
Proof. by intros [? _]. Qed.

Lemma array_holds_GetKey a es (i : nat) e :
  array_holds a es → es !! i = Some e → GetKey a (Z.of_nat i) = Ok (Some e.1).
Proof.
  intros Ha He. by rewrite (GetKey_nat _ _ _ (array_holds_lookup _ _ _ _ Ha He)).
Qed.

Lemma array_holds_GetTarget a es (i : nat) e :
  array_holds a es → es !! i = Some e → GetTarget a (Z.of_nat i) = Ok e.2.
Proof.
  intros Ha He. unfold GetTarget.
  by rewrite (GetRawTarget_nat _ _ _ (array_holds_lookup _ _ _ _ Ha He)).
Qed.

(** The array and the list agree on the searches. *)
Lemma SearchName_loop_list a es name out :
  array_holds a es →
  ∀ rest (i : nat), drop i es = rest →
    SearchName_loop a name (length rest) (Z.of_nat i) out
    = Ok (search_name rest name (Z.of_nat i) out).
Proof.
  intros Ha rest. induction rest as [|[key target] rest IH]; intros i Hdrop; [done|].
  assert (es !! i = Some (key, target)) as He.
  { rewrite <- (take_drop i es) at 1. rewrite Hdrop.
    assert (length (take i es) = i) as Hlen.
    { rewrite length_take. apply (f_equal length) in Hdrop.
      rewrite length_drop in Hdrop. simpl in Hdrop. lia. }
    rewrite lookup_app_r by lia. by rewrite Hlen, Nat.sub_diag. }
  simpl. rewrite (array_holds_GetKey _ _ _ _ Ha He). simpl.
  destruct (_ =? 0); [done|]. destruct (_ >? 0); [done|].
  replace (Z.of_nat i + 1) with (Z.of_nat (S i)) by lia.
  apply IH. apply drop_S in He. rewrite Hdrop in He. by simplify_eq.
Qed.

Lemma SearchName_list a es name out :
  array_holds a es →
  SearchName a name out = Ok (search_name es name 0 out).
Proof.
  intros Ha. unfold SearchName. rewrite (array_holds_number _ _ Ha), Nat2Z.id.
  by apply (SearchName_loop_list a es name out Ha es 0%nat).
Qed.

Lemma SearchDetails_loop_list a es key k attrs :
  array_holds a es →
  ∀ rest (i : nat), drop i es = rest →
    SearchDetails_loop a (Some key) k attrs (length rest) (Z.of_nat i)
    = Ok (search_details rest key k attrs (Z.of_nat i)).
Proof.
  intros Ha rest. induction rest as [|[current target] rest IH]; intros i Hdrop; [done|].
  assert (es !! i = Some (current, target)) as He.
  { rewrite <- (take_drop i es) at 1. rewrite Hdrop.
    assert (length (take i es) = i) as Hlen.
    { rewrite length_take. apply (f_equal length) in Hdrop.
      rewrite length_drop in Hdrop. simpl in Hdrop. lia. }
    rewrite lookup_app_r by lia. by rewrite Hlen, Nat.sub_diag. }
  simpl. rewrite (array_holds_GetKey _ _ _ _ Ha He). simpl.
  destruct (decide (current = key)) as [->|Hne].
  - rewrite !bool_decide_eq_true_2 by done. simpl.
    rewrite (array_holds_GetTarget _ _ _ _ Ha He). simpl.
    destruct (_ =? 0); [done|]. destruct (_ <? 0); [done|].
    replace (Z.of_nat i + 1) with (Z.of_nat (S i)) by lia.
    apply IH. apply drop_S in He. rewrite Hdrop in He. by simplify_eq.
  - rewrite !bool_decide_eq_false_2 by congruence. done.
Qed.

(** ** The order of the keys *)

Ltac compare_cases :=
  unfold transition_lt, tuple_lt, compare_tuples, CompareKeys, CompareNames,
    CompareDetails, kind_to_int in *;
  simpl in *;
  repeat match goal with
    | |- context [bool_decide ?P] => destruct (decide P);
        [rewrite (bool_decide_eq_true_2 P) by done
        |rewrite (bool_decide_eq_false_2 P) by done]
    | H : context [bool_decide ?P] |- _ => destruct (decide P);
        [rewrite (bool_decide_eq_true_2 P) in H by done
        |rewrite (bool_decide_eq_false_2 P) in H by done]
    | |- context [?a >? ?b] => rewrite (Z.gtb_ltb a b)
    | H : context [?a >? ?b] |- _ => rewrite (Z.gtb_ltb a b) in H
    | |- context [?a <=? ?b] => destruct (Z.leb_spec a b)
    | H : context [?a <=? ?b] |- _ => destruct (Z.leb_spec a b)
    | |- context [?a <? ?b] => destruct (Z.ltb_spec a b)
    | H : context [?a <? ?b] |- _ => destruct (Z.ltb_spec a b)
    | |- context [?a =? ?b] => destruct (Z.eqb_spec a b)
    | H : context [?a =? ?b] |- _ => destruct (Z.eqb_spec a b)
    | |- context [match ?k with kData => _ | kAccessor => _ end] => destruct k
    | H : context [match ?k with kData => _ | kAccessor => _ end] |- _ => destruct k
    end;
  simpl in *; simplify_eq; try lia; try done.

Lemma CompareNames_zero key1 key2 :
  CompareNames key1 (hash key1) key2 (hash key2) = 0 ↔ key1 = key2.
Proof. split; intros H; compare_cases. Qed.

Lemma CompareNames_pos key1 key2 :
  CompareNames key1 (hash key1) key2 (hash key2) > 0
  ↔ key1 ≠ key2 ∧ hash key2 < hash key1.
Proof. split; [intros H|intros [H1 H2]]; compare_cases. Qed.

Lemma CompareNames_neg key1 key2 :
  CompareNames key1 (hash key1) key2 (hash key2) < 0
  ↔ key1 ≠ key2 ∧ hash key1 ≤ hash key2.
Proof. split; [intros H|intros [H1 H2]]; compare_cases. Qed.

Lemma CompareDetails_zero k1 a1 k2 a2 :
  CompareDetails k1 a1 k2 a2 = 0 ↔ k1 = k2 ∧ a1 = a2.
Proof. split; [intros H|intros [H1 H2]]; compare_cases. Qed.

Lemma CompareDetails_antisym k1 a1 k2 a2 :
  CompareDetails k1 a1 k2 a2 > 0 ↔ CompareDetails k2 a2 k1 a1 < 0.
Proof. split; intros H; compare_cases. Qed.

Lemma CompareDetails_neg k1 a1 k2 a2 :
  CompareDetails k1 a1 k2 a2 < 0
  ↔ kind_to_int k1 < kind_to_int k2 ∨ (k1 = k2 ∧ a1 < a2).
Proof.
  split; [intros H|intros [H|[-> H]]]; compare_cases.
  all: try (right; split; [done|lia]); try (left; lia).
Qed.

Lemma CompareDetails_trans k1 a1 k2 a2 k3 a3 :
  CompareDetails k1 a1 k2 a2 < 0 → CompareDetails k2 a2 k3 a3 < 0 →
  CompareDetails k1 a1 k3 a3 < 0.
Proof.
  rewrite !CompareDetails_neg. intros [H1|[-> H1]] [H2|[-> H2]].
  - left. lia.
  - left. lia.
  - left. lia.
  - right. split; [done|lia].
Qed.

Lemma compare_tuples_zero t1 t2 : compare_tuples t1 t2 = 0 ↔ t1 = t2.
Proof.
  destruct t1 as [[n1 k1] a1], t2 as [[n2 k2] a2].
  split; intros H; compare_cases.
Qed.

Lemma compare_tuples_same_name n k1 a1 k2 a2 :
  compare_tuples (n, k1, a1) (n, k2, a2) = CompareDetails k1 a1 k2 a2.
Proof. compare_cases. Qed.

Lemma compare_tuples_other_name n1 k1 a1 n2 k2 a2 :
  n1 ≠ n2 →
  compare_tuples (n1, k1, a1) (n2, k2, a2) = if hash n1 <=? hash n2 then -1 else 1.
Proof. intros H. compare_cases. Qed.

Lemma tuple_lt_hash t1 t2 : tuple_lt t1 t2 → hash t1.1.1 ≤ hash t2.1.1.
Proof.
  destruct t1 as [[n1 k1] a1], t2 as [[n2 k2] a2]. intros H. compare_cases.
Qed.

Lemma tuple_lt_irrefl t : ¬ tuple_lt t t.
Proof. destruct t as [[n k] a]. intros H. compare_cases. Qed.

Section InjectiveHash.

Hypothesis hash_inj : hash_injective.

Lemma tuple_lt_trans t1 t2 t3 : tuple_lt t1 t2 → tuple_lt t2 t3 → tuple_lt t1 t3.
Proof using hash_inj.
  destruct t1 as [[n1 k1] a1], t2 as [[n2 k2] a2], t3 as [[n3 k3] a3].
  intros H1 H2.
  destruct (decide (n1 = n2)) as [->|H12], (decide (n2 = n3)) as [->|H23].
  - unfold tuple_lt in *. rewrite compare_tuples_same_name in *.
    by eapply CompareDetails_trans.
  - unfold tuple_lt in *. rewrite compare_tuples_other_name in * by done. done.
  - unfold tuple_lt in *. rewrite compare_tuples_other_name in * by done. done.
  - assert (hash n1 ≠ hash n2) by (intros ?%hash_inj; done).
    assert (hash n2 ≠ hash n3) by (intros ?%hash_inj; done).
    unfold tuple_lt in *. rewrite compare_tuples_other_name in H1, H2 by done.
    destruct (decide (n1 = n3)) as [->|H13].
    + destruct (Z.leb_spec (hash n3) (hash n2)), (Z.leb_spec (hash n2) (hash n3)); lia.
    + rewrite compare_tuples_other_name by done.
      destruct (Z.leb_spec (hash n1) (hash n2)), (Z.leb_spec (hash n2) (hash n3)),
        (Z.leb_spec (hash n1) (hash n3)); lia.
Qed.

Lemma compare_tuples_antisym t1 t2 :
  compare_tuples t1 t2 > 0 ↔ tuple_lt t2 t1.
Proof using hash_inj.
  destruct t1 as [[n1 k1] a1], t2 as [[n2 k2] a2]. unfold tuple_lt.
  destruct (decide (n1 = n2)) as [->|Hne].
  - rewrite !compare_tuples_same_name. apply CompareDetails_antisym.
  - assert (hash n1 ≠ hash n2) by (intros ?%hash_inj; done).
    rewrite !compare_tuples_other_name by done.
    destruct (Z.leb_spec (hash n1) (hash n2)), (Z.leb_spec (hash n2) (hash n1)); lia.
Qed.

Lemma compare_tuples_total t1 t2 :
  tuple_lt t1 t2 ∨ t1 = t2 ∨ tuple_lt t2 t1.
Proof using hash_inj.
  destruct (Z.lt_trichotomy (compare_tuples t1 t2) 0) as [?|[?|?]].
  - by left.
  - right. left. by apply compare_tuples_zero.
  - right. right. apply compare_tuples_antisym. lia.
Qed.

#[local] Instance transition_lt_trans : Transitive transition_lt.
Proof using hash_inj. intros e1 e2 e3. apply tuple_lt_trans. Qed.

End InjectiveHash.

(** ** The searches on a list of transitions *)

Lemma search_name_scan es name out : ∀ i idx out',
  search_name es name i out = (idx, out') →
  ∃ n : nat, (n ≤ length es)%nat
    ∧ Forall (λ e, e.1 ≠ name ∧ hash e.1 ≤ hash name) (take n es)
    ∧ ((idx = i + Z.of_nat n ∧ out' = out ∧ ∃ m, es !! n = Some (name, m))
       ∨ (idx = kNotFound ∧ out' = i + Z.of_nat n
          ∧ (n = length es
             ∨ ∃ e, es !! n = Some e ∧ e.1 ≠ name ∧ hash name < hash e.1))).
Proof.
  induction es as [|[key m] es IH]; intros i idx out' H; simpl in H.
  { simplify_eq. exists 0%nat. split; [done|]. split; [by constructor|].
    right. split_and!; [done|lia|by left]. }
  destruct (Z.eqb_spec (CompareNames key (hash key) name (hash name)) 0) as [Hz|Hz].
  { simplify_eq. apply CompareNames_zero in Hz as ->.
    exists 0%nat. split; [simpl; lia|]. split; [by constructor|].
    left. split_and!; [lia|done|by exists m]. }
  rewrite Z.gtb_ltb in H.
  destruct (Z.ltb_spec 0 (CompareNames key (hash key) name (hash name))) as [Hp|Hp].
  { simplify_eq. assert (CompareNames key (hash key) name (hash name) > 0) as Hp' by lia.
    apply CompareNames_pos in Hp' as [? ?].
    exists 0%nat. split; [simpl; lia|]. split; [by constructor|].
    right. split_and!; [done|lia|]. right. by exists (key, m). }
  assert (CompareNames key (hash key) name (hash name) < 0) as Hn by lia.
  apply CompareNames_neg in Hn as [? ?].
  destruct (IH _ _ _ H) as (n & Hn & Hall & Hres).
  exists (S n). split; [simpl; lia|]. split; [by constructor|].
  destruct Hres as [(-> & -> & Hm)|(-> & -> & Hm)].
  - left. split_and!; [lia|done|done].
  - right. split_and!; [done|lia|]. destruct Hm as [->|Hm]; [by left|by right].
Qed.

Lemma search_details_scan es key k attrs : ∀ i r j,
  search_details es key k attrs i = (r, j) →
  ∃ n : nat, j = i + Z.of_nat n ∧ (n ≤ length es)%nat
    ∧ Forall (λ e, e.1 = key
                   ∧ CompareDetails k attrs (kind (LastAddedDetails e.2))
                       (attributes (LastAddedDetails e.2)) > 0) (take n es)
    ∧ match r with
      | Some m => es !! n = Some (key, m)
                  ∧ CompareDetails k attrs (kind (LastAddedDetails m))
                      (attributes (LastAddedDetails m)) = 0
      | None => n = length es
                ∨ ∃ e, es !! n = Some e
                   ∧ (e.1 ≠ key
                      ∨ CompareDetails k attrs (kind (LastAddedDetails e.2))
                          (attributes (LastAddedDetails e.2)) < 0)
      end.
Proof.
  induction es as [|[current m] es IH]; intros i r j H; simpl in H.
  { simplify_eq. exists 0%nat. refine (conj _ (conj _ (conj _ _))); [lia|done|by constructor|by left]. }
  destruct (decide (current = key)) as [->|Hne].
  2: { rewrite bool_decide_eq_false_2 in H by done. simpl in H. simplify_eq.
       exists 0%nat. refine (conj _ (conj _ (conj _ _))); [lia|simpl; lia|by constructor|].
       right. exists (current, m). split; [done|by left]. }
  rewrite bool_decide_eq_true_2 in H by done. simpl in H.
  unfold GetTargetDetails in H.
  set (c := CompareDetails k attrs (kind (LastAddedDetails m))
              (attributes (LastAddedDetails m))) in *.
  destruct (Z.eqb_spec c 0) as [Hz|Hz].
  { simplify_eq. exists 0%nat. refine (conj _ (conj _ (conj _ _))); [lia|simpl; lia|by constructor|done]. }
  destruct (Z.ltb_spec c 0) as [Hp|Hp].
  { simplify_eq. exists 0%nat. refine (conj _ (conj _ (conj _ _))); [lia|simpl; lia|by constructor|].
    right. exists (key, m). split; [done|by right]. }
  destruct (IH _ _ _ H) as (n & -> & Hn & Hall & Hres).
  exists (S n). refine (conj _ (conj _ (conj _ _))); [lia|simpl; lia| |].
  - simpl. constructor; [|done]. split; [done|]. change (c > 0). lia.
  - destruct r; simpl; [done|]. destruct Hres as [->|?]; [by left|by right].
Qed.

(** The array and the list agree on [Search] and on [SearchAndGetTarget]. *)
Lemma SearchDetails_list a es name m (n : nat) k attrs out :
  array_holds a es → es !! n = Some (name, m) →
  SearchDetails a (Z.of_nat n) k attrs out =
    Ok (let '(found, transition) :=
          search_details (drop n es) name k attrs (Z.of_nat n) in
        match found with
        | Some _ => (transition, out)
        | None => (kNotFound, transition)
        end).
Proof.
  intros Ha He. unfold SearchDetails.
  assert (n < length es)%nat as Hlt by by eapply lookup_lt_Some.
  rewrite (array_holds_number _ _ Ha).
  replace (Z.of_nat n <? Z.of_nat (length es)) with true by (symmetry; apply Z.ltb_lt; lia).
  rewrite rDCHECK_true. simpl.
  rewrite (array_holds_GetKey _ _ _ _ Ha He). simpl.
  replace (Z.to_nat (Z.of_nat (length es) - Z.of_nat n)) with (length (drop n es))
    by (rewrite length_drop; lia).
  rewrite (SearchDetails_loop_list a es name k attrs Ha (drop n es) n eq_refl). simpl.
  by destruct (search_details _ _ _ _ _) as [[?|] ?].
Qed.

Lemma Search_list a es k name attrs out :
  array_holds a es →
  Search a k name attrs out = Ok (search_list es k name attrs out).
Proof.
  intros Ha. unfold Search, search_list. rewrite (SearchName_list _ _ _ _ Ha). simpl.
  destruct (search_name es name 0 out) as [transition out'] eqn:Hs.
  destruct (search_name_scan _ _ _ _ _ _ Hs) as (n & Hn & _ & [(-> & -> & m & He)|(-> & _)]).
  - replace (0 + Z.of_nat n =? kNotFound) with false
      by (symmetry; apply Z.eqb_neq; unfold kNotFound; lia).
    replace (0 + Z.of_nat n) with (Z.of_nat n) by lia.
    rewrite (SearchDetails_list _ _ _ _ _ _ _ _ Ha He). by rewrite Nat2Z.id.
  - done.
Qed.

Lemma SearchDetailsAndGetTarget_list a es name m (n : nat) k attrs :
  array_holds a es → es !! n = Some (name, m) →
  SearchDetailsAndGetTarget a (Z.of_nat n) k attrs =
    Ok (search_details (drop n es) name k attrs (Z.of_nat n)).1.
Proof.
  intros Ha He. unfold SearchDetailsAndGetTarget.
  assert (n < length es)%nat as Hlt by by eapply lookup_lt_Some.
  rewrite (array_holds_number _ _ Ha).
  replace (Z.of_nat n <? Z.of_nat (length es)) with true by (symmetry; apply Z.ltb_lt; lia).
  rewrite rDCHECK_true. simpl.
  rewrite (array_holds_GetKey _ _ _ _ Ha He). simpl.
  replace (Z.to_nat (Z.of_nat (length es) - Z.of_nat n)) with (length (drop n es))
    by (rewrite length_drop; lia).
  rewrite (SearchDetails_loop_list a es name k attrs Ha (drop n es) n eq_refl). simpl.
  by destruct (search_details _ _ _ _ _).
Qed.

Lemma SearchAndGetTarget_list a es k name attrs :
  array_holds a es →
  SearchAndGetTarget a k name attrs = Ok (search_target_list es k name attrs).
Proof.
  intros Ha. unfold SearchAndGetTarget, search_target_list.
  rewrite (SearchName_list _ _ _ _ Ha). simpl.
  destruct (search_name es name 0 kNotFound) as [transition out'] eqn:Hs.
  destruct (search_name_scan _ _ _ _ _ _ Hs) as (n & Hn & _ & [(-> & -> & m & He)|(-> & _)]).
  - replace (0 + Z.of_nat n =? kNotFound) with false
      by (symmetry; apply Z.eqb_neq; unfold kNotFound; lia).
    replace (0 + Z.of_nat n) with (Z.of_nat n) by lia.
    rewrite (SearchDetailsAndGetTarget_list _ _ _ _ _ _ _ Ha He). by rewrite Nat2Z.id.
  - done.
Qed.

Lemma transition_tuple_name e : (transition_tuple e).1.1 = e.1.
Proof. unfold transition_tuple. by destruct (IsSpecialTransition e.1). Qed.

Lemma transition_tuple_special name m :
  IsSpecialTransition name = true → transition_tuple (name, m) = (name, kData, NONE).
Proof. unfold transition_tuple. simpl. by intros ->. Qed.

Lemma transition_tuple_property name m :
  IsSpecialTransition name = false →
  transition_tuple (name, m)
  = (name, kind (LastAddedDetails m), attributes (LastAddedDetails m)).
Proof. unfold transition_tuple. simpl. by intros ->. Qed.

Lemma entry_below_other_name t e :
  e.1 ≠ t.1.1 → hash e.1 ≤ hash t.1.1 → entry_below t e.
Proof.
  intros Hne Hle. unfold entry_below, tuple_lt.
  pose proof (transition_tuple_name e) as Hn.
  destruct (transition_tuple e) as [[n k] a], t as [[n' k'] a']. simpl in *. subst n.
  rewrite compare_tuples_other_name by done.
  destruct (Z.leb_spec (hash e.1) (hash n')); lia.
Qed.

Lemma entry_above_other_name t e :
  e.1 ≠ t.1.1 → hash t.1.1 ≤ hash e.1 → entry_above t e.
Proof.
  intros Hne Hle. unfold entry_above, tuple_lt.
  pose proof (transition_tuple_name e) as Hn.
  destruct (transition_tuple e) as [[n k] a], t as [[n' k'] a']. simpl in *. subst n.
  rewrite compare_tuples_other_name by done.
  destruct (Z.leb_spec (hash n') (hash e.1)); lia.
Qed.

Lemma sorted_transitions_lookup es (i j : nat) e1 e2 :
  sorted_transitions es → (i < j)%nat → es !! i = Some e1 → es !! j = Some e2 →
  transition_lt e1 e2.
Proof.
  intros Hs Hij H1 H2. unfold sorted_transitions in Hs.
  rewrite <- (take_drop j es) in Hs.
  eapply (StronglySorted_app_1_elem_of _ _ _ _ _ Hs).
  - apply list_elem_of_lookup. exists i. by rewrite lookup_take_lt.
  - apply list_elem_of_lookup. exists 0%nat. by rewrite lookup_drop, Nat.add_0_r.
Qed.

Section SortedSearch.

Hypothesis hash_inj : hash_injective.

Lemma entry_above_drop es t (n : nat) e :
  sorted_transitions es → es !! n = Some e → entry_above t e →
  Forall (entry_above t) (drop n es).
Proof using hash_inj.
  intros Hs He Ht. apply Forall_lookup. intros i e' Hi.
  rewrite lookup_drop in Hi. destruct i as [|i].
  - rewrite Nat.add_0_r in Hi. by simplify_eq.
  - unfold entry_above. eapply tuple_lt_trans; [done|exact Ht|].
    eapply (sorted_transitions_lookup es n (n + S i)); [done|lia|done|done].
Qed.

Lemma search_name_answer es name out (m : Map) :
  sorted_transitions es → IsSpecialTransition name = true →
  search_answer es (transition_tuple (name, m)) name out (search_name es name 0 out).
Proof using hash_inj.
  intros Hs Hsp. rewrite (transition_tuple_special _ _ Hsp).
  destruct (search_name es name 0 out) as [idx out'] eqn:Hsearch.
  destruct (search_name_scan _ _ _ _ _ _ Hsearch)
    as (n & Hn & Hall & [(-> & -> & m' & He)|(-> & -> & Hstop)]).
  - right. exists n, (name, m'). simpl. split_and!; [lia|done|done|done|].
    by apply transition_tuple_special.
  - left. split; [done|]. exists n. simpl. split_and!; [lia|done| |].
    + eapply Forall_impl; [|exact Hall]. intros e [? ?].
      by apply entry_below_other_name.
    + destruct Hstop as [->|(e & He & Hne & Hlt)]; [by rewrite drop_all|].
      eapply entry_above_drop; [done|done|].
      apply entry_above_other_name; simpl; [done|lia].
Qed.

Lemma search_list_answer es name out (m : Map) :
  sorted_transitions es → IsSpecialTransition name = false →
  search_answer es (transition_tuple (name, m)) name out
    (search_list es (kind (GetTargetDetails name m)) name
       (attributes (GetTargetDetails name m)) out).
Proof using hash_inj.
  intros Hs Hsp. rewrite (transition_tuple_property _ _ Hsp).
  unfold search_list, GetTargetDetails.
  set (k := kind (LastAddedDetails m)). set (a := attributes (LastAddedDetails m)).
  destruct (search_name es name 0 out) as [idx out'] eqn:Hsearch.
  destruct (search_name_scan _ _ _ _ _ _ Hsearch)
    as (n & Hn & Hall & [(-> & -> & m' & He)|(-> & -> & Hstop)]).
  2: { simpl. left. split; [done|]. exists n. simpl. split_and!; [lia|done| |].
       + eapply Forall_impl; [|exact Hall]. intros e [? ?].
         by apply entry_below_other_name.
       + destruct Hstop as [->|(e & He & Hne & Hlt)]; [by rewrite drop_all|].
         eapply entry_above_drop; [done|done|].
         apply entry_above_other_name; simpl; [done|lia]. }
  replace (0 + Z.of_nat n =? kNotFound) with false
    by (symmetry; apply Z.eqb_neq; unfold kNotFound; lia).
  replace (0 + Z.of_nat n) with (Z.of_nat n) by lia. rewrite Nat2Z.id.
  destruct (search_details (drop n es) name k a (Z.of_nat n)) as [found j] eqn:Hd.
  destruct (search_details_scan _ _ _ _ _ _ _ Hd) as (n' & -> & Hn' & Hrun & Hres).
  rewrite length_drop in Hn'.
  assert (Forall (entry_below (name, k, a)) (take (n + n') es)) as Hbelow.
  { rewrite <- take_take_drop. apply Forall_app. split.
    - eapply Forall_impl; [|exact Hall]. intros e [? ?].
      by apply entry_below_other_name.
    - eapply Forall_impl; [|exact Hrun]. intros [key m''] [Hkey Hcmp]. simpl in *.
      subst key. unfold entry_below, tuple_lt.
      rewrite (transition_tuple_property _ _ Hsp), compare_tuples_same_name.
      by apply CompareDetails_antisym. }
  destruct found as [target|].
  - destruct Hres as [Hlook Hcmp]. rewrite lookup_drop in Hlook.
    right. exists (n + n')%nat, (name, target). simpl.
    split_and!; [lia|done|done|done|].
    rewrite (transition_tuple_property _ _ Hsp).
    apply CompareDetails_zero in Hcmp as [-> ->]. done.
  - left. split; [done|]. exists (n + n')%nat. simpl. split_and!; [lia|lia|done|].
    destruct Hres as [->|(e & Hlook & Hcase)].
    { rewrite drop_ge by (rewrite length_drop; lia). constructor. }
    rewrite lookup_drop in Hlook.
    eapply entry_above_drop; [done|done|].
    destruct (decide (e.1 = name)) as [Heq|Hne].
    + destruct Hcase as [?|Hcmp]; [done|].
      destruct e as [key m'']. simpl in *. subst key.
      unfold entry_above, tuple_lt.
      by rewrite (transition_tuple_property _ _ Hsp), compare_tuples_same_name.
    + apply entry_above_other_name; simpl; [done|].
      destruct n' as [|n'].
      { rewrite Nat.add_0_r in Hlook. simplify_eq. }
      pose proof (sorted_transitions_lookup es n (n + S n') _ _ Hs ltac:(lia) He Hlook) as Hlt.
      apply tuple_lt_hash in Hlt. by rewrite !transition_tuple_name in Hlt.
Qed.

End SortedSearch.

(** ** Writing into an array *)

Lemma insert_at_lookup {A} (n : nat) (x : A) (l : list A) (j : nat) :
  (n ≤ length l)%nat →
  insert_at n x l !! j =
    if decide (j < n)%nat then l !! j
    else if decide (j = n) then Some x else l !! (j - 1)%nat.
Proof.
  intros Hn. unfold insert_at. rewrite lookup_app, lookup_take, length_take.
  destruct (decide (j < n)%nat) as [Hlt|Hge].
  - destruct (l !! j) eqn:Hj; [done|]. apply lookup_ge_None in Hj. lia.
  - replace (j - n `min` length l)%nat with (j - n)%nat by lia.
    destruct (decide (j = n)) as [->|Hne]; [by rewrite Nat.sub_diag|].
    destruct (j - n)%nat as [|d] eqn:Hd; [lia|]. simpl.
    rewrite lookup_drop. f_equal. lia.
Qed.

Lemma insert_at_length {A} (n : nat) (x : A) (l : list A) :
  length (insert_at n x l) = S (length l).
Proof.
  unfold insert_at. rewrite length_app. simpl. rewrite length_take, length_drop. lia.
Qed.

Lemma array_holds_intro a es :
  transition_length a = Z.of_nat (length es) →
  (∀ (i : nat) e, es !! i = Some e → entries a !! i = Some (entry_of e)) →
  array_holds a es.
Proof.
  intros Hn Hall. split; [done|]. apply list_eq. intros i.
  rewrite lookup_take, list_lookup_fmap.
  destruct (decide (i < length es)%nat) as [Hlt|Hge].
  - destruct (lookup_lt_is_Some_2 _ _ Hlt) as [e He]. by rewrite He, (Hall _ _ He).
  - rewrite (proj2 (lookup_ge_None es i)) by lia. done.
Qed.

(** Overwriting the target of entry [n]. *)
Lemma SetRawTarget_holds a es (n : nat) e target :
  array_holds a es → es !! n = Some e →
  ∃ a', SetRawTarget a (Z.of_nat n) (Weak target) = Ok a'
    ∧ array_holds a' (<[n := (e.1, target)]> es)
    ∧ length (entries a') = length (entries a)
    ∧ prototype_transitions a' = prototype_transitions a.
Proof.
  intros Ha He. pose proof (array_holds_lookup _ _ _ _ Ha He) as Hl.
  eexists. split; [by apply SetRawTarget_nat|]. simpl. split_and!.
  - apply array_holds_intro; cbn [transition_length entries].
    + rewrite length_insert. by apply Ha.
    + intros i e' Hi. rewrite list_lookup_insert in Hi. rewrite list_lookup_insert.
      assert (n < length es)%nat by by eapply lookup_lt_Some.
      assert (n < length (entries a))%nat by by eapply lookup_lt_Some.
      destruct (decide (n = i)) as [->|Hne].
      * rewrite decide_True in Hi by done. rewrite decide_True by done. by simplify_eq.
      * rewrite decide_False in Hi by tauto. rewrite decide_False by tauto.
        by eapply array_holds_lookup.
  - by rewrite length_insert.
  - done.
Qed.

(** One turn of the loop that shifts the entries up. *)
Lemma shift_up_lookup : ∀ (r : nat) a (i : nat),
  (r ≤ i)%nat → (i < length (entries a))%nat →
  ∃ a', shift_up a r (Z.of_nat i) = Ok a'
    ∧ transition_length a' = transition_length a
    ∧ prototype_transitions a' = prototype_transitions a
    ∧ length (entries a') = length (entries a)
    ∧ ∀ j : nat, entries a' !! j =
        if decide (i - r < j ≤ i)%nat then entries a !! (j - 1)%nat
        else entries a !! j.
Proof.
  induction r as [|r IH]; intros a i Hr Hi.
  { exists a. simpl. split_and!; try done. intros j.
    by rewrite decide_False by lia. }
  destruct i as [|i]; [lia|].
  assert (is_Some (entries a !! i)) as [prev Hprev] by (apply lookup_lt_is_Some; lia).
  assert (is_Some (entries a !! S i)) as [cur Hcur] by (apply lookup_lt_is_Some; lia).
  simpl shift_up.
  replace (Z.of_nat (S i) - 1) with (Z.of_nat i) by lia.
  rewrite (GetKey_nat _ _ _ Hprev). simpl.
  rewrite (SetKey_nat _ _ _ _ Hcur). simpl.
  erewrite GetRawTarget_nat; simpl; [|by rewrite list_lookup_insert_ne by lia].
  erewrite SetRawTarget_nat; simpl; [|by apply list_lookup_insert_eq; lia].
  rewrite list_insert_insert_eq.
  set (a1 := mkTransitionArray _ _ _).
  destruct (IH a1 i ltac:(lia) ltac:(subst a1; simpl; rewrite length_insert; lia))
    as (a' & Hshift & Hlen & Hproto & Hcap & Hlook).
  exists a'. split; [done|].
  subst a1. simpl in *. rewrite length_insert in Hcap. split_and!; try done.
  intros j. rewrite Hlook. rewrite !list_lookup_insert.
  destruct prev as [pk pt]. simpl.
  repeat case_decide; try lia; try done.
  - destruct_and?. subst. replace (S i - 1)%nat with i by lia. done.
Qed.

(** The insertion in place: the number of transitions grows by one, the
    entries from [insertion_index] on move up, the new entry goes in. *)
Lemma insert_in_place_holds a es (ins : nat) name target :
  array_holds a es → (ins ≤ length es)%nat →
  (length es < length (entries a))%nat →
  ∃ a',
    (let a := SetNumberOfTransitions a (Z.of_nat (length es) + 1) in
     try a <- shift_up a (Z.to_nat (Z.of_nat (length es) - Z.of_nat ins))
                (Z.of_nat (length es));
     try a <- SetKey a (Z.of_nat ins) (Some name);
     SetRawTarget a (Z.of_nat ins) (Weak target)) = Ok a'
    ∧ array_holds a' (insert_at ins (name, target) es)
    ∧ length (entries a') = length (entries a)
    ∧ prototype_transitions a' = prototype_transitions a.
Proof.
  intros Ha Hins Hcap. cbv zeta.
  replace (Z.to_nat (Z.of_nat (length es) - Z.of_nat ins)) with (length es - ins)%nat by lia.
  destruct (shift_up_lookup (length es - ins)
              (SetNumberOfTransitions a (Z.of_nat (length es) + 1)) (length es)
              ltac:(lia) ltac:(done))
    as (a1 & -> & Hlen & Hproto & Hcap1 & Hlook).
  simpl in *.
  assert (is_Some (entries a1 !! ins)) as [old Hold] by (apply lookup_lt_is_Some; lia).
  rewrite (SetKey_nat _ _ _ _ Hold). simpl.
  erewrite SetRawTarget_nat; simpl; [|by apply list_lookup_insert_eq; lia].
  rewrite list_insert_insert_eq.
  eexists. split; [done|]. simpl. split_and!.
  - apply array_holds_intro; cbn [transition_length entries].
    + rewrite insert_at_length. lia.
    + intros i e Hi. rewrite insert_at_lookup in Hi by done.
      rewrite list_lookup_insert, Hlook.
      destruct (decide (i < ins)%nat).
      * rewrite decide_False by lia. rewrite decide_False by lia.
        by eapply array_holds_lookup.
      * destruct (decide (i = ins)) as [->|].
        { rewrite decide_True by lia. by simplify_eq. }
        rewrite decide_False by lia.
        assert (i - 1 < length es)%nat by by eapply lookup_lt_Some.
        rewrite decide_True by lia. by eapply array_holds_lookup.
  - by rewrite length_insert.
  - done.
Qed.

(** ** Sorted lists of transitions *)

Lemma sorted_transitions_tuples es :
  sorted_transitions es ↔ StronglySorted tuple_lt (transition_tuple <$> es).
Proof.
  unfold sorted_transitions. induction es as [|e es IH]; simpl.
  { split; constructor. }
  rewrite !StronglySorted_cons, IH, Forall_fmap. done.
Qed.

Lemma sorted_no_duplicate_tuples es :
  sorted_transitions es → no_duplicate_tuples es.
Proof.
  rewrite sorted_transitions_tuples. unfold no_duplicate_tuples.
  generalize (transition_tuple <$> es). intros l.
  induction 1 as [|t l Hs IH Hall]; [constructor|].
  constructor; [|done]. intros Hin.
  apply (tuple_lt_irrefl t). by eapply (proj1 (list.Forall_forall _ _) Hall).
Qed.

Lemma sorted_transitions_overwrite es (n : nat) e e' :
  sorted_transitions es → es !! n = Some e →
  transition_tuple e' = transition_tuple e →
  sorted_transitions (<[n := e']> es).
Proof.
  rewrite !sorted_transitions_tuples. intros Hs He Ht.
  rewrite list_fmap_insert, Ht, list_insert_id; [done|].
  by rewrite list_lookup_fmap, He.
Qed.

Lemma sorted_transitions_insert_at es (n : nat) e :
  sorted_transitions es →
  Forall (entry_below (transition_tuple e)) (take n es) →
  Forall (entry_above (transition_tuple e)) (drop n es) →
  sorted_transitions (insert_at n e es).
Proof.
  unfold sorted_transitions, insert_at. intros Hs Hb Ha.
  rewrite <- (take_drop n es) in Hs.
  apply StronglySorted_app in Hs as (Hcross & Hl & Hr).
  apply StronglySorted_app. split_and!; [|done|].
  - intros x1 x2 H1 [->|H2]%elem_of_cons; [|by apply Hcross].
    exact (proj1 (list.Forall_forall _ _) Hb x1 H1).
  - apply StronglySorted_cons. split; [exact Ha|done].
Qed.

Lemma sorted_transitions_filter (P : Name * Map → Prop) `{!∀ e, Decision (P e)} es :
  sorted_transitions es → sorted_transitions (filter P es).
Proof.
  unfold sorted_transitions. induction 1 as [|e es Hs IH Hall]; [constructor|].
  destruct (decide (P e)).
  - rewrite filter_cons_True by done. constructor; [done|].
    apply list.Forall_forall. intros x [? ?]%list_elem_of_filter.
    by apply (proj1 (list.Forall_forall _ _) Hall).
  - by rewrite filter_cons_False.
Qed.

Lemma sorted_transitions_singleton e : sorted_transitions [e].
Proof. repeat constructor. Qed.

Lemma sorted_transitions_nil : sorted_transitions [].
Proof. constructor. Qed.

(** ** The collector and an array *)

Lemma filter_length_eq {A} (P : A → Prop) `{!∀ x, Decision (P x)} (l : list A) :
  length (filter P l) = length l → filter P l = l.
Proof.
  induction l as [|x l IH]; [done|]. destruct (decide (P x)).
  - rewrite filter_cons_True by done. simpl. intros [=]. f_equal. auto.
  - rewrite filter_cons_False by done. simpl. intros Hl.
    pose proof (length_filter P l). lia.
Qed.

Lemma filter_entry_of dead (es : list (Name * Map)) :
  filter (λ e, dead_target dead (entry_target e) = false) (entry_of <$> es)
  = entry_of <$> filter (λ e, dead e.2 = false) es.
Proof.
  induction es as [|e es IH]; [done|]. rewrite fmap_cons.
  destruct (dead e.2) eqn:Hd.
  - rewrite (filter_cons_False _ (entry_of e)) by (simpl; congruence).
    by rewrite (filter_cons_False _ e) by congruence.
  - rewrite (filter_cons_True _ (entry_of e)) by (simpl; congruence).
    rewrite (filter_cons_True _ e) by congruence.
    by rewrite fmap_cons, IH.
Qed.

Lemma collect_array_holds dead a es :
  array_holds a es →
  array_holds (collect_array dead a) (filter (λ e, dead e.2 = false) es)
  ∧ prototype_transitions (collect_array dead a) = prototype_transitions a
  ∧ (length (entries (collect_array dead a)) ≤ length (entries a))%nat.
Proof.
  intros [Hn Ht]. unfold collect_array.
  rewrite Hn, Nat2Z.id, Ht, filter_entry_of, length_fmap.
  case_bool_decide as Hlen.
  - apply filter_length_eq in Hlen. rewrite Hlen. by split_and!.
  - split_and!; [|done|].
    + split; cbn [transition_length entries]; [done|].
      rewrite <- (length_fmap entry_of). apply firstn_all.
    + cbn [entries]. rewrite length_fmap.
      pose proof (length_filter (λ e, dead e.2 = false) es).
      apply (f_equal length) in Ht. rewrite length_take, length_fmap in Ht. lia.
Qed.

(** The loops that copy one array into another. *)
Lemma copy_entries_lookup old : ∀ (rem : nat) r (i off : nat),
  (i + rem ≤ length (entries old))%nat →
  (i + off + rem ≤ length (entries r))%nat →
  ∃ r', copy_entries old r rem (Z.of_nat i) (Z.of_nat off) = Ok r'
    ∧ transition_length r' = transition_length r
    ∧ prototype_transitions r' = prototype_transitions r
    ∧ length (entries r') = length (entries r)
    ∧ ∀ j : nat, entries r' !! j =
        if decide (i + off ≤ j < i + off + rem)%nat then entries old !! (j - off)%nat
        else entries r !! j.
Proof.
  induction rem as [|rem IH]; intros r i off Hold Hr.
  { exists r. simpl. split_and!; try done. intros j. by rewrite decide_False by lia. }
  assert (is_Some (entries old !! i)) as [e He] by (apply lookup_lt_is_Some; lia).
  simpl copy_entries.
  rewrite (GetKey_nat _ _ _ He), (GetRawTarget_nat _ _ _ He). simpl.
  replace (Z.of_nat i + Z.of_nat off) with (Z.of_nat (i + off)) by lia.
  rewrite Set_nat by lia. simpl.
  replace (Z.of_nat i + 1) with (Z.of_nat (S i)) by lia.
  set (r1 := mkTransitionArray _ _ _).
  destruct (IH r1 (S i) off ltac:(lia)
              ltac:(subst r1; simpl; rewrite length_insert; lia))
    as (r' & Hcopy & Hlen & Hproto & Hcap & Hlook).
  exists r'. split; [done|]. subst r1. simpl in *.
  rewrite length_insert in Hcap. split_and!; try done.
  intros j. rewrite Hlook, list_lookup_insert. destruct e as [k t]. simpl.
  repeat case_decide; try lia; try done.
  destruct_and?. subst. by replace (i + off - off)%nat with i by lia.
Qed.

(** The copy into a bigger array, with the new entry at [ins]. *)
Lemma insert_by_copy_holds old es r (ins : nat) name target :
  array_holds old es → (ins ≤ length es)%nat →
  (length es < length (entries r))%nat →
  transition_length r = Z.of_nat (length es) + 1 →
  ∃ r',
    (try r <- copy_entries old r (Z.to_nat (Z.of_nat ins)) 0 0;
     try r <- Set_ r (Z.of_nat ins) (Some name) (Weak target);
     copy_entries old r (Z.to_nat (Z.of_nat (length es) - Z.of_nat ins))
       (Z.of_nat ins) 1) = Ok r'
    ∧ array_holds r' (insert_at ins (name, target) es)
    ∧ length (entries r') = length (entries r)
    ∧ prototype_transitions r' = prototype_transitions r.
Proof.
  intros Ha Hins Hcap Hn.
  pose proof (array_holds_capacity _ _ Ha) as Hold.
  rewrite Nat2Z.id.
  replace (Z.to_nat (Z.of_nat (length es) - Z.of_nat ins)) with (length es - ins)%nat by lia.
  destruct (copy_entries_lookup old ins r 0 0 ltac:(lia) ltac:(lia))
    as (r1 & H1 & Hlen1 & Hproto1 & Hcap1 & Hlook1).
  change (Z.of_nat 0) with 0 in H1. rewrite H1. simpl.
  rewrite Set_nat by lia. simpl.
  set (r2 := mkTransitionArray _ _ _).
  destruct (copy_entries_lookup old (length es - ins) r2 ins 1 ltac:(lia)
              ltac:(subst r2; simpl; rewrite length_insert; lia))
    as (r3 & H3 & Hlen3 & Hproto3 & Hcap3 & Hlook3).
  change (Z.of_nat 1) with 1 in H3. rewrite H3.
  subst r2. simpl in *. rewrite length_insert in Hcap3.
  exists r3. split; [done|]. split_and!; [|congruence|congruence].
  apply array_holds_intro.
  - rewrite insert_at_length. lia.
  - intros j e Hj. rewrite insert_at_lookup in Hj by done.
    rewrite Hlook3, list_lookup_insert, Hlook1.
    destruct (decide (j < ins)%nat).
    + rewrite decide_False by lia. rewrite decide_False by lia.
      rewrite decide_True by lia. rewrite Nat.sub_0_r. by eapply array_holds_lookup.
    + destruct (decide (j = ins)) as [->|].
      { rewrite decide_False by lia. rewrite decide_True by lia. by simplify_eq. }
      assert (j - 1 < length es)%nat by by eapply lookup_lt_Some.
      rewrite decide_True by lia. by eapply array_holds_lookup.
Qed.

(** The array of two that replaces a simple transition. *)
Lemma two_entries_hold r simple (ins : nat) name target :
  array_holds r [simple] → length (entries r) = 2%nat → (ins ≤ 1)%nat →
  ∃ r',
    (let r := SetNumberOfTransitions r 2 in
     try r <- (if Z.of_nat ins =? 0
               then Set_ r 1 (Some (GetSimpleTransitionKey simple.2)) (Weak simple.2)
               else Ok r);
     try r <- SetKey r (Z.of_nat ins) (Some name);
     SetRawTarget r (Z.of_nat ins) (Weak target)) = Ok r'
    ∧ (simple.1 = GetSimpleTransitionKey simple.2 →
       array_holds r' (insert_at ins (name, target) [simple]))
    ∧ length (entries r') = 2%nat
    ∧ prototype_transitions r' = prototype_transitions r.
Proof.
  intros Ha Hcap Hins. pose proof (array_holds_lookup _ _ 0 _ Ha eq_refl) as H0.
  destruct r as [proto n es]. simpl in *.
  destruct es as [|e0 [|e1 [|? ?]]]; simplify_eq/=.
  destruct ins as [|[|?]]; [| |lia]; simpl.
  - eexists. split; [reflexivity|]. simpl. split_and!; [|done|done].
    intros Hkey. split; [done|]. simpl. destruct simple as [k s]. simpl in *.
    by rewrite Hkey.
  - eexists. split; [reflexivity|]. simpl. split_and!; [|done|done].
    intros _. split; [done|]. done.
Qed.

(** ** Steps of the monad *)

Lemma update_array_Ok address f σ a a' :
  transition_arrays σ !! address = Some a → f a = Ok a' →
  update_array address f σ =
    Ok (tt, set_transition_arrays (<[address := a']> (transition_arrays σ)) σ).
Proof.
  intros Ha Hf. unfold update_array, bind, load_array, lift, store_array.
  by rewrite Ha, Hf, Ha.
Qed.

Lemma safepoint_Ok σ : safepoint σ = Ok (tt, after_safepoint σ).
Proof.
  unfold safepoint, after_safepoint, bind, log, modify. simpl.
  by destruct (collections σ).
Qed.

Lemma NewTransitionArray_Ok n slack σ :
  NewTransitionArray n slack σ =
    Ok (length (transition_arrays (after_safepoint σ)),
        set_transition_arrays
          (transition_arrays (after_safepoint σ)
           ++ [mkTransitionArray None n
                 (replicate (Z.to_nat (n + slack)) undefined_entry)])
          (after_safepoint σ)).
Proof. unfold NewTransitionArray. by rewrite (bind_Ok _ _ _ _ _ (safepoint_Ok σ)). Qed.

Lemma Reload_Ok σ : Reload σ = Ok (tt, TransitionsAccessor_new σ).
Proof. done. Qed.

Lemma exclusive_Ok {A} (body : M A) σ r σ' :
  body (set_trace (trace σ ++ [LockExclusive]) σ) = Ok (r, σ') →
  exclusive body σ = Ok (r, set_trace (trace σ' ++ [UnlockExclusive]) σ').
Proof.
  intros H. unfold exclusive, log, modify, bind, ret. by rewrite H.
Qed.

Lemma clear_weak_nothing o : clear_weak (λ _, false) o = o.
Proof. by destruct o. Qed.

Lemma after_safepoint_map σ :
  map_raw_transitions (after_safepoint σ)
  = clear_weak (next_dead σ) (map_raw_transitions σ).
Proof.
  unfold after_safepoint, next_dead. simpl.
  destruct (collections σ); simpl; [by rewrite clear_weak_nothing|done].
Qed.

Lemma after_safepoint_trace σ : trace (after_safepoint σ) = trace σ ++ [Allocate].
Proof. unfold after_safepoint. simpl. by destruct (collections σ). Qed.

Lemma after_safepoint_length σ :
  length (transition_arrays (after_safepoint σ)) = length (transition_arrays σ).
Proof.
  unfold after_safepoint. simpl. destruct (collections σ); simpl; [done|].
  by rewrite length_fmap.
Qed.

Lemma filter_nothing_dead (es : list (Name * Map)) :
  filter (λ e, (λ _ : Map, false) e.2 = false) es = es.
Proof.
  induction es as [|e es IH]; [done|]. rewrite filter_cons_True by done. by rewrite IH.
Qed.

Lemma after_safepoint_array σ address a es :
  transition_arrays σ !! address = Some a → array_holds a es →
  ∃ a', transition_arrays (after_safepoint σ) !! address = Some a'
    ∧ array_holds a' (filter (λ e, next_dead σ e.2 = false) es)
    ∧ prototype_transitions a' = prototype_transitions a
    ∧ (length (entries a') ≤ length (entries a))%nat.
Proof.
  intros Hl Ha. unfold after_safepoint, next_dead. simpl.
  destruct (collections σ) as [|dead rest]; simpl.
  - exists a. rewrite filter_nothing_dead. by split_and!.
  - exists (collect_array dead a). rewrite list_lookup_fmap, Hl. split; [done|].
    by apply collect_array_holds.
Qed.

Lemma after_safepoint_accessor σ :
  raw_transitions_ (after_safepoint σ) = raw_transitions_ σ
  ∧ encoding_ (after_safepoint σ) = encoding_ σ
  ∧ concurrent_access_ (after_safepoint σ) = concurrent_access_ σ
  ∧ map_handle_is_null (after_safepoint σ) = map_handle_is_null σ
  ∧ is_dictionary_map (after_safepoint σ) = is_dictionary_map σ
  ∧ is_prototype_map (after_safepoint σ) = is_prototype_map σ
  ∧ is_deprecated (after_safepoint σ) = is_deprecated σ.
Proof. unfold after_safepoint. simpl. by destruct (collections σ). Qed.

(** The start of [Insert]: the three assertions, and the back pointer. *)
Lemma Insert_prologue {A} (k : Encoding → M A) σ target :
  prologue_ok σ →
  (do concurrent <- gets concurrent_access_;
   DCHECK (negb concurrent);;
   do handle_null <- gets map_handle_is_null;
   DCHECK (negb handle_null);;
   do e <- encoding;
   DCHECK (negb (bool_decide (e = kPrototypeInfo)));;
   log (SetBackPointer target);;
   k e) σ = k (encoding_ σ) (entered target σ).
Proof.
  unfold prologue_ok, encoding, DCHECK, rDCHECK, log, entered, bind, gets, lift, modify.
  destruct DEBUG; simpl; [|done].
  destruct (concurrent_access_ σ); simpl; [done|].
  destruct (map_handle_is_null σ); simpl; [done|].
  destruct (bool_decide (encoding_ σ = kPrototypeInfo)); simpl; done.
Qed.

Lemma Insert_prologue_fails {A} (k : Encoding → M A) σ target :
  ¬ prologue_ok σ →
  (do concurrent <- gets concurrent_access_;
   DCHECK (negb concurrent);;
   do handle_null <- gets map_handle_is_null;
   DCHECK (negb handle_null);;
   do e <- encoding;
   DCHECK (negb (bool_decide (e = kPrototypeInfo)));;
   log (SetBackPointer target);;
   k e) σ = Err DCHECK_failed.
Proof.
  unfold prologue_ok, encoding, DCHECK, rDCHECK, log, bind, gets, lift, modify.
  destruct DEBUG; simpl; [|done].
  destruct (concurrent_access_ σ); simpl; [done|].
  destruct (map_handle_is_null σ); simpl; [done|].
  destruct (bool_decide (encoding_ σ = kPrototypeInfo)); simpl; done.
Qed.

Lemma Insert_not_prologue_ok name target flag σ :
  ¬ prologue_ok σ → Insert name target flag σ = Err DCHECK_failed.
Proof. intros H. unfold Insert. by rewrite Insert_prologue_fails. Qed.

(** ** The paths of [Insert]: no transitions yet *)

Lemma update_new_array f σ l a a' :
  f a = Ok a' →
  update_array (length l) f (set_transition_arrays (l ++ [a]) σ)
  = Ok (tt, set_transition_arrays (l ++ [a']) σ).
Proof.
  intros Hf.
  rewrite (update_array_Ok (length l) f (set_transition_arrays (l ++ [a]) σ) a a'
             (list_lookup_middle l [] a _ eq_refl) Hf).
  simpl. rewrite insert_app_r_alt by done. by rewrite Nat.sub_diag.
Qed.

Lemma on_new_array {A} (f : TransitionArray → result A) σ l a r :
  f a = Ok r →
  on_array (length l) f (set_transition_arrays (l ++ [a]) σ)
  = Ok (r, set_transition_arrays (l ++ [a]) σ).
Proof.
  intros Hf. apply (on_array_Ok _ f _ a r); [|done]. by apply list_lookup_middle.
Qed.

Lemma DCHECK_encoding_full σ address :
  map_raw_transitions σ = StrongTransitionArray address →
  (do e <- encoding; DCHECK (bool_decide (e = kFullTransitionArray)))
    (TransitionsAccessor_new σ) = Ok (tt, TransitionsAccessor_new σ).
Proof.
  intros H. unfold bind, encoding, gets. simpl. rewrite H. simpl. apply DCHECK_true.
Qed.

(** The map has no transitions and the flag allows the single weak
    pointer: it is installed. *)
Lemma Insert_first_simple name target σ :
  prologue_ok σ →
  encoding_ σ = kUninitialized ∨ encoding_ σ = kMigrationTarget →
  Insert name target SIMPLE_PROPERTY_TRANSITION σ
  = Ok (tt, set_map_raw_transitions (Weak target) (entered target σ)).
Proof.
  intros Hp He. unfold Insert. rewrite Insert_prologue by done.
  by destruct He as [-> | ->].
Qed.

(** The map has no transitions and the flag asks for an array: one entry. *)
Lemma Insert_first_full name target flag σ :
  prologue_ok σ →
  encoding_ σ = kUninitialized ∨ encoding_ σ = kMigrationTarget →
  flag ≠ SIMPLE_PROPERTY_TRANSITION →
  let σ1 := after_safepoint (entered target σ) in
  Insert name target flag σ
  = Ok (tt, install_new_array
              (mkTransitionArray None 1 [entry_of (name, target)]) σ1).
Proof.
  intros Hp He Hflag σ1. unfold Insert. rewrite Insert_prologue by done.
  replace (bool_decide (encoding_ σ = kUninitialized)
           || bool_decide (encoding_ σ = kMigrationTarget)) with true
    by by destruct He as [-> | ->].
  rewrite (bool_decide_eq_false_2 _ Hflag).
  rewrite (bind_Ok _ _ _ _ _ (NewTransitionArray_Ok _ _ _)). fold σ1.
  erewrite bind_Ok; [|by apply update_new_array].
  unfold ReplaceTransitions at 1. unfold modify at 1. unfold bind at 1.
  rewrite (bind_Ok _ _ _ _ _ (Reload_Ok _)).
  by erewrite DCHECK_encoding_full.
Qed.

(** ** The paths of [Insert]: one simple transition *)

Lemma sorted_transitions_pair e1 e2 :
  transition_lt e1 e2 → sorted_transitions [e1; e2].
Proof. intros H. repeat constructor. done. Qed.

Lemma Insert_search_special a name details out :
  Insert_search true name details out a = SearchName a name out.
Proof. done. Qed.

Lemma Insert_search_property a name details out :
  Insert_search false name details out a
  = Search a (kind details) name (attributes details) out.
Proof. done. Qed.

(** The search in an array that holds one transition, for a transition with
    another tuple. *)
Lemma Insert_search_singleton r simple name target flag out :
  array_holds r [simple] →
  bool_decide (flag = SPECIAL_TRANSITION) = IsSpecialTransition name →
  transition_tuple (name, target) ≠ transition_tuple simple →
  ∃ ins : nat, (ins ≤ 1)%nat
    ∧ Insert_search (bool_decide (flag = SPECIAL_TRANSITION)) name
        (GetTargetDetails name target) out r = Ok (kNotFound, Z.of_nat ins)
    ∧ sorted_transitions (insert_at ins (name, target) [simple]).
Proof.
  intros Ha Hflag Hne. rewrite Hflag. destruct simple as [ks s].
  destruct (IsSpecialTransition name) eqn:Hsp.
  - rewrite Insert_search_special, (SearchName_list _ _ _ _ Ha). simpl.
    rewrite (transition_tuple_special _ _ Hsp) in Hne.
    destruct (Z.eqb_spec (CompareNames ks (hash ks) name (hash name)) 0) as [Hz|Hz].
    { apply CompareNames_zero in Hz as ->.
      by rewrite (transition_tuple_special _ _ Hsp) in Hne. }
    rewrite Z.gtb_ltb.
    destruct (Z.ltb_spec 0 (CompareNames ks (hash ks) name (hash name))) as [Hp|Hp].
    + exists 0%nat. split_and!; [lia|done|].
      apply sorted_transitions_pair.
      assert (CompareNames ks (hash ks) name (hash name) > 0) as [? ?]%CompareNames_pos by lia.
      apply (entry_above_other_name (transition_tuple (name, target)) (ks, s));
        rewrite transition_tuple_name; simpl; [done|lia].
    + exists 1%nat. split_and!; [lia|done|].
      apply sorted_transitions_pair.
      assert (CompareNames ks (hash ks) name (hash name) < 0) as [? ?]%CompareNames_neg by lia.
      apply (entry_below_other_name (transition_tuple (name, target)) (ks, s));
        rewrite transition_tuple_name; simpl; done.
  - rewrite Insert_search_property, (Search_list _ _ _ _ _ _ Ha).
    unfold search_list. simpl search_name.
    destruct (Z.eqb_spec (CompareNames ks (hash ks) name (hash name)) 0) as [Hz|Hz].
    2: { rewrite Z.gtb_ltb.
         destruct (Z.ltb_spec 0 (CompareNames ks (hash ks) name (hash name))) as [Hp|Hp].
         + simpl. exists 0%nat. split_and!; [lia|done|].
           apply sorted_transitions_pair.
           assert (CompareNames ks (hash ks) name (hash name) > 0)
             as [? ?]%CompareNames_pos by lia.
           apply (entry_above_other_name (transition_tuple (name, target)) (ks, s));
             rewrite transition_tuple_name; simpl; [done|lia].
         + simpl. exists 1%nat. split_and!; [lia|done|].
           apply sorted_transitions_pair.
           assert (CompareNames ks (hash ks) name (hash name) < 0)
             as [? ?]%CompareNames_neg by lia.
           apply (entry_below_other_name (transition_tuple (name, target)) (ks, s));
             rewrite transition_tuple_name; simpl; done. }
    apply CompareNames_zero in Hz as ->. simpl.
    rewrite bool_decide_eq_true_2 by done. simpl.
    rewrite !(transition_tuple_property _ _ Hsp) in Hne.
    unfold GetTargetDetails.
    set (c := CompareDetails _ _ _ _).
    destruct (Z.eqb_spec c 0) as [Hz|Hz].
    { apply CompareDetails_zero in Hz as [Hk Hat]. by rewrite Hk, Hat in Hne. }
    destruct (Z.ltb_spec c 0) as [Hp|Hp].
    + exists 0%nat. split_and!; [lia|done|].
      apply sorted_transitions_pair. unfold transition_lt, tuple_lt.
      by rewrite !(transition_tuple_property _ _ Hsp), compare_tuples_same_name.
    + exists 1%nat. split_and!; [lia|done|].
      apply sorted_transitions_pair. unfold transition_lt, tuple_lt.
      rewrite !(transition_tuple_property _ _ Hsp), compare_tuples_same_name.
      apply CompareDetails_antisym. fold c. lia.
Qed.

Lemma retransition_tuple flag s name target :
  insert_precondition name target flag →
  retransition flag s name target = true →
  transition_tuple (name, target) = transition_tuple (simple_entry s).
Proof.
  intros [Hflag _]. unfold retransition, simple_entry, GetSimpleTransitionKey,
    GetSimpleTargetDetails, GetTargetDetails.
  intros H. apply andb_prop in H as [H1 H]. apply andb_prop in H as [H H4].
  apply andb_prop in H as [H2 H3].
  apply bool_decide_eq_true in H1, H2, H3, H4.
  subst flag. rewrite bool_decide_eq_false_2 in Hflag by done.
  subst name. rewrite !transition_tuple_property by done. congruence.
Qed.

(** The test that [Insert] makes on a simple transition. *)
Lemma Insert_retransition_test flag s name target σ :
  (if bool_decide (flag = SIMPLE_PROPERTY_TRANSITION) then
     do simple_transition <- Map_deref (Some s);
     let key := GetSimpleTransitionKey simple_transition in
     let old_details := GetSimpleTargetDetails simple_transition in
     let new_details := GetTargetDetails name target in
     ret (bool_decide (key = name)
          && bool_decide (kind old_details = kind new_details)
          && bool_decide (attributes old_details = attributes new_details))
   else ret false) σ = Ok (retransition flag s name target, σ).
Proof. unfold retransition. by case_bool_decide. Qed.

Lemma GetSimpleTransition_weak σ s :
  encoding_ σ = kWeakRef → raw_transitions_ σ = Weak s →
  GetSimpleTransition σ = Ok (Some s, σ).
Proof.
  intros He Hr. unfold GetSimpleTransition, encoding, bind, gets. rewrite He.
  simpl. by rewrite Hr.
Qed.

(** A simple transition to a map with the same key, kind and attributes:
    the weak pointer is overwritten. *)
Lemma Insert_simple_same name target flag s σ :
  prologue_ok σ → encoding_ σ = kWeakRef → raw_transitions_ σ = Weak s →
  retransition flag s name target = true →
  Insert name target flag σ
  = Ok (tt, set_map_raw_transitions (Weak target) (entered target σ)).
Proof.
  intros Hp He Hr Hsame. unfold Insert. rewrite Insert_prologue by done.
  rewrite He. simpl.
  erewrite bind_Ok; [|by apply GetSimpleTransition_weak].
  rewrite bool_decide_eq_true_2 by by eexists.
  rewrite (bind_Ok _ _ _ _ _ (DCHECK_true _)).
  rewrite (bind_Ok _ _ _ _ _ (Insert_retransition_test _ _ _ _ _)).
  by rewrite Hsame.
Qed.

(** Another transition, and the collection that the allocation of the array
    ran cleared the simple one: the array holds the new transition alone. *)
Lemma Insert_simple_cleared name target flag s σ :
  prologue_ok σ → encoding_ σ = kWeakRef → raw_transitions_ σ = Weak s →
  map_raw_transitions σ = Weak s →
  retransition flag s name target = false →
  next_dead σ s = true →
  Insert name target flag σ
  = Ok (tt, install_new_array
              (mkTransitionArray None 1 [entry_of (name, target); undefined_entry])
              (after_safepoint (entered target σ))).
Proof.
  intros Hp He Hr Hm Hsame Hdead. unfold Insert. rewrite Insert_prologue by done.
  rewrite He. simpl.
  erewrite bind_Ok; [|by apply GetSimpleTransition_weak].
  rewrite bool_decide_eq_true_2 by by eexists.
  rewrite (bind_Ok _ _ _ _ _ (DCHECK_true _)).
  rewrite (bind_Ok _ _ _ _ _ (Insert_retransition_test _ _ _ _ _)).
  rewrite Hsame.
  rewrite (bind_Ok _ _ _ _ _ (NewTransitionArray_Ok _ _ _)).
  set (σ1 := after_safepoint (entered target σ)).
  rewrite (bind_Ok _ _ _ _ _ (Reload_Ok _)).
  assert (map_raw_transitions σ1 = Cleared) as Hcleared.
  { subst σ1. rewrite after_safepoint_map. simpl. rewrite Hm.
    unfold clear_weak. simpl.
    replace (next_dead (entered target σ)) with (next_dead σ) by done.
    by rewrite Hdead. }
  erewrite bind_Ok.
  2: { unfold GetSimpleTransition, encoding, bind, gets. simpl.
       rewrite Hcleared. simpl. reflexivity. }
  cbv beta iota.
  erewrite bind_Ok.
  2: { unfold TransitionsAccessor_new.
       apply (update_new_array _ (set_accessor _ _ σ1)). reflexivity. }
  unfold ReplaceTransitions at 1. unfold modify at 1. unfold bind at 1.
  rewrite (bind_Ok _ _ _ _ _ (Reload_Ok _)).
  by erewrite DCHECK_encoding_full.
Qed.

(** Another transition, and the simple one survived the allocation: the
    array holds both, in the order of the comparator. *)
Lemma Insert_simple_other name target flag s σ :
  prologue_ok σ → encoding_ σ = kWeakRef → raw_transitions_ σ = Weak s →
  map_raw_transitions σ = Weak s →
  insert_precondition name target flag →
  transition_tuple (name, target) ≠ transition_tuple (simple_entry s) →
  next_dead σ s = false →
  ∃ r (ins : nat),
    Insert name target flag σ
    = Ok (tt, install_new_array r (after_safepoint (entered target σ)))
    ∧ (ins ≤ 1)%nat
    ∧ array_holds r (insert_at ins (name, target) [simple_entry s])
    ∧ sorted_transitions (insert_at ins (name, target) [simple_entry s])
    ∧ length (entries r) = 2%nat
    ∧ prototype_transitions r = None.
Proof.
  intros Hp He Hr Hm Hpre Hne Hdead.
  assert (retransition flag s name target = false) as Hsame.
  { destruct (retransition flag s name target) eqn:Hs; [|done].
    by apply retransition_tuple in Hs. }
  set (r1 := mkTransitionArray None 1 [entry_of (simple_entry s); undefined_entry]).
  assert (array_holds r1 [simple_entry s]) as Hr1 by done.
  destruct (Insert_search_singleton r1 (simple_entry s) name target flag 0 Hr1
              (proj1 Hpre) Hne) as (ins & Hins & Hsearch & Hsorted).
  destruct (two_entries_hold r1 (simple_entry s) ins name target Hr1 eq_refl Hins)
    as (r2 & Hr2 & Hholds & Hcap & Hproto).
  cbv zeta in Hr2.
  exists r2, ins. split_and!; [|done|by apply Hholds|done|done|done].
  unfold Insert. rewrite Insert_prologue by done.
  rewrite He. simpl.
  erewrite bind_Ok; [|by apply GetSimpleTransition_weak].
  rewrite bool_decide_eq_true_2 by by eexists.
  rewrite (bind_Ok _ _ _ _ _ (DCHECK_true _)).
  rewrite (bind_Ok _ _ _ _ _ (Insert_retransition_test _ _ _ _ _)).
  rewrite Hsame.
  rewrite (bind_Ok _ _ _ _ _ (NewTransitionArray_Ok _ _ _)).
  set (σ1 := after_safepoint (entered target σ)).
  rewrite (bind_Ok _ _ _ _ _ (Reload_Ok _)).
  assert (map_raw_transitions σ1 = Weak s) as Hweak.
  { subst σ1. rewrite after_safepoint_map. simpl. rewrite Hm.
    unfold clear_weak. simpl.
    replace (next_dead (entered target σ)) with (next_dead σ) by done.
    by rewrite Hdead. }
  erewrite bind_Ok.
  2: { apply GetSimpleTransition_weak; simpl; by rewrite Hweak. }
  cbv beta iota.
  erewrite bind_Ok.
  2: { unfold TransitionsAccessor_new.
       apply (update_new_array _ (set_accessor _ _ σ1) _ _ r1). reflexivity. }
  erewrite bind_Ok; [|by apply on_new_array, Hsearch].
  cbv beta iota. change (kNotFound =? kNotFound) with true.
  rewrite (bind_Ok _ _ _ _ _ (DCHECK_true _)).
  unfold lift at 1. unfold bind at 1.
  erewrite bind_Ok; [|by apply update_new_array, Hr2].
  unfold ReplaceTransitions at 1. unfold modify at 1. unfold bind at 1.
  rewrite (bind_Ok _ _ _ _ _ (Reload_Ok _)).
  by erewrite DCHECK_encoding_full.
Qed.

(** ** Reading a map with a full transition array *)

Lemma install_new_array_storage r σ es :
  array_holds r es →
  full_storage (install_new_array r σ) (length (transition_arrays σ)) r es.
Proof.
  intros Hr. split_and!; [done| |done]. simpl. by apply list_lookup_middle.
Qed.

Lemma install_new_array_fresh r σ : accessor_fresh (install_new_array r σ).
Proof. done. Qed.

Lemma TransitionsAccessor_new_fresh σ : accessor_fresh (TransitionsAccessor_new σ).
Proof. done. Qed.

Lemma TransitionsAccessor_new_id σ :
  accessor_fresh σ → TransitionsAccessor_new σ = σ.
Proof. intros [H1 H2]. destruct σ. simpl in *. unfold TransitionsAccessor_new, set_accessor. simpl. by rewrite H1, H2. Qed.

Lemma full_storage_encoding σ address a es :
  accessor_fresh σ → full_storage σ address a es →
  encoding_ σ = kFullTransitionArray
  ∧ raw_transitions_ σ = StrongTransitionArray address.
Proof. intros [H1 H2] (Hm & _ & _). by rewrite H1, H2, Hm. Qed.

Lemma transitions_full σ address a es :
  accessor_fresh σ → full_storage σ address a es →
  transitions σ = Ok (address, σ).
Proof.
  intros Hf Hs. destruct (full_storage_encoding _ _ _ _ Hf Hs) as [_ Hr].
  unfold transitions. by rewrite Hr.
Qed.

Lemma SearchTransition_full σ address a es name k attrs :
  accessor_fresh σ → full_storage σ address a es → concurrent_access_ σ = false →
  SearchTransition name k attrs σ = Ok (search_target_list es k name attrs, σ).
Proof.
  intros Hf Hs Hc. destruct (full_storage_encoding _ _ _ _ Hf Hs) as [He _].
  unfold SearchTransition, encoding, bind, gets. rewrite He, Hc. simpl.
  rewrite (transitions_full _ _ _ _ Hf Hs).
  destruct Hs as (_ & Hl & Ha).
  by rewrite (on_array_Ok _ _ _ _ _ Hl (SearchAndGetTarget_list _ _ _ _ _ Ha)).
Qed.

Lemma NumberOfTransitions_full σ address a es :
  accessor_fresh σ → full_storage σ address a es →
  NumberOfTransitions σ = Ok (Z.of_nat (length es), σ).
Proof.
  intros Hf Hs. destruct (full_storage_encoding _ _ _ _ Hf Hs) as [He _].
  unfold NumberOfTransitions, encoding, bind, gets. rewrite He.
  rewrite (transitions_full _ _ _ _ Hf Hs).
  destruct Hs as (_ & Hl & Ha).
  by rewrite (on_array_Ok _ _ _ _ _ Hl (f_equal Ok (array_holds_number _ _ Ha))).
Qed.

Lemma SearchTransition_simple σ s name k attrs :
  encoding_ σ = kWeakRef → raw_transitions_ σ = Weak s →
  SearchTransition name k attrs σ
  = Ok (if IsMatchingMap s name k attrs then Some s else None, σ).
Proof.
  intros He Hr. unfold SearchTransition, encoding, bind, gets. rewrite He, Hr.
  simpl. by destruct (IsMatchingMap s name k attrs).
Qed.

(** ** The first two transitions of a map *)

Lemma CompareNames_refl key h : CompareNames key h key h = 0.
Proof. unfold CompareNames. by rewrite bool_decide_eq_true_2. Qed.

Lemma CompareDetails_refl k a : CompareDetails k a k a = 0.
Proof. unfold CompareDetails. by rewrite !bool_decide_eq_true_2. Qed.

Lemma CompareNames_below key1 key2 :
  key1 ≠ key2 → hash key1 ≤ hash key2 →
  CompareNames key1 (hash key1) key2 (hash key2) = -1.
Proof.
  intros Hne Hle. unfold CompareNames. rewrite bool_decide_eq_false_2 by done.
  by destruct (Z.leb_spec (hash key1) (hash key2)); [|lia].
Qed.

Lemma search_target_list_pair e1 e2 :
  transition_lt e1 e2 → e1.1 ≠ e2.1 →
  search_target_list [e1; e2] (kind (LastAddedDetails e1.2)) e1.1
    (attributes (LastAddedDetails e1.2)) = Some e1.2
  ∧ search_target_list [e1; e2] (kind (LastAddedDetails e2.2)) e2.1
      (attributes (LastAddedDetails e2.2)) = Some e2.2.
Proof.
  destruct e1 as [k1 m1], e2 as [k2 m2]. simpl. intros Hlt Hne.
  apply tuple_lt_hash in Hlt. rewrite !transition_tuple_name in Hlt. simpl in Hlt.
  unfold search_target_list, search_name, search_details, GetTargetDetails.
  split.
  - rewrite CompareNames_refl. simpl. rewrite bool_decide_eq_true_2 by done. simpl.
    by rewrite CompareDetails_refl.
  - rewrite CompareNames_below, CompareNames_refl by done. simpl.
    rewrite bool_decide_eq_true_2 by done. simpl.
    by rewrite CompareDetails_refl.
Qed.

Lemma sorted_transitions_pair_inv e1 e2 :
  sorted_transitions [e1; e2] → transition_lt e1 e2.
Proof. intros H. inversion H as [|? ? ? Hall]. by inversion Hall. Qed.

(** The two calls of the scenario, and what the searches answer. *)
Lemma Insert_x_then_y (σ : State) (S1 S2 : Map) :
  LastAddedKey S1 = InternalizedString "x" →
  LastAddedDetails S1 = mkDetails kData NONE →
  LastAddedKey S2 = InternalizedString "y" →
  LastAddedDetails S2 = mkDetails kData NONE →
  encoding_ σ = kUninitialized →
  concurrent_access_ σ = false → map_handle_is_null σ = false →
  next_dead σ S1 = false →
  ∃ σ1 σ2 address a es,
    Insert (InternalizedString "x") S1 SIMPLE_PROPERTY_TRANSITION σ = Ok (tt, σ1)
    ∧ encoding_ (TransitionsAccessor_new σ1) = kWeakRef
    ∧ SearchTransition (InternalizedString "x") kData NONE (TransitionsAccessor_new σ1)
      = Ok (Some S1, TransitionsAccessor_new σ1)
    ∧ Insert (InternalizedString "y") S2 SIMPLE_PROPERTY_TRANSITION
        (TransitionsAccessor_new σ1) = Ok (tt, σ2)
    ∧ encoding_ σ2 = kFullTransitionArray
    ∧ full_storage σ2 address a es
    ∧ NumberOfTransitions σ2 = Ok (2, σ2)
    ∧ es ≡ₚ [(InternalizedString "x", S1); (InternalizedString "y", S2)]
    ∧ sorted_transitions es
    ∧ SearchTransition (InternalizedString "x") kData NONE σ2 = Ok (Some S1, σ2)
    ∧ SearchTransition (InternalizedString "y") kData NONE σ2 = Ok (Some S2, σ2).
Proof.
  intros Hk1 Hd1 Hk2 Hd2 He Hc Hh Hdead.
  assert (prologue_ok σ) as Hp.
  { unfold prologue_ok. rewrite Hc, Hh, He. simpl. apply andb_false_r. }
  set (σ1 := set_map_raw_transitions (Weak S1) (entered S1 σ)).
  assert (Insert (InternalizedString "x") S1 SIMPLE_PROPERTY_TRANSITION σ = Ok (tt, σ1))
    as H1 by (apply Insert_first_simple; auto).
  set (σ1' := TransitionsAccessor_new σ1).
  assert (transition_tuple (InternalizedString "y", S2)
          ≠ transition_tuple (simple_entry S1)) as Hne.
  { unfold transition_tuple, simple_entry, GetSimpleTransitionKey. simpl.
    rewrite Hk1. simpl. congruence. }
  destruct (Insert_simple_other (InternalizedString "y") S2
              SIMPLE_PROPERTY_TRANSITION S1 σ1')
    as (r & ins & H2 & Hins & Hholds & Hsorted & Hcap & Hproto); try done.
  { unfold prologue_ok. subst σ1' σ1. simpl. rewrite Hc, Hh. simpl. apply andb_false_r. }
  set (σ2 := install_new_array r (after_safepoint (entered S2 σ1'))) in *.
  pose proof (install_new_array_storage r (after_safepoint (entered S2 σ1')) _ Hholds)
    as Hstorage. fold σ2 in Hstorage.
  pose proof (install_new_array_fresh r (after_safepoint (entered S2 σ1'))) as Hfresh.
  fold σ2 in Hfresh.
  assert (concurrent_access_ σ2 = false) as Hc2.
  { subst σ2. simpl.
    destruct (after_safepoint_accessor (entered S2 σ1')) as (_ & _ & -> & _). done. }
  exists σ1, σ2, (length (transition_arrays (after_safepoint (entered S2 σ1')))), r,
    (insert_at ins (InternalizedString "y", S2) [simple_entry S1]).
  unfold simple_entry, GetSimpleTransitionKey in *. rewrite Hk1 in *.
  assert (Hx := SearchTransition_full σ2 _ _ _ (InternalizedString "x") kData NONE
                  Hfresh Hstorage Hc2).
  assert (Hy := SearchTransition_full σ2 _ _ _ (InternalizedString "y") kData NONE
                  Hfresh Hstorage Hc2).
  rewrite Hx, Hy. clear Hx Hy.
  assert (length (insert_at ins (InternalizedString "y", S2)
                    [(InternalizedString "x", S1)]) = 2%nat) as Hlen
    by by rewrite insert_at_length.
  destruct ins as [|[|?]]; [| |lia]; cbn [insert_at take drop app] in *;
    apply sorted_transitions_pair_inv in Hsorted as Hlt;
    destruct (search_target_list_pair _ _ Hlt) as [Hs1 Hs2]; try done;
    cbn [fst snd] in Hs1, Hs2; rewrite ?Hd1, ?Hd2 in Hs1; rewrite ?Hd1, ?Hd2 in Hs2;
    cbn [kind attributes] in Hs1, Hs2; rewrite Hs1, Hs2.
  - split_and!; try done.
    + rewrite (SearchTransition_simple _ S1); [|done|done].
      unfold IsMatchingMap, HasKindAndAttributes. by rewrite Hk1, Hd1.
    + by rewrite (NumberOfTransitions_full _ _ _ _ Hfresh Hstorage), Hlen.
    + apply Permutation_swap.
  - split_and!; try done.
    + rewrite (SearchTransition_simple _ S1); [|done|done].
      unfold IsMatchingMap, HasKindAndAttributes. by rewrite Hk1, Hd1.
    + by rewrite (NumberOfTransitions_full _ _ _ _ Hfresh Hstorage), Hlen.
Qed.

(** C1.  On a map without transitions, [Insert] of the simple property
    transition "x" (a data property without attributes, to [S1]) leaves the
    single weak pointer, and the search for it answers [S1].  [Insert] of a
    second one, "y" to [S2], leaves a transition array of two: it holds both
    transitions, sorted by the comparator, and the search finds either.  The
    order of the names is the order of their hashes: "x" is first if its
    hash is the smaller one, "y" if its hash is.  The collection that the
    allocation of the array may run is taken not to clear [S1]. *)
Theorem Insert_two_simple_transitions (σ : State) (S1 S2 : Map) :
  LastAddedKey S1 = InternalizedString "x" →
  LastAddedDetails S1 = mkDetails kData NONE →
  LastAddedKey S2 = InternalizedString "y" →
  LastAddedDetails S2 = mkDetails kData NONE →
  encoding_ σ = kUninitialized →
  concurrent_access_ σ = false → map_handle_is_null σ = false →
  next_dead σ S1 = false →
  ∃ σ1 σ2 address a es,
    Insert (InternalizedString "x") S1 SIMPLE_PROPERTY_TRANSITION σ = Ok (tt, σ1)
    ∧ encoding_ (TransitionsAccessor_new σ1) = kWeakRef
    ∧ SearchTransition (InternalizedString "x") kData NONE (TransitionsAccessor_new σ1)
      = Ok (Some S1, TransitionsAccessor_new σ1)
    ∧ Insert (InternalizedString "y") S2 SIMPLE_PROPERTY_TRANSITION
        (TransitionsAccessor_new σ1) = Ok (tt, σ2)
    ∧ encoding_ σ2 = kFullTransitionArray
    ∧ full_storage σ2 address a es
    ∧ NumberOfTransitions σ2 = Ok (2, σ2)
    ∧ es ≡ₚ [(InternalizedString "x", S1); (InternalizedString "y", S2)]
    ∧ sorted_transitions es
    ∧ SearchTransition (InternalizedString "x") kData NONE σ2 = Ok (Some S1, σ2)
    ∧ SearchTransition (InternalizedString "y") kData NONE σ2 = Ok (Some S2, σ2)
    ∧ (hash (InternalizedString "x") < hash (InternalizedString "y") →
       es = [(InternalizedString "x", S1); (InternalizedString "y", S2)])
    ∧ (hash (InternalizedString "y") < hash (InternalizedString "x") →
       es = [(InternalizedString "y", S2); (InternalizedString "x", S1)]).
Proof.
  intros Hk1 Hd1 Hk2 Hd2 He Hc Hh Hdead.
  destruct (Insert_x_then_y σ S1 S2 Hk1 Hd1 Hk2 Hd2 He Hc Hh Hdead)
    as (σ1 & σ2 & address & a & es & H1 & H2 & H3 & H4 & H5 & H6 & H7 & Hperm
        & Hsorted & H8 & H9).
  exists σ1, σ2, address, a, es. split_and!; try done.
  - intros Hlt. symmetry in Hperm.
    apply Permutation_length_2_inv in Hperm as [->| ->]; [done|].
    apply sorted_transitions_pair_inv, tuple_lt_hash in Hsorted.
    rewrite !transition_tuple_name in Hsorted. simpl in Hsorted. lia.
  - intros Hlt. symmetry in Hperm.
    apply Permutation_length_2_inv in Hperm as [->| ->]; [|done].
    apply sorted_transitions_pair_inv, tuple_lt_hash in Hsorted.
    rewrite !transition_tuple_name in Hsorted. simpl in Hsorted. lia.
Qed.

(** ** The reload after the allocation *)

(** C4.  A map has the simple transition to [s], and [Insert] is given a
    transition with another tuple, so it allocates an array of two.  If the
    collection run by that allocation clears the weak pointer to [s], the
    reload finds it cleared and the array published holds one entry, the new
    transition: [s] is not put back.  If [s] survives, the array holds the
    old transition and the new one, and no other, sorted by the
    comparator. *)
Theorem Insert_after_simple_transition_reloads (σ : State) (name : Name)
    (target : Map) (flag : SimpleTransitionFlag) (s : Map) :
  prologue_ok σ →
  encoding_ σ = kWeakRef → raw_transitions_ σ = Weak s →
  map_raw_transitions σ = Weak s →
  insert_precondition name target flag →
  transition_tuple (name, target) ≠ transition_tuple (simple_entry s) →
  ∃ σ' address a es,
    Insert name target flag σ = Ok (tt, σ')
    ∧ encoding_ σ' = kFullTransitionArray
    ∧ full_storage σ' address a es
    ∧ (next_dead σ s = true → es = [(name, target)])
    ∧ (next_dead σ s = false →
       es ≡ₚ [simple_entry s; (name, target)] ∧ sorted_transitions es).
Proof.
  intros Hp He Hr Hm Hpre Hne.
  destruct (next_dead σ s) eqn:Hdead.
  - assert (retransition flag s name target = false) as Hsame.
    { destruct (retransition flag s name target) eqn:Hs; [|done].
      by apply retransition_tuple in Hs. }
    eexists _, _, _, [(name, target)]. split_and!.
    + by apply (Insert_simple_cleared _ _ _ s).
    + done.
    + by apply install_new_array_storage.
    + done.
    + done.
  - destruct (Insert_simple_other name target flag s σ)
      as (r & ins & H & Hins & Hholds & Hsorted & _); try done.
    eexists _, _, _, _. split_and!.
    + exact H.
    + done.
    + by apply install_new_array_storage.
    + done.
    + intros _. split; [|done].
      destruct ins as [|[|?]]; [| |lia]; cbn [insert_at take drop app];
        [apply Permutation_swap|done].
Qed.

(** ** The paths of [Insert]: a full transition array *)

Section FullArray.

Hypothesis hash_inj : hash_injective.

(** The search that [Insert] runs on a sorted array. *)
Lemma Insert_search_answer a es name target flag out :
  array_holds a es → sorted_transitions es →
  insert_precondition name target flag →
  ∃ r,
    Insert_search (bool_decide (flag = SPECIAL_TRANSITION)) name
      (if bool_decide (flag = SPECIAL_TRANSITION) then PropertyDetails_Empty
       else GetTargetDetails name target) out a = Ok r
    ∧ search_answer es (transition_tuple (name, target)) name out r.
Proof using hash_inj.
  intros Ha Hs [Hflag _]. rewrite Hflag.
  destruct (IsSpecialTransition name) eqn:Hsp.
  - rewrite Insert_search_special, (SearchName_list _ _ _ _ Ha).
    eexists. split; [done|]. by apply search_name_answer.
  - rewrite Insert_search_property, (Search_list _ _ _ _ _ _ Ha).
    eexists. split; [done|]. by apply search_list_answer.
Qed.

(** An entry with the tuple of the new transition is the only one. *)
Lemma sorted_transitions_same_tuple es (i j : nat) e1 e2 :
  sorted_transitions es → es !! i = Some e1 → es !! j = Some e2 →
  transition_tuple e1 = transition_tuple e2 → i = j.
Proof.
  intros Hs H1 H2 Ht.
  destruct (Nat.lt_trichotomy i j) as [Hlt|[->|Hlt]]; [|done|].
  - pose proof (sorted_transitions_lookup _ _ _ _ _ Hs Hlt H1 H2) as H.
    unfold transition_lt in H. rewrite Ht in H. by apply tuple_lt_irrefl in H.
  - pose proof (sorted_transitions_lookup _ _ _ _ _ Hs Hlt H2 H1) as H.
    unfold transition_lt in H. rewrite Ht in H. by apply tuple_lt_irrefl in H.
Qed.

(** If the search finds nothing, no entry has the tuple. *)
Lemma search_answer_absent es t (n : nat) e :
  Forall (entry_below t) (take n es) → Forall (entry_above t) (drop n es) →
  e ∈ es → transition_tuple e ≠ t.
Proof.
  intros Hb Ha He Ht. rewrite <- (take_drop n es) in He.
  apply elem_of_app in He as [He|He].
  - apply (proj1 (list.Forall_forall _ _) Hb) in He. unfold entry_below in He.
    rewrite Ht in He. by apply tuple_lt_irrefl in He.
  - apply (proj1 (list.Forall_forall _ _) Ha) in He. unfold entry_above in He.
    rewrite Ht in He. by apply tuple_lt_irrefl in He.
Qed.

(** If an entry has the tuple, the search finds it. *)
Lemma search_answer_present es t name out r (n : nat) e :
  sorted_transitions es → search_answer es t name out r →
  es !! n = Some e → transition_tuple e = t →
  r = (Z.of_nat n, out) ∧ e.1 = name.
Proof.
  intros Hs [(_ & n' & _ & _ & Hb & Ha)|(n' & e' & H1 & H2 & He' & Hname & Ht')] He Ht.
  - exfalso. eapply (search_answer_absent es t n' e); eauto.
    apply list_elem_of_lookup. eauto.
  - assert (n' = n) as -> by (eapply sorted_transitions_same_tuple; eauto; congruence).
    simplify_eq. destruct r. simpl in *. by subst.
Qed.

End FullArray.

Section FullArrayPaths.

Hypothesis hash_inj : hash_injective.

(** The common start of the three paths: up to the search. *)
Lemma Insert_full_start name target flag σ address a es :
  prologue_ok σ → accessor_fresh σ → full_storage σ address a es →
  insert_precondition name target flag →
  Insert name target flag σ =
    (let is_special_transition := bool_decide (flag = SPECIAL_TRANSITION) in
     let details := if is_special_transition then PropertyDetails_Empty
                    else GetTargetDetails name target in
     let number_of_transitions := Z.of_nat (length es) in
     do '(index, insertion_index) <-
       on_array address (Insert_search is_special_transition name details kNotFound);
     if negb (index =? kNotFound) then
       exclusive (update_array address (λ a, SetRawTarget a index (Weak target)))
     else
       let new_nof := number_of_transitions + 1 in
       CHECK check_new_nof_le_max (new_nof <=? kMaxNumberOfTransitions);;
       DCHECK (0 <=? insertion_index);;
       DCHECK (insertion_index <=? number_of_transitions);;
       do capacity <- on_array address (λ a, Ok (Capacity a));
       if new_nof <=? capacity then
         exclusive (update_array address (λ a,
           let a := SetNumberOfTransitions a new_nof in
           try a <- shift_up a (Z.to_nat (number_of_transitions - insertion_index))
                      number_of_transitions;
           try a <- SetKey a insertion_index (Some name);
           SetRawTarget a insertion_index (Weak target)))
       else
         Insert_grow name target is_special_transition details
           number_of_transitions new_nof insertion_index) (entered target σ).
Proof.
  intros Hp Hf Hs [Hflag _].
  destruct (full_storage_encoding _ _ _ _ Hf Hs) as [He Hr].
  destruct Hs as (Hm & Hl & Ha).
  unfold Insert. rewrite Insert_prologue by done. rewrite He. simpl.
  rewrite (bind_Ok _ _ _ _ _ (DCHECK_true _)).
  rewrite Hflag, bool_decide_eq_true_2 by done.
  rewrite (bind_Ok _ _ _ _ _ (DCHECK_true _)).
  erewrite bind_Ok; [|unfold transitions; simpl; rewrite Hr; reflexivity].
  erewrite bind_Ok; [|by apply (on_array_Ok _ _ _ a); [exact Hl|]].
  by rewrite (proj1 Ha).
Qed.

(** An entry has the tuple of the new transition: its target is
    overwritten, under the guard, and nothing else changes. *)
Lemma Insert_full_found name target flag σ address a es (n : nat) e :
  prologue_ok σ → accessor_fresh σ → full_storage σ address a es →
  sorted_transitions es → insert_precondition name target flag →
  es !! n = Some e → transition_tuple e = transition_tuple (name, target) →
  ∃ a',
    Insert name target flag σ = Ok (tt, updated_in_place address a' target σ)
    ∧ array_holds a' (<[n := (name, target)]> es)
    ∧ length (entries a') = length (entries a)
    ∧ prototype_transitions a' = prototype_transitions a
    ∧ (e = (name, target) → a' = a).
Proof using hash_inj.
  intros Hp Hf Hs Hsorted Hpre He Ht.
  rewrite (Insert_full_start _ _ _ _ _ _ _ Hp Hf Hs Hpre). cbv zeta.
  destruct Hs as (Hm & Hl & Ha).
  destruct (Insert_search_answer hash_inj a es name target flag kNotFound Ha Hsorted Hpre)
    as (r & Hsearch & Hanswer).
  destruct (search_answer_present _ _ _ _ _ _ _ Hsorted Hanswer He Ht) as [-> Hname].
  erewrite bind_Ok; [|by apply (on_array_Ok _ _ _ a); [exact Hl|exact Hsearch]].
  cbv beta iota.
  replace (Z.of_nat n =? kNotFound) with false
    by (symmetry; apply Z.eqb_neq; unfold kNotFound; lia).
  cbn [negb]. cbv iota.
  destruct (SetRawTarget_holds a es n e target Ha He) as (a' & Hset & Hholds & Hcap & Hproto).
  exists a'. split_and!; try done.
  - erewrite exclusive_Ok; [done|].
    by erewrite update_array_Ok; [| exact Hl | exact Hset].
  - by rewrite Hname in Hholds.
  - intros ->. pose proof (array_holds_lookup _ _ _ _ Ha He) as Hentry.
    rewrite (SetRawTarget_nat _ _ _ _ Hentry) in Hset. simplify_eq.
    rewrite list_insert_id by done. by destruct a.
Qed.


Lemma search_answer_not_found es t name out r :
  search_answer es t name out r →
  (∀ e, e ∈ es → transition_tuple e ≠ t) →
  ∃ n : nat, r = (kNotFound, Z.of_nat n) ∧ (n ≤ length es)%nat
    ∧ Forall (entry_below t) (take n es)
    ∧ Forall (entry_above t) (drop n es).
Proof.
  intros [(H1 & n & H2 & Hn & Hb & Ha)|(n & e & _ & _ & He & _ & Ht)] Habsent.
  - exists n. destruct r. simpl in *. by subst.
  - exfalso. apply (Habsent e); [|done]. apply list_elem_of_lookup. eauto.
Qed.

Lemma CHECK_true site σ : CHECK site true σ = Ok (tt, σ).
Proof. done. Qed.

(** No entry has the tuple and the array is at the limit: the [CHECK]
    fails. *)
Lemma Insert_full_over_limit name target flag σ address a es :
  prologue_ok σ → accessor_fresh σ → full_storage σ address a es →
  sorted_transitions es → insert_precondition name target flag →
  (∀ e, e ∈ es → transition_tuple e ≠ transition_tuple (name, target)) →
  kMaxNumberOfTransitions < Z.of_nat (length es) + 1 →
  Insert name target flag σ = Err (CHECK_failed check_new_nof_le_max).
Proof using hash_inj.
  intros Hp Hf Hs Hsorted Hpre Habsent Hmax.
  rewrite (Insert_full_start _ _ _ _ _ _ _ Hp Hf Hs Hpre). cbv zeta.
  destruct Hs as (Hm & Hl & Ha).
  destruct (Insert_search_answer hash_inj a es name target flag kNotFound Ha Hsorted Hpre)
    as (r & Hsearch & Hanswer).
  destruct (search_answer_not_found _ _ _ _ _ Hanswer Habsent) as (n & -> & Hn & Hb & Hab).
  erewrite bind_Ok; [|by apply (on_array_Ok _ _ _ a); [exact Hl|exact Hsearch]].
  cbv beta iota. change (kNotFound =? kNotFound) with true. cbn [negb]. cbv iota.
  replace (Z.of_nat (length es) + 1 <=? kMaxNumberOfTransitions) with false
    by (symmetry; apply Z.leb_gt; lia).
  done.
Qed.

(** No entry has the tuple and the array has room: the entries above the
    insertion index move up and the new one goes in, under the guard. *)
Lemma Insert_full_in_place name target flag σ address a es :
  prologue_ok σ → accessor_fresh σ → full_storage σ address a es →
  sorted_transitions es → insert_precondition name target flag →
  (∀ e, e ∈ es → transition_tuple e ≠ transition_tuple (name, target)) →
  Z.of_nat (length es) + 1 ≤ kMaxNumberOfTransitions →
  (length es < length (entries a))%nat →
  ∃ (n : nat) a',
    Insert name target flag σ = Ok (tt, updated_in_place address a' target σ)
    ∧ (n ≤ length es)%nat
    ∧ Forall (entry_below (transition_tuple (name, target))) (take n es)
    ∧ Forall (entry_above (transition_tuple (name, target))) (drop n es)
    ∧ array_holds a' (insert_at n (name, target) es)
    ∧ length (entries a') = length (entries a)
    ∧ prototype_transitions a' = prototype_transitions a.
Proof using hash_inj.
  intros Hp Hf Hs Hsorted Hpre Habsent Hmax Hroom.
  rewrite (Insert_full_start _ _ _ _ _ _ _ Hp Hf Hs Hpre). cbv zeta.
  destruct Hs as (Hm & Hl & Ha).
  destruct (Insert_search_answer hash_inj a es name target flag kNotFound Ha Hsorted Hpre)
    as (r & Hsearch & Hanswer).
  destruct (search_answer_not_found _ _ _ _ _ Hanswer Habsent) as (n & -> & Hn & Hb & Hab).
  destruct (insert_in_place_holds a es n name target Ha Hn Hroom)
    as (a' & Hins & Hholds & Hcap & Hproto).
  cbv zeta in Hins.
  exists n, a'. split_and!; try done.
  erewrite bind_Ok; [|by apply (on_array_Ok _ _ _ a); [exact Hl|exact Hsearch]].
  cbv beta iota. change (kNotFound =? kNotFound) with true. cbn [negb]. cbv iota.
  replace (Z.of_nat (length es) + 1 <=? kMaxNumberOfTransitions) with true
    by (symmetry; apply Z.leb_le; lia).
  rewrite (bind_Ok _ _ _ _ _ (CHECK_true _ _)).
  replace (0 <=? Z.of_nat n) with true by (symmetry; apply Z.leb_le; lia).
  rewrite (bind_Ok _ _ _ _ _ (DCHECK_true _)).
  replace (Z.of_nat n <=? Z.of_nat (length es)) with true by (symmetry; apply Z.leb_le; lia).
  rewrite (bind_Ok _ _ _ _ _ (DCHECK_true _)).
  erewrite bind_Ok; [|by apply (on_array_Ok _ _ _ a); [exact Hl|reflexivity]].
  unfold Capacity.
  replace (Z.of_nat (length es) + 1 <=? Z.of_nat (length (entries a))) with true
    by (symmetry; apply Z.leb_le; lia).
  erewrite exclusive_Ok; [done|].
  by erewrite update_array_Ok; [| exact Hl | exact Hins].
Qed.


Lemma entered_storage σ address a es target :
  full_storage σ address a es →
  transition_arrays (entered target σ) !! address = Some a.
Proof. by intros (_ & ? & _). Qed.

(** No entry has the tuple and the array is full: a bigger array is
    allocated, the entries that survived the collection run by the
    allocation are copied into it around the new one, and it is published. *)
Lemma Insert_full_grow name target flag σ address a es :
  prologue_ok σ → accessor_fresh σ → full_storage σ address a es →
  sorted_transitions es → insert_precondition name target flag →
  (∀ e, e ∈ es → transition_tuple e ≠ transition_tuple (name, target)) →
  Z.of_nat (length es) + 1 ≤ kMaxNumberOfTransitions →
  (length (entries a) ≤ length es)%nat →
  0 ≤ SlackForArraySize (Z.of_nat (length es)) kMaxNumberOfTransitions →
  let survivors := filter (λ e, next_dead σ e.2 = false) es in
  ∃ (n : nat) r,
    Insert name target flag σ = Ok (tt, published r target σ)
    ∧ (n ≤ length survivors)%nat
    ∧ Forall (entry_below (transition_tuple (name, target))) (take n survivors)
    ∧ Forall (entry_above (transition_tuple (name, target))) (drop n survivors)
    ∧ array_holds r (insert_at n (name, target) survivors)
    ∧ Z.of_nat (length (entries r))
      = Z.of_nat (length es) + 1
        + SlackForArraySize (Z.of_nat (length es)) kMaxNumberOfTransitions
    ∧ prototype_transitions r = prototype_transitions a.
Proof using hash_inj.
  intros Hp Hf Hs Hsorted Hpre Habsent Hmax Hfull Hslack survivors.
  rewrite (Insert_full_start _ _ _ _ _ _ _ Hp Hf Hs Hpre). cbv zeta.
  pose proof Hs as (Hm & Hl & Ha).
  destruct (Insert_search_answer hash_inj a es name target flag kNotFound Ha Hsorted Hpre)
    as (r & Hsearch & Hanswer).
  destruct (search_answer_not_found _ _ _ _ _ Hanswer Habsent) as (n & -> & Hn & Hb & Hab).
  erewrite bind_Ok; [|by apply (on_array_Ok _ _ _ a); [exact Hl|exact Hsearch]].
  cbv beta iota. change (kNotFound =? kNotFound) with true. cbn [negb]. cbv iota.
  replace (Z.of_nat (length es) + 1 <=? kMaxNumberOfTransitions) with true
    by (symmetry; apply Z.leb_le; lia).
  rewrite (bind_Ok _ _ _ _ _ (CHECK_true _ _)).
  replace (0 <=? Z.of_nat n) with true by (symmetry; apply Z.leb_le; lia).
  rewrite (bind_Ok _ _ _ _ _ (DCHECK_true _)).
  replace (Z.of_nat n <=? Z.of_nat (length es)) with true by (symmetry; apply Z.leb_le; lia).
  rewrite (bind_Ok _ _ _ _ _ (DCHECK_true _)).
  erewrite bind_Ok; [|by apply (on_array_Ok _ _ _ a); [exact Hl|reflexivity]].
  unfold Capacity.
  replace (Z.of_nat (length es) + 1 <=? Z.of_nat (length (entries a))) with false
    by (symmetry; apply Z.leb_gt; lia).
  (* the allocation *)
  unfold Insert_grow.
  rewrite (bind_Ok _ _ _ _ _ (NewTransitionArray_Ok _ _ _)).
  set (σ1 := after_safepoint (entered target σ)).
  set (slack := SlackForArraySize (Z.of_nat (length es)) kMaxNumberOfTransitions) in *.
  set (r0 := mkTransitionArray None (Z.of_nat (length es) + 1)
               (replicate (Z.to_nat (Z.of_nat (length es) + 1 + slack)) undefined_entry)).
  rewrite (bind_Ok _ _ _ _ _ (Reload_Ok _)).
  destruct (after_safepoint_array (entered target σ) address a es
              (entered_storage _ _ _ _ target Hs) Ha)
    as (a1 & Hl1 & Ha1 & Hproto1 & Hcap1).
  fold σ1 in Hl1. change (next_dead (entered target σ)) with (next_dead σ) in Ha1.
  fold survivors in Ha1.
  assert (map_raw_transitions σ1 = StrongTransitionArray address) as Hm1.
  { subst σ1. rewrite after_safepoint_map. simpl. by rewrite Hm. }
  set (l := transition_arrays σ1) in *.
  assert (∀ r, transition_arrays (set_transition_arrays (l ++ [r]) (TransitionsAccessor_new σ1))
               !! address = Some a1) as Hold.
  { intros r. simpl. by apply lookup_app_l_Some. }
  erewrite bind_Ok; [|unfold transitions; simpl; rewrite Hm1; reflexivity].
  erewrite bind_Ok;
    [|by apply (on_array_Ok _ _ (set_transition_arrays (l ++ [r0]) (TransitionsAccessor_new σ1)) a1);
        [apply Hold|reflexivity]].
  rewrite (proj1 Ha1).
  assert (sorted_transitions survivors) as Hsorted1 by by apply sorted_transitions_filter.
  assert (∀ e, e ∈ survivors → transition_tuple e ≠ transition_tuple (name, target))
    as Habsent1.
  { intros e [_ He]%list_elem_of_filter. by apply Habsent. }
  pose proof (length_filter (λ e, next_dead σ e.2 = false) es) as Hle. fold survivors in Hle.
  (* the search again, if the array has shrunk *)
  assert (∃ n' : nat,
    (if negb (Z.of_nat (length survivors) =? Z.of_nat (length es)) then
       DCHECK (Z.of_nat (length survivors) <? Z.of_nat (length es));;
       do '(index, insertion_index) <-
         on_array address
           (Insert_search (bool_decide (flag = SPECIAL_TRANSITION)) name
              (if bool_decide (flag = SPECIAL_TRANSITION) then PropertyDetails_Empty
               else GetTargetDetails name target) (Z.of_nat n));
       CHECK check_index_not_found (index =? kNotFound);;
       DCHECK (0 <=? insertion_index);;
       DCHECK (insertion_index <=? Z.of_nat (length es));;
       update_array (length l)
         (λ r, Ok (SetNumberOfTransitions r (Z.of_nat (length survivors) + 1)));;
       ret (Z.of_nat (length survivors), insertion_index)
     else ret (Z.of_nat (length es), Z.of_nat n))
      (set_transition_arrays (l ++ [r0]) (TransitionsAccessor_new σ1))
    = Ok ((Z.of_nat (length survivors), Z.of_nat n'),
          set_transition_arrays
            (l ++ [SetNumberOfTransitions r0 (Z.of_nat (length survivors) + 1)])
            (TransitionsAccessor_new σ1))
    ∧ (n' ≤ length survivors)%nat
    ∧ Forall (entry_below (transition_tuple (name, target))) (take n' survivors)
    ∧ Forall (entry_above (transition_tuple (name, target))) (drop n' survivors))
    as (n' & Hagain & Hn' & Hb' & Hab').
  { destruct (decide (length survivors = length es)) as [Heq|Hneq].
    - exists n.
      assert (survivors = es) as Hsame by by apply filter_length_eq.
      rewrite Hsame in *.
      replace (Z.of_nat (length es) =? Z.of_nat (length es)) with true
        by (symmetry; apply Z.eqb_eq; lia).
      by split_and!.
    - replace (Z.of_nat (length survivors) =? Z.of_nat (length es)) with false
        by (symmetry; apply Z.eqb_neq; lia).
      cbn [negb]. cbv iota.
      replace (Z.of_nat (length survivors) <? Z.of_nat (length es)) with true
        by (symmetry; apply Z.ltb_lt; lia).
      rewrite (bind_Ok _ _ _ _ _ (DCHECK_true _)).
      destruct (Insert_search_answer hash_inj a1 survivors name target flag (Z.of_nat n)
                  Ha1 Hsorted1 Hpre) as (r' & Hsearch' & Hanswer').
      destruct (search_answer_not_found _ _ _ _ _ Hanswer' Habsent1)
        as (n' & -> & Hn' & Hb' & Hab').
      exists n'. split_and!; try done.
      erewrite bind_Ok;
        [|by apply (on_array_Ok _ _ _ a1); [apply Hold|exact Hsearch']].
      cbv beta iota. change (kNotFound =? kNotFound) with true.
      rewrite (bind_Ok _ _ _ _ _ (CHECK_true _ _)).
      replace (0 <=? Z.of_nat n') with true by (symmetry; apply Z.leb_le; lia).
      rewrite (bind_Ok _ _ _ _ _ (DCHECK_true _)).
      replace (Z.of_nat n' <=? Z.of_nat (length es)) with true
        by (symmetry; apply Z.leb_le; lia).
      rewrite (bind_Ok _ _ _ _ _ (DCHECK_true _)).
      erewrite bind_Ok; [|by apply update_new_array]. done. }
  rewrite (bind_Ok _ _ _ _ _ Hagain). cbv beta iota.
  set (r1 := SetNumberOfTransitions r0 (Z.of_nat (length survivors) + 1)) in *.
  (* the prototype transitions *)
  erewrite bind_Ok; [|by apply (on_array_Ok _ _ _ a1); [apply Hold|reflexivity]].
  set (r2 := mkTransitionArray (prototype_transitions a1) (transition_length r1) (entries r1)).
  assert ((if HasPrototypeTransitions a1 then
             do cache <- on_array address TransitionArray_GetPrototypeTransitions;
             update_array (length l)
               (λ r, Ok (TransitionArray_SetPrototypeTransitions r cache))
           else ret tt)
            (set_transition_arrays (l ++ [r1]) (TransitionsAccessor_new σ1))
          = Ok (tt, set_transition_arrays (l ++ [r2]) (TransitionsAccessor_new σ1)))
    as Hcache.
  { unfold HasPrototypeTransitions. subst r2.
    destruct (prototype_transitions a1) as [cache|] eqn:Hc.
    - rewrite bool_decide_eq_true_2 by by eexists.
      erewrite bind_Ok;
        [|by apply (on_array_Ok _ _ _ a1);
            [apply Hold|unfold TransitionArray_GetPrototypeTransitions; rewrite Hc]].
      by erewrite update_new_array.
    - rewrite bool_decide_eq_false_2 by by intros [? ?]. done. }
  rewrite (bind_Ok _ _ _ _ _ Hcache).
  replace (Z.of_nat n' =? kNotFound) with false
    by (symmetry; apply Z.eqb_neq; unfold kNotFound; lia).
  rewrite (bind_Ok _ _ _ _ _ (DCHECK_true _)).
  erewrite bind_Ok; [|unfold load_array; rewrite Hold; reflexivity].
  (* the copy *)
  assert (length (entries r2) = Z.to_nat (Z.of_nat (length es) + 1 + slack)) as Hcap2
    by (subst r2 r1 r0; simpl; by rewrite length_replicate).
  destruct (insert_by_copy_holds a1 survivors r2 n' name target Ha1 Hn')
    as (r3 & Hcopy & Hholds & Hcap3 & Hproto3).
  { rewrite Hcap2. lia. }
  { done. }
  exists n', r3. split_and!; try done.
  - erewrite bind_Ok; [|by apply update_new_array, Hcopy]. done.
  - rewrite Hcap3, Hcap2. lia.
  - rewrite Hproto3. subst r2. simpl. done.
Qed.

End FullArrayPaths.

(** ** Calls that [Insert] does not survive *)

Lemma DCHECK_release c σ : DEBUG = false → DCHECK c σ = Ok (tt, σ).
Proof. intros H. unfold DCHECK, rDCHECK, lift. by rewrite H. Qed.

(** The storage word holds prototype information: a release build reads it
    as a transition array. *)
Lemma Insert_prototype_info name target flag σ :
  accessor_fresh σ → encoding_ σ = kPrototypeInfo →
  Insert name target flag σ
  = Err (if DEBUG then DCHECK_failed else UndefinedBehaviour).
Proof.
  intros [Hr Hf] He.
  destruct (decide (prologue_ok σ)) as [Hp|Hp].
  2: { rewrite Insert_not_prologue_ok by done.
       unfold prologue_ok in Hp. by destruct DEBUG. }
  assert (DEBUG = false) as Hd.
  { unfold prologue_ok in Hp. rewrite He in Hp. simpl in Hp.
    destruct DEBUG; [|done]. by rewrite !orb_true_r in Hp. }
  replace (if DEBUG then DCHECK_failed else UndefinedBehaviour)
    with UndefinedBehaviour by by rewrite Hd.
  unfold Insert. rewrite Insert_prologue by done. rewrite He. simpl.
  rewrite (bind_Ok _ _ _ _ _ (DCHECK_release _ _ Hd)).
  rewrite (bind_Ok _ _ _ _ _ (DCHECK_release _ _ Hd)).
  apply bind_Err. unfold transitions. simpl. rewrite Hr.
  rewrite He in Hf. destruct (map_raw_transitions σ); simplify_eq/=. done.
Qed.

(** A transition that is not simple, with the tuple of the simple
    transition the map has: the search finds the old one in the new array. *)
Lemma Insert_simple_found_fails name target flag s σ :
  prologue_ok σ → encoding_ σ = kWeakRef → raw_transitions_ σ = Weak s →
  map_raw_transitions σ = Weak s →
  insert_precondition name target flag →
  retransition flag s name target = false →
  transition_tuple (name, target) = transition_tuple (simple_entry s) →
  next_dead σ s = false →
  Insert name target flag σ
  = Err (if DEBUG then DCHECK_failed else UndefinedBehaviour).
Proof.
  intros Hp He Hr Hm Hpre Hsame Ht Hdead.
  set (r1 := mkTransitionArray None 1 [entry_of (simple_entry s); undefined_entry]).
  assert (array_holds r1 [simple_entry s]) as Hr1 by done.
  assert (Insert_search (bool_decide (flag = SPECIAL_TRANSITION)) name
            (GetTargetDetails name target) 0 r1 = Ok (0, 0)) as Hsearch.
  { destruct Hpre as [Hflag _]. rewrite Hflag.
    assert ((simple_entry s).1 = name) as Hname.
    { by rewrite <- (transition_tuple_name (simple_entry s)), <- Ht, transition_tuple_name. }
    unfold simple_entry, GetSimpleTransitionKey in *. simpl in Hname.
    destruct (IsSpecialTransition name) eqn:Hsp.
    - rewrite Insert_search_special, (SearchName_list _ _ _ _ Hr1). simpl.
      by rewrite Hname, CompareNames_refl.
    - rewrite Insert_search_property, (Search_list _ _ _ _ _ _ Hr1).
      unfold search_list. simpl. rewrite Hname, CompareNames_refl. simpl.
      rewrite bool_decide_eq_true_2 by done. simpl.
      rewrite Hname in Ht.
      rewrite !(transition_tuple_property _ _ Hsp) in Ht. simplify_eq.
      unfold GetTargetDetails. replace (kind (LastAddedDetails target)) with
        (kind (LastAddedDetails s)) by done.
      replace (attributes (LastAddedDetails target)) with
        (attributes (LastAddedDetails s)) by done.
      by rewrite CompareDetails_refl. }
  unfold Insert. rewrite Insert_prologue by done.
  rewrite He. simpl.
  erewrite bind_Ok; [|by apply GetSimpleTransition_weak].
  rewrite bool_decide_eq_true_2 by by eexists.
  rewrite (bind_Ok _ _ _ _ _ (DCHECK_true _)).
  rewrite (bind_Ok _ _ _ _ _ (Insert_retransition_test _ _ _ _ _)).
  rewrite Hsame.
  rewrite (bind_Ok _ _ _ _ _ (NewTransitionArray_Ok _ _ _)).
  set (σ1 := after_safepoint (entered target σ)).
  rewrite (bind_Ok _ _ _ _ _ (Reload_Ok _)).
  assert (map_raw_transitions σ1 = Weak s) as Hweak.
  { subst σ1. rewrite after_safepoint_map. simpl. rewrite Hm.
    unfold clear_weak. simpl.
    replace (next_dead (entered target σ)) with (next_dead σ) by done.
    by rewrite Hdead. }
  erewrite bind_Ok.
  2: { apply GetSimpleTransition_weak; simpl; by rewrite Hweak. }
  cbv beta iota.
  erewrite bind_Ok.
  2: { unfold TransitionsAccessor_new.
       apply (update_new_array _ (set_accessor _ _ σ1) _ _ r1). reflexivity. }
  erewrite bind_Ok; [|by apply on_new_array, Hsearch].
  cbv beta iota. change (0 =? kNotFound) with false.
  unfold DCHECK, rDCHECK, lift, bind. by destruct DEBUG.
Qed.

(** ** What [Insert] leaves behind *)

Lemma elem_of_insert_at {A} (n : nat) (x : A) l : x ∈ insert_at n x l.
Proof. unfold insert_at. apply elem_of_app. right. by left. Qed.

Lemma insert_outcome_simple name target σ :
  let σ0 := TransitionsAccessor_new σ in
  insert_outcome name target SIMPLE_PROPERTY_TRANSITION σ
    (set_map_raw_transitions (Weak target) (entered target σ0)).
Proof.
  intros σ0. split_and!; [done|done| |by left].
  by exists [SetBackPointer target].
Qed.

Lemma insert_outcome_install name target flag r es σ :
  let σ0 := TransitionsAccessor_new σ in
  array_holds r es → sorted_transitions es → (name, target) ∈ es →
  insert_outcome name target flag σ
    (install_new_array r (after_safepoint (entered target σ0))).
Proof.
  intros σ0 Hr Hs Hin.
  destruct (after_safepoint_accessor (entered target σ0)) as (_ & _ & Hc & Hn & _).
  split_and!.
  - by simpl; rewrite Hc.
  - by simpl; rewrite Hn.
  - exists [SetBackPointer target; Allocate]. split; [|done].
    simpl. rewrite after_safepoint_trace. simpl. by rewrite <- app_assoc.
  - right. eexists _, r, es. split_and!; try done.
    by apply install_new_array_storage.
Qed.

Lemma insert_outcome_published name target flag r es σ :
  let σ0 := TransitionsAccessor_new σ in
  array_holds r es → sorted_transitions es → (name, target) ∈ es →
  insert_outcome name target flag σ (published r target σ0).
Proof.
  intros σ0 Hr Hs Hin.
  destruct (after_safepoint_accessor (entered target σ0)) as (_ & _ & Hc & Hn & _).
  split_and!.
  - by simpl; rewrite Hc.
  - by simpl; rewrite Hn.
  - exists [SetBackPointer target; Allocate]. split; [|done].
    simpl. rewrite after_safepoint_trace. simpl. by rewrite <- app_assoc.
  - right. eexists _, r, es. split_and!; try done.
    split_and!; [done| |done]. simpl. by apply list_lookup_middle.
Qed.

Lemma insert_outcome_updated name target flag address a a' es σ :
  let σ0 := TransitionsAccessor_new σ in
  map_raw_transitions σ = StrongTransitionArray address →
  transition_arrays σ !! address = Some a →
  array_holds a' es → sorted_transitions es → (name, target) ∈ es →
  insert_outcome name target flag σ (updated_in_place address a' target σ0).
Proof.
  intros σ0 Hm Hl Hr Hs Hin. split_and!; [done|done| |].
  - exists [SetBackPointer target; LockExclusive; UnlockExclusive]. split; [|done].
    simpl. by rewrite <- !app_assoc.
  - right. exists address, a', es. split_and!; try done.
    split_and!; [done| |done]. simpl.
    apply list_lookup_insert_eq. by eapply lookup_lt_Some.
Qed.

(** ** [Insert] keeps the invariant *)

Section Invariant.

Hypothesis hash_inj : hash_injective.
Hypothesis slack_ok : slack_not_negative.

Variable P : Z → Prop.
Hypothesis P_one : P 1.
Hypothesis P_two : P 2.
Hypothesis P_grown : ∀ n, 0 ≤ n → n + 1 ≤ kMaxNumberOfTransitions →
  P (n + 1 + SlackForArraySize n kMaxNumberOfTransitions).
Hypothesis P_down : ∀ c c', c' ≤ c → P c → P c'.

Lemma storage_invariant_weak σ m :
  map_raw_transitions σ = Weak m → storage_invariant P σ.
Proof. intros H address. by rewrite H. Qed.

Lemma storage_invariant_install r es σ :
  array_holds r es → sorted_transitions es → P (Capacity r) →
  storage_invariant P (install_new_array r σ).
Proof.
  intros Hr Hs Hp address [= <-]. exists r, es. split_and!; try done.
  simpl. by apply list_lookup_middle.
Qed.

Lemma storage_invariant_published r es target σ :
  array_holds r es → sorted_transitions es → P (Capacity r) →
  storage_invariant P (published r target σ).
Proof.
  intros Hr Hs Hp address [= <-]. exists r, es. split_and!; try done.
  simpl. by apply list_lookup_middle.
Qed.

Lemma storage_invariant_updated address a a' es target σ :
  map_raw_transitions σ = StrongTransitionArray address →
  transition_arrays σ !! address = Some a →
  array_holds a' es → sorted_transitions es → P (Capacity a') →
  storage_invariant P (updated_in_place address a' target σ).
Proof.
  intros Hm Hl Hr Hs Hp address'. simpl. rewrite Hm. intros [= <-].
  exists a', es. split_and!; try done.
  apply list_lookup_insert_eq. by eapply lookup_lt_Some.
Qed.

Lemma storage_invariant_collect dead σ :
  storage_invariant P σ → storage_invariant P (collect dead σ).
Proof using P_down.
  intros Hinv address. simpl. unfold clear_weak.
  destruct (dead_target dead (map_raw_transitions σ)); [done|].
  intros Hm. destruct (Hinv _ Hm) as (a & es & Hl & Ha & Hs & Hp).
  destruct (collect_array_holds dead a es Ha) as (Ha' & _ & Hcap).
  eexists _, _. split_and!.
  - by rewrite list_lookup_fmap, Hl.
  - done.
  - by apply sorted_transitions_filter.
  - apply (P_down (Capacity a)); [unfold Capacity; lia|done].
Qed.

(** Every call of [Insert] that returns keeps the invariant, and leaves the
    new transition in the storage. *)
Lemma Insert_step σ σ' name target flag :
  storage_invariant P σ → insert_precondition name target flag →
  Insert name target flag (TransitionsAccessor_new σ) = Ok (tt, σ') →
  storage_invariant P σ' ∧ insert_outcome name target flag σ σ'.
Proof using hash_inj slack_ok P_one P_two P_grown P_down.
  intros Hinv Hpre HI.
  set (σ0 := TransitionsAccessor_new σ) in *.
  destruct (decide (prologue_ok σ0)) as [Hp|Hp];
    [|by rewrite Insert_not_prologue_ok in HI].
  assert (accessor_fresh σ0) as Hf by done.
  assert (encoding_ σ0 = GetEncoding (map_raw_transitions σ)) as He by done.
  assert (raw_transitions_ σ0 = map_raw_transitions σ) as Hr by done.
  assert (map_raw_transitions σ0 = map_raw_transitions σ) as Hm0 by done.
  assert (∀ r, array_holds r [(name, target)] → P (Capacity r) →
    storage_invariant P (install_new_array r (after_safepoint (entered target σ0)))
    ∧ insert_outcome name target flag σ
        (install_new_array r (after_safepoint (entered target σ0)))) as Hone.
  { intros r Hr1 Hp1. split.
    - by apply (storage_invariant_install _ [(name, target)]);
        [|apply sorted_transitions_singleton|].
    - apply (insert_outcome_install _ _ _ _ [(name, target)]);
        [done|apply sorted_transitions_singleton|by left]. }
  assert (encoding_ σ0 = kUninitialized ∨ encoding_ σ0 = kMigrationTarget →
    storage_invariant P σ' ∧ insert_outcome name target flag σ σ') as Hfirst.
  { intros Hnone.
    destruct (decide (flag = SIMPLE_PROPERTY_TRANSITION)) as [->|Hflag].
    - rewrite Insert_first_simple in HI by done. simplify_eq. split.
      + by eapply storage_invariant_weak.
      + apply insert_outcome_simple.
    - rewrite Insert_first_full in HI by done. simplify_eq. by apply Hone. }
  destruct (map_raw_transitions σ) as [v| |s| |m|address|] eqn:Hm; simpl in He;
    try (by apply Hfirst; auto).
  - (* one simple transition *)
    destruct (retransition flag s name target) eqn:Hsame.
    { rewrite (Insert_simple_same _ _ _ s) in HI by done. simplify_eq.
      assert (flag = SIMPLE_PROPERTY_TRANSITION) as ->.
      { unfold retransition in Hsame. apply andb_true_iff in Hsame as [Hflag _].
        by apply bool_decide_eq_true in Hflag. }
      split; [by eapply storage_invariant_weak|apply insert_outcome_simple]. }
    destruct (next_dead σ0 s) eqn:Hdead.
    { rewrite (Insert_simple_cleared _ _ _ s) in HI by done. simplify_eq.
      by apply Hone. }
    destruct (decide (transition_tuple (name, target) = transition_tuple (simple_entry s)))
      as [Ht|Ht].
    { by rewrite (Insert_simple_found_fails name target flag s σ0) in HI. }
    destruct (Insert_simple_other name target flag s σ0)
      as (r & ins & H & Hins & Hholds & Hsorted & Hcap & _); try done.
    rewrite H in HI. injection HI as <-. split.
    + apply (storage_invariant_install _ _ _ Hholds Hsorted).
      unfold Capacity. by rewrite Hcap.
    + apply (insert_outcome_install _ _ _ _ _ _ Hholds Hsorted).
      apply elem_of_insert_at.
  - (* a full transition array *)
    destruct (Hinv address Hm) as (a & es & Hl & Ha & Hsorted & Hcap).
    assert (full_storage σ0 address a es) as Hs by done.
    destruct (Insert_search_answer hash_inj a es name target flag kNotFound Ha Hsorted Hpre)
      as (r & _ & [(_ & n & _ & Hn & Hb & Hab)|(n & e & _ & _ & He' & Hname & Ht)]).
    2: { destruct (Insert_full_found hash_inj name target flag σ0 address a es n e)
           as (a' & H & Hholds & Hcap' & _); try done.
         rewrite H in HI. injection HI as <-.
         assert (sorted_transitions (<[n := (name, target)]> es)) as Hsorted'
           by by eapply sorted_transitions_overwrite.
         split.
         - eapply (storage_invariant_updated address a a'); try done.
           unfold Capacity in *. by rewrite Hcap'.
         - eapply (insert_outcome_updated _ _ _ address a a'); try done.
           apply list_elem_of_insert. by eapply lookup_lt_Some. }
    assert (∀ e, e ∈ es → transition_tuple e ≠ transition_tuple (name, target))
      as Habs by (intros e0 He0; by apply (search_answer_absent es _ n e0)).
    destruct (Z.lt_ge_cases kMaxNumberOfTransitions (Z.of_nat (length es) + 1)) as [Hover|Hmax].
    { by rewrite (Insert_full_over_limit hash_inj _ _ _ _ address a es) in HI. }
    destruct (Nat.lt_ge_cases (length es) (length (entries a))) as [Hroom|Hfull].
    + destruct (Insert_full_in_place hash_inj name target flag σ0 address a es)
        as (n' & a' & H & Hn' & Hb' & Hab' & Hholds & Hcap' & _); try done.
      rewrite H in HI. injection HI as <-.
      assert (sorted_transitions (insert_at n' (name, target) es)) as Hsorted'
        by by apply sorted_transitions_insert_at.
      split.
      * eapply (storage_invariant_updated address a a'); try done.
        unfold Capacity in *. by rewrite Hcap'.
      * eapply (insert_outcome_updated _ _ _ address a a'); try done.
        apply elem_of_insert_at.
    + destruct (Insert_full_grow hash_inj name target flag σ0 address a es)
        as (n' & r' & H & Hn' & Hb' & Hab' & Hholds & Hcap' & _); try done.
      { apply slack_ok; lia. }
      rewrite H in HI. injection HI as <-.
      set (survivors := filter (λ e, next_dead σ0 e.2 = false) es) in *.
      assert (sorted_transitions (insert_at n' (name, target) survivors)) as Hsorted'.
      { apply sorted_transitions_insert_at; [|done|done].
        by apply sorted_transitions_filter. }
      split.
      * eapply storage_invariant_published; [exact Hholds|done|].
        unfold Capacity. rewrite Hcap'. apply P_grown; lia.
      * eapply insert_outcome_published; [exact Hholds|done|].
        apply elem_of_insert_at.
  - (* prototype information *)
    by rewrite (Insert_prototype_info name target flag σ0) in HI.
Qed.

Lemma reachable_invariant σ : reachable σ → storage_invariant P σ.
Proof using hash_inj slack_ok P_one P_two P_grown P_down.
  induction 1 as [σ Hinit|σ σ' name target flag _ IH Hpre HI|σ dead _ IH].
  - intros address Hm. by rewrite Hm in Hinit.
  - by eapply Insert_step.
  - by apply storage_invariant_collect.
Qed.

End Invariant.

(** ** Inserting a transition that is there already *)




(** ** The capacity of a transition array *)

(** How a call of [Insert] ends, from a state that satisfies the invariant:
    it returns, or an assertion of a debug build fails, or the behaviour is
    undefined, or the array has no room below the limit. *)
Lemma Insert_result σ name target flag :
  hash_injective → slack_not_negative →
  storage_invariant (λ _, True) σ → insert_precondition name target flag →
  (∃ σ', Insert name target flag (TransitionsAccessor_new σ) = Ok (tt, σ'))
  ∨ Insert name target flag (TransitionsAccessor_new σ) = Err DCHECK_failed
  ∨ Insert name target flag (TransitionsAccessor_new σ) = Err UndefinedBehaviour
  ∨ (Insert name target flag (TransitionsAccessor_new σ)
     = Err (CHECK_failed check_new_nof_le_max)
     ∧ ∃ address a, map_raw_transitions σ = StrongTransitionArray address
         ∧ transition_arrays σ !! address = Some a
         ∧ kMaxNumberOfTransitions < number_of_transitions a + 1).
Proof.
  intros hash_inj Hslack Hinv Hpre.
  set (σ0 := TransitionsAccessor_new σ) in *.
  destruct (decide (prologue_ok σ0)) as [Hp|Hp];
    [|right; left; by apply Insert_not_prologue_ok].
  assert (accessor_fresh σ0) as Hf by done.
  assert (encoding_ σ0 = GetEncoding (map_raw_transitions σ)) as He by done.
  assert (raw_transitions_ σ0 = map_raw_transitions σ) as Hr by done.
  assert (map_raw_transitions σ0 = map_raw_transitions σ) as Hm0 by done.
  assert (encoding_ σ0 = kUninitialized ∨ encoding_ σ0 = kMigrationTarget →
    ∃ σ', Insert name target flag σ0 = Ok (tt, σ')) as Hfirst.
  { intros Hnone.
    destruct (decide (flag = SIMPLE_PROPERTY_TRANSITION)) as [->|Hflag].
    - rewrite Insert_first_simple by done. by eexists.
    - rewrite Insert_first_full by done. by eexists. }
  destruct (map_raw_transitions σ) as [v| |s| |m|address|] eqn:Hm; simpl in He;
    try (by left; apply Hfirst; auto).
  - (* one simple transition *)
    destruct (retransition flag s name target) eqn:Hsame.
    { left. rewrite (Insert_simple_same _ _ _ s) by done. by eexists. }
    destruct (next_dead σ0 s) eqn:Hdead.
    { left. rewrite (Insert_simple_cleared _ _ _ s) by done. by eexists. }
    destruct (decide (transition_tuple (name, target) = transition_tuple (simple_entry s)))
      as [Ht|Ht].
    { rewrite (Insert_simple_found_fails name target flag s σ0) by done.
      destruct DEBUG; auto. }
    destruct (Insert_simple_other name target flag s σ0)
      as (r & ins & H & _); try done.
    left. rewrite H. by eexists.
  - (* a full transition array *)
    destruct (Hinv address Hm) as (a & es & Hl & Ha & Hsorted & _).
    assert (full_storage σ0 address a es) as Hs by done.
    destruct (Insert_search_answer hash_inj a es name target flag kNotFound Ha Hsorted Hpre)
      as (r & _ & [(_ & n & _ & Hn & Hb & Hab)|(n & e & _ & _ & He' & Hname & Ht)]).
    2: { destruct (Insert_full_found hash_inj name target flag σ0 address a es n e)
           as (a' & H & _); try done.
         left. rewrite H. by eexists. }
    assert (∀ e, e ∈ es → transition_tuple e ≠ transition_tuple (name, target))
      as Habs by (intros e0 He0; by apply (search_answer_absent es _ n e0)).
    destruct (Z.lt_ge_cases kMaxNumberOfTransitions (Z.of_nat (length es) + 1)) as [Hover|Hmax].
    { right; right; right. split.
      - by rewrite (Insert_full_over_limit hash_inj _ _ _ _ address a es).
      - exists address, a. split_and!; [done..|].
        by rewrite (array_holds_number _ _ Ha). }
    destruct (Nat.lt_ge_cases (length es) (length (entries a))) as [Hroom|Hfull].
    + destruct (Insert_full_in_place hash_inj name target flag σ0 address a es)
        as (n' & a' & H & _); try done.
      left. rewrite H. by eexists.
    + destruct (Insert_full_grow hash_inj name target flag σ0 address a es)
        as (n' & r' & H & _); try done.
      { apply Hslack; lia. }
      left. rewrite H. by eexists.
  - (* prototype information *)
    rewrite (Insert_prototype_info name target flag σ0) by done.
    destruct DEBUG; auto.
Qed.


(** ** The insertion sort *)

Lemma sort_details_entry e :
  sort_details e.1 (Weak e.2)
  = Ok ((transition_tuple e).1.2, (transition_tuple e).2).
Proof.
  unfold sort_details, transition_tuple. by destruct (IsSpecialTransition e.1).
Qed.

Lemma CompareKeys_tuples e1 e2 :
  CompareKeys e1.1 (hash e1.1) (transition_tuple e1).1.2 (transition_tuple e1).2
    e2.1 (hash e2.1) (transition_tuple e2).1.2 (transition_tuple e2).2
  = compare_tuples (transition_tuple e1) (transition_tuple e2).
Proof. unfold compare_tuples. by rewrite !transition_tuple_name. Qed.

Lemma array_with_entries a : 
  mkTransitionArray (prototype_transitions a) (transition_length a) (entries a) = a.
Proof. by destruct a. Qed.

(** The inner loop on a list: the entries [p] below the hole [h] are looked
    at from the last one down; those that compare above [x] move up by one,
    and the hole ends at the index [m]. *)
Lemma Sort_inner_list (x : Name * Map) p : ∀ a h rest,
  entries a = (entry_of <$> p) ++ h :: rest →
  ∃ (m : nat) h',
    Sort_inner a x.1 (transition_tuple x).1.2 (transition_tuple x).2 (length p)
    = Ok (mkTransitionArray (prototype_transitions a) (transition_length a)
            ((entry_of <$> take m p) ++ h' :: (entry_of <$> drop m p) ++ rest),
          Z.of_nat m - 1)
    ∧ (m ≤ length p)%nat
    ∧ Forall (λ y, compare_tuples (transition_tuple y) (transition_tuple x) > 0)
        (drop m p)
    ∧ (∀ (m' : nat) y, m = S m' → p !! m' = Some y →
         ¬ compare_tuples (transition_tuple y) (transition_tuple x) > 0).
Proof.
  induction p as [|y p IH] using rev_ind; intros a h rest Ha.
  { exists 0%nat, h. simpl in *. rewrite <- Ha, array_with_entries.
    split_and!; [done|done|constructor|done]. }
  rewrite length_app. simpl. rewrite Nat.add_1_r. simpl.
  assert (entries a !! length p = Some (entry_of y)) as Hy.
  { rewrite Ha, fmap_app, <- app_assoc. 
    rewrite lookup_app_r by by rewrite length_fmap.
    by rewrite length_fmap, Nat.sub_diag. }
  rewrite (GetKey_nat _ _ _ Hy). simpl.
  rewrite (GetRawTarget_nat _ _ _ Hy). simpl.
  rewrite (sort_details_entry y). simpl.
  rewrite (CompareKeys_tuples y x).
  destruct (compare_tuples (transition_tuple y) (transition_tuple x) >? 0) eqn:Hcmp.
  - replace (Z.of_nat (length p) + 1) with (Z.of_nat (S (length p))) by lia.
    assert (S (length p) < length (entries a))%nat as Hlen.
    { rewrite Ha, length_app, length_fmap, length_app. simpl. lia. }
    pose proof (Set_nat a (S (length p)) (Some y.1) (Weak y.2) Hlen) as Hset.
    unfold Set_ in Hset. 
    destruct (SetKey a (Z.of_nat (S (length p))) (Some y.1)) as [a1|] eqn:Hkey;
      [|done].
    simpl in Hset. simpl. rewrite Hset. simpl.
    set (a2 := mkTransitionArray _ _ _).
    destruct (IH a2 (entry_of y) (entry_of y :: rest)) as (m & h' & HS & Hm & Hall & Hlast).
    { subst a2. simpl. rewrite Ha, fmap_app, <- app_assoc. simpl.
      rewrite insert_app_r_alt by (rewrite length_fmap; lia).
      rewrite length_fmap. by replace (S (length p) - length p)%nat with 1%nat by lia. }
    exists m, h'. rewrite HS. subst a2. simpl.
    rewrite take_app_le, drop_app_le by done.
    split_and!.
    + rewrite fmap_app, <- app_assoc. done.
    + lia.
    + apply Forall_app. split; [done|]. constructor; [|constructor].
      apply Z.gtb_lt in Hcmp. lia.
    + intros m' y' -> Hy'. apply (Hlast m' y' eq_refl).
      rewrite lookup_app_l in Hy' by lia. done.
  - exists (S (length p)), h.
    rewrite take_ge, drop_ge by (rewrite length_app; simpl; lia).
    simpl. rewrite <- Ha, array_with_entries.
    split_and!.
    + f_equal. f_equal. lia.
    + lia.
    + constructor.
    + intros m' y' [= <-]. rewrite lookup_app_r, Nat.sub_diag by done.
      intros [= <-] Hgt.
      assert ((compare_tuples (transition_tuple y) (transition_tuple x) >? 0) = true);
        [|congruence].
      apply Z.gtb_lt. lia.
Qed.

Section SortCorrect.

Hypothesis hash_inj : hash_injective.

Lemma entries_below_last es (m : nat) y t :
  sorted_transitions es → es !! m = Some y → tuple_lt (transition_tuple y) t →
  Forall (entry_below t) (take (S m) es).
Proof using hash_inj.
  intros Hs Hy Hlt. apply list.Forall_forall. intros z Hz.
  apply list_elem_of_lookup_1 in Hz as [i Hi].
  apply lookup_take_Some in Hi as [Hi Him].
  destruct (decide (i = m)) as [->|Hne]; [by simplify_eq|].
  apply (tuple_lt_trans hash_inj _ (transition_tuple y)); [|done].
  apply (sorted_transitions_lookup es i m); [done|lia|done|done].
Qed.

(** The outer loop on a list: [sorted] is sorted, [rest] is still to be
    inserted. *)
Lemma Sort_outer_list rest : ∀ sorted a tail,
  entries a = (entry_of <$> sorted) ++ (entry_of <$> rest) ++ tail →
  sorted_transitions sorted → no_duplicate_tuples (sorted ++ rest) →
  ∃ es',
    Sort_outer a (length rest) (Z.of_nat (length sorted))
    = Ok (mkTransitionArray (prototype_transitions a) (transition_length a)
            ((entry_of <$> es') ++ tail))
    ∧ es' ≡ₚ sorted ++ rest ∧ sorted_transitions es'.
Proof using hash_inj.
  induction rest as [|x rest IH]; intros sorted a tail Ha Hs Hnd.
  { exists sorted. simpl in *. rewrite <- Ha, array_with_entries.
    by rewrite app_nil_r. }
  simpl.
  assert (entries a !! length sorted = Some (entry_of x)) as Hx.
  { rewrite Ha. rewrite lookup_app_r by by rewrite length_fmap.
    by rewrite length_fmap, Nat.sub_diag. }
  rewrite (GetKey_nat _ _ _ Hx). simpl.
  rewrite (GetRawTarget_nat _ _ _ Hx). simpl.
  rewrite (sort_details_entry x). simpl. rewrite Nat2Z.id.
  destruct (Sort_inner_list x sorted a (entry_of x) ((entry_of <$> rest) ++ tail))
    as (m & h' & -> & Hm & Habove & Hlast); [done|].
  simpl.
  replace (Z.of_nat m - 1 + 1) with (Z.of_nat m) by lia.
  set (a1 := mkTransitionArray _ _ _).
  assert (m < length (entries a1))%nat as Hlen.
  { subst a1. simpl. rewrite length_app, length_fmap, length_take. simpl. lia. }
  pose proof (Set_nat a1 m (Some x.1) (Weak x.2) Hlen) as Hset.
  unfold Set_ in Hset.
  destruct (SetKey a1 (Z.of_nat m) (Some x.1)) as [a2|] eqn:Hkey; [|done].
  simpl in Hset. simpl. rewrite Hset. simpl.
  replace (Z.of_nat (length sorted) + 1)
    with (Z.of_nat (length (insert_at m x sorted))).
  2: { unfold insert_at. rewrite length_app, length_take. simpl.
       rewrite length_drop. lia. }
  assert (NoDup (transition_tuple <$> (x :: sorted ++ rest))) as Hnd'.
  { unfold no_duplicate_tuples in Hnd.
    by rewrite <- Permutation_middle in Hnd. }
  assert (∀ y, y ∈ sorted → transition_tuple y ≠ transition_tuple x) as Hne.
  { intros y Hy Heq. rewrite fmap_cons in Hnd'. apply list.NoDup_cons in Hnd' as [Hnot _].
    apply Hnot. rewrite <- Heq. apply list_elem_of_fmap_2.
    apply elem_of_app. by left. }
  destruct (IH (insert_at m x sorted) (mkTransitionArray (prototype_transitions a)
              (transition_length a) (<[m := entry_of x]> (entries a1))) tail)
    as (es' & HS & Hperm & Hsorted').
  - subst a1. simpl. unfold insert_at.
    rewrite insert_app_r_alt by (rewrite length_fmap, length_take; lia).
    rewrite length_fmap, length_take.
    replace (m - m `min` length sorted)%nat with 0%nat by lia. simpl.
    rewrite fmap_app, fmap_cons. by rewrite <- app_assoc.
  - apply sorted_transitions_insert_at; [done| |].
    + destruct m as [|m']; [by rewrite take_0|].
      destruct (lookup_lt_is_Some_2 sorted m' ltac:(lia)) as [y Hy].
      apply (entries_below_last _ _ y); [done|done|].
      specialize (Hlast m' y eq_refl Hy).
      destruct (compare_tuples_total hash_inj (transition_tuple y) (transition_tuple x))
        as [Hlt|[Heq|Hgt]]; [done| |].
      * exfalso. apply (Hne y); [by eapply list_elem_of_lookup_2|done].
      * exfalso. apply Hlast. by apply (compare_tuples_antisym hash_inj).
    + eapply Forall_impl; [|exact Habove]. intros y Hy. simpl in Hy. 
      unfold entry_above. by apply (compare_tuples_antisym hash_inj).
  - unfold no_duplicate_tuples, insert_at.
    rewrite <- app_assoc. simpl. rewrite <- Permutation_middle.
    by rewrite app_assoc, take_drop.
  - exists es'. split; [exact HS|]. split; [|done].
    rewrite Hperm. unfold insert_at. rewrite <- app_assoc. simpl.
    rewrite <- !Permutation_middle. by rewrite app_assoc, take_drop.
Qed.

(** [Sort] puts the transitions of an array in the order of the
    comparator, if no two of them have the same tuple. *)
Lemma Sort_sorts a es :
  array_holds a es → no_duplicate_tuples es →
  ∃ a' es',
    Sort a = Ok a' ∧ array_holds a' es' ∧ es' ≡ₚ es ∧ sorted_transitions es'
    ∧ Capacity a' = Capacity a
    ∧ prototype_transitions a' = prototype_transitions a.
Proof using hash_inj.
  intros Ha Hnd. pose proof Ha as [Hlen Htake].
  assert (entries a = (entry_of <$> es) ++ drop (length es) (entries a)) as He.
  { by rewrite <- Htake, take_drop. }
  unfold Sort, number_of_transitions. rewrite Hlen.
  destruct es as [|x rest].
  { exists a, []. simpl. split_and!; try done. constructor. }
  replace (Z.to_nat (Z.of_nat (length (x :: rest)) - 1)) with (length rest)
    by (simpl; lia).
  destruct (Sort_outer_list rest [x] a (drop (length (x :: rest)) (entries a)))
    as (es' & HS & Hperm & Hsorted); [done|apply sorted_transitions_singleton|done|].
  change (Z.of_nat (length [x])) with 1 in HS.
  eexists _, es'. split; [exact HS|].
  assert (length es' = length (x :: rest)) as Hlen' by by rewrite Hperm.
  split_and!; try done.
  - split; simpl; [by rewrite Hlen, Hlen'|].
    by rewrite take_app_length' by by rewrite length_fmap.
  - unfold Capacity. simpl. rewrite He at 2.
    by rewrite !length_app, !length_fmap, Hlen'.
Qed.

End SortCorrect.

(** ** Sorted, without duplicates *)


(** ** Compaction of the prototype cache *)

Lemma wfa_Get_nat l (i : nat) o :
  l !! i = Some o → wfa_Get l (Z.of_nat i) = Ok o.
Proof.
  intros H. unfold wfa_Get. rewrite bool_decide_eq_true_2 by lia.
  by rewrite Nat2Z.id, H.
Qed.

Lemma wfa_Set_nat l (i : nat) o :
  (i < length l)%nat → wfa_Set l (Z.of_nat i) o = Ok (<[i := o]> l).
Proof.
  intros Hi. destruct (lookup_lt_is_Some_2 _ _ Hi) as [x Hx].
  unfold wfa_Set. rewrite (wfa_Get_nat _ _ _ Hx). simpl. by rewrite Nat2Z.id.
Qed.

Lemma survivors_length slots : (length (survivors slots) ≤ length slots)%nat.
Proof. apply length_filter. Qed.

Lemma survivors_all slots :
  length (survivors slots) = length slots → survivors slots = slots.
Proof.
  unfold survivors. induction slots as [|o slots IH]; [done|].
  destruct (decide (IsCleared o = false)) as [Ho|Ho].
  - rewrite filter_cons_True by done. simpl. intros [= H]. by rewrite IH.
  - rewrite filter_cons_False by done. simpl. intros H.
    pose proof (length_filter (λ o, IsCleared o = false) slots). lia.
Qed.

Lemma survivors_cons o slots :
  survivors (o :: slots)
  = if IsCleared o then survivors slots else o :: survivors slots.
Proof.
  unfold survivors. destruct (IsCleared o) eqn:Hc.
  - by rewrite filter_cons_False by by rewrite Hc.
  - by rewrite filter_cons_True by by rewrite Hc.
Qed.

(** The first loop: [kept] are the survivors so far, at the front; [free]
    are the cells between them and the cell the loop looks at. *)
Lemma Compact_loop_list hd todo : ∀ kept free tail,
  Forall (λ o, weak_or_cleared o = true) todo →
  ∃ free',
    Compact_loop (hd :: kept ++ free ++ todo ++ tail) (length todo)
      (Z.of_nat (length kept + length free)) (Z.of_nat (length kept))
    = Ok (hd :: (kept ++ survivors todo) ++ free' ++ tail,
          Z.of_nat (length kept + length (survivors todo)))
    ∧ (length free' + length (survivors todo) = length free + length todo)%nat.
Proof.
  induction todo as [|x todo IH]; intros kept free tail Hall.
  { exists free. simpl. rewrite !app_nil_r, Nat.add_0_r. done. }
  apply list.Forall_cons in Hall as [Hx Hall]. simpl.
  assert ((hd :: kept ++ free ++ x :: todo ++ tail)
            !! S (length kept + length free) = Some x) as Hlook.
  { simpl. rewrite app_assoc. rewrite lookup_app_r by (rewrite length_app; lia).
    by rewrite length_app, Nat.sub_diag. }
  replace (kProtoTransitionHeaderSize + Z.of_nat (length kept + length free))
    with (Z.of_nat (S (length kept + length free)))
    by (unfold kProtoTransitionHeaderSize; lia).
  rewrite (wfa_Get_nat _ _ _ Hlook). simpl.
  unfold weak_or_cleared in Hx. unfold rDCHECK. rewrite Hx, andb_false_r. simpl.
  rewrite survivors_cons.
  destruct (IsCleared x) eqn:Hc; simpl.
  - (* a cleared slot *)
    destruct (IH kept (free ++ [x]) tail Hall) as (free' & HC & Hlen).
    rewrite length_app in HC, Hlen. simpl in HC, Hlen.
    rewrite <- (app_assoc free [x]) in HC. simpl in HC.
    replace (Z.of_nat (length kept + length free) + 1)
      with (Z.of_nat (length kept + (length free + 1))) by lia.
    exists free'. split; [exact HC|]. lia.
  - (* a survivor *)
    assert (∃ free1, length free1 = length free
      ∧ (if negb (Z.of_nat (length kept) =? Z.of_nat (length kept + length free))
         then wfa_Set (hd :: kept ++ free ++ x :: todo ++ tail)
                (kProtoTransitionHeaderSize + Z.of_nat (length kept)) x
         else Ok (hd :: kept ++ free ++ x :: todo ++ tail))
        = Ok (hd :: (kept ++ [x]) ++ free1 ++ todo ++ tail)) as (free1 & Hf1 & ->).
    { destruct free as [|g free].
      - exists []. simpl. rewrite Nat.add_0_r, Z.eqb_refl. simpl.
        by rewrite <- app_assoc.
      - exists (free ++ [x]). split; [rewrite length_app; simpl; lia|].
        replace (Z.of_nat (length kept) =? Z.of_nat (length kept + length (g :: free)))
          with false by (symmetry; apply Z.eqb_neq; simpl; lia).
        simpl.
        replace (kProtoTransitionHeaderSize + Z.of_nat (length kept))
          with (Z.of_nat (S (length kept)))
          by (unfold kProtoTransitionHeaderSize; lia).
        rewrite wfa_Set_nat by (simpl; rewrite length_app; simpl; lia).
        simpl. rewrite insert_app_r_alt by lia. rewrite Nat.sub_diag. simpl.
        by rewrite <- !app_assoc. }
    simpl.
    destruct (IH (kept ++ [x]) free1 tail Hall) as (free' & HC & Hlen).
    rewrite length_app in HC. simpl in HC.
    replace (Z.of_nat (length kept + length free) + 1)
      with (Z.of_nat (length kept + 1 + length free1)) by lia.
    replace (Z.of_nat (length kept) + 1) with (Z.of_nat (length kept + 1)) by lia.
    rewrite HC. exists free'. split.
    + rewrite <- !app_assoc. simpl. do 2 f_equal. lia.
    + simpl. lia.
Qed.

(** The second loop. *)
Lemma Fill_loop_list hd free : ∀ kept tail,
  Fill_loop (hd :: kept ++ free ++ tail) (length free) (Z.of_nat (length kept))
  = Ok (hd :: kept ++ replicate (length free) StrongUndefined ++ tail).
Proof.
  induction free as [|g free IH]; intros kept tail; [done|].
  simpl.
  replace (kProtoTransitionHeaderSize + Z.of_nat (length kept))
    with (Z.of_nat (S (length kept)))
    by (unfold kProtoTransitionHeaderSize; lia).
  rewrite wfa_Set_nat by (simpl; rewrite length_app; simpl; lia).
  simpl. rewrite insert_app_r_alt by lia. rewrite Nat.sub_diag. simpl.
  specialize (IH (kept ++ [StrongUndefined]) tail).
  rewrite length_app in IH. simpl in IH. rewrite <- !app_assoc in IH. simpl in IH.
  replace (Z.of_nat (length kept) + 1) with (Z.of_nat (length kept + 1)) by lia.
  done.
Qed.

(** Compaction drops the cleared slots among the live ones, keeps the others
    in their order at the front, and says whether a slot became free. *)
Lemma CompactPrototypeTransitionArray_compacted (n : nat) slots :
  (n ≤ length slots)%nat →
  Forall (λ o, weak_or_cleared o = true) (take n slots) →
  CompactPrototypeTransitionArray (Smi (Z.of_nat n) :: slots)
  = Ok (compacted n slots,
        bool_decide (length (survivors (take n slots)) < n)%nat).
Proof.
  intros Hn Hall. unfold CompactPrototypeTransitionArray, NumberOfPrototypeTransitions.
  simpl. change (wfa_Get (Smi (Z.of_nat n) :: slots) kProtoTransitionNumberOfEntriesOffset)
    with (Ok (A:=MaybeObject) (Smi (Z.of_nat n))). simpl.
  destruct n as [|n'].
  { simpl. unfold compacted. simpl. by rewrite drop_0. }
  replace (Z.of_nat (S n') =? 0) with false by (symmetry; apply Z.eqb_neq; lia).
  set (n := S n') in *. rewrite Nat2Z.id.
  destruct (Compact_loop_list (Smi (Z.of_nat n)) (take n slots) [] [] (drop n slots) Hall)
    as (free & HC & Hlen).
  simpl in HC, Hlen. rewrite length_take in HC, Hlen.
  replace (n `min` length slots)%nat with n in HC, Hlen by lia.
  rewrite take_drop in HC. change (Z.of_nat 0) with 0 in HC. rewrite HC.
  cbn [rbind].
  set (kept := survivors (take n slots)) in *.
  replace (Z.to_nat (Z.of_nat n - Z.of_nat (length kept))) with (length free) by lia.
  rewrite Fill_loop_list. cbn [rbind].
  unfold compacted. fold kept.
  replace (n - length kept)%nat with (length free) by lia.
  destruct (decide (length kept = n)) as [Heq|Hne].
  - rewrite Heq, Z.eqb_refl. cbn [negb rbind].
    by rewrite Z.ltb_irrefl, bool_decide_eq_false_2 by lia.
  - replace (Z.of_nat n =? Z.of_nat (length kept)) with false
      by (symmetry; apply Z.eqb_neq; lia).
    cbn [negb]. unfold SetNumberOfPrototypeTransitions, rDCHECK.
    rewrite bool_decide_eq_false_2 by done. cbn [negb].
    rewrite andb_false_r. cbn [rbind].
    change kProtoTransitionNumberOfEntriesOffset with (Z.of_nat 0).
    rewrite wfa_Set_nat by (simpl; lia). cbn [rbind].
    rewrite bool_decide_eq_true_2 by lia.
    by replace (Z.of_nat (length kept) <? Z.of_nat n) with true
      by (symmetry; apply Z.ltb_lt; lia).
Qed.

(** If no slot became free, the cache is as it was. *)
Lemma compacted_nothing (n : nat) slots :
  (n ≤ length slots)%nat → length (survivors (take n slots)) = n →
  compacted n slots = Smi (Z.of_nat n) :: slots.
Proof.
  intros Hn Hlen. unfold compacted. rewrite Hlen, Nat.sub_diag. simpl.
  rewrite survivors_all by (rewrite Hlen, length_take; lia).
  by rewrite take_drop.
Qed.

(** ** Steps on weak fixed arrays *)

Lemma bind_gets {A B} (f : State → A) (k : A → M B) σ :
  bind (gets f) k σ = k (f σ) σ.
Proof. done. Qed.

Lemma bind_ret {A B} (a : A) (k : A → M B) σ : bind (ret a) k σ = k a σ.
Proof. done. Qed.

Lemma on_weak_fixed_array_Ok {A} w (f : list MaybeObject → result A) σ l r :
  weak_fixed_arrays σ !! w = Some l → f l = Ok r →
  on_weak_fixed_array (WeakFixedArrayAt w) f σ = Ok (r, σ).
Proof.
  intros Hl Hf. unfold on_weak_fixed_array, bind, load_weak_fixed_array, lift.
  by rewrite Hl, Hf.
Qed.

Lemma update_weak_fixed_array_Ok w f σ l l' :
  weak_fixed_arrays σ !! w = Some l → f l = Ok l' →
  update_weak_fixed_array (WeakFixedArrayAt w) f σ
  = Ok (tt, set_weak_fixed_arrays (<[w := l']> (weak_fixed_arrays σ)) σ).
Proof.
  intros Hl Hf.
  unfold update_weak_fixed_array, bind, load_weak_fixed_array, lift,
    store_weak_fixed_array.
  by rewrite Hl, Hf, Hl.
Qed.

Lemma CompactPrototypeTransitionArray_at_Ok w σ l l' c :
  weak_fixed_arrays σ !! w = Some l →
  CompactPrototypeTransitionArray l = Ok (l', c) →
  CompactPrototypeTransitionArray_at (WeakFixedArrayAt w) σ
  = Ok (c, set_weak_fixed_arrays (<[w := l']> (weak_fixed_arrays σ)) σ).
Proof.
  intros Hl Hc.
  unfold CompactPrototypeTransitionArray_at, bind, load_weak_fixed_array, lift,
    store_weak_fixed_array, ret.
  by rewrite Hl, Hc, Hl.
Qed.

Lemma NumberOfPrototypeTransitions_header n slots :
  NumberOfPrototypeTransitions (Smi n :: slots) = Ok n.
Proof. done. Qed.

Lemma GetPrototypeTransitions_cache σ address a w l :
  accessor_fresh σ → cache_storage σ address a w l →
  GetPrototypeTransitions σ = Ok (WeakFixedArrayAt w, σ).
Proof.
  intros [Hr He] (Hm & Ha & Hp & _).
  unfold GetPrototypeTransitions, encoding. rewrite bind_gets, He, Hm. simpl.
  unfold transitions, bind. rewrite Hr, Hm.
  rewrite (on_array_Ok _ _ _ a true Ha) by (unfold HasPrototypeTransitions;
    by rewrite Hp, bool_decide_eq_true_2 by by eexists).
  simpl. apply (on_array_Ok _ _ _ a); [done|].
  unfold TransitionArray_GetPrototypeTransitions. by rewrite Hp.
Qed.

(** ** [PutPrototypeTransition] on a cache that is full *)

(** The start of [PutPrototypeTransition]: up to the guard. *)
Lemma PutPrototypeTransition_start σ address a w n slots proto target_map :
  caches_prototype_transitions σ → accessor_fresh σ →
  cache_storage σ address a w (Smi n :: slots) →
  PutPrototypeTransition proto target_map σ
  = exclusive
      (let header := kProtoTransitionHeaderSize in
       let cache := WeakFixedArrayAt w in
       let capacity := Z.of_nat (length slots) in
       let transitions := n + 1 in
       do cache <-
         (if transitions >? capacity then
            do compacted <- CompactPrototypeTransitionArray_at cache;
            if negb compacted then
              if capacity =? kMaxCachedPrototypeTransitions then ret None
              else
                do cache <- GrowPrototypeTransitionArray cache (2 * transitions);
                Reload;;
                SetPrototypeTransitions cache;;
                ret (Some cache)
            else ret (Some cache)
          else ret (Some cache));
       match cache with
       | None => ret tt
       | Some cache =>
           do last <- on_weak_fixed_array cache NumberOfPrototypeTransitions;
           let entry := header + last in
           update_weak_fixed_array cache (λ l, wfa_Set l entry (Weak target_map));;
           update_weak_fixed_array cache
             (λ l, SetNumberOfPrototypeTransitions l (last + 1))
       end) σ.
Proof.
  intros (Hproto & Hdict & Hflag) Hf Hs.
  unfold PutPrototypeTransition.
  rewrite bind_gets, Hproto. rewrite bind_gets, Hdict, Hflag.
  cbn [negb orb].
  rewrite (bind_Ok _ _ _ _ _ (GetPrototypeTransitions_cache _ _ _ _ _ Hf Hs)).
  destruct Hs as (_ & _ & _ & Hl).
  unfold WeakFixedArray_length.
  rewrite (bind_Ok _ _ _ _ _ (on_weak_fixed_array_Ok w
             (λ l, Ok (Z.of_nat (length l))) σ _ _ Hl eq_refl)).
  rewrite (bind_Ok _ _ _ _ _ (on_weak_fixed_array_Ok _ _ _ _ _ Hl
             (NumberOfPrototypeTransitions_header _ _))).
  cbv zeta.
  replace (Z.of_nat (length (Smi n :: slots)) - kProtoTransitionHeaderSize)
    with (Z.of_nat (length slots))
    by (unfold kProtoTransitionHeaderSize; simpl; lia).
  done.
Qed.

(** C7.  The cache of the map holds as many live entries as it has slots,
    all of them weak references; [CompactPrototypeTransitionArray] answers
    that no slot became free; and the cache has
    [kMaxCachedPrototypeTransitions] slots.  Then [PutPrototypeTransition]
    returns normally, and the state it returns in is the state it was called
    in but for the trace, which says that the guard was taken and released:
    the cells of the cache, its header with the number of live entries, the
    transition array and the storage word of the map are what they were, and
    the new entry is nowhere. *)
Theorem PutPrototypeTransition_dropped σ address a w (n : nat) slots l' proto target_map :
  caches_prototype_transitions σ → accessor_fresh σ →
  cache_storage σ address a w (Smi (Z.of_nat n) :: slots) →
  n = length slots →
  Forall (λ o, weak_or_cleared o = true) slots →
  CompactPrototypeTransitionArray (Smi (Z.of_nat n) :: slots) = Ok (l', false) →
  Z.of_nat (length slots) = kMaxCachedPrototypeTransitions →
  PutPrototypeTransition proto target_map σ
  = Ok (tt, set_trace (trace σ ++ [LockExclusive; UnlockExclusive]) σ).
Proof.
  intros Hc Hf Hs Hn Hall Hcompact Hmax.
  rewrite (PutPrototypeTransition_start _ _ _ _ _ _ _ _ Hc Hf Hs). cbv zeta.
  assert (l' = Smi (Z.of_nat n) :: slots) as ->.
  { rewrite CompactPrototypeTransitionArray_compacted in Hcompact;
      [|lia|by rewrite take_ge by lia].
    injection Hcompact as <- Hb. apply bool_decide_eq_false in Hb.
    apply compacted_nothing; [lia|].
    pose proof (survivors_length (take n slots)) as Hle.
    rewrite length_take in Hle. lia. }
  destruct Hs as (_ & _ & _ & Hl).
  erewrite exclusive_Ok.
  2: { replace (Z.of_nat n + 1 >? Z.of_nat (length slots)) with true
         by (symmetry; apply Z.gtb_lt; lia).
       erewrite bind_Ok.
       2: { erewrite bind_Ok;
              [|eapply CompactPrototypeTransitionArray_at_Ok; [exact Hl|exact Hcompact]].
            cbn [negb]. rewrite Hmax, Z.eqb_refl. reflexivity. }
       reflexivity. }
  simpl. rewrite list_insert_id by done.
  destruct σ. simpl. by rewrite <- app_assoc.
Qed.

Lemma SetNumberOfPrototypeTransitions_Ok l value :
  l ≠ [] → SetNumberOfPrototypeTransitions l value = Ok (<[0%nat := Smi value]> l).
Proof.
  intros Hl. unfold SetNumberOfPrototypeTransitions, rDCHECK.
  rewrite bool_decide_eq_false_2 by by destruct l.
  rewrite andb_false_r. cbn [rbind].
  change kProtoTransitionNumberOfEntriesOffset with (Z.of_nat 0).
  apply wfa_Set_nat. destruct l; [done|simpl; lia].
Qed.

(** The cache is full and compaction frees a slot: the new entry goes into
    the first free slot, under the guard, without an allocation. *)
Lemma PutPrototypeTransition_compacts σ address a w (n : nat) slots proto target_map :
  caches_prototype_transitions σ → accessor_fresh σ →
  cache_storage σ address a w (Smi (Z.of_nat n) :: slots) →
  n = length slots →
  Forall (λ o, weak_or_cleared o = true) slots →
  (length (survivors slots) < n)%nat →
  ∃ σ',
    PutPrototypeTransition proto target_map σ = Ok (tt, σ')
    ∧ weak_fixed_arrays σ'
      = <[w := Smi (Z.of_nat (length (survivors slots)) + 1)
               :: survivors slots ++ Weak target_map
               :: replicate (n - length (survivors slots) - 1) StrongUndefined]>
          (weak_fixed_arrays σ)
    ∧ map_raw_transitions σ' = map_raw_transitions σ
    ∧ transition_arrays σ' = transition_arrays σ
    ∧ trace σ' = trace σ ++ [LockExclusive; UnlockExclusive].
Proof.
  intros Hc Hf Hs Hn Hall Hfree.
  rewrite (PutPrototypeTransition_start _ _ _ _ _ _ _ _ Hc Hf Hs). cbv zeta.
  destruct Hs as (_ & _ & _ & Hl).
  set (kept := survivors slots) in *.
  assert (CompactPrototypeTransitionArray (Smi (Z.of_nat n) :: slots)
          = Ok (Smi (Z.of_nat (length kept)) :: kept
                  ++ replicate (n - length kept) StrongUndefined, true)) as Hcompact.
  { rewrite CompactPrototypeTransitionArray_compacted;
      [|lia|by rewrite take_ge by lia].
    unfold compacted. rewrite take_ge, drop_ge by lia. fold kept.
    by rewrite app_nil_r, bool_decide_eq_true_2 by done. }
  set (l1 := Smi (Z.of_nat (length kept)) :: kept
               ++ replicate (n - length kept) StrongUndefined) in *.
  assert (w < length (weak_fixed_arrays σ))%nat as Hw by by eapply lookup_lt_Some.
  eexists. split.
  { apply exclusive_Ok.
    replace (Z.of_nat n + 1 >? Z.of_nat (length slots)) with true
      by (symmetry; apply Z.gtb_lt; lia).
    erewrite bind_Ok.
    2: { erewrite bind_Ok;
           [|eapply CompactPrototypeTransitionArray_at_Ok; [exact Hl|exact Hcompact]].
         cbn [negb]. reflexivity. }
    cbv beta iota.
    erewrite bind_Ok.
    2: { eapply (on_weak_fixed_array_Ok w _ _ l1);
           [by apply list_lookup_insert_eq|done]. }
    cbv beta zeta.
    replace (kProtoTransitionHeaderSize + Z.of_nat (length kept))
      with (Z.of_nat (S (length kept)))
      by (unfold kProtoTransitionHeaderSize; lia).
    erewrite bind_Ok.
    2: { eapply (update_weak_fixed_array_Ok w _ _ l1);
           [by apply list_lookup_insert_eq|].
         apply wfa_Set_nat. subst l1. simpl.
         rewrite length_app, length_replicate. lia. }
    eapply (update_weak_fixed_array_Ok w).
    - simpl. apply list_lookup_insert_eq. by rewrite length_insert.
    - by apply SetNumberOfPrototypeTransitions_Ok. }
  simpl. split_and!; try done.
  - rewrite !list_insert_insert_eq. f_equal. subst l1. simpl. f_equal.
    rewrite insert_app_r_alt by lia. rewrite Nat.sub_diag.
    destruct (n - length kept)%nat as [|d] eqn:Hd; [lia|].
    simpl. by rewrite Nat.sub_0_r.
  - by rewrite <- app_assoc.
Qed.

(** ** Growing the prototype cache *)

Lemma after_safepoint_weak_fixed_array σ w l :
  weak_fixed_arrays σ !! w = Some l →
  weak_fixed_arrays (after_safepoint σ) !! w
  = Some (clear_weak (next_dead σ) <$> l).
Proof.
  intros Hl. unfold after_safepoint, next_dead. simpl.
  destruct (collections σ) as [|dead rest]; simpl.
  - rewrite Hl. f_equal. clear Hl. induction l as [|o l IH]; [done|].
    by rewrite fmap_cons, clear_weak_nothing, <- IH.
  - by rewrite list_lookup_fmap, Hl.
Qed.

Lemma after_safepoint_weak_fixed_arrays_length σ :
  length (weak_fixed_arrays (after_safepoint σ)) = length (weak_fixed_arrays σ).
Proof.
  unfold after_safepoint. simpl. destruct (collections σ); simpl; [done|].
  by rewrite length_fmap.
Qed.

Lemma after_safepoint_prototype_transitions σ address a :
  transition_arrays σ !! address = Some a →
  ∃ a', transition_arrays (after_safepoint σ) !! address = Some a'
    ∧ prototype_transitions a' = prototype_transitions a.
Proof.
  intros Hl. unfold after_safepoint. simpl.
  destruct (collections σ) as [|dead rest]; simpl; [by exists a|].
  exists (collect_array dead a). rewrite list_lookup_fmap, Hl. split; [done|].
  unfold collect_array. by case_bool_decide.
Qed.

Lemma bind_lift_Ok {A B} (a : A) (k : A → M B) σ : bind (lift (Ok a)) k σ = k a σ.
Proof. done. Qed.

Lemma set_weak_fixed_arrays_twice v v' σ :
  set_weak_fixed_arrays v (set_weak_fixed_arrays v' σ) = set_weak_fixed_arrays v σ.
Proof. done. Qed.

Lemma DCHECK_holds c σ : c = true → DCHECK c σ = Ok (tt, σ).
Proof. intros ->. apply DCHECK_true. Qed.

(** [CopyWeakFixedArrayAndGrow] of an array of the store. *)
Lemma CopyWeakFixedArrayAndGrow_Ok σ w l grow_by :
  weak_fixed_arrays σ !! w = Some l → 0 < grow_by →
  CopyWeakFixedArrayAndGrow (WeakFixedArrayAt w) grow_by σ
  = Ok (WeakFixedArrayAt (length (weak_fixed_arrays σ)),
        set_weak_fixed_arrays
          (weak_fixed_arrays (after_safepoint σ)
           ++ [(clear_weak (next_dead σ) <$> l)
               ++ replicate (Z.to_nat grow_by) StrongUndefined])
          (after_safepoint σ)).
Proof.
  intros Hl Hg. unfold CopyWeakFixedArrayAndGrow.
  rewrite (bind_Ok _ _ _ _ _ (DCHECK_holds _ _ (proj2 (Z.ltb_lt 0 grow_by) Hg))).
  replace (grow_by <? 0) with false by (symmetry; apply Z.ltb_ge; lia).
  rewrite bind_lift_Ok. rewrite (bind_Ok _ _ _ _ _ (safepoint_Ok σ)).
  unfold bind, load_weak_fixed_array.
  rewrite (after_safepoint_weak_fixed_array _ _ _ Hl).
  by rewrite after_safepoint_weak_fixed_arrays_length.
Qed.

(** [CopyWeakFixedArrayAndGrow] of the empty array. *)
Lemma CopyWeakFixedArrayAndGrow_empty σ grow_by :
  0 < grow_by →
  CopyWeakFixedArrayAndGrow empty_weak_fixed_array grow_by σ
  = Ok (WeakFixedArrayAt (length (weak_fixed_arrays σ)),
        set_weak_fixed_arrays
          (weak_fixed_arrays (after_safepoint σ)
           ++ [replicate (Z.to_nat grow_by) StrongUndefined])
          (after_safepoint σ)).
Proof.
  intros Hg. unfold CopyWeakFixedArrayAndGrow.
  rewrite (bind_Ok _ _ _ _ _ (DCHECK_holds _ _ (proj2 (Z.ltb_lt 0 grow_by) Hg))).
  replace (grow_by <? 0) with false by (symmetry; apply Z.ltb_ge; lia).
  rewrite bind_lift_Ok. rewrite (bind_Ok _ _ _ _ _ (safepoint_Ok σ)).
  unfold bind, load_weak_fixed_array. simpl.
  by rewrite after_safepoint_weak_fixed_arrays_length.
Qed.

(** Growing a cache that exists. *)
Lemma GrowPrototypeTransitionArray_Ok σ w l new_capacity :
  weak_fixed_arrays σ !! w = Some l → l ≠ [] →
  Z.of_nat (length l) - 1 < Z.min kMaxCachedPrototypeTransitions new_capacity →
  GrowPrototypeTransitionArray (WeakFixedArrayAt w) new_capacity σ
  = Ok (WeakFixedArrayAt (length (weak_fixed_arrays σ)),
        set_weak_fixed_arrays
          (weak_fixed_arrays (after_safepoint σ)
           ++ [(clear_weak (next_dead σ) <$> l)
               ++ replicate
                    (Z.to_nat (Z.min kMaxCachedPrototypeTransitions new_capacity
                               - (Z.of_nat (length l) - 1)))
                    StrongUndefined])
          (after_safepoint σ)).
Proof.
  intros Hl Hne Hlt. unfold GrowPrototypeTransitionArray, WeakFixedArray_length.
  rewrite (bind_Ok _ _ _ _ _ (on_weak_fixed_array_Ok w
             (λ l, Ok (Z.of_nat (length l))) σ _ _ Hl eq_refl)).
  cbv zeta. unfold kProtoTransitionHeaderSize.
  rewrite (bind_Ok _ _ _ _ _ (DCHECK_holds _ _ (proj2 (Z.gtb_lt _ _) Hlt))).
  assert (0 < Z.min kMaxCachedPrototypeTransitions new_capacity
              - (Z.of_nat (length l) - 1)) as Hg by lia.
  rewrite (bind_Ok _ _ _ _ _ (CopyWeakFixedArrayAndGrow_Ok _ _ _ _ Hl Hg)).
  replace (Z.of_nat (length l) - 1 <? 0) with false
    by (symmetry; apply Z.ltb_ge; destruct l; [done|simpl; lia]).
  done.
Qed.

(** Growing the empty cache: the header is written. *)
Lemma GrowPrototypeTransitionArray_empty σ new_capacity :
  0 ≤ Z.min kMaxCachedPrototypeTransitions new_capacity →
  GrowPrototypeTransitionArray empty_weak_fixed_array new_capacity σ
  = Ok (WeakFixedArrayAt (length (weak_fixed_arrays σ)),
        set_weak_fixed_arrays
          (weak_fixed_arrays (after_safepoint σ)
           ++ [Smi 0 :: replicate
                 (Z.to_nat (Z.min kMaxCachedPrototypeTransitions new_capacity))
                 StrongUndefined])
          (after_safepoint σ)).
Proof.
  intros Hle. unfold GrowPrototypeTransitionArray, WeakFixedArray_length.
  rewrite (bind_Ok _ _ _ _ _ (eq_refl : on_weak_fixed_array empty_weak_fixed_array
             (λ l, Ok (Z.of_nat (length l))) σ = Ok (0, σ))).
  cbv zeta. unfold kProtoTransitionHeaderSize.
  set (g := Z.min kMaxCachedPrototypeTransitions new_capacity) in *.
  assert (0 - 1 < g) as Hgt by lia.
  assert (0 < g - (0 - 1)) as Hg by lia.
  rewrite (bind_Ok _ _ _ _ _ (DCHECK_holds _ _ (proj2 (Z.gtb_lt _ _) Hgt))).
  rewrite (bind_Ok _ _ _ _ _ (CopyWeakFixedArrayAndGrow_empty _ _ Hg)).
  change (0 - 1 <? 0) with true. cbv iota.
  erewrite bind_Ok.
  2: { eapply (update_weak_fixed_array_Ok _ _ _
                 (replicate (Z.to_nat (g - (0 - 1))) StrongUndefined)).
       - simpl. rewrite <- after_safepoint_weak_fixed_arrays_length.
         by apply list_lookup_middle.
       - apply SetNumberOfPrototypeTransitions_Ok.
         replace (Z.to_nat (g - (0 - 1))) with (S (Z.to_nat g)) by lia. done. }
  unfold ret. simpl. rewrite set_weak_fixed_arrays_twice. do 3 f_equal.
  rewrite <- after_safepoint_weak_fixed_arrays_length.
  rewrite insert_app_r_alt by done. rewrite Nat.sub_diag.
  replace (Z.to_nat (g - (0 - 1))) with (S (Z.to_nat g)) by lia. done.
Qed.

(** Whatever array [GrowPrototypeTransitionArray] returns has room for at
    most [kMaxCachedPrototypeTransitions] entries. *)
Lemma GrowPrototypeTransitionArray_capacity σ cache new_capacity cache' σ' :
  GrowPrototypeTransitionArray cache new_capacity σ = Ok (cache', σ') →
  ∃ w' l', cache' = WeakFixedArrayAt w'
    ∧ weak_fixed_arrays σ' !! w' = Some l'
    ∧ Z.of_nat (length l') - kProtoTransitionHeaderSize
      = Z.min kMaxCachedPrototypeTransitions new_capacity
    ∧ Z.of_nat (length l') - kProtoTransitionHeaderSize
      ≤ kMaxCachedPrototypeTransitions.
Proof.
  intros H.
  assert (∀ l, (cache = empty_weak_fixed_array ∧ l = []
                ∨ ∃ w, cache = WeakFixedArrayAt w ∧ weak_fixed_arrays σ !! w = Some l) →
    ∃ w' l', cache' = WeakFixedArrayAt w'
      ∧ weak_fixed_arrays σ' !! w' = Some l'
      ∧ Z.of_nat (length l') - kProtoTransitionHeaderSize
        = Z.min kMaxCachedPrototypeTransitions new_capacity) as Hcases.
  { intros l Hcache.
    assert (WeakFixedArray_length cache σ = Ok (Z.of_nat (length l), σ)) as Hlen.
    { destruct Hcache as [[-> ->]|(w & -> & Hl)]; [done|].
      by apply (on_weak_fixed_array_Ok w _ _ l). }
    unfold GrowPrototypeTransitionArray in H.
    rewrite (bind_Ok _ _ _ _ _ Hlen) in H. cbv zeta in H.
    apply bind_inv in H as ([] & σ1 & [[= ->] Hd]%DCHECK_inv & H).
    apply bind_inv in H as (cache1 & σ2 & Hcopy & H).
    set (g := Z.min kMaxCachedPrototypeTransitions new_capacity
              - (Z.of_nat (length l) - kProtoTransitionHeaderSize)) in *.
    unfold CopyWeakFixedArrayAndGrow in Hcopy.
    apply bind_inv in Hcopy as ([] & σ3 & [[= ->] _]%DCHECK_inv & Hcopy).
    apply bind_inv in Hcopy as ([] & σ7 & ([] & Hg & [= ->])%lift_inv & Hcopy).
    assert (0 ≤ g) as Hg0 by (destruct (g <? 0) eqn:E; [done|by apply Z.ltb_ge]).
    rewrite (bind_Ok _ _ _ _ _ (safepoint_Ok σ)) in Hcopy.
    assert (load_weak_fixed_array cache (after_safepoint σ)
            = Ok (clear_weak (next_dead σ) <$> l, after_safepoint σ)) as Hload.
    { destruct Hcache as [[-> ->]|(w & -> & Hl)]; [done|].
      unfold load_weak_fixed_array.
      by rewrite (after_safepoint_weak_fixed_array _ _ _ Hl). }
    rewrite (bind_Ok _ _ _ _ _ Hload) in Hcopy. injection Hcopy as <- <-.
    set (copy := (clear_weak (next_dead σ) <$> l) ++ replicate (Z.to_nat g) StrongUndefined) in *.
    assert (Z.of_nat (length copy) - kProtoTransitionHeaderSize
            = Z.min kMaxCachedPrototypeTransitions new_capacity) as Hcopy_len.
    { subst copy g. rewrite length_app, length_fmap, length_replicate. lia. }
    destruct (Z.of_nat (length l) - kProtoTransitionHeaderSize <? 0).
    - apply bind_inv in H as ([] & σ4 & Hupd & H). unfold ret in H.
      injection H as <- <-.
      unfold update_weak_fixed_array in Hupd.
      apply bind_inv in Hupd as (l1 & σ5 & Hl1 & Hupd).
      unfold load_weak_fixed_array in Hl1. simpl in Hl1.
      rewrite list_lookup_middle in Hl1 by done. injection Hl1 as <- <-.
      apply bind_inv in Hupd as (l2 & σ6 & (l3 & Hset & [= -> ->])%lift_inv & Hupd).
      unfold store_weak_fixed_array in Hupd. simpl in Hupd.
      rewrite list_lookup_middle in Hupd by done. injection Hupd as <-.
      unfold SetNumberOfPrototypeTransitions, wfa_Set in Hset.
      destruct (rDCHECK _); [|done]. simpl in Hset.
      destruct (wfa_Get copy _); [|done]. simpl in Hset. injection Hset as <-.
      eexists _, _. split; [done|]. split.
      + simpl. apply list_lookup_insert_eq. rewrite length_app. simpl. lia.
      + by rewrite length_insert.
    - unfold ret in H. injection H as <- <-.
      eexists _, _. split; [done|]. split; [|done].
      simpl. by apply list_lookup_middle. }
  assert (∃ w' l', cache' = WeakFixedArrayAt w'
      ∧ weak_fixed_arrays σ' !! w' = Some l'
      ∧ Z.of_nat (length l') - kProtoTransitionHeaderSize
        = Z.min kMaxCachedPrototypeTransitions new_capacity) as (w' & l' & ? & ? & Hlen).
  { destruct cache as [|w]; [by apply (Hcases []); left|].
    destruct (weak_fixed_arrays σ !! w) as [l|] eqn:Hl;
      [apply (Hcases l); right; eauto|].
    unfold GrowPrototypeTransitionArray, WeakFixedArray_length, on_weak_fixed_array,
      bind, load_weak_fixed_array in H. by rewrite Hl in H. }
  exists w', l'. split_and!; [done..|]. rewrite Hlen. lia.
Qed.

(** ** The first prototype transition of a map *)

Lemma EnsureHasFullTransitionArray_uninitialized σ :
  encoding_ σ = kUninitialized →
  EnsureHasFullTransitionArray σ
  = Ok (tt, install_new_array (mkTransitionArray None 0 []) (after_safepoint σ)).
Proof.
  intros He. unfold EnsureHasFullTransitionArray, encoding.
  rewrite bind_gets, He. cbn [bool_decide decide_rel orb].
  rewrite bool_decide_eq_false_2 by done.
  rewrite bool_decide_eq_true_2 by done. cbn [orb].
  rewrite (bind_Ok _ _ _ _ _ (NewTransitionArray_Ok _ _ _)).
  rewrite (bind_Ok _ _ _ _ _ (Reload_Ok _)).
  done.
Qed.

Lemma clear_weak_fresh_cache dead (n : nat) :
  clear_weak dead <$> (Smi 0 :: replicate n StrongUndefined)
  = Smi 0 :: replicate n StrongUndefined.
Proof. by rewrite fmap_cons, fmap_replicate. Qed.

(** [PutPrototypeTransition] on a map without transitions: the cache and
    the transition array that carries it are both allocated while the guard
    is held. *)
Lemma PutPrototypeTransition_first σ proto target_map :
  caches_prototype_transitions σ → accessor_fresh σ →
  GetEncoding (map_raw_transitions σ) = kUninitialized →
  1 ≤ kMaxCachedPrototypeTransitions →
  ∃ σ' address a w,
    PutPrototypeTransition proto target_map σ = Ok (tt, σ')
    ∧ cache_storage σ' address a w
        (Smi 1 :: Weak target_map
           :: replicate (Z.to_nat (Z.min kMaxCachedPrototypeTransitions 2) - 1)
                StrongUndefined)
    ∧ trace σ' = trace σ ++ [LockExclusive; Allocate; Allocate; UnlockExclusive].
Proof.
  intros (Hproto & Hdict & Hflag) [Hr He] Hnone Hmax.
  rewrite Hnone in He.
  set (g := Z.min kMaxCachedPrototypeTransitions 2).
  assert (1 ≤ g) as Hg by (subst g; lia).
  unfold PutPrototypeTransition.
  rewrite bind_gets, Hproto. rewrite bind_gets, Hdict, Hflag. cbn [negb orb].
  assert (GetPrototypeTransitions σ = Ok (empty_weak_fixed_array, σ)) as HG.
  { unfold GetPrototypeTransitions, encoding. by rewrite bind_gets, He. }
  rewrite (bind_Ok _ _ _ _ _ HG).
  rewrite (bind_Ok _ _ _ _ _ (eq_refl : WeakFixedArray_length empty_weak_fixed_array σ
             = Ok (0, σ))).
  rewrite (bind_Ok _ _ _ _ _ (eq_refl : on_weak_fixed_array empty_weak_fixed_array
             NumberOfPrototypeTransitions σ = Ok (0, σ))).
  cbv zeta. change (0 + 1 >? 0 - kProtoTransitionHeaderSize) with true. cbv iota.
  set (σ1 := set_trace (trace σ ++ [LockExclusive]) σ).
  set (w := length (weak_fixed_arrays σ)).
  set (σ2 := set_weak_fixed_arrays
               (weak_fixed_arrays (after_safepoint σ1)
                ++ [Smi 0 :: replicate (Z.to_nat g) StrongUndefined])
               (after_safepoint σ1)).
  set (σ3 := install_new_array (mkTransitionArray None 0 [])
               (after_safepoint (TransitionsAccessor_new σ2))).
  set (address := length (transition_arrays (after_safepoint (TransitionsAccessor_new σ2)))).
  assert (map_raw_transitions σ2 = map_raw_transitions σ) as Hm2.
  { subst σ2. simpl. rewrite after_safepoint_map. simpl.
    unfold clear_weak. by destruct (map_raw_transitions σ). }
  assert (encoding_ (TransitionsAccessor_new σ2) = kUninitialized) as He2.
  { change (GetEncoding (map_raw_transitions σ2) = kUninitialized). by rewrite Hm2. }
  assert (weak_fixed_arrays σ3 !! w
          = Some (Smi 0 :: replicate (Z.to_nat g) StrongUndefined)) as Hw3.
  { assert (length (weak_fixed_arrays (after_safepoint σ1)) = w) as Hlen1
      by apply after_safepoint_weak_fixed_arrays_length.
    subst σ3. simpl.
    erewrite after_safepoint_weak_fixed_array.
    2: { change (weak_fixed_arrays (TransitionsAccessor_new σ2))
           with (weak_fixed_arrays (after_safepoint σ1)
                 ++ [Smi 0 :: replicate (Z.to_nat g) StrongUndefined]).
         rewrite <- Hlen1. by apply list_lookup_middle. }
    by rewrite clear_weak_fresh_cache. }
  eexists _, address, _, w. split.
  { apply exclusive_Ok. fold σ1.
    erewrite bind_Ok.
    2: { erewrite bind_Ok; [|reflexivity].
         cbn [negb].
         replace (0 - kProtoTransitionHeaderSize =? kMaxCachedPrototypeTransitions)
           with false
           by (symmetry; apply Z.eqb_neq; unfold kProtoTransitionHeaderSize; lia).
         rewrite (bind_Ok _ _ _ _ _ (GrowPrototypeTransitionArray_empty σ1 (2 * (0 + 1))
                    ltac:(lia))).
         rewrite (bind_Ok _ _ _ _ _ (Reload_Ok _)).
         erewrite bind_Ok.
         2: { unfold SetPrototypeTransitions.
              rewrite (bind_Ok _ _ _ _ _
                (EnsureHasFullTransitionArray_uninitialized _ He2)).
              rewrite (bind_Ok _ _ _ _ _ (eq_refl : transitions σ3 = Ok (address, σ3))).
              eapply update_array_Ok; [|reflexivity].
              subst σ3 address. simpl. by apply list_lookup_middle. }
         reflexivity. }
    cbv beta iota.
    erewrite bind_Ok.
    2: { eapply (on_weak_fixed_array_Ok w); [exact Hw3|reflexivity]. }
    cbv zeta.
    erewrite bind_Ok.
    2: { eapply (update_weak_fixed_array_Ok w); [exact Hw3|].
         change (kProtoTransitionHeaderSize + 0) with (Z.of_nat 1).
         apply wfa_Set_nat. simpl. rewrite length_replicate. lia. }
    eapply (update_weak_fixed_array_Ok w).
    - simpl. apply list_lookup_insert_eq. by eapply lookup_lt_Some.
    - by apply SetNumberOfPrototypeTransitions_Ok. }
  split.
  - split_and!.
    + done.
    + simpl. apply list_lookup_insert_eq. subst address. 
      rewrite length_app. simpl. lia.
    + done.
    + simpl. rewrite list_insert_insert_eq.
      rewrite list_lookup_insert_eq by by eapply lookup_lt_Some.
      f_equal. destruct (Z.to_nat g) as [|g'] eqn:Hg'; [lia|].
      simpl. by rewrite Nat.sub_0_r.
  - simpl. rewrite !after_safepoint_trace. simpl. rewrite after_safepoint_trace.
    simpl. by rewrite <- !app_assoc.
Qed.

(** ** [PutPrototypeTransition] on a cache that is full and can grow *)

Lemma EnsureHasFullTransitionArray_full σ :
  encoding_ σ = kFullTransitionArray →
  EnsureHasFullTransitionArray σ = Ok (tt, σ).
Proof.
  intros He. unfold EnsureHasFullTransitionArray, encoding.
  by rewrite bind_gets, He.
Qed.

(** The cache is full, compaction frees nothing, and the cache is below
    [kMaxCachedPrototypeTransitions]: a bigger cache is allocated, while the
    guard is held, and the new entry goes right after the entries of the
    old one. *)
Lemma PutPrototypeTransition_grows σ address a w (n : nat) slots proto target_map :
  caches_prototype_transitions σ → accessor_fresh σ →
  cache_storage σ address a w (Smi (Z.of_nat n) :: slots) →
  n = length slots →
  Forall (λ o, weak_or_cleared o = true) slots →
  length (survivors slots) = n →
  Z.of_nat n < kMaxCachedPrototypeTransitions →
  let new_capacity := Z.min kMaxCachedPrototypeTransitions (2 * (Z.of_nat n + 1)) in
  ∃ σ' a',
    PutPrototypeTransition proto target_map σ = Ok (tt, σ')
    ∧ cache_storage σ' address a' (length (weak_fixed_arrays σ))
        (Smi (Z.of_nat n + 1) :: (clear_weak (next_dead σ) <$> slots)
           ++ Weak target_map
           :: replicate (Z.to_nat (new_capacity - Z.of_nat n) - 1) StrongUndefined)
    ∧ trace σ' = trace σ ++ [LockExclusive; Allocate; UnlockExclusive].
Proof.
  intros Hc Hf Hs Hn Hall Hkept Hmax g.
  rewrite (PutPrototypeTransition_start _ _ _ _ _ _ _ _ Hc Hf Hs). cbv zeta.
  destruct Hs as (Hm & Ha & Hp & Hl).
  set (l := Smi (Z.of_nat n) :: slots) in *.
  assert (CompactPrototypeTransitionArray l = Ok (l, false)) as Hcompact.
  { subst l. rewrite CompactPrototypeTransitionArray_compacted;
      [|lia|by rewrite take_ge by lia].
    rewrite take_ge by lia.
    rewrite compacted_nothing by (rewrite ?take_ge by lia; lia).
    by rewrite bool_decide_eq_false_2 by lia. }
  assert (w < length (weak_fixed_arrays σ))%nat as Hw by by eapply lookup_lt_Some.
  set (σ1 := set_weak_fixed_arrays (<[w := l]> (weak_fixed_arrays σ))
               (set_trace (trace σ ++ [LockExclusive]) σ)).
  assert (weak_fixed_arrays σ1 !! w = Some l) as Hl1
    by by apply list_lookup_insert_eq.
  set (w' := length (weak_fixed_arrays σ)).
  assert (length (weak_fixed_arrays (after_safepoint σ1)) = w') as Hlen1.
  { rewrite after_safepoint_weak_fixed_arrays_length. subst σ1. simpl.
    by rewrite length_insert. }
  set (copy := (clear_weak (next_dead σ) <$> l)
               ++ replicate (Z.to_nat (g - (Z.of_nat (length l) - 1))) StrongUndefined).
  set (σ2 := set_weak_fixed_arrays (weak_fixed_arrays (after_safepoint σ1) ++ [copy])
               (after_safepoint σ1)).
  assert (GrowPrototypeTransitionArray (WeakFixedArrayAt w) (2 * (Z.of_nat n + 1)) σ1
          = Ok (WeakFixedArrayAt w', σ2)) as Hgrow.
  { rewrite (GrowPrototypeTransitionArray_Ok σ1 w l); [|done|done|].
    - subst σ1. simpl. by rewrite length_insert.
    - subst l. simpl. lia. }
  assert (map_raw_transitions σ2 = StrongTransitionArray address) as Hm2.
  { subst σ2. simpl. rewrite after_safepoint_map. simpl. by rewrite Hm. }
  destruct (after_safepoint_prototype_transitions σ1 address a Ha) as (a2 & Ha2 & Hp2).
  set (a3 := TransitionArray_SetPrototypeTransitions a2 (WeakFixedArrayAt w')).
  set (σ3 := set_transition_arrays (<[address := a3]> (transition_arrays σ2))
               (TransitionsAccessor_new σ2)).
  assert (SetPrototypeTransitions (WeakFixedArrayAt w') (TransitionsAccessor_new σ2)
          = Ok (tt, σ3)) as Hset.
  { assert (encoding_ (TransitionsAccessor_new σ2) = kFullTransitionArray) as He2.
    { change (GetEncoding (map_raw_transitions σ2) = kFullTransitionArray).
      by rewrite Hm2. }
    assert (raw_transitions_ (TransitionsAccessor_new σ2)
            = StrongTransitionArray address) as Hr2 by exact Hm2.
    unfold SetPrototypeTransitions.
    rewrite (bind_Ok _ _ _ _ _ (EnsureHasFullTransitionArray_full _ He2)).
    unfold transitions, bind. rewrite Hr2.
    apply (update_array_Ok address _ (TransitionsAccessor_new σ2) a2 a3);
      [exact Ha2|done]. }
  assert (weak_fixed_arrays σ3 !! w' = Some copy) as Hw3.
  { subst σ3 σ2. simpl. rewrite <- Hlen1. by apply list_lookup_middle. }
  assert (length (clear_weak (next_dead σ) <$> l) = S n) as Hlen_l
    by (rewrite length_fmap; subst l; simpl; lia).
  assert (<[0%nat := Smi (Z.of_nat n + 1)]> (<[S n := Weak target_map]> copy)
          = Smi (Z.of_nat n + 1) :: (clear_weak (next_dead σ) <$> slots)
              ++ Weak target_map
              :: replicate (Z.to_nat (g - Z.of_nat n) - 1) StrongUndefined) as Hfinal.
  { subst copy. rewrite insert_app_r_alt by (rewrite Hlen_l; lia).
    rewrite Hlen_l, Nat.sub_diag. subst l. rewrite fmap_cons.
    replace (Z.to_nat (g - (Z.of_nat (length (Smi (Z.of_nat n) :: slots)) - 1)))
      with (S (Z.to_nat (g - Z.of_nat n) - 1)) by (simpl; lia).
    done. }
  eexists _, a3. split.
  { apply exclusive_Ok.
    replace (Z.of_nat n + 1 >? Z.of_nat (length slots)) with true
      by (symmetry; apply Z.gtb_lt; lia).
    erewrite bind_Ok.
    2: { erewrite bind_Ok;
           [|eapply CompactPrototypeTransitionArray_at_Ok; [exact Hl|exact Hcompact]].
         cbn [negb].
         replace (Z.of_nat (length slots) =? kMaxCachedPrototypeTransitions)
           with false by (symmetry; apply Z.eqb_neq; lia).
         rewrite (bind_Ok _ _ _ _ _ Hgrow).
         rewrite (bind_Ok _ _ _ _ _ (Reload_Ok _)).
         rewrite (bind_Ok _ _ _ _ _ Hset). reflexivity. }
    cbv beta iota.
    erewrite bind_Ok.
    2: { eapply (on_weak_fixed_array_Ok w'); [exact Hw3|reflexivity]. }
    cbv zeta.
    replace (kProtoTransitionHeaderSize + Z.of_nat n) with (Z.of_nat (S n))
      by (unfold kProtoTransitionHeaderSize; lia).
    erewrite bind_Ok.
    2: { eapply (update_weak_fixed_array_Ok w'); [exact Hw3|].
         apply wfa_Set_nat. subst copy.
         rewrite length_app, Hlen_l, length_replicate. subst l. simpl. lia. }
    eapply (update_weak_fixed_array_Ok w').
    - simpl. apply list_lookup_insert_eq. by eapply lookup_lt_Some.
    - by apply SetNumberOfPrototypeTransitions_Ok. }
  split.
  - split_and!.
    + done.
    + apply list_lookup_insert_eq. eapply lookup_lt_Some. exact Ha2.
    + done.
    + cbn [weak_fixed_arrays set_weak_fixed_arrays set_trace].
      rewrite list_insert_insert_eq.
      rewrite list_lookup_insert_eq by by eapply lookup_lt_Some.
      f_equal. exact Hfinal.
  - simpl. rewrite after_safepoint_trace. simpl. by rewrite <- !app_assoc.
Qed.

(** ** The prototype cache: compaction, the new entry, the capacity *)

(** C6.  (1) On a cache whose header counts [n] live slots, each a weak
    reference or a cleared one, [CompactPrototypeTransitionArray] returns the
    cache with exactly the cleared ones among them dropped, the others at
    the front in the order they had, the header set to their number, and
    undefined in the slots that became free; it answers whether one did.
    (2) When [PutPrototypeTransition] finds as many live entries as slots and
    one of them is cleared, it returns with the survivors at the front, the
    new entry right after them and the header one above their number; only
    the cache changes, under the guard.  (3) When none is cleared and the
    cache has fewer than [kMaxCachedPrototypeTransitions] slots, it returns
    with a new cache of [min(kMaxCachedPrototypeTransitions, 2 * (n + 1))]
    slots, in which the new entry is right after the [n] old ones.
    (4) Whatever cache [GrowPrototypeTransitionArray] returns has at most
    [kMaxCachedPrototypeTransitions] slots. *)
Theorem prototype_cache_compaction :
  (∀ (n : nat) slots,
     (n ≤ length slots)%nat →
     Forall (λ o, weak_or_cleared o = true) (take n slots) →
     CompactPrototypeTransitionArray (Smi (Z.of_nat n) :: slots)
     = Ok (Smi (Z.of_nat (length (survivors (take n slots))))
             :: survivors (take n slots)
             ++ replicate (n - length (survivors (take n slots))) StrongUndefined
             ++ drop n slots,
           bool_decide (length (survivors (take n slots)) < n)%nat))
  ∧ (∀ σ address a w (n : nat) slots proto target_map,
       caches_prototype_transitions σ → accessor_fresh σ →
       cache_storage σ address a w (Smi (Z.of_nat n) :: slots) →
       n = length slots →
       Forall (λ o, weak_or_cleared o = true) slots →
       (length (survivors slots) < n)%nat →
       ∃ σ',
         PutPrototypeTransition proto target_map σ = Ok (tt, σ')
         ∧ cache_storage σ' address a w
             (Smi (Z.of_nat (length (survivors slots)) + 1)
                :: survivors slots ++ Weak target_map
                :: replicate (n - length (survivors slots) - 1) StrongUndefined)
         ∧ weak_fixed_arrays σ'
           = <[w := Smi (Z.of_nat (length (survivors slots)) + 1)
                    :: survivors slots ++ Weak target_map
                    :: replicate (n - length (survivors slots) - 1) StrongUndefined]>
               (weak_fixed_arrays σ)
         ∧ transition_arrays σ' = transition_arrays σ
         ∧ trace σ' = trace σ ++ [LockExclusive; UnlockExclusive])
  ∧ (∀ σ address a w (n : nat) slots proto target_map,
       caches_prototype_transitions σ → accessor_fresh σ →
       cache_storage σ address a w (Smi (Z.of_nat n) :: slots) →
       n = length slots →
       Forall (λ o, weak_or_cleared o = true) slots →
       length (survivors slots) = n →
       Z.of_nat n < kMaxCachedPrototypeTransitions →
       ∃ σ' a' w' l',
         PutPrototypeTransition proto target_map σ = Ok (tt, σ')
         ∧ cache_storage σ' address a' w' l'
         ∧ take (S (S n)) l'
           = Smi (Z.of_nat n + 1) :: (clear_weak (next_dead σ) <$> slots)
               ++ [Weak target_map]
         ∧ Z.of_nat (length l') - kProtoTransitionHeaderSize
           = Z.min kMaxCachedPrototypeTransitions (2 * (Z.of_nat n + 1))
         ∧ Z.of_nat (length l') - kProtoTransitionHeaderSize
           ≤ kMaxCachedPrototypeTransitions)
  ∧ (∀ σ cache new_capacity cache' σ',
       GrowPrototypeTransitionArray cache new_capacity σ = Ok (cache', σ') →
       ∃ w' l', cache' = WeakFixedArrayAt w'
         ∧ weak_fixed_arrays σ' !! w' = Some l'
         ∧ Z.of_nat (length l') - kProtoTransitionHeaderSize
           ≤ kMaxCachedPrototypeTransitions).
Proof.
  split_and!.
  - intros n slots Hn Hall.
    by rewrite CompactPrototypeTransitionArray_compacted.
  - intros σ address a w n slots proto target_map Hc Hf Hs Hn Hall Hfree.
    destruct (PutPrototypeTransition_compacts σ address a w n slots proto target_map)
      as (σ' & HP & Hw & Hm & Ha & Ht); try done.
    exists σ'. split_and!; try done.
    destruct Hs as (Hm0 & Ha0 & Hp0 & Hl0).
    split_and!; [by rewrite Hm|by rewrite Ha|done|].
    rewrite Hw. apply list_lookup_insert_eq. by eapply lookup_lt_Some.
  - intros σ address a w n slots proto target_map Hc Hf Hs Hn Hall Hkept Hmax.
    destruct (PutPrototypeTransition_grows σ address a w n slots proto target_map)
      as (σ' & a' & HP & Hs' & Ht); try done.
    eexists σ', a', _, _. split; [exact HP|]. split; [exact Hs'|].
    assert (length (clear_weak (next_dead σ) <$> slots) = n) as Hlen
      by by rewrite length_fmap.
    split_and!.
    + simpl. f_equal. rewrite take_app_ge by lia. rewrite Hlen.
      replace (S n - n)%nat with 1%nat by lia. done.
    + simpl. rewrite length_app, Hlen. simpl. rewrite length_replicate.
      unfold kProtoTransitionHeaderSize. lia.
    + simpl. rewrite length_app, Hlen. simpl. rewrite length_replicate.
      unfold kProtoTransitionHeaderSize. lia.
  - intros σ cache new_capacity cache' σ' H.
    destruct (GrowPrototypeTransitionArray_capacity _ _ _ _ _ H)
      as (w' & l' & ? & ? & _ & ?).
    by exists w', l'.
Qed.

(** ** The guard and the allocations *)

(** C9.  The claim does not hold of [PutPrototypeTransition].  On a map
    without transitions that caches prototype transitions, with
    [kMaxCachedPrototypeTransitions] at least 1, the call returns, and what
    it added to the trace is: the guard taken, an allocation (the cache), an
    allocation (the transition array that carries the cache), the guard
    released.  Both allocations happen while the exclusive guard is held. *)
Theorem PutPrototypeTransition_allocates_under_lock σ proto target_map :
  caches_prototype_transitions σ → accessor_fresh σ →
  GetEncoding (map_raw_transitions σ) = kUninitialized →
  1 ≤ kMaxCachedPrototypeTransitions →
  ∃ σ' t,
    PutPrototypeTransition proto target_map σ = Ok (tt, σ')
    ∧ trace σ' = trace σ ++ t
    ∧ t = [LockExclusive; Allocate; Allocate; UnlockExclusive]
    ∧ allocates_under_lock false t = true.
Proof.
  intros Hc Hf Hnone Hmax.
  destruct (PutPrototypeTransition_first σ proto target_map Hc Hf Hnone Hmax)
    as (σ' & address & a & w & HP & _ & Ht).
  by exists σ', [LockExclusive; Allocate; Allocate; UnlockExclusive].
Qed.

(** X17.  [Insert], on the other hand, keeps to the discipline: from a state
    that satisfies the invariant, a call that returns has not allocated under
    the guard.  What it added to the trace has no allocation between a guard
    taken and the guard released. *)
Lemma Insert_allocates_outside_lock σ σ' name target flag :
  hash_injective → slack_not_negative →
  storage_invariant (λ _, True) σ → insert_precondition name target flag →
  Insert name target flag (TransitionsAccessor_new σ) = Ok (tt, σ') →
  ∃ t, trace σ' = trace σ ++ t ∧ allocates_under_lock false t = false.
Proof.
  intros hash_inj Hslack Hinv Hpre HI.
  destruct (Insert_step hash_inj Hslack (λ _, True) I I (λ _ _ _, I) (λ _ _ _ _, I)
              σ σ' name target flag Hinv Hpre HI) as [_ (_ & _ & Ht & _)].
  exact Ht.
Qed.

(** ** What a search finds *)

Lemma array_transitions_holds a es : array_holds a es → array_transitions a = es.
Proof.
  intros [Hlen Htake]. unfold array_transitions. rewrite Hlen, Nat2Z.id, Htake.
  clear. induction es as [|[key m] es IH]; [done|].
  rewrite fmap_cons. cbn [omap list_omap entry_transition entry_of entry_key
    entry_target fst snd]. by rewrite <- IH at 2.
Qed.

Lemma transitions_of_full σ address a es :
  full_storage σ address a es → transitions_of σ = es.
Proof.
  intros (Hm & Hl & Ha). unfold transitions_of. rewrite Hm, Hl.
  by apply array_transitions_holds.
Qed.

Lemma search_name_out es name out out' : ∀ i,
  (search_name es name i out).1 = (search_name es name i out').1.
Proof.
  induction es as [|[key m] es IH]; intros i; [done|]. simpl.
  destruct (_ =? 0); [done|]. destruct (_ >? 0); [done|]. apply IH.
Qed.

(** [Search] and [SearchAndGetTarget] find the same entry. *)
Lemma search_list_target es k name attrs out :
  ((search_list es k name attrs out).1 = kNotFound
   ∧ search_target_list es k name attrs = None)
  ∨ ∃ (n : nat) m,
      (search_list es k name attrs out).1 = Z.of_nat n
      ∧ search_target_list es k name attrs = Some m
      ∧ es !! n = Some (name, m)
      ∧ CompareDetails k attrs (kind (LastAddedDetails m))
          (attributes (LastAddedDetails m)) = 0.
Proof.
  unfold search_list, search_target_list.
  pose proof (search_name_out es name out kNotFound 0) as Hout.
  destruct (search_name es name 0 out) as [idx o1] eqn:H1.
  destruct (search_name es name 0 kNotFound) as [idx' o2] eqn:H2.
  simpl in Hout. subst idx'.
  destruct (search_name_scan _ _ _ _ _ _ H1) as (n & Hn & _ & [(-> & _ & m0 & He)|(-> & _)]);
    [|by left].
  replace (0 + Z.of_nat n =? kNotFound) with false
    by (symmetry; apply Z.eqb_neq; unfold kNotFound; lia).
  replace (0 + Z.of_nat n) with (Z.of_nat n) by lia. rewrite Nat2Z.id.
  destruct (search_details (drop n es) name k attrs (Z.of_nat n)) as [found j] eqn:Hd.
  destruct (search_details_scan _ _ _ _ _ _ _ Hd) as (n' & -> & Hn' & _ & Hres).
  destruct found as [m|]; [|by left].
  destruct Hres as [Hlook Hcmp]. rewrite lookup_drop in Hlook.
  right. exists (n + n')%nat, m. simpl. split_and!; [lia|done|done|done].
Qed.

Section SearchSpec.

Hypothesis hash_inj : hash_injective.

(** On a sorted list, the search for a property transition answers the
    target of the entry with that name, kind and attributes, if there is
    one, and nothing otherwise. *)
Lemma search_target_list_spec es k name attrs m :
  sorted_transitions es → IsSpecialTransition name = false →
  search_target_list es k name attrs = Some m
  ↔ (name, m) ∈ es ∧ kind (LastAddedDetails m) = k
    ∧ attributes (LastAddedDetails m) = attrs.
Proof using hash_inj.
  intros Hs Hsp. split.
  - intros Hfound.
    destruct (search_list_target es k name attrs kNotFound)
      as [[_ Hnone]|(n & m' & _ & Hsome & He & Hcmp)]; [congruence|].
    rewrite Hfound in Hsome. injection Hsome as <-.
    apply CompareDetails_zero in Hcmp as [-> ->].
    split_and!; [|done..]. by eapply list_elem_of_lookup_2.
  - intros (Hin & Hk & Hattrs).
    apply list_elem_of_lookup_1 in Hin as [n Hn].
    pose proof (search_list_answer hash_inj es name kNotFound m Hs Hsp) as Hanswer.
    unfold GetTargetDetails in Hanswer. rewrite Hk, Hattrs in Hanswer.
    destruct (search_answer_present _ _ _ _ _ n (name, m) Hs Hanswer Hn eq_refl)
      as [Hr _].
    destruct (search_list_target es k name attrs kNotFound)
      as [[Hnone _]|(n' & m' & Hidx & Hsome & He & _)].
    + rewrite Hr in Hnone. simpl in Hnone. unfold kNotFound in Hnone. lia.
    + rewrite Hr in Hidx. simpl in Hidx.
      assert (n' = n) as -> by lia. rewrite Hn in He. by injection He as <-.
Qed.

End SearchSpec.

Lemma SearchTransition_full_any σ address a es name k attrs :
  accessor_fresh σ → full_storage σ address a es →
  ∃ σ', SearchTransition name k attrs σ = Ok (search_target_list es k name attrs, σ').
Proof.
  intros Hf Hs. destruct (full_storage_encoding _ _ _ _ Hf Hs) as [He _].
  unfold SearchTransition, encoding. rewrite bind_gets, He. cbv iota.
  rewrite bind_gets.
  assert (∀ σ1, transition_arrays σ1 = transition_arrays σ →
                raw_transitions_ σ1 = raw_transitions_ σ →
    (do array <- transitions;
     on_array array (λ a, SearchAndGetTarget a k name attrs)) σ1
    = Ok (search_target_list es k name attrs, σ1)) as Hbody.
  { intros σ1 Harr Hraw.
    destruct (full_storage_encoding _ _ _ _ Hf Hs) as [_ Hr].
    unfold transitions, bind. rewrite Hraw, Hr.
    destruct Hs as (_ & Hl & Ha).
    apply (on_array_Ok _ _ _ a); [by rewrite Harr|].
    by apply SearchAndGetTarget_list. }
  unfold shared_if. destruct (concurrent_access_ σ).
  - eexists. unfold log.
    rewrite (bind_Ok _ _ _ _ _ (eq_refl : modify _ σ = Ok (tt, _))).
    rewrite (bind_Ok _ _ _ _ _
               (Hbody (set_trace (trace σ ++ [LockShared]) σ) eq_refl eq_refl)).
    reflexivity.
  - eexists. by apply Hbody.
Qed.

Lemma SearchSpecial_full σ address a es name :
  accessor_fresh σ → full_storage σ address a es →
  SearchSpecial name σ
  = Ok (let idx := (search_name es name 0 kNotFound).1 in
        if idx =? kNotFound then None else snd <$> es !! Z.to_nat idx, σ).
Proof.
  intros Hf Hs. destruct (full_storage_encoding _ _ _ _ Hf Hs) as [He Hr].
  unfold SearchSpecial, encoding. rewrite bind_gets, He. cbn [bool_decide negb].
  rewrite bool_decide_eq_true_2 by done. cbn [negb].
  rewrite (bind_Ok _ _ _ _ _ (transitions_full _ _ _ _ Hf Hs)).
  destruct Hs as (_ & Hl & Ha).
  unfold TransitionArray_SearchSpecial.
  rewrite (bind_Ok _ _ _ _ _ (on_array_Ok _ _ _ _ _ Hl (SearchName_list _ _ _ _ Ha))).
  destruct (search_name es name 0 kNotFound) as [idx out] eqn:Hsearch. cbn [fst].
  destruct (search_name_scan _ _ _ _ _ _ Hsearch)
    as (n & Hn & _ & [(-> & _ & m & He')|(-> & _)]); [|done].
  replace (0 + Z.of_nat n =? kNotFound) with false
    by (symmetry; apply Z.eqb_neq; unfold kNotFound; lia).
  replace (0 + Z.of_nat n) with (Z.of_nat n) by lia.
  rewrite (bind_Ok _ _ _ _ _ (on_array_Ok _ _ _ _ _ Hl
             (array_holds_GetTarget _ _ _ _ Ha He'))).
  by rewrite Nat2Z.id, He'.
Qed.

(** X1.  In every state a map reaches by [Insert] and collections, the
    search for a property transition returns, in a debug build and in a
    release build, and it answers the map [m] exactly if [(name, m)] is one
    of the transitions of the map and the last descriptor of [m] has the
    kind and the attributes asked for; it answers nothing if there is no
    such transition.  (Hashes are assumed not to collide, the slack policy
    not to answer a negative slack.) *)
Theorem SearchTransition_finds_exactly σ name k attrs :
  hash_injective → slack_not_negative → reachable σ →
  IsSpecialTransition name = false →
  ∃ r σ',
    SearchTransition name k attrs (TransitionsAccessor_new σ) = Ok (r, σ')
    ∧ ∀ m, r = Some m
           ↔ (name, m) ∈ transitions_of σ
             ∧ kind (LastAddedDetails m) = k
             ∧ attributes (LastAddedDetails m) = attrs.
Proof.
  intros hash_inj Hslack Hreach Hsp.
  pose proof (reachable_invariant hash_inj Hslack (λ _, True) I I (λ _ _ _, I)
                (λ _ _ _ _, I) σ Hreach) as Hinv.
  set (σ0 := TransitionsAccessor_new σ).
  assert (∀ m, ¬ (name, m) ∈ (@nil (Name * Map))) as Hnil
    by (intros m H; by apply elem_of_nil in H).
  unfold transitions_of.
  destruct (map_raw_transitions σ) as [v| |s| |m0|address|] eqn:Hm.
  1,2,4,5,7: (exists None, σ0; split;
    [by unfold SearchTransition, encoding; rewrite bind_gets; simpl; rewrite Hm|];
    intros m; split; [done|]; intros [H _]; by apply Hnil in H).
  - exists (if IsMatchingMap s name k attrs then Some s else None), σ0.
    split; [apply SearchTransition_simple; simpl; by rewrite Hm|].
    intros m. unfold IsMatchingMap, HasKindAndAttributes, simple_entry,
      GetSimpleTransitionKey.
    rewrite list_elem_of_singleton. split.
    + repeat case_bool_decide; simpl; intros [= <-]; try done.
      split_and!; congruence.
    + intros ([= -> ->] & Hk & Ha).
      by rewrite !bool_decide_eq_true_2 by done.
  - destruct (Hinv address Hm) as (a & es & Hl & Ha & Hsorted & _).
    destruct (SearchTransition_full_any σ0 address a es name k attrs)
      as [σ' HS]; [done|done|].
    exists (search_target_list es k name attrs), σ'. split; [exact HS|].
    rewrite Hl, (array_transitions_holds _ _ Ha).
    intros m. by apply search_target_list_spec.
Qed.

(** X2.  What [Insert] has put in is found.  From every reachable state,
    after a call of [Insert] that returns, a fresh accessor finds the target
    under the name: [SearchTransition] with the kind and attributes of the
    last descriptor of the target, for a property transition, and
    [SearchSpecial], for a special one.  (Hashes are assumed not to collide,
    the slack policy not to answer a negative slack.) *)
Theorem Insert_then_search σ σ' name target flag :
  hash_injective → slack_not_negative → reachable σ →
  insert_precondition name target flag →
  Insert name target flag (TransitionsAccessor_new σ) = Ok (tt, σ') →
  (flag ≠ SPECIAL_TRANSITION →
   ∃ σ'', SearchTransition name (kind (LastAddedDetails target))
            (attributes (LastAddedDetails target)) (TransitionsAccessor_new σ')
          = Ok (Some target, σ''))
  ∧ (flag = SPECIAL_TRANSITION →
     SearchSpecial name (TransitionsAccessor_new σ')
     = Ok (Some target, TransitionsAccessor_new σ')).
Proof.
  intros hash_inj Hslack Hreach Hpre HI.
  pose proof (reachable_invariant hash_inj Hslack (λ _, True) I I (λ _ _ _, I)
                (λ _ _ _ _, I) σ Hreach) as Hinv.
  destruct (Insert_step hash_inj Hslack (λ _, True) I I (λ _ _ _, I) (λ _ _ _ _, I)
              σ σ' name target flag Hinv Hpre HI) as [_ (_ & _ & _ & Hout)].
  destruct Hpre as [Hflag Hkey].
  destruct Hout as [[-> Hm]|(address & a & es & Hs & Hsorted & Hin)].
  - split; [|done]. intros _. eexists.
    rewrite (SearchTransition_simple _ target) by (simpl; by rewrite Hm).
    unfold IsMatchingMap, HasKindAndAttributes.
    by rewrite Hkey, !bool_decide_eq_true_2 by done.
  - assert (full_storage (TransitionsAccessor_new σ') address a es) as Hs' by done.
    split.
    + intros Hne.
      assert (IsSpecialTransition name = false) as Hsp.
      { rewrite <- Hflag. by apply bool_decide_eq_false. }
      destruct (SearchTransition_full_any _ address a es name
                  (kind (LastAddedDetails target)) (attributes (LastAddedDetails target))
                  (TransitionsAccessor_new_fresh σ') Hs') as [σ'' HS].
      exists σ''. rewrite HS. do 2 f_equal.
      by apply (search_target_list_spec hash_inj).
    + intros ->.
      assert (IsSpecialTransition name = true) as Hsp.
      { rewrite <- Hflag. by apply bool_decide_eq_true. }
      rewrite (SearchSpecial_full _ address a es) by done.
      apply list_elem_of_lookup_1 in Hin as [n Hn].
      pose proof (search_name_answer hash_inj es name kNotFound target Hsorted Hsp)
        as Hanswer.
      destruct (search_answer_present _ _ _ _ _ n (name, target) Hsorted Hanswer Hn
                  eq_refl) as [-> _].
      cbn [fst]. replace (Z.of_nat n =? kNotFound) with false
        by (symmetry; apply Z.eqb_neq; unfold kNotFound; lia).
      by rewrite Nat2Z.id, Hn.
Qed.

(** ** [Insert] as an insertion into the set of transitions *)

Lemma after_safepoint_collections σ :
  collections (after_safepoint σ) = tail (collections σ).
Proof.
  unfold after_safepoint. simpl. by destruct (collections σ) eqn:E; simpl.
Qed.

Lemma insert_at_Permutation {A} (n : nat) (x : A) l : insert_at n x l ≡ₚ x :: l.
Proof.
  unfold insert_at. rewrite <- Permutation_middle. by rewrite take_drop.
Qed.

Lemma filter_stays_absent name target collected σ (es : list (Name * Map)) :
  (∀ e, e ∈ es → transition_tuple e ≠ transition_tuple (name, target)) →
  filter (stays name target collected σ) es
  = filter (λ e, (if collected then next_dead σ e.2 else false) = false) es.
Proof.
  intros Habs. induction es as [|e es IH]; [done|].
  assert (transition_tuple e ≠ transition_tuple (name, target)) as He
    by (apply Habs; by left).
  rewrite !filter_cons, IH by (intros e' He'; apply Habs; by right).
  unfold stays. repeat case_decide; try done; tauto.
Qed.

Lemma filter_not_collected (es : list (Name * Map)) :
  filter (λ e : Name * Map, false = false) es = es.
Proof.
  induction es as [|e es IH]; [done|]. rewrite filter_cons_True by done. by rewrite IH.
Qed.

Lemma filter_stays_found name target σ (es : list (Name * Map)) (n : nat) e :
  sorted_transitions es → es !! n = Some e →
  transition_tuple e = transition_tuple (name, target) →
  (name, target) :: filter (stays name target false σ) es
  ≡ₚ <[n := (name, target)]> es.
Proof.
  intros Hs He Ht.
  assert (filter (stays name target false σ) es = take n es ++ drop (S n) es) as ->.
  { rewrite <- (take_drop_middle es n e He) at 1.
    rewrite list.filter_app, filter_cons_False by (unfold stays; tauto).
    assert (∀ l : list (Name * Map),
              (∀ e', e' ∈ l → transition_tuple e' ≠ transition_tuple (name, target))
                 → filter (stays name target false σ) l = l) as Hall.
    { intros l Hl. rewrite filter_stays_absent by done. apply filter_not_collected. }
    rewrite !Hall; [done| |].
    - intros e' [i Hi]%list_elem_of_lookup_1. rewrite lookup_drop in Hi.
      rewrite <- Ht. intros Heq.
      pose proof (sorted_transitions_same_tuple es _ _ _ _ Hs Hi He Heq). lia.
    - intros e' [i Hi]%list_elem_of_lookup_1. apply lookup_take_Some in Hi as [Hi Hlt].
      rewrite <- Ht. intros Heq.
      pose proof (sorted_transitions_same_tuple es _ _ _ _ Hs Hi He Heq). lia. }
  rewrite Permutation_middle.
  rewrite <- (take_drop_middle es n e He) at 3.
  assert (length (take n es) = n) as Hlen.
  { rewrite length_take. apply lookup_lt_Some in He. lia. }
  rewrite insert_app_r_alt by lia. rewrite Hlen, Nat.sub_diag. done.
Qed.

Section InsertCases.

Hypothesis hash_inj : hash_injective.
Hypothesis slack_ok : slack_not_negative.

(** The three ways in which a call of [Insert] ends, once it is past its
    first assertions. *)
Lemma Insert_cases σ name target flag :
  storage_invariant (λ _, True) σ → insert_precondition name target flag →
  prologue_ok (TransitionsAccessor_new σ) →
  GetEncoding (map_raw_transitions σ) ≠ kPrototypeInfo →
  (insert_clash name target flag σ
   ∧ Insert name target flag (TransitionsAccessor_new σ)
     = Err (if DEBUG then DCHECK_failed else UndefinedBehaviour))
  ∨ (insert_overflow name target σ
     ∧ Insert name target flag (TransitionsAccessor_new σ)
       = Err (CHECK_failed check_new_nof_le_max))
  ∨ (∃ σ', Insert name target flag (TransitionsAccessor_new σ) = Ok (tt, σ')
       ∧ insert_effect name target σ σ').
Proof using hash_inj slack_ok.
  intros Hinv Hpre Hp Hnot.
  set (σ0 := TransitionsAccessor_new σ) in *.
  assert (accessor_fresh σ0) as Hf by done.
  assert (∀ r es', array_holds r es' → es' ≡ₚ [(name, target)] →
    (∀ e, e ∈ transitions_of σ → next_dead σ e.2 = true) →
    insert_effect name target σ
      (install_new_array r (after_safepoint (entered target σ0)))) as Hfresh.
  { intros r es' Hr Hperm Hdead. exists true. split.
    - simpl. by rewrite after_safepoint_collections.
    - rewrite (transitions_of_full _ _ _ _ (install_new_array_storage _ _ _ Hr)).
      rewrite Hperm. apply Permutation_cons; [done|].
      assert (filter (stays name target true σ) (transitions_of σ) = []) as ->; [|done].
      induction (transitions_of σ) as [|e es IH]; [done|].
      rewrite filter_cons_False.
      + apply IH. intros e' He'. apply Hdead. by right.
      + unfold stays. rewrite (Hdead e) by by left. intros [_ ?]. done. }
  assert (encoding_ σ0 = kUninitialized ∨ encoding_ σ0 = kMigrationTarget →
    transitions_of σ = [] →
    ∃ σ', Insert name target flag σ0 = Ok (tt, σ')
      ∧ insert_effect name target σ σ') as Hfirst.
  { intros Hnone Hempty.
    destruct (decide (flag = SIMPLE_PROPERTY_TRANSITION)) as [->|Hflag].
    - rewrite Insert_first_simple by done. eexists. split; [done|].
      exists false. split; [done|]. rewrite Hempty.
      unfold transitions_of, simple_entry, GetSimpleTransitionKey. simpl.
      destruct Hpre as [_ Hkey]. by rewrite Hkey.
    - rewrite Insert_first_full by done. eexists. split; [done|].
      apply (Hfresh _ [(name, target)]); [done|done|].
      rewrite Hempty. intros e He. by apply elem_of_nil in He. }
  unfold transitions_of in Hfirst.
  destruct (map_raw_transitions σ) as [v| |s| |m|address|] eqn:Hm;
    try (by right; right; apply Hfirst; [simpl; rewrite Hm; auto|done]).
  - (* one simple transition *)
    assert (transitions_of σ = [simple_entry s]) as Hts
      by (unfold transitions_of; by rewrite Hm).
    assert (encoding_ σ0 = kWeakRef) as He by (simpl; by rewrite Hm).
    assert (raw_transitions_ σ0 = Weak s) as Hr by (simpl; by rewrite Hm).
    assert (map_raw_transitions σ0 = Weak s) as Hm0 by (simpl; by rewrite Hm).
    destruct (retransition flag s name target) eqn:Hsame.
    { right; right. rewrite (Insert_simple_same _ _ _ s) by done.
      eexists. split; [done|]. exists false. split; [done|].
      rewrite Hts.
      unfold retransition in Hsame.
      apply andb_true_iff in Hsame as [Hflag Hsame].
      apply bool_decide_eq_true in Hflag as ->.
      apply andb_true_iff in Hsame as [Hsame Hattrs].
      apply andb_true_iff in Hsame as [Hkey Hkind].
      apply bool_decide_eq_true in Hkey, Hkind, Hattrs.
      destruct Hpre as [Hsp Hkey'].
      assert (IsSpecialTransition name = false) as Hnsp by by rewrite <- Hsp.
      assert (transition_tuple (simple_entry s) = transition_tuple (name, target)) as Ht.
      { unfold simple_entry. rewrite Hkey.
        rewrite !(transition_tuple_property _ _ Hnsp).
        unfold GetSimpleTargetDetails, GetTargetDetails in *. by rewrite Hkind, Hattrs. }
      rewrite filter_cons_False by (unfold stays; tauto).
      rewrite filter_nil.
      unfold transitions_of, simple_entry, GetSimpleTransitionKey. simpl.
      by rewrite Hkey'. }
    destruct (next_dead σ0 s) eqn:Hdead.
    { right; right. rewrite (Insert_simple_cleared _ _ _ s) by done.
      eexists. split; [done|].
      apply (Hfresh _ [(name, target)]); [done|done|].
      rewrite Hts. intros e ->%list_elem_of_singleton. exact Hdead. }
    destruct (decide (transition_tuple (name, target) = transition_tuple (simple_entry s)))
      as [Ht|Ht].
    { left. split; [by exists s|].
      by apply (Insert_simple_found_fails name target flag s σ0). }
    destruct (Insert_simple_other name target flag s σ0)
      as (r & ins & H & Hins & Hholds & Hsorted & _); try done.
    right; right. rewrite H. eexists. split; [done|].
    exists true. split.
    + simpl. by rewrite after_safepoint_collections.
    + rewrite (transitions_of_full _ _ _ _ (install_new_array_storage _ _ _ Hholds)).
      rewrite insert_at_Permutation, Hts.
      rewrite filter_cons_True; [done|]. split; [congruence|exact Hdead].
  - (* a full transition array *)
    destruct (Hinv address Hm) as (a & es & Hl & Ha & Hsorted & _).
    assert (full_storage σ address a es) as Hs' by done.
    assert (full_storage σ0 address a es) as Hs by done.
    assert (transitions_of σ = es) as Hts by by apply (transitions_of_full _ address a).
    assert (address < length (transition_arrays σ))%nat as Hlt
      by by eapply lookup_lt_Some.
    destruct (Insert_search_answer hash_inj a es name target flag kNotFound Ha Hsorted Hpre)
      as (r & _ & [(_ & n & _ & Hn & Hb & Hab)|(n & e & _ & _ & He' & Hname & Ht)]).
    2: { destruct (Insert_full_found hash_inj name target flag σ0 address a es n e)
           as (a' & H & Hholds & _); try done.
         right; right. rewrite H. eexists. split; [done|].
         exists false. split; [done|].
         rewrite (transitions_of_full _ address a' (<[n := (name, target)]> es)).
         - rewrite Hts. symmetry. by eapply filter_stays_found.
         - split_and!; [done| |done]. simpl. by apply list_lookup_insert_eq. }
    assert (∀ e, e ∈ es → transition_tuple e ≠ transition_tuple (name, target))
      as Habs by (intros e0 He0; by apply (search_answer_absent es _ n e0)).
    destruct (Z.lt_ge_cases kMaxNumberOfTransitions (Z.of_nat (length es) + 1)) as [Hover|Hmax].
    { right; left. split.
      - exists address. by rewrite Hts.
      - by rewrite (Insert_full_over_limit hash_inj _ _ _ _ address a es). }
    right; right.
    destruct (Nat.lt_ge_cases (length es) (length (entries a))) as [Hroom|Hfull].
    + destruct (Insert_full_in_place hash_inj name target flag σ0 address a es)
        as (n' & a' & H & _ & _ & _ & Hholds & _); try done.
      rewrite H. eexists. split; [done|].
      exists false. split; [done|].
      rewrite (transitions_of_full _ address a' (insert_at n' (name, target) es)).
      * rewrite Hts, insert_at_Permutation, filter_stays_absent by done.
        by rewrite filter_not_collected.
      * split_and!; [done| |done]. simpl. by apply list_lookup_insert_eq.
    + destruct (Insert_full_grow hash_inj name target flag σ0 address a es)
        as (n' & r' & H & _ & _ & _ & Hholds & _); try done.
      { apply slack_ok; lia. }
      rewrite H. eexists. split; [done|].
      exists true. split.
      * simpl. by rewrite after_safepoint_collections.
      * erewrite transitions_of_full.
        2: { split_and!; [done| |exact Hholds]. simpl. by apply list_lookup_middle. }
        rewrite Hts, insert_at_Permutation, filter_stays_absent by done. done.
Qed.

End InsertCases.

(** X3.  [Insert] is an insertion into the set of transitions of the map.
    From every reachable state, after a call that returns, the transitions
    of the map are, up to their order: the new transition, and those the map
    had whose [(name, kind, attributes)] is not that of the new one and
    which, if the call allocated (the environment has then run the next
    collection), the collection did not find dead.  Nothing else is added
    and nothing else is lost.  (Hashes are assumed not to collide, the slack
    policy not to answer a negative slack.) *)
Theorem Insert_inserts σ σ' name target flag :
  hash_injective → slack_not_negative → reachable σ →
  insert_precondition name target flag →
  Insert name target flag (TransitionsAccessor_new σ) = Ok (tt, σ') →
  ∃ collected : bool,
    collections σ' = (if collected then tail (collections σ) else collections σ)
    ∧ transitions_of σ'
      ≡ₚ (name, target)
         :: filter (λ e, transition_tuple e ≠ transition_tuple (name, target)
                         ∧ (if collected then next_dead σ e.2 else false) = false)
              (transitions_of σ).
Proof.
  intros hash_inj Hslack Hreach Hpre HI.
  pose proof (reachable_invariant hash_inj Hslack (λ _, True) I I (λ _ _ _, I)
                (λ _ _ _ _, I) σ Hreach) as Hinv.
  destruct (decide (prologue_ok (TransitionsAccessor_new σ))) as [Hp|Hp];
    [|by rewrite Insert_not_prologue_ok in HI].
  destruct (decide (GetEncoding (map_raw_transitions σ) = kPrototypeInfo)) as [He|He].
  { by rewrite (Insert_prototype_info name target flag (TransitionsAccessor_new σ))
      in HI. }
  destruct (Insert_cases hash_inj Hslack σ name target flag Hinv Hpre Hp He)
    as [[_ Herr]|[[_ Herr]|(σ'' & HI' & Heff)]]; [congruence..|].
  rewrite HI in HI'. injection HI' as <-. exact Heff.
Qed.

(** X4.  When [Insert] does not return.  From a reachable state whose
    storage word is not prototype information, a call of [Insert] that is
    past its first assertions returns unless there is a clash or an
    overflow.  A clash: the map has one simple transition, the new
    transition has its name, kind and attributes but is not a simple
    property transition, and the old target survives the allocation; then
    [DCHECK_EQ(index, kNotFound)] fails in a debug build and a release build
    reads [insertion_index], which was never written.  An overflow: the map
    has a transition array without the tuple of the new transition and with
    [kMaxNumberOfTransitions] transitions or more; then
    [CHECK_LE(new_nof, kMaxNumberOfTransitions)] fails, in every build. *)
Theorem Insert_returns_unless σ name target flag :
  hash_injective → slack_not_negative → reachable σ →
  insert_precondition name target flag →
  prologue_ok (TransitionsAccessor_new σ) →
  GetEncoding (map_raw_transitions σ) ≠ kPrototypeInfo →
  ((∃ σ', Insert name target flag (TransitionsAccessor_new σ) = Ok (tt, σ'))
   ↔ ¬ insert_clash name target flag σ ∧ ¬ insert_overflow name target σ)
  ∧ (insert_clash name target flag σ →
     Insert name target flag (TransitionsAccessor_new σ)
     = Err (if DEBUG then DCHECK_failed else UndefinedBehaviour))
  ∧ (insert_overflow name target σ →
     Insert name target flag (TransitionsAccessor_new σ)
     = Err (CHECK_failed check_new_nof_le_max)).
Proof.
  intros hash_inj Hslack Hreach Hpre Hp He.
  pose proof (reachable_invariant hash_inj Hslack (λ _, True) I I (λ _ _ _, I)
                (λ _ _ _ _, I) σ Hreach) as Hinv.
  assert (insert_clash name target flag σ →
    Insert name target flag (TransitionsAccessor_new σ)
    = Err (if DEBUG then DCHECK_failed else UndefinedBehaviour)) as Hclash.
  { intros (s & Hm & Hsame & Ht & Hdead).
    apply (Insert_simple_found_fails name target flag s); try done;
      simpl; by rewrite Hm. }
  assert (insert_overflow name target σ →
    Insert name target flag (TransitionsAccessor_new σ)
    = Err (CHECK_failed check_new_nof_le_max)) as Hover.
  { intros (address & Hm & Habs & Hmax).
    destruct (Hinv address Hm) as (a & es & Hl & Ha & Hsorted & _).
    assert (transitions_of σ = es) as Hts by by apply (transitions_of_full _ address a).
    rewrite Hts in Habs, Hmax.
    by apply (Insert_full_over_limit hash_inj _ _ _ _ address a es). }
  split_and!; [|done|done].
  split.
  - intros [σ' HI]. split; intros Hbad.
    + rewrite (Hclash Hbad) in HI. done.
    + rewrite (Hover Hbad) in HI. done.
  - intros [Hnc Hno].
    destruct (Insert_cases hash_inj Hslack σ name target flag Hinv Hpre Hp He)
      as [[? _]|[[? _]|(σ' & HI & _)]]; [done|done|by exists σ'].
Qed.

(** X5.  [CanHaveMoreTransitions] is the guard of the overflow.  In every
    reachable state it returns; if it answers [true], a call of [Insert]
    does not end in [CHECK_LE(new_nof, kMaxNumberOfTransitions)]; if it
    answers [false] on a map that is not a dictionary map, a call of
    [Insert] with a tuple the map does not have, past its first assertions,
    does. *)
Theorem CanHaveMoreTransitions_guards_Insert σ name target flag :
  hash_injective → slack_not_negative → reachable σ →
  insert_precondition name target flag →
  ∃ b,
    CanHaveMoreTransitions (TransitionsAccessor_new σ)
    = Ok (b, TransitionsAccessor_new σ)
    ∧ (b = true →
       Insert name target flag (TransitionsAccessor_new σ)
       ≠ Err (CHECK_failed check_new_nof_le_max))
    ∧ (b = false → is_dictionary_map σ = false →
       prologue_ok (TransitionsAccessor_new σ) →
       (∀ e, e ∈ transitions_of σ →
          transition_tuple e ≠ transition_tuple (name, target)) →
       Insert name target flag (TransitionsAccessor_new σ)
       = Err (CHECK_failed check_new_nof_le_max)).
Proof.
  intros hash_inj Hslack Hreach Hpre.
  pose proof (reachable_invariant hash_inj Hslack (λ _, True) I I (λ _ _ _, I)
                (λ _ _ _ _, I) σ Hreach) as Hinv.
  set (σ0 := TransitionsAccessor_new σ).
  pose proof (Insert_result σ name target flag hash_inj Hslack Hinv Hpre) as Hres.
  fold σ0 in Hres.
  unfold CanHaveMoreTransitions. rewrite bind_gets.
  change (is_dictionary_map σ0) with (is_dictionary_map σ).
  unfold encoding. 
  destruct (map_raw_transitions σ) as [v| |s| |m|address|] eqn:Hm.
  1,2,3,4,5,7:
    (exists (negb (is_dictionary_map σ)); destruct (is_dictionary_map σ);
     [|rewrite bind_gets; simpl; rewrite Hm; simpl];
     (split; [done|]); (split; [|done]); intros _;
     destruct Hres as [[σ' ->]|[-> |[-> |[_ (address & a & Hm' & _)]]]];
     done).
  destruct (Hinv address Hm) as (a & es & Hl & Ha & Hsorted & _).
  assert (full_storage σ0 address a es) as Hs by done.
  assert (transitions_of σ = es) as Hts by by apply (transitions_of_full _ address a).
  exists (negb (is_dictionary_map σ) && (Z.of_nat (length es) <? kMaxNumberOfTransitions)).
  split_and!.
  - destruct (is_dictionary_map σ); [done|].
    rewrite bind_gets. simpl. rewrite Hm. simpl.
    rewrite (bind_Ok _ _ _ _ _ (transitions_full σ0 _ _ _ (TransitionsAccessor_new_fresh σ) Hs)).
    rewrite (bind_Ok _ _ _ _ _ (on_array_Ok _ _ σ0 _ _ Hl
               (f_equal Ok (array_holds_number _ _ Ha)))).
    done.
  - intros [_ Hlt%Z.ltb_lt]%andb_true_iff.
    destruct Hres as [[σ' ->]|[-> |[-> |[_ (address' & a' & Hm' & Hl' & Hover)]]]];
      try done.
    simplify_eq. rewrite (array_holds_number _ _ Ha) in Hover. lia.
  - intros Hb Hdict Hp Habs. rewrite Hdict in Hb. simpl in Hb.
    apply Z.ltb_ge in Hb. rewrite Hts in Habs.
    apply (Insert_full_over_limit hash_inj _ _ _ _ address a es); try done. lia.
Qed.

(** ** The transitions under one name *)

Lemma ForEachTransitionTo_loop_list a es key :
  array_holds a es →
  ∀ rest (i : nat), drop i es = rest →
    ForEachTransitionTo_loop a (Some key) (length rest) (Z.of_nat i)
    = Ok (run_of key rest).
Proof.
  intros Ha rest. induction rest as [|[current target] rest IH]; intros i Hdrop; [done|].
  assert (es !! i = Some (current, target)) as He.
  { rewrite <- (take_drop i es) at 1. rewrite Hdrop.
    assert (length (take i es) = i) as Hlen.
    { rewrite length_take. apply (f_equal length) in Hdrop.
      rewrite length_drop in Hdrop. simpl in Hdrop. lia. }
    rewrite lookup_app_r by lia. by rewrite Hlen, Nat.sub_diag. }
  simpl. rewrite (array_holds_GetKey _ _ _ _ Ha He). simpl.
  destruct (decide (current = key)) as [->|Hne].
  - rewrite !bool_decide_eq_true_2 by done. simpl.
    rewrite (array_holds_GetTarget _ _ _ _ Ha He). simpl.
    replace (Z.of_nat i + 1) with (Z.of_nat (S i)) by lia.
    rewrite IH; [done|]. apply drop_S in He. rewrite Hdrop in He. by simplify_eq.
  - rewrite bool_decide_eq_false_2 by congruence.
    by rewrite bool_decide_eq_false_2 by done.
Qed.

Lemma TransitionArray_ForEachTransitionTo_list a es name :
  array_holds a es →
  TransitionArray_ForEachTransitionTo a name
  = Ok (let idx := (search_name es name 0 kNotFound).1 in
        if idx =? kNotFound then [] else run_of name (drop (Z.to_nat idx) es)).
Proof.
  intros Ha. unfold TransitionArray_ForEachTransitionTo.
  rewrite (SearchName_list _ _ _ _ Ha). simpl.
  destruct (search_name es name 0 kNotFound) as [idx out] eqn:Hsearch. cbn [fst].
  destruct (search_name_scan _ _ _ _ _ _ Hsearch)
    as (n & Hn & _ & [(-> & _ & m & He)|(-> & _)]); [|done].
  replace (0 + Z.of_nat n =? kNotFound) with false
    by (symmetry; apply Z.eqb_neq; unfold kNotFound; lia).
  replace (0 + Z.of_nat n) with (Z.of_nat n) by lia.
  assert (n < length es)%nat as Hlt by by eapply lookup_lt_Some.
  rewrite (array_holds_number _ _ Ha).
  replace (Z.of_nat n <? Z.of_nat (length es)) with true
    by (symmetry; apply Z.ltb_lt; lia).
  rewrite rDCHECK_true. simpl.
  rewrite (array_holds_GetKey _ _ _ _ Ha He). simpl.
  replace (Z.to_nat (Z.of_nat (length es) - Z.of_nat n)) with (length (drop n es))
    by (rewrite length_drop; lia).
  rewrite (ForEachTransitionTo_loop_list a es name Ha (drop n es) n eq_refl).
  by rewrite Nat2Z.id.
Qed.

Section OneName.

Hypothesis hash_inj : hash_injective.

(** In a sorted list, after an entry whose name has a greater hash no entry
    has the name. *)
Lemma names_above es name (n : nat) e :
  sorted_transitions es → es !! n = Some e → hash name < hash e.1 →
  Forall (λ e', e'.1 ≠ name) (drop n es).
Proof.
  intros Hs He Hlt. apply Forall_lookup. intros i e' Hi.
  rewrite lookup_drop in Hi. destruct i as [|i].
  - rewrite Nat.add_0_r in Hi. simplify_eq. intros <-. lia.
  - pose proof (sorted_transitions_lookup es n (n + S i) _ _ Hs ltac:(lia) He Hi) as H.
    apply tuple_lt_hash in H. rewrite !transition_tuple_name in H.
    intros <-. lia.
Qed.

Lemma filter_no_name (es : list (Name * Map)) name :
  Forall (λ e, e.1 ≠ name) es → filter (λ e, e.1 = name) es = [].
Proof.
  induction 1 as [|e es He _ IH]; [done|]. by rewrite filter_cons_False.
Qed.

(** In a sorted list the entries of one name are next to each other. *)
Lemma run_of_filter es name :
  sorted_transitions es →
  Forall (λ e, hash name ≤ hash e.1) es →
  run_of name es = (filter (λ e, e.1 = name) es).*2.
Proof using hash_inj.
  induction es as [|[current m] es IH]; intros Hs Hall; [done|].
  apply list.Forall_cons in Hall as [Hc Hall]. simpl in Hc.
  pose proof Hs as Hs'. apply StronglySorted_inv in Hs' as [Hs' _].
  simpl. destruct (decide (current = name)) as [->|Hne].
  - rewrite bool_decide_eq_true_2, filter_cons_True by done.
    simpl. by rewrite IH.
  - rewrite bool_decide_eq_false_2, filter_cons_False by done.
    rewrite filter_no_name; [done|].
    assert (hash name < hash current) as Hlt.
    { destruct (decide (hash name = hash current)) as [Heq|?]; [|lia].
      by apply hash_inj in Heq. }
    pose proof (names_above ((current, m) :: es) name 0 (current, m) Hs eq_refl Hlt) as H.
    rewrite drop_0 in H. by apply list.Forall_cons in H as [_ H].
Qed.

Lemma hashes_above es (n : nat) e :
  sorted_transitions es → es !! n = Some e →
  Forall (λ e', hash e.1 ≤ hash e'.1) (drop n es).
Proof.
  intros Hs He. apply Forall_lookup. intros i e' Hi.
  rewrite lookup_drop in Hi. destruct i as [|i].
  - rewrite Nat.add_0_r in Hi. by simplify_eq.
  - pose proof (sorted_transitions_lookup es n (n + S i) _ _ Hs ltac:(lia) He Hi) as H.
    apply tuple_lt_hash in H. by rewrite !transition_tuple_name in H.
Qed.

Lemma TransitionArray_ForEachTransitionTo_sorted a es name :
  array_holds a es → sorted_transitions es →
  TransitionArray_ForEachTransitionTo a name
  = Ok (filter (λ e, e.1 = name) es).*2.
Proof using hash_inj.
  intros Ha Hs. rewrite (TransitionArray_ForEachTransitionTo_list _ _ _ Ha).
  f_equal. cbv zeta.
  destruct (search_name es name 0 kNotFound) as [idx out] eqn:Hsearch. cbn [fst].
  destruct (search_name_scan _ _ _ _ _ _ Hsearch)
    as (n & Hn & Hbefore & [(-> & _ & m & He)|(-> & _ & Hstop)]).
  - replace (0 + Z.of_nat n =? kNotFound) with false
      by (symmetry; apply Z.eqb_neq; unfold kNotFound; lia).
    replace (Z.to_nat (0 + Z.of_nat n)) with n by lia.
    rewrite <- (take_drop n es) at 2. rewrite list.filter_app, fmap_app.
    rewrite filter_no_name.
    2: { eapply Forall_impl; [|exact Hbefore]. by intros e [? _]. }
    simpl. apply run_of_filter.
    + unfold sorted_transitions in *. rewrite <- (take_drop n es) in Hs.
      by apply StronglySorted_app_1_r in Hs.
    + by apply (hashes_above es n (name, m)).
  - simpl. rewrite <- (take_drop n es). rewrite list.filter_app.
    rewrite filter_no_name.
    2: { eapply Forall_impl; [|exact Hbefore]. by intros e [? _]. }
    rewrite filter_no_name; [done|].
    destruct Hstop as [->|(e & He & _ & Hlt)]; [by rewrite drop_all|].
    by apply (names_above es name n e).
Qed.

End OneName.

(** X6.  [ForEachTransitionTo] calls the callback with the targets of all the
    transitions of the map whose key is [name], whatever their kind and
    attributes, each once, in the order of the array, and with no other map;
    it does not call it at all if the map has no transition under the name.
    This holds in every reachable state, in each encoding, and the call
    returns in a debug build and in a release build.  (Hashes are assumed
    not to collide, the slack policy not to answer a negative slack.) *)
Theorem ForEachTransitionTo_visits_the_name σ name :
  hash_injective → slack_not_negative → reachable σ →
  ∃ σ',
    ForEachTransitionTo name (TransitionsAccessor_new σ)
    = Ok ((filter (λ e, e.1 = name) (transitions_of σ)).*2, σ').
Proof.
  intros hash_inj Hslack Hreach.
  pose proof (reachable_invariant hash_inj Hslack (λ _, True) I I (λ _ _ _, I)
                (λ _ _ _ _, I) σ Hreach) as Hinv.
  set (σ0 := TransitionsAccessor_new σ).
  unfold ForEachTransitionTo, encoding, transitions_of. rewrite bind_gets.
  change (encoding_ σ0) with (GetEncoding (map_raw_transitions σ)).
  destruct (map_raw_transitions σ) as [v| |s| |m0|address|] eqn:Hm; simpl;
    try (by eexists).
  - rewrite bind_gets. change (raw_transitions_ σ0) with (map_raw_transitions σ).
    rewrite Hm. simpl. rewrite bind_lift_Ok.
    unfold simple_entry, GetSimpleTransitionKey.
    destruct (decide (LastAddedKey s = name)) as [Hk|Hk].
    + rewrite bool_decide_eq_true_2, filter_cons_True by done. by eexists.
    + rewrite bool_decide_eq_false_2, filter_cons_False by done. by eexists.
  - destruct (Hinv address Hm) as (a & es & Hl & Ha & Hsorted & _).
    rewrite Hl, (array_transitions_holds _ _ Ha).
    assert (∀ σ1, transition_arrays σ1 = transition_arrays σ →
                  raw_transitions_ σ1 = StrongTransitionArray address →
      (do array <- transitions;
       on_array array (λ a, TransitionArray_ForEachTransitionTo a name)) σ1
      = Ok ((filter (λ e, e.1 = name) es).*2, σ1)) as Hbody.
    { intros σ1 Harr Hraw. unfold transitions, bind. rewrite Hraw.
      apply (on_array_Ok _ _ _ a); [by rewrite Harr|].
      by apply TransitionArray_ForEachTransitionTo_sorted. }
    rewrite bind_gets. unfold shared_if.
    assert (raw_transitions_ σ0 = StrongTransitionArray address) as Hr
      by (simpl; by rewrite Hm).
    destruct (concurrent_access_ σ0).
    + eexists. unfold log.
      rewrite (bind_Ok _ _ _ _ _ (eq_refl : modify _ σ0 = Ok (tt, _))).
      rewrite (bind_Ok _ _ _ _ _
                 (Hbody (set_trace (trace σ0 ++ [LockShared]) σ0) eq_refl Hr)).
      reflexivity.
    + eexists. by apply Hbody.
Qed.

(** ** The transition to a data property *)

Lemma rbind_inv {A B} (r : result A) (k : A → result B) b :
  rbind r k = Ok b → ∃ a, r = Ok a ∧ k a = Ok b.
Proof. destruct r as [a|e]; [by exists a|done]. Qed.

(** Whatever target the loop of the search by details answers, its details
    are the ones asked for: no assumption on the array. *)
Lemma SearchDetails_loop_sound a key k attrs m : ∀ remaining transition j,
  SearchDetails_loop a key k attrs remaining transition = Ok (Some m, j) →
  kind (LastAddedDetails m) = k ∧ attributes (LastAddedDetails m) = attrs.
Proof.
  induction remaining as [|remaining IH]; intros transition j H; [done|].
  simpl in H. apply rbind_inv in H as (current & _ & H).
  destruct (negb _); [done|].
  apply rbind_inv in H as (target & _ & H).
  apply rbind_inv in H as (name & _ & H).
  unfold GetTargetDetails in H.
  destruct (Z.eqb_spec (CompareDetails k attrs (kind (LastAddedDetails target))
                          (attributes (LastAddedDetails target))) 0) as [Hz|_].
  - injection H as <- _. by apply CompareDetails_zero in Hz as [-> ->].
  - destruct (_ <? 0); [done|]. by eapply IH.
Qed.

Lemma SearchAndGetTarget_sound a k name attrs m :
  SearchAndGetTarget a k name attrs = Ok (Some m) →
  kind (LastAddedDetails m) = k ∧ attributes (LastAddedDetails m) = attrs.
Proof.
  unfold SearchAndGetTarget. intros ([transition out] & _ & H)%rbind_inv.
  destruct (transition =? kNotFound); [done|].
  unfold SearchDetailsAndGetTarget in H.
  apply rbind_inv in H as (? & _ & H).
  apply rbind_inv in H as (key & _ & H).
  apply rbind_inv in H as ([found j] & Hloop & H).
  injection H as ->. by eapply SearchDetails_loop_sound.
Qed.

(** Whatever map [SearchTransition] answers, in whatever state, its last
    descriptor has the kind and the attributes asked for. *)
Lemma SearchTransition_sound σ name k attrs m σ' :
  SearchTransition name k attrs σ = Ok (Some m, σ') →
  kind (LastAddedDetails m) = k ∧ attributes (LastAddedDetails m) = attrs.
Proof.
  unfold SearchTransition, encoding. rewrite bind_gets.
  assert (∀ σ1 σ2,
    (do array <- transitions;
     on_array array (λ a, SearchAndGetTarget a k name attrs)) σ1 = Ok (Some m, σ2) →
    kind (LastAddedDetails m) = k ∧ attributes (LastAddedDetails m) = attrs) as Hbody.
  { intros σ1 σ2 (address & σ3 & _ & H)%bind_inv.
    apply on_array_inv in H as (_ & a & _ & H). by eapply SearchAndGetTarget_sound. }
  destruct (encoding_ σ); try done.
  - rewrite bind_gets. intros (map & σ1 & _ & H)%bind_inv.
    unfold IsMatchingMap, HasKindAndAttributes in H.
    destruct (bool_decide (LastAddedKey map = name)); simpl in H; [|done].
    destruct (bool_decide (kind (LastAddedDetails map) = k)) eqn:Hk;
      simpl in H; [|done].
    destruct (bool_decide (attributes (LastAddedDetails map) = attrs)) eqn:Ha;
      simpl in H; [|done].
    injection H as <- _.
    by apply bool_decide_eq_true in Hk, Ha.
  - rewrite bind_gets. unfold shared_if. destruct (concurrent_access_ σ).
    + intros (? & σ1 & _ & H)%bind_inv.
      apply bind_inv in H as (r & σ2 & H & H').
      apply bind_inv in H' as (? & σ3 & _ & H').
      injection H' as -> _. by eapply Hbody.
    + apply Hbody.
Qed.

Section DataPropertyFacts.

Variable IsPrivate : Name → bool.
Variable DONT_ENUM : PropertyAttributes.
Variable LastDescriptorLocation : Map → PropertyLocation.

(** X7.  The two assertions of [FindTransitionToDataProperty] cannot fail:
    in every state, a debug build answers what a release build answers,
    namely the map that [SearchTransition] finds for a data property with
    the attributes of the name ([DONT_ENUM] for a private name, none
    otherwise), unless a field is asked for and the property is not in one.
    So a map it answers has as its last descriptor a data property with
    those attributes, in a field if a field was asked for. *)
Theorem FindTransitionToDataProperty_is_the_search σ name requested_location :
  let attrs := if IsPrivate name then DONT_ENUM else NONE in
  FindTransitionToDataProperty IsPrivate DONT_ENUM LastDescriptorLocation
    name requested_location σ
  = match SearchTransition name kData attrs σ with
    | Ok (Some m, σ') =>
        Ok (if bool_decide (requested_location = kFieldOnly)
               && negb (bool_decide (LastDescriptorLocation m = kField))
            then None else Some m, σ')
    | Ok (None, σ') => Ok (None, σ')
    | Err e => Err e
    end
  ∧ ∀ m σ',
      FindTransitionToDataProperty IsPrivate DONT_ENUM LastDescriptorLocation
        name requested_location σ = Ok (Some m, σ') →
      kind (LastAddedDetails m) = kData
      ∧ attributes (LastAddedDetails m) = attrs
      ∧ (requested_location = kFieldOnly → LastDescriptorLocation m = kField).
Proof.
  intros attrs.
  assert (FindTransitionToDataProperty IsPrivate DONT_ENUM LastDescriptorLocation
            name requested_location σ
          = match SearchTransition name kData attrs σ with
            | Ok (Some m, σ') =>
                Ok (if bool_decide (requested_location = kFieldOnly)
                       && negb (bool_decide (LastDescriptorLocation m = kField))
                    then None else Some m, σ')
            | Ok (None, σ') => Ok (None, σ')
            | Err e => Err e
            end) as Heq.
  { unfold FindTransitionToDataProperty. fold attrs. unfold bind at 1.
    destruct (SearchTransition name kData attrs σ) as [[[m|] σ']|e] eqn:HS; [|done..].
    destruct (SearchTransition_sound _ _ _ _ _ _ HS) as [Hk Ha].
    rewrite !bool_decide_eq_true_2 by done.
    rewrite !(bind_Ok _ _ _ _ _ (DCHECK_true _)).
    by destruct (_ && _). }
  split; [exact Heq|].
  intros m σ' HF. rewrite Heq in HF.
  destruct (SearchTransition name kData attrs σ) as [[[m'|] σ'']|e] eqn:HS; [|done..].
  destruct (SearchTransition_sound _ _ _ _ _ _ HS) as [Hk Ha].
  destruct (bool_decide (requested_location = kFieldOnly)) eqn:Hloc; simpl in HF.
  - destruct (bool_decide (LastDescriptorLocation m' = kField)) eqn:Hfield;
      simpl in HF; [|done].
    injection HF as <- _. apply bool_decide_eq_true in Hfield. done.
  - injection HF as <- _. apply bool_decide_eq_false in Hloc. done.
Qed.

End DataPropertyFacts.

(** ** From any encoding to a full transition array *)

Lemma insert_past_the_end {A} (l : list A) (x y : A) :
  <[length l := x]> (l ++ [y]) = l ++ [x].
Proof. rewrite insert_app_r_alt by lia. by rewrite Nat.sub_diag. Qed.

Lemma transitions_of_installed r σ :
  transitions_of (install_new_array r σ) = array_transitions r.
Proof.
  unfold transitions_of, install_new_array. simpl.
  by rewrite list_lookup_middle.
Qed.

Lemma EnsureHasFullTransitionArray_nothing σ :
  encoding_ σ = kUninitialized ∨ encoding_ σ = kMigrationTarget →
  EnsureHasFullTransitionArray σ
  = Ok (tt, install_new_array (mkTransitionArray None 0 []) (after_safepoint σ)).
Proof.
  intros He. unfold EnsureHasFullTransitionArray, encoding.
  rewrite bind_gets.
  assert (bool_decide (encoding_ σ = kFullTransitionArray) = false) as ->.
  { apply bool_decide_eq_false_2. by destruct He as [-> | ->]. }
  assert (bool_decide (encoding_ σ = kUninitialized)
          || bool_decide (encoding_ σ = kMigrationTarget) = true) as ->.
  { by destruct He as [-> | ->]. }
  rewrite (bind_Ok _ _ _ _ _ (NewTransitionArray_Ok _ _ _)).
  rewrite (bind_Ok _ _ _ _ _ (Reload_Ok _)).
  done.
Qed.

Lemma EnsureHasFullTransitionArray_simple σ s :
  raw_transitions_ σ = Weak s → encoding_ σ = kWeakRef →
  map_raw_transitions σ = Weak s →
  EnsureHasFullTransitionArray σ
  = Ok (tt, install_new_array
              (if next_dead σ s then mkTransitionArray None 0 [undefined_entry]
               else mkTransitionArray None 1
                      [mkEntry (Some (GetSimpleTransitionKey s)) (Weak s)])
              (after_safepoint σ)).
Proof.
  intros Hr He Hm. unfold EnsureHasFullTransitionArray, encoding.
  rewrite bind_gets, He. cbn [bool_decide decide_rel orb].
  rewrite !bool_decide_eq_false_2 by done. cbn [orb].
  rewrite (bind_Ok _ _ _ _ _ (NewTransitionArray_Ok _ _ _)).
  rewrite (bind_Ok _ _ _ _ _ (Reload_Ok _)).
  change (1 =? 1) with true. cbn iota.
  set (σ1 := TransitionsAccessor_new _).
  assert (map_raw_transitions σ1 = clear_weak (next_dead σ) (Weak s)) as Hm1.
  { unfold σ1. simpl. by rewrite after_safepoint_map, Hm. }
  assert (transition_arrays σ1
          = transition_arrays (after_safepoint σ)
            ++ [mkTransitionArray None 1 [undefined_entry]]) as Ha1 by done.
  assert (encoding_ σ1 = GetEncoding (map_raw_transitions σ1)) as He1 by done.
  assert (raw_transitions_ σ1 = map_raw_transitions σ1) as Hr1 by done.
  assert (transition_arrays σ1 !! length (transition_arrays (after_safepoint σ))
          = Some (mkTransitionArray None 1 [undefined_entry])) as Hl1.
  { rewrite Ha1. by apply list_lookup_middle. }
  unfold clear_weak, dead_target in Hm1.
  destruct (next_dead σ s) eqn:Hdead.
  - erewrite bind_Ok; last first.
    { rewrite bind_gets, He1, Hm1. simpl GetEncoding.
      rewrite bool_decide_eq_true_2 by done.
      by eapply update_array_Ok. }
    unfold ReplaceTransitions, Reload, bind, modify. simpl.
    by rewrite insert_past_the_end.
  - erewrite bind_Ok; last first.
    { rewrite bind_gets, He1, Hm1. simpl GetEncoding.
      rewrite bool_decide_eq_false_2 by done.
      erewrite bind_Ok; last first.
      { apply GetSimpleTransition_weak; [by rewrite He1, Hm1|by rewrite Hr1, Hm1]. }
      cbn [Map_deref]. rewrite bind_ret. by eapply update_array_Ok. }
    unfold ReplaceTransitions, Reload, bind, modify. simpl.
    by rewrite insert_past_the_end.
Qed.

(** On a map that has neither a transition array nor a prototype info. *)
Lemma EnsureHasFullTransitionArray_allocates σ :
  let σ0 := TransitionsAccessor_new σ in
  GetEncoding (map_raw_transitions σ) ≠ kFullTransitionArray →
  GetEncoding (map_raw_transitions σ) ≠ kPrototypeInfo →
  ∃ σ' a,
    EnsureHasFullTransitionArray σ0 = Ok (tt, σ')
    ∧ accessor_fresh σ'
    ∧ map_raw_transitions σ' = StrongTransitionArray (length (transition_arrays σ))
    ∧ transition_arrays σ' = transition_arrays (after_safepoint σ) ++ [a]
    ∧ prototype_transitions a = None
    ∧ transitions_of σ' = filter (λ e, next_dead σ e.2 = false) (transitions_of σ)
    ∧ weak_fixed_arrays σ' = weak_fixed_arrays (after_safepoint σ)
    ∧ collections σ' = tail (collections σ)
    ∧ trace σ' = trace σ ++ [Allocate].
Proof.
  intros σ0.
  assert (∀ r, install_new_array r (after_safepoint σ0)
               = install_new_array r (after_safepoint σ)) as Has.
  { intros r. unfold σ0, after_safepoint. simpl. by destruct (collections σ). }
  intros Hfull Hinfo.
  assert (∀ r, prototype_transitions r = None →
            array_transitions r
            = filter (λ e, next_dead σ e.2 = false) (transitions_of σ) →
            EnsureHasFullTransitionArray σ0
            = Ok (tt, install_new_array r (after_safepoint σ0)) →
            ∃ σ' a,
              EnsureHasFullTransitionArray σ0 = Ok (tt, σ')
              ∧ accessor_fresh σ'
              ∧ map_raw_transitions σ'
                = StrongTransitionArray (length (transition_arrays σ))
              ∧ transition_arrays σ' = transition_arrays (after_safepoint σ) ++ [a]
              ∧ prototype_transitions a = None
              ∧ transitions_of σ'
                = filter (λ e, next_dead σ e.2 = false) (transitions_of σ)
              ∧ weak_fixed_arrays σ' = weak_fixed_arrays (after_safepoint σ)
              ∧ collections σ' = tail (collections σ)
              ∧ trace σ' = trace σ ++ [Allocate]) as Hfinish.
  { intros r Hp Ht HE.
    exists (install_new_array r (after_safepoint σ)), r.
    rewrite HE, Has. split_and!; try done.
    - simpl. by rewrite after_safepoint_length.
    - by rewrite transitions_of_installed.
    - simpl. apply after_safepoint_collections.
    - simpl. apply after_safepoint_trace. }
  destruct (map_raw_transitions σ) as [v| |s| |m|address|] eqn:Hm; try done.
  + apply (Hfinish (mkTransitionArray None 0 [])); [done| |].
    * unfold transitions_of. by rewrite Hm.
    * apply EnsureHasFullTransitionArray_nothing. left.
      unfold σ0. simpl. by rewrite Hm.
  + apply (Hfinish (mkTransitionArray None 0 [])); [done| |].
    * unfold transitions_of. by rewrite Hm.
    * apply EnsureHasFullTransitionArray_nothing. left.
      unfold σ0. simpl. by rewrite Hm.
  + apply (Hfinish (if next_dead σ s
                    then mkTransitionArray None 0 [undefined_entry]
                    else mkTransitionArray None 1
                           [mkEntry (Some (GetSimpleTransitionKey s)) (Weak s)])).
    * by destruct (next_dead σ s).
    * unfold transitions_of. rewrite Hm.
      destruct (next_dead σ s) eqn:Hdead.
      -- by rewrite filter_cons_False, filter_nil by (simpl; congruence).
      -- by rewrite filter_cons_True, filter_nil by done.
    * apply (EnsureHasFullTransitionArray_simple σ0 s);
        unfold σ0; simpl; by rewrite Hm.
  + apply (Hfinish (mkTransitionArray None 0 [])); [done| |].
    * unfold transitions_of. by rewrite Hm.
    * apply EnsureHasFullTransitionArray_nothing. right.
      unfold σ0. simpl. by rewrite Hm.
  + apply (Hfinish (mkTransitionArray None 0 [])); [done| |].
    * unfold transitions_of. by rewrite Hm.
    * apply EnsureHasFullTransitionArray_nothing. right.
      unfold σ0. simpl. by rewrite Hm.
Qed.

(** X8.  [EnsureHasFullTransitionArray], called through a fresh accessor.
    On a map that has a transition array it does nothing.  On a map whose
    storage word is a prototype info it has no defined behaviour: it takes
    the null map for a simple transition.  On every other map it returns;
    it has allocated once, outside any guard; the map now has a transition
    array of its own, without prototype transitions, and the transitions of
    the map are those it had, less the one the collector cleared at the
    allocation: a migration target is dropped, a simple transition becomes
    the one entry of the array, unless it died, and then the array is
    trimmed to no entry. *)
Theorem EnsureHasFullTransitionArray_promotes σ :
  let σ0 := TransitionsAccessor_new σ in
  (GetEncoding (map_raw_transitions σ) = kFullTransitionArray →
   EnsureHasFullTransitionArray σ0 = Ok (tt, σ0))
  ∧ (GetEncoding (map_raw_transitions σ) = kPrototypeInfo →
     EnsureHasFullTransitionArray σ0 = Err UndefinedBehaviour)
  ∧ (GetEncoding (map_raw_transitions σ) ≠ kFullTransitionArray →
     GetEncoding (map_raw_transitions σ) ≠ kPrototypeInfo →
     ∃ σ' a,
       EnsureHasFullTransitionArray σ0 = Ok (tt, σ')
       ∧ accessor_fresh σ'
       ∧ map_raw_transitions σ' = StrongTransitionArray (length (transition_arrays σ))
       ∧ transition_arrays σ' = transition_arrays (after_safepoint σ) ++ [a]
       ∧ prototype_transitions a = None
       ∧ transitions_of σ' = filter (λ e, next_dead σ e.2 = false) (transitions_of σ)
       ∧ weak_fixed_arrays σ' = weak_fixed_arrays (after_safepoint σ)
       ∧ collections σ' = tail (collections σ)
       ∧ trace σ' = trace σ ++ [Allocate]).
Proof.
  intros σ0.
  assert (∀ r, install_new_array r (after_safepoint σ0)
               = install_new_array r (after_safepoint σ)) as Has.
  { intros r. unfold σ0, after_safepoint. simpl. by destruct (collections σ). }
  split_and!.
  - intros He. apply EnsureHasFullTransitionArray_full. exact He.
  - intros He.
    assert (map_raw_transitions σ = StrongPrototypeInfo) as Hm.
    { by destruct (map_raw_transitions σ). }
    unfold EnsureHasFullTransitionArray, encoding.
    rewrite bind_gets.
    assert (encoding_ σ0 = kPrototypeInfo) as -> by exact He.
    rewrite !bool_decide_eq_false_2 by done. cbn [orb].
    rewrite (bind_Ok _ _ _ _ _ (NewTransitionArray_Ok _ _ _)).
    rewrite (bind_Ok _ _ _ _ _ (Reload_Ok _)).
    change (1 =? 1) with true. cbn iota.
    set (σ1 := TransitionsAccessor_new _).
    assert (encoding_ σ1 = kPrototypeInfo) as He1.
    { unfold σ1. simpl. rewrite after_safepoint_map.
      change (map_raw_transitions σ0) with (map_raw_transitions σ). by rewrite Hm. }
    assert (GetSimpleTransition σ1 = Ok (None, σ1)) as Hsimple.
    { unfold GetSimpleTransition, encoding. by rewrite bind_gets, He1. }
    unfold bind at 1. rewrite bind_gets, He1.
    rewrite bool_decide_eq_false_2 by done.
    by rewrite (bind_Ok _ _ _ _ _ Hsimple).
  - apply EnsureHasFullTransitionArray_allocates.
Qed.

(** ** Setting and getting the prototype transitions *)

Lemma GetPrototypeTransitions_set σ address a cache :
  accessor_fresh σ → map_raw_transitions σ = StrongTransitionArray address →
  transition_arrays σ !! address = Some a →
  prototype_transitions a = Some cache →
  GetPrototypeTransitions σ = Ok (cache, σ).
Proof.
  intros [Hr He] Hm Ha Hp.
  unfold GetPrototypeTransitions, encoding. rewrite bind_gets, He, Hm. simpl.
  unfold transitions, bind. rewrite Hr, Hm.
  rewrite (on_array_Ok _ _ _ a true Ha) by (unfold HasPrototypeTransitions;
    by rewrite Hp, bool_decide_eq_true_2 by by eexists).
  simpl. apply (on_array_Ok _ _ _ a); [done|].
  unfold TransitionArray_GetPrototypeTransitions. by rewrite Hp.
Qed.

Lemma array_transitions_SetPrototypeTransitions a cache :
  array_transitions (TransitionArray_SetPrototypeTransitions a cache)
  = array_transitions a.
Proof. done. Qed.

(** [SetPrototypeTransitions] on a map with a transition array. *)
Lemma SetPrototypeTransitions_full σ address a cache :
  accessor_fresh σ → map_raw_transitions σ = StrongTransitionArray address →
  transition_arrays σ !! address = Some a →
  SetPrototypeTransitions cache σ
  = Ok (tt, set_transition_arrays
              (<[address := TransitionArray_SetPrototypeTransitions a cache]>
                 (transition_arrays σ)) σ).
Proof.
  intros [Hr He] Hm Ha. unfold SetPrototypeTransitions.
  rewrite (bind_Ok _ _ _ _ _ (EnsureHasFullTransitionArray_full σ
             ltac:(by rewrite He, Hm))).
  unfold transitions, bind at 1. rewrite Hr, Hm.
  by eapply update_array_Ok.
Qed.

(** X9.  [SetPrototypeTransitions] and [GetPrototypeTransitions] are a
    round trip, whatever the map held before, a prototype info apart: the
    set returns, the next accessor gets the cache that was set, and the
    transitions of the map are the ones it had, less those that the
    collector cleared if an array had to be allocated for the map. *)
Theorem SetPrototypeTransitions_then_Get σ cache :
  GetEncoding (map_raw_transitions σ) ≠ kPrototypeInfo →
  (∀ address, map_raw_transitions σ = StrongTransitionArray address →
     is_Some (transition_arrays σ !! address)) →
  ∃ σ',
    SetPrototypeTransitions cache (TransitionsAccessor_new σ) = Ok (tt, σ')
    ∧ GetPrototypeTransitions (TransitionsAccessor_new σ')
      = Ok (cache, TransitionsAccessor_new σ')
    ∧ GetEncoding (map_raw_transitions σ') = kFullTransitionArray
    ∧ transitions_of σ'
      = (if bool_decide (GetEncoding (map_raw_transitions σ) = kFullTransitionArray)
         then transitions_of σ
         else filter (λ e, next_dead σ e.2 = false) (transitions_of σ)).
Proof.
  intros Hinfo Hstore.
  destruct (decide (GetEncoding (map_raw_transitions σ) = kFullTransitionArray))
    as [Hfull|Hfull].
  - rewrite bool_decide_eq_true_2 by done.
    destruct (map_raw_transitions σ) as [| | | | |address|] eqn:Hm; try done.
    destruct (Hstore address eq_refl) as [a Ha].
    eexists. split.
    { apply (SetPrototypeTransitions_full _ address a);
        [apply TransitionsAccessor_new_fresh|by simpl|done]. }
    assert (<[address := TransitionArray_SetPrototypeTransitions a cache]>
              (transition_arrays σ) !! address
            = Some (TransitionArray_SetPrototypeTransitions a cache)) as Hl.
    { apply list_lookup_insert_eq. by eapply lookup_lt_Some. }
    split_and!.
    + eapply GetPrototypeTransitions_set;
        [apply TransitionsAccessor_new_fresh|by simpl|exact Hl|done].
    + simpl. by rewrite Hm.
    + unfold transitions_of. simpl. rewrite Hm, Hl, Ha. done.
  - rewrite bool_decide_eq_false_2 by done.
    destruct (EnsureHasFullTransitionArray_allocates σ Hfull Hinfo)
      as (σ1 & a & HE & Hfresh & Hm1 & Ha1 & Hp & Ht & _).
    assert (transition_arrays σ1 !! length (transition_arrays σ) = Some a) as Hl1.
    { rewrite Ha1, <-(after_safepoint_length σ). by apply list_lookup_middle. }
    eexists. split.
    { unfold SetPrototypeTransitions. rewrite (bind_Ok _ _ _ _ _ HE).
      unfold transitions, bind at 1. destruct Hfresh as [-> _]. rewrite Hm1.
      by eapply update_array_Ok. }
    assert (<[length (transition_arrays σ)
              := TransitionArray_SetPrototypeTransitions a cache]>
              (transition_arrays σ1) !! length (transition_arrays σ)
            = Some (TransitionArray_SetPrototypeTransitions a cache)) as Hl.
    { apply list_lookup_insert_eq. by eapply lookup_lt_Some. }
    split_and!.
    + eapply GetPrototypeTransitions_set;
        [apply TransitionsAccessor_new_fresh|by simpl|exact Hl|done].
    + simpl. by rewrite Hm1.
    + rewrite <-Ht. unfold transitions_of. simpl. by rewrite Hm1, Hl, Hl1.
Qed.

(** ** Reading the prototype cache *)

Lemma live_maps_app l1 l2 : live_maps (l1 ++ l2) = live_maps l1 ++ live_maps l2.
Proof. apply omap_app. Qed.

(** The loop of [GetPrototypeTransition]: [seen] are the slots it has looked
    at, [todo] those it has yet to look at. *)
Lemma GetPrototypeTransition_loop_list hd proto : ∀ todo seen tail,
  Forall (λ o, weak_or_cleared o = true) todo →
  GetPrototypeTransition_loop (hd :: seen ++ todo ++ tail) proto (length todo)
    (Z.of_nat (length seen))
  = Ok (first_with_prototype proto (live_maps todo)).
Proof.
  induction todo as [|o todo IH]; intros seen tail Hall; [done|].
  apply list.Forall_cons in Hall as [Ho Hall].
  cbn [length GetPrototypeTransition_loop].
  replace (kProtoTransitionHeaderSize + Z.of_nat (length seen))
    with (Z.of_nat (S (length seen))) by (unfold kProtoTransitionHeaderSize; lia).
  rewrite (wfa_Get_nat _ _ o) by (simpl; by apply list_lookup_middle).
  cbn [rbind]. unfold weak_or_cleared in Ho. rewrite Ho, rDCHECK_true. cbn [rbind].
  assert (GetPrototypeTransition_loop (hd :: seen ++ (o :: todo) ++ tail) proto
            (length todo) (Z.of_nat (length seen) + 1)
          = Ok (first_with_prototype proto (live_maps todo))) as Hnext.
  { replace (Z.of_nat (length seen) + 1) with (Z.of_nat (length (seen ++ [o])))
      by (rewrite length_app; simpl; lia).
    replace (seen ++ (o :: todo) ++ tail) with ((seen ++ [o]) ++ todo ++ tail)
      by (by rewrite <-app_assoc).
    by apply IH. }
  destruct o as [| |m| | | |]; try exact Hnext.
  change (live_maps (Weak m :: todo)) with (m :: live_maps todo).
  unfold first_with_prototype.
  destruct (decide (prototype m = proto)) as [Hp|Hp].
  - rewrite bool_decide_eq_true_2 by done. by rewrite filter_cons_True.
  - rewrite bool_decide_eq_false_2 by done. rewrite filter_cons_False by done.
    exact Hnext.
Qed.

(** [GetPrototypeTransition] on a map with a cache. *)
Lemma GetPrototypeTransition_cached σ address a w (n : nat) slots proto :
  accessor_fresh σ →
  cache_storage σ address a w (Smi (Z.of_nat n) :: slots) →
  (n ≤ length slots)%nat →
  Forall (λ o, weak_or_cleared o = true) (take n slots) →
  GetPrototypeTransition proto σ
  = Ok (first_with_prototype proto (live_maps (take n slots)), σ).
Proof.
  intros Hf Hs Hn Hall. unfold GetPrototypeTransition.
  rewrite (bind_Ok _ _ _ _ _ (GetPrototypeTransitions_cache _ _ _ _ _ Hf Hs)).
  destruct Hs as (_ & _ & _ & Hl).
  eapply on_weak_fixed_array_Ok; [exact Hl|].
  rewrite NumberOfPrototypeTransitions_header. cbn [rbind].
  rewrite Nat2Z.id.
  pose proof (GetPrototypeTransition_loop_list (Smi (Z.of_nat n)) proto
                (take n slots) [] (drop n slots) Hall) as Hloop.
  rewrite length_take_le in Hloop by done.
  by rewrite app_nil_l, take_drop in Hloop.
Qed.

(** X10.  [GetPrototypeTransition] answers the first live entry of the
    cache whose map has the prototype asked for: among the slots that the
    header counts, each a weak reference or a cleared one, the cleared ones
    are skipped, and the answer is null when no map that is left has the
    prototype.  A map without a transition array has no cache, and the
    answer is null.  The state is not changed. *)
Theorem GetPrototypeTransition_first_live :
  (∀ σ address a w (n : nat) slots proto,
     cache_storage σ address a w (Smi (Z.of_nat n) :: slots) →
     (n ≤ length slots)%nat →
     Forall (λ o, weak_or_cleared o = true) (take n slots) →
     GetPrototypeTransition proto (TransitionsAccessor_new σ)
     = Ok (first_with_prototype proto (live_maps (take n slots)),
           TransitionsAccessor_new σ))
  ∧ (∀ σ proto,
       GetEncoding (map_raw_transitions σ) ≠ kFullTransitionArray →
       GetPrototypeTransition proto (TransitionsAccessor_new σ)
       = Ok (None, TransitionsAccessor_new σ)).
Proof.
  split.
  - intros σ address a w n slots proto Hs Hn Hall.
    by eapply GetPrototypeTransition_cached;
      [apply TransitionsAccessor_new_fresh|exact Hs|..].
  - intros σ proto He. unfold GetPrototypeTransition, GetPrototypeTransitions, encoding.
    unfold bind at 1. rewrite bind_gets. simpl encoding_.
    by rewrite bool_decide_eq_false_2 by done.
Qed.

(** ** A prototype transition that was put is got *)

(** The cache has a free slot: the new entry goes into it, under the guard,
    without an allocation. *)
Lemma PutPrototypeTransition_room σ address a w (n : nat) slots proto target_map :
  caches_prototype_transitions σ → accessor_fresh σ →
  cache_storage σ address a w (Smi (Z.of_nat n) :: slots) →
  (n < length slots)%nat →
  ∃ σ',
    PutPrototypeTransition proto target_map σ = Ok (tt, σ')
    ∧ weak_fixed_arrays σ'
      = <[w := Smi (Z.of_nat n + 1) :: <[n := Weak target_map]> slots]>
          (weak_fixed_arrays σ)
    ∧ map_raw_transitions σ' = map_raw_transitions σ
    ∧ transition_arrays σ' = transition_arrays σ
    ∧ trace σ' = trace σ ++ [LockExclusive; UnlockExclusive].
Proof.
  intros Hc Hf Hs Hn.
  rewrite (PutPrototypeTransition_start _ _ _ _ _ _ _ _ Hc Hf Hs). cbv zeta.
  destruct Hs as (_ & _ & _ & Hl).
  assert (w < length (weak_fixed_arrays σ))%nat as Hw by by eapply lookup_lt_Some.
  eexists. split.
  { apply exclusive_Ok.
    replace (Z.of_nat n + 1 >? Z.of_nat (length slots)) with false
      by (symmetry; rewrite Z.gtb_ltb; apply Z.ltb_ge; lia).
    rewrite bind_ret.
    erewrite bind_Ok.
    2: { eapply (on_weak_fixed_array_Ok w); [exact Hl|done]. }
    cbv beta zeta.
    replace (kProtoTransitionHeaderSize + Z.of_nat n) with (Z.of_nat (S n))
      by (unfold kProtoTransitionHeaderSize; lia).
    erewrite bind_Ok.
    2: { eapply (update_weak_fixed_array_Ok w); [exact Hl|].
         apply wfa_Set_nat. simpl. lia. }
    eapply (update_weak_fixed_array_Ok w).
    - simpl. by apply list_lookup_insert_eq.
    - by apply SetNumberOfPrototypeTransitions_Ok. }
  simpl. split_and!; try done.
  - by rewrite list_insert_insert_eq.
  - by rewrite <- app_assoc.
Qed.

Lemma live_maps_survivors slots : live_maps (survivors slots) = live_maps slots.
Proof.
  induction slots as [|o slots IH]; [done|].
  rewrite survivors_cons. destruct o; simpl; by rewrite ?IH.
Qed.

Lemma live_maps_clear_weak dead slots :
  live_maps (clear_weak dead <$> slots)
  = filter (λ m, dead m = false) (live_maps slots).
Proof.
  induction slots as [|o slots IH]; [done|].
  rewrite fmap_cons.
  destruct o as [| |m| | | |]; try exact IH.
  change (live_maps (Weak m :: slots)) with (m :: live_maps slots).
  change (clear_weak dead (Weak m)) with (if dead m then Cleared else Weak m).
  destruct (dead m) eqn:Hd.
  - rewrite filter_cons_False by congruence. exact IH.
  - rewrite filter_cons_True by done.
    change (m :: live_maps (clear_weak dead <$> slots)
            = m :: filter (λ m, dead m = false) (live_maps slots)).
    by rewrite IH.
Qed.

Lemma weak_or_cleared_clear_weak dead slots :
  Forall (λ o, weak_or_cleared o = true) slots →
  Forall (λ o, weak_or_cleared o = true) (clear_weak dead <$> slots).
Proof.
  intros H. apply Forall_fmap. eapply list.Forall_impl; [exact H|].
  intros o Ho. simpl. unfold clear_weak. by destruct (dead_target dead o).
Qed.

Lemma weak_or_cleared_survivors slots :
  Forall (λ o, weak_or_cleared o = true) slots →
  Forall (λ o, weak_or_cleared o = true) (survivors slots).
Proof.
  rewrite !list.Forall_forall. intros H o Ho.
  apply H. unfold survivors in Ho. by apply list_elem_of_filter in Ho as [_ ?].
Qed.

(** The state a call left behind, read through the next accessor. *)
Lemma GetPrototypeTransition_after σ address a w (k : nat) front rest proto :
  cache_storage σ address a w (Smi (Z.of_nat k) :: front ++ rest) →
  k = length front →
  Forall (λ o, weak_or_cleared o = true) front →
  GetPrototypeTransition proto (TransitionsAccessor_new σ)
  = Ok (first_with_prototype proto (live_maps front), TransitionsAccessor_new σ).
Proof.
  intros Hs -> Hall.
  erewrite GetPrototypeTransition_cached;
    [|apply TransitionsAccessor_new_fresh|exact Hs|..].
  - by rewrite take_app_length.
  - rewrite length_app. lia.
  - by rewrite take_app_length.
Qed.

Lemma cache_storage_update σ σ' address a w l l' :
  cache_storage σ address a w l →
  map_raw_transitions σ' = map_raw_transitions σ →
  transition_arrays σ' = transition_arrays σ →
  weak_fixed_arrays σ' = <[w := l']> (weak_fixed_arrays σ) →
  cache_storage σ' address a w l'.
Proof.
  intros (Hm & Ha & Hp & Hl) Hm' Ha' Hw'. unfold cache_storage.
  rewrite Hm', Ha', Hw'. split_and!; try done.
  apply list_lookup_insert_eq. by eapply lookup_lt_Some.
Qed.

Lemma weak_or_cleared_snoc front m :
  Forall (λ o, weak_or_cleared o = true) front →
  Forall (λ o, weak_or_cleared o = true) (front ++ [Weak m]).
Proof. intros H. apply list.Forall_app. split; [done|]. by repeat constructor. Qed.

Lemma live_maps_snoc front m : live_maps (front ++ [Weak m]) = live_maps front ++ [m].
Proof. by rewrite live_maps_app. Qed.

(** X11.  A prototype transition that [PutPrototypeTransition] has put is
    there for [GetPrototypeTransition].  The map caches prototype
    transitions, and fewer than [kMaxCachedPrototypeTransitions] of the
    entries of its cache are alive.  Then the call returns, and the next
    accessor sees the entries that were alive, in their order, and the new
    one after them: for every prototype it answers the first of these maps
    that has it.  The old entries are all there unless the cache had to
    grow, which it does when every slot holds a live entry; it is then
    allocated anew, and the entries that the collector clears at the
    allocation are gone.  On a map without transitions, the new entry is the
    only one. *)
Theorem PutPrototypeTransition_then_Get :
  (∀ σ address a w (n : nat) slots proto target_map,
     caches_prototype_transitions σ → accessor_fresh σ →
     cache_storage σ address a w (Smi (Z.of_nat n) :: slots) →
     (n ≤ length slots)%nat →
     Forall (λ o, weak_or_cleared o = true) (take n slots) →
     Z.of_nat (length (survivors (take n slots))) < kMaxCachedPrototypeTransitions →
     let kept :=
       if bool_decide (survivors (take n slots) = slots)
       then filter (λ m, next_dead σ m = false) (live_maps slots)
       else live_maps (take n slots) in
     ∃ σ',
       PutPrototypeTransition proto target_map σ = Ok (tt, σ')
       ∧ ∀ proto',
           GetPrototypeTransition proto' (TransitionsAccessor_new σ')
           = Ok (first_with_prototype proto' (kept ++ [target_map]),
                 TransitionsAccessor_new σ'))
  ∧ (∀ σ proto target_map,
       caches_prototype_transitions σ → accessor_fresh σ →
       GetEncoding (map_raw_transitions σ) = kUninitialized →
       1 ≤ kMaxCachedPrototypeTransitions →
       ∃ σ',
         PutPrototypeTransition proto target_map σ = Ok (tt, σ')
         ∧ ∀ proto',
             GetPrototypeTransition proto' (TransitionsAccessor_new σ')
             = Ok (first_with_prototype proto' [target_map],
                   TransitionsAccessor_new σ')).
Proof.
  split.
  - intros σ address a w n slots proto target_map Hc Hf Hs Hn Hall Hlive kept.
    destruct (decide (n < length slots)%nat) as [Hroom|Hfull].
    { (* a free slot *)
      destruct (PutPrototypeTransition_room _ _ _ _ _ _ proto target_map Hc Hf Hs Hroom)
        as (σ' & HP & Hw' & Hm' & Ha' & _).
      exists σ'. split; [exact HP|]. intros proto'.
      assert (kept = live_maps (take n slots)) as ->.
      { unfold kept. rewrite bool_decide_eq_false_2; [done|].
        intros Heq. apply (f_equal length) in Heq.
        pose proof (survivors_length (take n slots)).
        rewrite length_take in *. lia. }
      rewrite <-live_maps_snoc.
      eapply (GetPrototypeTransition_after σ' address a w (S n)
                (take n slots ++ [Weak target_map]) (drop (S n) slots)).
      - eapply cache_storage_update; [exact Hs|done..|].
        rewrite Hw'. f_equal. f_equal; [f_equal; lia|].
        rewrite <-app_assoc. simpl. by apply insert_take_drop.
      - rewrite length_app, length_take. simpl. lia.
      - apply weak_or_cleared_snoc, Hall. }
    assert (n = length slots) as Hfull' by lia.
    rewrite take_ge in Hall, Hlive by lia.
    assert (take n slots = slots) as Htake by (by rewrite take_ge by lia).
    destruct (decide (length (survivors slots) < n)%nat) as [Hfree|Hnone].
    { (* compaction frees a slot *)
      destruct (PutPrototypeTransition_compacts _ _ _ _ _ _ proto target_map
                  Hc Hf Hs Hfull' Hall Hfree) as (σ' & HP & Hw' & Hm' & Ha' & _).
      exists σ'. split; [exact HP|]. intros proto'.
      assert (kept = live_maps (survivors slots)) as ->.
      { unfold kept. rewrite Htake, live_maps_survivors.
        rewrite bool_decide_eq_false_2; [done|].
        intros Heq. rewrite Heq in Hfree. lia. }
      rewrite <-live_maps_snoc.
      eapply (GetPrototypeTransition_after σ' address a w
                (S (length (survivors slots)))
                (survivors slots ++ [Weak target_map])
                (replicate (n - length (survivors slots) - 1) StrongUndefined)).
      - eapply cache_storage_update; [exact Hs|done..|].
        rewrite Hw'. f_equal. f_equal; [f_equal; lia|].
        by rewrite <-app_assoc.
      - rewrite length_app. simpl. lia.
      - by apply weak_or_cleared_snoc, weak_or_cleared_survivors. }
    (* the cache grows *)
    pose proof (survivors_length slots) as Hle.
    assert (length (survivors slots) = n) as Hsame by lia.
    destruct (PutPrototypeTransition_grows _ _ _ _ _ _ proto target_map
                Hc Hf Hs Hfull' Hall Hsame ltac:(lia)) as (σ' & a' & HP & Hs' & _).
    exists σ'. split; [exact HP|]. intros proto'.
    assert (kept = live_maps (clear_weak (next_dead σ) <$> slots)) as ->.
    { unfold kept. rewrite Htake, live_maps_clear_weak.
      rewrite bool_decide_eq_true_2; [done|].
      apply survivors_all. lia. }
    rewrite <-live_maps_snoc.
    eapply (GetPrototypeTransition_after σ' address a' _ (S n)
              ((clear_weak (next_dead σ) <$> slots) ++ [Weak target_map])).
    + replace (Smi (Z.of_nat (S n))) with (Smi (Z.of_nat n + 1)) by (f_equal; lia).
      rewrite <-app_assoc. exact Hs'.
    + rewrite length_app, length_fmap. simpl. lia.
    + by apply weak_or_cleared_snoc, weak_or_cleared_clear_weak.
  - intros σ proto target_map Hc Hf He Hmax.
    destruct (PutPrototypeTransition_first _ proto target_map Hc Hf He Hmax)
      as (σ' & address & a & w & HP & Hs' & _).
    exists σ'. split; [exact HP|]. intros proto'.
    by eapply (GetPrototypeTransition_after σ' address a w 1 [Weak target_map]);
      [exact Hs'|..]; [done|repeat constructor].
Qed.

(** ** The migration target *)

(** X12.  The migration target of a deprecated map without transitions:
    [SetMigrationTarget] stores it, the next accessor gets it back from
    [GetMigrationTarget] and counts no transition; and the first call of
    [Insert] on the map returns, takes the place of the migration target,
    which [GetMigrationTarget] no longer answers, and leaves the map with
    the one transition that was inserted.  (Hashes are assumed not to
    collide, the slack policy not to answer a negative slack.) *)
Theorem migration_target_until_Insert σ migration_target :
  hash_injective → slack_not_negative →
  GetEncoding (map_raw_transitions σ) = kUninitialized →
  is_deprecated σ = true →
  prologue_ok (TransitionsAccessor_new σ) →
  ∃ σ1,
    SetMigrationTarget migration_target (TransitionsAccessor_new σ) = Ok (tt, σ1)
    ∧ GetMigrationTarget (TransitionsAccessor_new σ1)
      = Ok (Some migration_target, TransitionsAccessor_new σ1)
    ∧ NumberOfTransitions (TransitionsAccessor_new σ1)
      = Ok (0, TransitionsAccessor_new σ1)
    ∧ ∀ name target flag,
        insert_precondition name target flag →
        ∃ σ2,
          Insert name target flag (TransitionsAccessor_new σ1) = Ok (tt, σ2)
          ∧ transitions_of σ2 = [(name, target)]
          ∧ GetMigrationTarget (TransitionsAccessor_new σ2)
            = Ok (None, TransitionsAccessor_new σ2).
Proof.
  intros hash_inj Hslack He Hdep Hp.
  exists (set_map_raw_transitions (StrongMap migration_target)
            (TransitionsAccessor_new σ)).
  split_and!.
  - unfold SetMigrationTarget, encoding. rewrite bind_gets.
    change (encoding_ (TransitionsAccessor_new σ))
      with (GetEncoding (map_raw_transitions σ)).
    rewrite He. rewrite bool_decide_eq_true_2 by done. cbn [negb].
    rewrite bind_gets. simpl is_deprecated. rewrite Hdep.
    by rewrite (bind_Ok _ _ _ _ _ (DCHECK_true _)).
  - done.
  - done.
  - intros name target flag Hpre.
    set (σ1 := set_map_raw_transitions _ _).
    assert (map_raw_transitions σ1 = StrongMap migration_target) as Hm1 by done.
    assert (storage_invariant (λ _, True) σ1) as Hinv.
    { intros address Hm. by rewrite Hm1 in Hm. }
    assert (prologue_ok (TransitionsAccessor_new σ1)) as Hp1.
    { unfold prologue_ok in *. simpl in *.
      destruct DEBUG; [|done]. simpl in *.
      apply orb_false_iff in Hp as [Hp _]. rewrite Hp. done. }
    destruct (Insert_cases hash_inj Hslack σ1 name target flag Hinv Hpre Hp1)
      as [[(s & Hs & _) _]|[[(address & Ha & _) _]|(σ2 & HI & collected & _ & Ht)]].
    + by rewrite Hm1.
    + by rewrite Hm1 in Hs.
    + by rewrite Hm1 in Ha.
    + exists σ2. split; [exact HI|].
      assert (transitions_of σ1 = []) as Hnone by done.
      rewrite Hnone, filter_nil in Ht.
      apply Permutation_singleton_r in Ht.
      split; [exact Ht|].
      unfold GetMigrationTarget, encoding. rewrite bind_gets.
      change (encoding_ (TransitionsAccessor_new σ2))
        with (GetEncoding (map_raw_transitions σ2)).
      rewrite bool_decide_eq_false_2; [done|].
      intros Henc. unfold transitions_of in Ht.
      by destruct (map_raw_transitions σ2).
Qed.

(** ** The traversal of the transition tree *)

Lemma push_transitions_frame a : ∀ remaining i stack,
  push_transitions a remaining i stack
  = match push_transitions a remaining i [] with
    | Ok new => Ok (new ++ stack)
    | Err e => Err e
    end.
Proof.
  induction remaining as [|remaining IH]; intros i stack; [done|].
  simpl. destruct (GetTarget a i) as [target|e]; simpl; [|done].
  rewrite (IH _ (target :: stack)), (IH _ [target]).
  destruct (push_transitions a remaining (i + 1) []); [|done].
  by rewrite <-app_assoc.
Qed.

Lemma push_prototype_transitions_frame proto_trans : ∀ remaining i stack,
  push_prototype_transitions proto_trans remaining i stack
  = match push_prototype_transitions proto_trans remaining i [] with
    | Ok new => Ok (new ++ stack)
    | Err e => Err e
    end.
Proof.
  induction remaining as [|remaining IH]; intros i stack; [done|].
  simpl. destruct (wfa_Get proto_trans (kProtoTransitionHeaderSize + i))
    as [target|e]; simpl; [|done].
  destruct target as [| |m| | | |]; simpl;
    try (destruct (rDCHECK _); simpl; [apply IH|done]).
  rewrite (IH _ (m :: stack)), (IH _ [m]).
  destruct (push_prototype_transitions proto_trans remaining (i + 1) []); [|done].
  by rewrite <-app_assoc.
Qed.

(** What is pushed for a map does not depend on what is on the stack. *)
Lemma push_children_frame arrays caches raw stack :
  push_children arrays caches raw stack
  = match children arrays caches raw with
    | Ok new => Ok (new ++ stack)
    | Err e => Err e
    end.
Proof.
  unfold children, push_children.
  destruct (GetEncoding raw); try done.
  - by destruct (GetTargetFromRaw raw).
  - destruct raw as [| | | | |address|]; try done.
    destruct (arrays !! address) as [a|]; [|done].
    destruct (HasPrototypeTransitions a).
    + destruct (TransitionArray_GetPrototypeTransitions a) as [cache|]; [|done].
      cbn [rbind].
      destruct (match cache with
                | empty_weak_fixed_array => Ok []
                | WeakFixedArrayAt w =>
                    match caches !! w with
                    | Some l => Ok l
                    | None => Err UndefinedBehaviour
                    end
                end) as [proto_trans|]; [|done].
      cbn [rbind].
      destruct (NumberOfPrototypeTransitions proto_trans) as [length|]; [|done].
      cbn [rbind].
      rewrite push_prototype_transitions_frame.
      destruct (push_prototype_transitions proto_trans (Z.to_nat length) 0 [])
        as [protos|]; [|done].
      cbn [rbind].
      rewrite (push_transitions_frame _ _ _ (protos ++ stack)).
      rewrite (push_transitions_frame _ _ _ protos).
      destruct (push_transitions a _ 0 []); [|done].
      by rewrite app_assoc.
    + cbn [rbind]. apply push_transitions_frame.
Qed.

Section TraversalFacts.

Variable raw_transitions_of : Map → MaybeObject.
Variable arrays : list TransitionArray.
Variable caches : list (list MaybeObject).

(** The loop, on a stack whose top is a map with a tree of height at most
    [depth]: it visits the tree, then goes on with the rest of the stack. *)
Lemma Traverse_loop_preorder depth : ∀ m visited,
  preorder raw_transitions_of arrays caches depth m = Some visited →
  ∀ stack rest fuel,
    Traverse_loop raw_transitions_of arrays caches fuel stack = Some (Ok rest) →
    Traverse_loop raw_transitions_of arrays caches (length visited + fuel) (m :: stack)
    = Some (Ok (visited ++ rest)).
Proof.
  induction depth as [|depth IH]; intros m visited Hpre stack rest fuel Hrest; [done|].
  simpl in Hpre.
  destruct (children arrays caches (raw_transitions_of m)) as [maps|] eqn:Hc; [|done].
  destruct (mapM _ maps) as [sub|] eqn:Hsub; [|done].
  injection Hpre as <-. apply mapM_Some in Hsub.
  cbn [length Nat.add Traverse_loop].
  rewrite push_children_frame, Hc.
  assert (Traverse_loop raw_transitions_of arrays caches
            (length (concat sub) + fuel) (maps ++ stack)
          = Some (Ok (concat sub ++ rest))) as ->; [|done].
  clear Hc. induction Hsub as [|c l maps sub Hl _ IHsub]; [done|].
  simpl. rewrite length_app, <-Nat.add_assoc, <-app_assoc.
  by apply IH.
Qed.

Lemma Traverse_loop_more : ∀ fuel stack r,
  Traverse_loop raw_transitions_of arrays caches fuel stack = Some r →
  ∀ fuel', (fuel ≤ fuel')%nat →
    Traverse_loop raw_transitions_of arrays caches fuel' stack = Some r.
Proof.
  induction fuel as [|fuel IH]; intros [|m stack] r H fuel' Hle;
    try done; try (by destruct fuel').
  destruct fuel' as [|fuel']; [lia|]. simpl in *.
  destruct (push_children arrays caches (raw_transitions_of m) stack)
    as [stack'|]; [|done].
  destruct (Traverse_loop raw_transitions_of arrays caches fuel stack')
    as [r'|] eqn:Hr'; [|done].
  by rewrite (IH _ _ Hr' fuel') by lia.
Qed.

Lemma Traverse_loop_length : ∀ fuel stack called,
  Traverse_loop raw_transitions_of arrays caches fuel stack = Some (Ok called) →
  (length called ≤ fuel)%nat.
Proof.
  induction fuel as [|fuel IH]; intros [|m stack] called H;
    try done; try (injection H as <-; simpl; lia).
  simpl in H.
  destruct (push_children arrays caches (raw_transitions_of m) stack)
    as [stack'|]; [|done].
  destruct (Traverse_loop raw_transitions_of arrays caches fuel stack')
    as [[called'|]|] eqn:Hr'; try done.
  injection H as <-. apply IH in Hr'. simpl. lia.
Qed.

End TraversalFacts.

(** X13.  [TraverseTransitionTreeInternal] is a traversal in pre-order.
    If the transition tree under the map has a bounded height and every
    storage word in it can be read, the callback is called with the map,
    then with the whole tree of the child that was pushed last, then with
    the tree of the one pushed before it, and so on.  The loop makes one
    iteration for each call: it ends within as many iterations as there are
    maps in the tree, and not within fewer. *)
Theorem TraverseTransitionTreeInternal_preorder raw_transitions_of arrays caches
    depth map_ visited :
  preorder raw_transitions_of arrays caches depth map_ = Some visited →
  ∀ fuel,
    TraverseTransitionTreeInternal raw_transitions_of arrays caches fuel map_
    = if bool_decide (length visited ≤ fuel)%nat then Some (Ok visited) else None.
Proof.
  intros Hpre fuel. unfold TraverseTransitionTreeInternal.
  pose proof (Traverse_loop_preorder raw_transitions_of arrays caches depth
                map_ visited Hpre [] [] 0%nat eq_refl) as Hloop.
  rewrite Nat.add_0_r, app_nil_r in Hloop.
  case_bool_decide as Hfuel.
  - by eapply Traverse_loop_more.
  - destruct (Traverse_loop raw_transitions_of arrays caches fuel [map_])
      as [r|] eqn:Hr; [|done].
    pose proof (Traverse_loop_more _ _ _ _ _ _ Hr (length visited) ltac:(lia)) as Hmore.
    rewrite Hloop in Hmore. injection Hmore as <-.
    apply Traverse_loop_length in Hr. lia.
Qed.

Lemma push_transitions_list a es :
  array_holds a es →
  ∀ rest (i : nat) stack, drop i es = rest →
    push_transitions a (length rest) (Z.of_nat i) stack
    = Ok (rev rest.*2 ++ stack).
Proof.
  intros Ha rest.
  induction rest as [|[key target] rest IH]; intros i stack Hdrop; [done|].
  assert (es !! i = Some (key, target)) as He.
  { rewrite <- (take_drop i es) at 1. rewrite Hdrop.
    assert (length (take i es) = i) as Hlen.
    { rewrite length_take. apply (f_equal length) in Hdrop.
      rewrite length_drop in Hdrop. simpl in Hdrop. lia. }
    rewrite lookup_app_r by lia. by rewrite Hlen, Nat.sub_diag. }
  cbn [length push_transitions].
  rewrite (array_holds_GetTarget _ _ _ _ Ha He). cbn [rbind].
  replace (Z.of_nat i + 1) with (Z.of_nat (S i)) by lia.
  rewrite IH.
  - simpl. by rewrite <-app_assoc.
  - apply drop_S in He. rewrite Hdrop in He. by simplify_eq.
Qed.

Lemma push_prototype_transitions_list hd : ∀ todo seen tail stack,
  Forall (λ o, weak_or_cleared o = true) todo →
  push_prototype_transitions (hd :: seen ++ todo ++ tail) (length todo)
    (Z.of_nat (length seen)) stack
  = Ok (rev (live_maps todo) ++ stack).
Proof.
  induction todo as [|o todo IH]; intros seen tail stack Hall; [done|].
  apply list.Forall_cons in Hall as [Ho Hall].
  cbn [length push_prototype_transitions].
  replace (kProtoTransitionHeaderSize + Z.of_nat (length seen))
    with (Z.of_nat (S (length seen))) by (unfold kProtoTransitionHeaderSize; lia).
  rewrite (wfa_Get_nat _ _ o) by (simpl; by apply list_lookup_middle).
  cbn [rbind].
  assert (∀ stack',
    push_prototype_transitions (hd :: seen ++ (o :: todo) ++ tail)
      (length todo) (Z.of_nat (length seen) + 1) stack'
    = Ok (rev (live_maps todo) ++ stack')) as Hnext.
  { intros stack'.
    replace (Z.of_nat (length seen) + 1) with (Z.of_nat (length (seen ++ [o])))
      by (rewrite length_app; simpl; lia).
    replace (seen ++ (o :: todo) ++ tail) with ((seen ++ [o]) ++ todo ++ tail)
      by (by rewrite <-app_assoc).
    by apply IH. }
  destruct o as [| |m| | | |]; try done.
  - cbn [IsCleared]. rewrite rDCHECK_true. cbn [rbind]. apply Hnext.
  - rewrite Hnext. change (live_maps (Weak m :: todo)) with (m :: live_maps todo).
    simpl. by rewrite <-app_assoc.
Qed.

(** X14.  The children of a map, in the order of the visit.  A map without
    transitions, with a migration target or with a prototype info has none;
    a simple transition gives one.  For a transition array, the traversal
    pushes the live entries of the prototype cache, first to last, then the
    targets of the transitions, first to last: so it visits the targets of
    the transitions from the last to the first, and after them the
    prototype transitions from the last to the first, without the cleared
    ones. *)
Theorem children_last_to_first arrays caches :
  (∀ raw, GetEncoding raw ≠ kWeakRef → GetEncoding raw ≠ kFullTransitionArray →
     children arrays caches raw = Ok [])
  ∧ (∀ s, children arrays caches (Weak s) = Ok [s])
  ∧ (∀ address a es,
       arrays !! address = Some a → array_holds a es →
       prototype_transitions a = None →
       children arrays caches (StrongTransitionArray address) = Ok (rev es.*2))
  ∧ (∀ address a es w (n : nat) slots,
       arrays !! address = Some a → array_holds a es →
       prototype_transitions a = Some (WeakFixedArrayAt w) →
       caches !! w = Some (Smi (Z.of_nat n) :: slots) →
       (n ≤ length slots)%nat →
       Forall (λ o, weak_or_cleared o = true) (take n slots) →
       children arrays caches (StrongTransitionArray address)
       = Ok (rev es.*2 ++ rev (live_maps (take n slots)))).
Proof.
  split_and!.
  - intros raw H1 H2. unfold children, push_children.
    by destruct (GetEncoding raw).
  - done.
  - intros address a es Ha Hholds Hp. unfold children, push_children. simpl.
    rewrite Ha. unfold HasPrototypeTransitions. rewrite Hp.
    rewrite bool_decide_eq_false_2 by (by intros [? ?]). cbn [rbind].
    rewrite (array_holds_number _ _ Hholds), Nat2Z.id.
    pose proof (push_transitions_list a es Hholds es 0%nat [] eq_refl) as Hpush.
    change (Z.of_nat 0) with 0 in Hpush.
    by rewrite Hpush, app_nil_r.
  - intros address a es w n slots Ha Hholds Hp Hw Hn Hall.
    unfold children, push_children. simpl.
    rewrite Ha. unfold HasPrototypeTransitions, TransitionArray_GetPrototypeTransitions.
    rewrite Hp. rewrite bool_decide_eq_true_2 by (by eexists). cbn [rbind].
    rewrite Hw. cbn [rbind].
    rewrite NumberOfPrototypeTransitions_header. cbn [rbind].
    rewrite Nat2Z.id.
    pose proof (push_prototype_transitions_list (Smi (Z.of_nat n)) (take n slots)
                  [] (drop n slots) [] Hall) as Hloop.
    rewrite length_take_le in Hloop by done.
    rewrite app_nil_l, take_drop, app_nil_r in Hloop.
    change (Z.of_nat (length (@nil MaybeObject))) with 0 in Hloop.
    rewrite Hloop. cbn [rbind].
    rewrite (array_holds_number _ _ Hholds), Nat2Z.id.
    pose proof (push_transitions_list a es Hholds es 0%nat
                  (rev (live_maps (take n slots))) eq_refl) as Hpush.
    change (Z.of_nat 0) with 0 in Hpush.
    by rewrite Hpush.
Qed.

(** ** The number of transitions *)

(** X15.  [NumberOfTransitions] counts the transitions of the map: in every
    reachable state it returns, without a change of the state, the number
    of transitions that the searches can find.  (Hashes are assumed not to
    collide, the slack policy not to answer a negative slack.) *)
Theorem NumberOfTransitions_counts σ :
  hash_injective → slack_not_negative → reachable σ →
  NumberOfTransitions (TransitionsAccessor_new σ)
  = Ok (Z.of_nat (length (transitions_of σ)), TransitionsAccessor_new σ).
Proof.
  intros hash_inj Hslack Hreach.
  pose proof (reachable_invariant hash_inj Hslack (λ _, True) I I (λ _ _ _, I)
                (λ _ _ _ _, I) σ Hreach) as Hinv.
  unfold NumberOfTransitions, encoding. rewrite bind_gets.
  change (encoding_ (TransitionsAccessor_new σ))
    with (GetEncoding (map_raw_transitions σ)).
  unfold transitions_of.
  destruct (map_raw_transitions σ) as [v| |s| |m|address|] eqn:Hm; try done.
  destruct (Hinv address Hm) as (a & es & Hl & Ha & _).
  rewrite Hl. change (GetEncoding (StrongTransitionArray address))
    with kFullTransitionArray. cbn iota.
  assert (transitions (TransitionsAccessor_new σ)
          = Ok (address, TransitionsAccessor_new σ)) as Ht.
  { unfold transitions. simpl. by rewrite Hm. }
  rewrite (bind_Ok _ _ _ _ _ Ht).
  rewrite (on_array_Ok _ _ _ a (number_of_transitions a)) by done.
  by rewrite (array_transitions_holds _ _ Ha), (array_holds_number _ _ Ha).
Qed.

(** ** The order that [Sort] gives *)

Lemma sorted_transitions_unique es1 es2 :
  hash_injective →
  sorted_transitions es1 → sorted_transitions es2 → es1 ≡ₚ es2 → es1 = es2.
Proof.
  intros hash_inj. apply StronglySorted_unique_strong.
  intros e1 e2 _ _ H12 H21. exfalso.
  apply (tuple_lt_irrefl (transition_tuple e1)).
  by eapply tuple_lt_trans.
Qed.

(** X16.  What [Sort] returns depends on the transitions, not on the order
    in which the array had them.  Two arrays hold the same transitions, with
    different [(name, kind, attributes)], in whatever order: [Sort] returns
    on both, and the two results hold the same list.  On an array that is
    sorted the list is the one it had; so sorting twice is sorting once.
    (Hashes are assumed not to collide.) *)
Theorem Sort_canonical a1 a2 es1 es2 :
  hash_injective →
  array_holds a1 es1 → array_holds a2 es2 →
  no_duplicate_tuples es1 → es1 ≡ₚ es2 →
  ∃ a1' a2' es,
    Sort a1 = Ok a1' ∧ Sort a2 = Ok a2'
    ∧ array_holds a1' es ∧ array_holds a2' es
    ∧ es ≡ₚ es1 ∧ sorted_transitions es
    ∧ (sorted_transitions es1 → es = es1)
    ∧ ∃ a1'', Sort a1' = Ok a1'' ∧ array_holds a1'' es.
Proof.
  intros hash_inj Ha1 Ha2 Hnd Hperm.
  assert (no_duplicate_tuples es2) as Hnd2.
  { unfold no_duplicate_tuples in *. by rewrite <-Hperm. }
  destruct (Sort_sorts hash_inj a1 es1 Ha1 Hnd)
    as (a1' & es1' & HS1 & Hh1 & Hp1 & Hs1 & _).
  destruct (Sort_sorts hash_inj a2 es2 Ha2 Hnd2)
    as (a2' & es2' & HS2 & Hh2 & Hp2 & Hs2 & _).
  assert (es2' = es1') as ->.
  { apply sorted_transitions_unique; [done..|]. by rewrite Hp1, Hp2, Hperm. }
  destruct (Sort_sorts hash_inj a1' es1' Hh1 (sorted_no_duplicate_tuples _ Hs1))
    as (a1'' & es1'' & HS1' & Hh1' & Hp1' & Hs1' & _).
  assert (es1'' = es1') as -> by by apply sorted_transitions_unique.
  exists a1', a2', es1'. split_and!; try done.
  - intros Hsorted. by apply sorted_transitions_unique.
  - by exists a1''.
Qed.

End Transitions.

(** * Examples

    The scenarios of the specification, run on a concrete map: a hash that
    tells all names apart, the constants of transitions.h, and a slack policy
    that keeps a new array within the limit. *)

Definition example_hash (name : Name) : Z :=
  match name with
  | nonextensible_symbol => 0
  | sealed_symbol => 1
  | frozen_symbol => 2
  | elements_transition_symbol => 3
  | strict_function_transition_symbol => 4
  | InternalizedString s => 3 + 2 * Z.pos (encode s)
  | OrdinarySymbol id => 6 + 2 * Z.of_N id
  end.


Definition example_kMaxNumberOfTransitions : Z := 1536.

Definition example_kMaxCachedPrototypeTransitions : Z := 256.

Definition example_slack (old_size size_limit : Z) : Z :=
  Z.min (size_limit - old_size - 1) (Z.max 1 (old_size / 4)).



(** A map without transitions, and no collection due. *)
Definition example_state : State :=
  mkState (Smi 0) false false false [] [] [] [] (Smi 0) kUninitialized false false.

Definition map_x : Map := mkMap 1 (InternalizedString "x") (mkDetails kData NONE) 0.
Definition map_y : Map := mkMap 2 (InternalizedString "y") (mkDetails kData NONE) 0.

Definition example_Insert : Name → Map → SimpleTransitionFlag → M unit :=
  Insert true example_hash example_kMaxNumberOfTransitions example_slack.


(** The state an operation returns in; the state it was called in if it
    does not return. *)
Definition state_after (m : M unit) (σ : State) : State :=
  match m (TransitionsAccessor_new σ) with Ok (_, σ') => σ' | Err _ => σ end.






Lemma insert_precondition_y :
  insert_precondition (InternalizedString "y") map_y SIMPLE_PROPERTY_TRANSITION.
Proof. by split. Qed.


(** ** The scenario of two simple transitions *)

Lemma Insert_two_simple_transitions_witness :
  LastAddedKey map_x = InternalizedString "x"
  ∧ LastAddedKey map_y = InternalizedString "y"
  ∧ encoding_ (TransitionsAccessor_new example_state) = kUninitialized
  ∧ next_dead (TransitionsAccessor_new example_state) map_x = false
  ∧ ∃ σ1 σ2 address a,
      example_Insert (InternalizedString "x") map_x SIMPLE_PROPERTY_TRANSITION
        (TransitionsAccessor_new example_state) = Ok (tt, σ1)
      ∧ example_Insert (InternalizedString "y") map_y SIMPLE_PROPERTY_TRANSITION
          (TransitionsAccessor_new σ1) = Ok (tt, σ2)
      ∧ full_storage σ2 address a
          [(InternalizedString "x", map_x); (InternalizedString "y", map_y)]
      ∧ NumberOfTransitions σ2 = Ok (2, σ2)
      ∧ SearchTransition true example_hash (InternalizedString "y") kData NONE σ2
        = Ok (Some map_y, σ2).
Proof.
  split_and!; [reflexivity..|].
  destruct (Insert_two_simple_transitions true example_hash
              example_kMaxNumberOfTransitions example_slack
              (TransitionsAccessor_new example_state) map_x map_y
              eq_refl eq_refl eq_refl eq_refl eq_refl eq_refl eq_refl eq_refl)
    as (σ1 & σ2 & address & a & es & H1 & _ & _ & H2 & _ & Hs & Hn & _ & _ & _ & Hy
        & Hxy & _).
  rewrite (Hxy ltac:(vm_compute; reflexivity)) in Hs.
  exists σ1, σ2, address, a. split_and!; assumption.
Defined.

(** ** The simple transition that is cleared by the allocation *)

(** The map has the simple transition to [map_x], and the next collection
    finds [map_x] dead. *)
Definition state_x_dying : State :=
  mkState (Weak map_x) false false false [] []
    [λ m, bool_decide (m = map_x)] [] (Weak map_x) kWeakRef false false.

Lemma Insert_after_simple_transition_reloads_witness :
  prologue_ok true state_x_dying
  ∧ insert_precondition (InternalizedString "y") map_y SIMPLE_PROPERTY_TRANSITION
  ∧ transition_tuple (InternalizedString "y", map_y)
    ≠ transition_tuple (simple_entry map_x)
  ∧ next_dead state_x_dying map_x = true
  ∧ ∃ σ' address a,
      example_Insert (InternalizedString "y") map_y SIMPLE_PROPERTY_TRANSITION
        state_x_dying = Ok (tt, σ')
      ∧ full_storage σ' address a [(InternalizedString "y", map_y)].
Proof.
  assert (transition_tuple (InternalizedString "y", map_y)
          ≠ transition_tuple (simple_entry map_x)) as Hne
    by (vm_compute; discriminate).
  split_and!; [reflexivity|exact insert_precondition_y|exact Hne|reflexivity|].
  destruct (Insert_after_simple_transition_reloads true example_hash
              example_kMaxNumberOfTransitions example_slack state_x_dying
              (InternalizedString "y") map_y SIMPLE_PROPERTY_TRANSITION map_x
              eq_refl eq_refl eq_refl eq_refl insert_precondition_y Hne)
    as (σ' & address & a & es & HI & _ & Hs & Hdead & _).
  rewrite (Hdead eq_refl) in Hs.
  exists σ', address, a. split; assumption.
Defined.

(** ** The three integrity levels *)

Definition example_SEALED : PropertyAttributes := 4.
Definition example_FROZEN : PropertyAttributes := 5.

Definition map_frozen : Map := mkMap 11 frozen_symbol PropertyDetails_Empty 0.
Definition map_sealed : Map := mkMap 12 sealed_symbol PropertyDetails_Empty 0.
Definition map_nonextensible : Map :=
  mkMap 13 nonextensible_symbol PropertyDetails_Empty 0.

(** The map of the scenario: the three special transitions inserted, from
    the same origin, to three maps. *)
Definition state_levels : State :=
  Eval vm_compute in
    TransitionsAccessor_new
      (state_after (example_Insert nonextensible_symbol map_nonextensible SPECIAL_TRANSITION)
         (state_after (example_Insert sealed_symbol map_sealed SPECIAL_TRANSITION)
            (state_after (example_Insert frozen_symbol map_frozen SPECIAL_TRANSITION)
               example_state))).

Lemma HasIntegrityLevelTransitionTo_first_match_witness :
  SearchSpecial example_hash frozen_symbol state_levels
  = Ok (Some map_frozen, state_levels)
  ∧ SearchSpecial example_hash sealed_symbol state_levels
    = Ok (Some map_sealed, state_levels)
  ∧ SearchSpecial example_hash nonextensible_symbol state_levels
    = Ok (Some map_nonextensible, state_levels)
  ∧ HasIntegrityLevelTransitionTo example_hash example_SEALED example_FROZEN
      (Some map_frozen) state_levels
    = Ok (Some (frozen_symbol, example_FROZEN), state_levels)
  ∧ HasIntegrityLevelTransitionTo example_hash example_SEALED example_FROZEN
      (Some map_sealed) state_levels
    = Ok (Some (sealed_symbol, example_SEALED), state_levels)
  ∧ HasIntegrityLevelTransitionTo example_hash example_SEALED example_FROZEN
      (Some map_nonextensible) state_levels
    = Ok (Some (nonextensible_symbol, NONE), state_levels)
  ∧ HasIntegrityLevelTransitionTo example_hash example_SEALED example_FROZEN
      (Some map_x) state_levels
    = Ok (None, state_levels).
Proof.
  assert (SearchSpecial example_hash frozen_symbol state_levels
          = Ok (Some map_frozen, state_levels)) as H1 by (vm_compute; reflexivity).
  assert (SearchSpecial example_hash sealed_symbol state_levels
          = Ok (Some map_sealed, state_levels)) as H2 by (vm_compute; reflexivity).
  assert (SearchSpecial example_hash nonextensible_symbol state_levels
          = Ok (Some map_nonextensible, state_levels)) as H3
    by (vm_compute; reflexivity).
  destruct (HasIntegrityLevelTransitionTo_first_match example_hash example_SEALED
              example_FROZEN state_levels _ _ _ H1 H2 H3) as [_ Hthree].
  destruct (Hthree map_frozen map_sealed map_nonextensible eq_refl eq_refl eq_refl
              ltac:(discriminate) ltac:(discriminate) ltac:(discriminate))
    as (Hf & Hs & Hn & Hnone).
  split_and!; [exact H1|exact H2|exact H3|exact Hf|exact Hs|exact Hn|].
  apply Hnone; discriminate.
Defined.

(** ** The same transition twice *)


(** ** The bounds of the capacity *)



(** ** Sorted, without duplicates *)


(** ** The prototype cache *)

(** A map whose cache has [kMaxCachedPrototypeTransitions] slots, all of
    them live. *)
Definition full_cache : list MaybeObject :=
  Smi 256 :: replicate 256 (Weak map_x).

Definition state_full_cache : State :=
  mkState (StrongTransitionArray 0) false false false
    [mkTransitionArray (Some (WeakFixedArrayAt 0)) 0 []] [full_cache] [] []
    (StrongTransitionArray 0) kFullTransitionArray false false.

Lemma PutPrototypeTransition_dropped_witness :
  caches_prototype_transitions true state_full_cache
  ∧ accessor_fresh state_full_cache
  ∧ CompactPrototypeTransitionArray true full_cache = Ok (full_cache, false)
  ∧ PutPrototypeTransition true example_kMaxCachedPrototypeTransitions true 0%N map_y
      state_full_cache
    = Ok (tt, set_trace [LockExclusive; UnlockExclusive] state_full_cache).
Proof.
  assert (CompactPrototypeTransitionArray true full_cache = Ok (full_cache, false))
    as Hcompact by (vm_compute; reflexivity).
  split_and!; [by split|by split|exact Hcompact|].
  apply (PutPrototypeTransition_dropped true example_kMaxCachedPrototypeTransitions
           true state_full_cache 0%nat
           (mkTransitionArray (Some (WeakFixedArrayAt 0)) 0 []) 0%nat 256%nat
           (replicate 256 (Weak map_x)) full_cache 0%N map_y).
  - by split.
  - by split.
  - by split_and!.
  - reflexivity.
  - by apply Forall_replicate.
  - exact Hcompact.
  - reflexivity.
Defined.

(** ** The guard held across the allocations *)

Lemma PutPrototypeTransition_allocates_under_lock_witness :
  caches_prototype_transitions true example_state
  ∧ accessor_fresh example_state
  ∧ 1 ≤ example_kMaxCachedPrototypeTransitions
  ∧ ∃ σ',
      PutPrototypeTransition true example_kMaxCachedPrototypeTransitions true 0%N map_y
        example_state = Ok (tt, σ')
      ∧ trace σ' = [LockExclusive; Allocate; Allocate; UnlockExclusive].
Proof.
  assert (1 ≤ example_kMaxCachedPrototypeTransitions) as Hmax
    by (vm_compute; discriminate).
  split_and!; [by split|by split|exact Hmax|].
  destruct (PutPrototypeTransition_allocates_under_lock true
              example_kMaxCachedPrototypeTransitions true example_state 0%N map_y
              ltac:(by split) ltac:(by split) eq_refl Hmax)
    as (σ' & t & HP & Ht & -> & _).
  exists σ'. split; assumption.
Defined.
